(** * xenium::harris_michael_hash_map — a shallow embedding

    The map of [xenium/harris_michael_hash_map.hpp] is an array of
    [Buckets] bucket heads; every bucket is a Harris–Michael list of
    nodes sorted by key, the low bit of a node's [next] pointer being the
    deletion mark.

    The embedding is a single-threaded one: memory is an explicit store
    (the bucket array and a heap of nodes), every member function is a
    computation in a state-and-failure monad, and a failing computation
    stands for undefined behaviour (a null or out-of-bounds dereference)
    or for exhausted fuel.  [compare_exchange_weak] may fail spuriously;
    the failures are drawn from a list carried in the state, so the retry
    loops of the source are really exercised.  The reclamation scheme is
    the template parameter [Reclaimer]; it is modelled as a list of
    retired nodes whose storage is never reused while the map lives. *)

From stdpp Require Import base option list sorting relations gmap.
From Stdlib Require Import ZArith Lia.

Set Warnings "-clear-no-such-hyp".

Open Scope Z_scope.
Open Scope nat_scope.

(** ** Data model *)

(** [Key], instantiated at a type of integers with the built-in [>=] and
    [==]. *)
Definition Key : Type := Z.

(** [node*]. *)
Definition addr : Type := positive.

(** [concurrent_ptr::marked_ptr]: a node pointer and one mark bit. *)
Record marked_ptr : Type := MarkedPtr { get : option addr; mark : bool }.

Global Instance marked_ptr_eq_dec : EqDecision marked_ptr.
Proof. solve_decision. Defined.

Definition null_ptr : marked_ptr := MarkedPtr None false.

(** [concurrent_ptr::guard_ptr]: the protected pointer it holds. *)
Definition guard_ptr : Type := marked_ptr.

(** [concurrent_ptr*]: the address of a bucket head or of a node's [next]. *)
Inductive concurrent_ptr_ref : Type :=
| BucketHead (i : nat)
| NodeNext (a : addr).

Global Instance concurrent_ptr_ref_eq_dec : EqDecision concurrent_ptr_ref.
Proof. solve_decision. Defined.

Section HashMap.

(** [Value], [std::hash<Key>] and the template parameter [Buckets]. *)
Context {Value : Type}.
Variable hash : Key → nat.
Variable Buckets : nat.

(** [struct node]. *)
Record node : Type := Node { value : Key * Value; next : marked_ptr }.

(** [struct find_info]. *)
Record find_info : Type := FindInfo {
  prev : option concurrent_ptr_ref;
  next_ : marked_ptr;
  cur : guard_ptr;
  save : guard_ptr
}.

(** [find_info info{&buckets[bucket]}]. *)
Definition find_info_at (p : concurrent_ptr_ref) : find_info :=
  FindInfo (Some p) null_ptr null_ptr null_ptr.

Definition set_prev (p : option concurrent_ptr_ref) (i : find_info) : find_info :=
  FindInfo p (next_ i) (cur i) (save i).
Definition set_next (n : marked_ptr) (i : find_info) : find_info :=
  FindInfo (prev i) n (cur i) (save i).
Definition set_cur (c : guard_ptr) (i : find_info) : find_info :=
  FindInfo (prev i) (next_ i) c (save i).
Definition set_save (s : guard_ptr) (i : find_info) : find_info :=
  FindInfo (prev i) (next_ i) (cur i) s.

(** The store.  [buckets] and [heap] are the memory of the map;
    [retired] lists the nodes handed to the reclaimer; [cas_fail] is the
    supply of spurious [compare_exchange_weak] failures ([true] = fail);
    [kernel_calls] and [factory_calls] record the invocations of the
    kernel [find] and of the value factory. *)
Record map_state : Type := MapState {
  buckets : list marked_ptr;
  heap : gmap addr node;
  retired : list addr;
  cas_fail : list bool;
  kernel_calls : list (nat * Key);
  factory_calls : nat
}.

Definition set_buckets (b : list marked_ptr) (st : map_state) : map_state :=
  MapState b (heap st) (retired st) (cas_fail st) (kernel_calls st) (factory_calls st).
Definition set_heap (h : gmap addr node) (st : map_state) : map_state :=
  MapState (buckets st) h (retired st) (cas_fail st) (kernel_calls st) (factory_calls st).
Definition set_retired (r : list addr) (st : map_state) : map_state :=
  MapState (buckets st) (heap st) r (cas_fail st) (kernel_calls st) (factory_calls st).
Definition set_cas_fail (o : list bool) (st : map_state) : map_state :=
  MapState (buckets st) (heap st) (retired st) o (kernel_calls st) (factory_calls st).
Definition set_kernel_calls (l : list (nat * Key)) (st : map_state) : map_state :=
  MapState (buckets st) (heap st) (retired st) (cas_fail st) l (factory_calls st).
Definition set_factory_calls (n : nat) (st : map_state) : map_state :=
  MapState (buckets st) (heap st) (retired st) (cas_fail st) (kernel_calls st) n.

(** [harris_michael_hash_map() = default]: all bucket heads null. *)
Definition empty_map (failures : list bool) : map_state :=
  MapState (replicate Buckets null_ptr) ∅ [] failures [] 0.

(** ** The monad of member functions *)

Definition M (A : Type) : Type := map_state → option (A * map_state).

Definition ret {A} (a : A) : M A := λ st, Some (a, st).
Definition bind {A B} (m : M A) (k : A → M B) : M B :=
  λ st, match m st with
        | Some (a, st') => k a st'
        | None => None
        end.
Definition fail {A} : M A := λ _, None.
Definition gets {A} (f : map_state → A) : M A := λ st, Some (f st, st).
Definition modify (f : map_state → map_state) : M unit := λ st, Some (tt, f st).
Definition lift {A} (o : option A) : M A :=
  λ st, match o with Some a => Some (a, st) | None => None end.

Notation "'let*' x := m 'in' k" := (bind m (λ x, k))
  (at level 10, x name, m at level 100, k at level 200).
Notation "'let*' ' p := m 'in' k" := (bind m (λ x, match x with p => k end))
  (at level 10, p pattern, m at level 100, k at level 200).
Notation "m ;; k" := (bind m (λ _, k))
  (at level 100, right associativity).

(** ** Memory and reclaimer primitives *)

(** [p->load(order)]. *)
Definition load (p : concurrent_ptr_ref) : M marked_ptr :=
  λ st, match p with
        | BucketHead i => v ← buckets st !! i; Some (v, st)
        | NodeNext a => n ← heap st !! a; Some (next n, st)
        end.

(** [p->store(v, order)]. *)
Definition store (p : concurrent_ptr_ref) (v : marked_ptr) : M unit :=
  λ st, match p with
        | BucketHead i =>
            if decide (i < length (buckets st))
            then Some (tt, set_buckets (<[i := v]> (buckets st)) st)
            else None
        | NodeNext a =>
            n ← heap st !! a;
            Some (tt, set_heap (<[a := Node (value n) v]> (heap st)) st)
        end.

(** The next entry of the supply of spurious failures. *)
Definition spurious_failure : M bool :=
  λ st, match cas_fail st with
        | [] => Some (false, st)
        | b :: o => Some (b, set_cas_fail o st)
        end.

(** [p->compare_exchange_weak(expected, desired, success, failure)]:
    the result and the value left in [expected]. *)
Definition compare_exchange_weak (p : concurrent_ptr_ref)
    (expected desired : marked_ptr) : M (bool * marked_ptr) :=
  let* actual := load p in
  if decide (actual = expected) then
    let* spurious := spurious_failure in
    if (spurious : bool) then ret (false, actual)
    else store p desired ;; ret (true, expected)
  else ret (false, actual).

(** [g.acquire(p, order)]: the new value of the guard. *)
Definition acquire (p : concurrent_ptr_ref) : M guard_ptr := load p.

(** [g.acquire_if_equal(p, expected, order)]: the result and the new value
    of the guard, which is reset when the values differ. *)
Definition acquire_if_equal (p : concurrent_ptr_ref) (expected : marked_ptr)
  : M (bool * guard_ptr) :=
  let* actual := load p in
  if decide (actual = expected) then ret (true, expected)
  else ret (false, null_ptr).

(** [g.reclaim()]: retires the node and resets the guard. *)
Definition reclaim (g : guard_ptr) : M guard_ptr :=
  match get g with
  | Some a => modify (λ st, set_retired (retired st ++ [a]) st) ;; ret null_ptr
  | None => ret null_ptr
  end.

(** [g->] and [*g]: the node a guard or pointer designates. *)
Definition deref (g : marked_ptr) : M addr := lift (get g).

Definition read_node (a : addr) : M node := λ st, n ← heap st !! a; Some (n, st).

(** [a->value.first]. *)
Definition node_key (a : addr) : M Key := let* n := read_node a in ret (fst (value n)).

(** [new node(args...)]; the fresh node's [next] is null. *)
Definition new_node (v : Key * Value) : M addr :=
  λ st, let a := fresh (dom (heap st)) in
        Some (a, set_heap (<[a := Node v null_ptr]> (heap st)) st).

(** [delete n]. *)
Definition delete_node (a : addr) : M unit :=
  modify (λ st, set_heap (delete a (heap st)) st).

(** [backoff()], a pause. *)
Definition backoff : M unit := ret tt.

(** [*p] for the [concurrent_ptr*] held in [info.prev]. *)
Definition prev_ref (i : find_info) : M concurrent_ptr_ref := lift (prev i).

(** ** The ordered-list kernel *)

Definition log_kernel_call (bucket : nat) (key : Key) : M unit :=
  modify (λ st, set_kernel_calls (kernel_calls st ++ [(bucket, key)]) st).

(** The body of the kernel from the label [retry] ([find_retry]) and from
    the top of the [for (;;)] loop ([find_loop]); [start] and
    [start_guard] are the locals of the same names. *)
Fixpoint find_retry (fuel : nat) (key : Key) (head : concurrent_ptr_ref)
    (start : option concurrent_ptr_ref) (start_guard : guard_ptr)
    (info : find_info) {struct fuel} : M (bool * find_info) :=
  match fuel with
  | 0 => fail
  | S fuel =>
      let info := set_save start_guard (set_prev start info) in
      let* p := prev_ref info in
      let* nxt := load p in
      let info := set_next nxt info in
      if mark nxt then
        (* our start node is marked for removal: restart from head *)
        find_retry fuel key head (Some head) null_ptr info
      else find_loop fuel key head start start_guard info
  end
with find_loop (fuel : nat) (key : Key) (head : concurrent_ptr_ref)
    (start : option concurrent_ptr_ref) (start_guard : guard_ptr)
    (info : find_info) {struct fuel} : M (bool * find_info) :=
  match fuel with
  | 0 => fail
  | S fuel =>
      let* p := prev_ref info in
      let* '(ok, g) := acquire_if_equal p (next_ info) in
      let info := set_cur g info in
      if negb ok then find_retry fuel key head start start_guard info
      else
        match get (cur info) with
        | None => ret (false, info)
        | Some c =>
            let* nxt := load (NodeNext c) in
            let info := set_next nxt info in
            if mark nxt then
              (* *cur is marked for deletion: splice it out and retire it *)
              let* nxt := load (NodeNext c) in
              let info := set_next (MarkedPtr (get nxt) false) info in
              let expected := MarkedPtr (get (cur info)) false in
              let* '(ok, _) := compare_exchange_weak p expected (next_ info) in
              if negb ok then
                backoff ;; find_retry fuel key head start start_guard info
              else
                let* g := reclaim (cur info) in
                find_loop fuel key head start start_guard (set_cur g info)
            else
              let* actual := load p in
              if negb (bool_decide (actual = MarkedPtr (get (cur info)) false)) then
                find_retry fuel key head start start_guard info
              else
                let* ckey := node_key c in
                if (ckey >=? key)%Z then ret ((ckey =? key)%Z, info)
                else
                  let info := set_prev (Some (NodeNext c)) info in
                  (* std::swap(info.save, info.cur) *)
                  let info := set_cur (save info) (set_save (cur info) info) in
                  find_loop fuel key head start start_guard info
        end
  end.

(** [bool find(const Key& key, std::size_t bucket, find_info& info, Backoff&)]. *)
Definition find_kernel (fuel : nat) (key : Key) (bucket : nat) (info : find_info)
  : M (bool * find_info) :=
  log_kernel_call bucket key ;;
  find_retry fuel key (BucketHead bucket) (prev info) (save info) info.

(** ** The iterator *)

(** [class iterator]; the [map] member is the one map of the store. *)
Record iterator : Type := Iterator { bucket : nat; info : find_info }.

(** [SIZE_MAX] and the [std::size_t] value of [n - 1]. *)
Definition size_max : N := (2 ^ 64 - 1)%N.
Definition size_pred (n : nat) : N :=
  match n with
  | 0 => size_max
  | S m => N.of_nat m
  end.

(** [!g] for a guard. *)
Definition is_null (g : marked_ptr) : bool :=
  match get g with
  | Some _ => false
  | None => true
  end.

(** The [while] loop of [move_to_next_bucket]; it increments [bucket]
    below [Buckets - 1], so [n = Buckets] iterations are never used up. *)
Fixpoint move_loop (n : nat) (it : iterator) : M iterator :=
  if is_null (cur (info it)) && (N.of_nat (bucket it) <? size_pred Buckets)%N then
    match n with
    | 0 => fail
    | S n =>
        let bucket := S (bucket it) in
        let info := set_prev (Some (BucketHead bucket)) (info it) in
        let* g := acquire (BucketHead bucket) in
        move_loop n (Iterator bucket (set_cur g info))
    end
  else ret it.

(** [void iterator::move_to_next_bucket()]. *)
Definition move_to_next_bucket (it : iterator) : M iterator :=
  move_loop Buckets (Iterator (bucket it) (set_save null_ptr (info it))).

(** [iterator(map)]; the uninitialised [info.prev] is taken to be null. *)
Definition iterator_end : iterator :=
  Iterator Buckets (FindInfo None null_ptr null_ptr null_ptr).

(** [iterator(map, bucket)]. *)
Definition iterator_at (bucket : nat) : M iterator :=
  let info := find_info_at (BucketHead bucket) in
  let* g := acquire (BucketHead bucket) in
  let info := set_cur g info in
  if is_null (cur info) then move_to_next_bucket (Iterator bucket info)
  else ret (Iterator bucket info).

(** [iterator& operator++()]. *)
Definition iterator_incr (fuel : nat) (it : iterator) : M iterator :=
  let* c := deref (cur (info it)) in
  let* nxt := load (NodeNext c) in
  let* '(ok, tmp_guard) :=
    (if mark nxt then ret (false, null_ptr)
     else acquire_if_equal (NodeNext c) nxt) in
  let* info :=
    (if (ok : bool) then
       ret (set_cur tmp_guard
              (set_save (cur (info it)) (set_prev (Some (NodeNext c)) (info it))))
     else
       (* cur is marked for removal: use find to remove it and get to the
          next node with a key >= cur->key *)
       let* key := node_key c in
       let* '(_, info) := find_kernel fuel key (bucket it) (info it) in
       ret info) in
  if is_null (cur info) then move_to_next_bucket (Iterator (bucket it) info)
  else ret (Iterator (bucket it) info).

(** [bool operator==(const iterator&) const]. *)
Definition iterator_eq (a b : iterator) : bool :=
  bool_decide (get (cur (info a)) = get (cur (info b))).

(** [void iterator::reset()]. *)
Definition iterator_reset (it : iterator) : iterator :=
  Iterator Buckets (set_save null_ptr (set_cur null_ptr (set_prev None (info it)))).

(** [reference = value_type&] with [value_type = std::pair<const Key, Value>]:
    an lvalue designating the [value] member of a node.  [first] is
    [const]; [second] can be read and assigned. *)
Definition reference : Type := addr.

(** [reference operator*() const] (and [operator->]). *)
Definition iterator_deref (it : iterator) : M reference := deref (cur (info it)).

(** [r.first], [r.second] and [r.second = v]. *)
Definition ref_first (r : reference) : M Key :=
  let* n := read_node r in ret (fst (value n)).
Definition ref_second (r : reference) : M Value :=
  let* n := read_node r in ret (snd (value n)).
Definition ref_assign_second (r : reference) (v : Value) : M unit :=
  let* n := read_node r in
  modify (λ st, set_heap (<[r := Node (fst (value n), v) (next n)]> (heap st)) st).

(** ** Map operations *)

(** [iterator begin()] and [iterator end()]. *)
Definition begin : M iterator := iterator_at 0.
Definition end_ : M iterator := ret iterator_end.

(** [bool contains(const Key& key)]. *)
Definition contains (fuel : nat) (key : Key) : M bool :=
  let bucket := hash key mod Buckets in
  let info := find_info_at (BucketHead bucket) in
  let* '(found, _) := find_kernel fuel key bucket info in
  ret found.

(** [iterator find(const Key& key)]. *)
Definition find (fuel : nat) (key : Key) : M iterator :=
  let bucket := hash key mod Buckets in
  let info := find_info_at (BucketHead bucket) in
  let* '(found, info) := find_kernel fuel key bucket info in
  if (found : bool) then ret (Iterator bucket info) else end_.

(** The statements under the comment [Try to install new node], the same
    in the three insertion functions: the result of the linking
    [compare_exchange_weak] and the cursor. *)
Definition try_install (n : addr) (info : find_info) : M (bool * find_info) :=
  let cur_ := MarkedPtr (get (cur info)) false in
  let info := set_cur (MarkedPtr (Some n) false) info in
  store (NodeNext n) cur_ ;;
  let* p := prev_ref info in
  let* '(ok, _) := compare_exchange_weak p cur_ (MarkedPtr (Some n) false) in
  ret (ok, info).

(** The [for (;;)] loop of [emplace_or_get]. *)
Fixpoint emplace_or_get_loop (kfuel fuel : nat) (n : addr) (bucket : nat)
    (info : find_info) : M (iterator * bool) :=
  match fuel with
  | 0 => fail
  | S fuel =>
      let* key := node_key n in
      let* '(found, info) := find_kernel kfuel key bucket info in
      if (found : bool) then
        delete_node n ;; ret (Iterator bucket info, false)
      else
        let* '(ok, info) := try_install n info in
        if (ok : bool) then ret (Iterator bucket info, true)
        else backoff ;; emplace_or_get_loop kfuel fuel n bucket info
  end.

(** [std::pair<iterator, bool> emplace_or_get(Args&&... args)]; the
    arguments are those of the [value_type] constructor. *)
Definition emplace_or_get (fuel : nat) (args : Key * Value) : M (iterator * bool) :=
  let* n := new_node args in
  let* key := node_key n in
  let bucket := hash key mod Buckets in
  let info := find_info_at (BucketHead bucket) in
  emplace_or_get_loop fuel fuel n bucket info.

(** [bool emplace(Args&&... args)]. *)
Definition emplace (fuel : nat) (args : Key * Value) : M bool :=
  let* result := emplace_or_get fuel args in
  ret (snd result).

(** [delete n] for a possibly null [n]. *)
Definition delete_opt (n : option addr) : M unit :=
  match n with
  | Some a => delete_node a
  | None => ret tt
  end.

(** [*pkey]: the caller's key, or the key inside the node once it exists. *)
Definition read_pkey (key : Key) (n : option addr) : M Key :=
  match n with
  | Some a => node_key a
  | None => ret key
  end.

(** The [for (;;)] loop of [get_or_emplace]. *)
Fixpoint get_or_emplace_loop (kfuel fuel : nat) (key : Key) (args : Value)
    (bucket : nat) (n : option addr) (info : find_info) : M (iterator * bool) :=
  match fuel with
  | 0 => fail
  | S fuel =>
      let* k := read_pkey key n in
      let* '(found, info) := find_kernel kfuel k bucket info in
      if (found : bool) then
        delete_opt n ;; ret (Iterator bucket info, false)
      else
        let* a := match n with
                  | None => new_node (key, args)
                  | Some a => ret a
                  end in
        let* '(ok, info) := try_install a info in
        if (ok : bool) then ret (Iterator bucket info, true)
        else backoff ;; get_or_emplace_loop kfuel fuel key args bucket (Some a) info
  end.

(** [std::pair<iterator, bool> get_or_emplace(Key key, Args&&... args)]. *)
Definition get_or_emplace (fuel : nat) (key : Key) (args : Value)
  : M (iterator * bool) :=
  let bucket := hash key mod Buckets in
  let info := find_info_at (BucketHead bucket) in
  get_or_emplace_loop fuel fuel key args bucket None info.

(** The common shape of the loops of [get_or_emplace] and
    [get_or_emplace_lazy], which differ in how the node is constructed
    ([make]); the loop of [emplace_or_get] is the same with the node
    constructed beforehand. *)
Fixpoint insert_loop (kfuel fuel : nat) (key : Key) (make : M addr)
    (bucket : nat) (n : option addr) (info : find_info) : M (iterator * bool) :=
  match fuel with
  | 0 => fail
  | S fuel =>
      let* k := read_pkey key n in
      let* '(found, info) := find_kernel kfuel k bucket info in
      if (found : bool) then
        delete_opt n ;; ret (Iterator bucket info, false)
      else
        let* a := match n with
                  | None => make
                  | Some a => ret a
                  end in
        let* '(ok, info) := try_install a info in
        if (ok : bool) then ret (Iterator bucket info, true)
        else backoff ;; insert_loop kfuel fuel key make bucket (Some a) info
  end.

(** [value_factory()]. *)
Definition call_factory (value_factory : unit → Value) : M Value :=
  modify (λ st, set_factory_calls (S (factory_calls st)) st) ;;
  ret (value_factory tt).

(** The [for (;;)] loop of [get_or_emplace_lazy]. *)
Fixpoint get_or_emplace_lazy_loop (kfuel fuel : nat) (key : Key)
    (value_factory : unit → Value) (bucket : nat) (n : option addr)
    (info : find_info) : M (iterator * bool) :=
  match fuel with
  | 0 => fail
  | S fuel =>
      let* k := read_pkey key n in
      let* '(found, info) := find_kernel kfuel k bucket info in
      if (found : bool) then
        delete_opt n ;; ret (Iterator bucket info, false)
      else
        let* a := match n with
                  | None => let* v := call_factory value_factory in new_node (key, v)
                  | Some a => ret a
                  end in
        let* '(ok, info) := try_install a info in
        if (ok : bool) then ret (Iterator bucket info, true)
        else
          backoff ;;
          get_or_emplace_lazy_loop kfuel fuel key value_factory bucket (Some a) info
  end.

(** [std::pair<iterator, bool> get_or_emplace_lazy(Key key, Factory factory)]. *)
Definition get_or_emplace_lazy (fuel : nat) (key : Key)
    (value_factory : unit → Value) : M (iterator * bool) :=
  let bucket := hash key mod Buckets in
  let info := find_info_at (BucketHead bucket) in
  get_or_emplace_lazy_loop fuel fuel key value_factory bucket None info.

(** The [do ... while] loop of [erase(const Key&)]: [None] when [find]
    reports that there is no such node, the cursor once the node is
    marked. *)
Fixpoint erase_mark_loop (kfuel fuel : nat) (key : Key) (bucket : nat)
    (info : find_info) : M (option find_info) :=
  match fuel with
  | 0 => fail
  | S fuel =>
      let* '(found, info) := find_kernel kfuel key bucket info in
      if negb found then ret None
      else
        let* c := deref (cur info) in
        let* '(ok, nxt) :=
          compare_exchange_weak (NodeNext c) (next_ info)
            (MarkedPtr (get (next_ info)) true) in
        let info := set_next nxt info in
        if (ok : bool) then ret (Some info)
        else erase_mark_loop kfuel fuel key bucket info
  end.

(** [bool erase(const Key& key)]. *)
Definition erase (fuel : nat) (key : Key) : M bool :=
  let bucket := hash key mod Buckets in
  let info := find_info_at (BucketHead bucket) in
  let* r := erase_mark_loop fuel fuel key bucket info in
  match r with
  | None => ret false
  | Some info =>
      (* Try to splice out node *)
      let expected := cur info in
      let* p := prev_ref info in
      let* '(ok, _) :=
        compare_exchange_weak p expected (MarkedPtr (get (next_ info)) false) in
      (if (ok : bool) then
         let* _ := reclaim (cur info) in ret tt
       else
         (* Another thread interfered: rewalk the bucket's list *)
         let* _ := find_kernel fuel key bucket info in ret tt) ;;
      ret true
  end.

(** The [while (next.mark() == 0)] loop of [erase(iterator)]: the value
    of [next] when the loop is left. *)
Fixpoint erase_pos_mark_loop (fuel : nat) (c : addr) (nxt : marked_ptr)
  : M marked_ptr :=
  if mark nxt then ret nxt
  else
    match fuel with
    | 0 => fail
    | S fuel =>
        let* '(ok, nxt) :=
          compare_exchange_weak (NodeNext c) nxt (MarkedPtr (get nxt) true) in
        if (ok : bool) then ret nxt
        else backoff ;; erase_pos_mark_loop fuel c nxt
    end.

(** [iterator erase(iterator pos)]. *)
Definition erase_pos (fuel : nat) (pos : iterator) : M iterator :=
  let* c := deref (cur (info pos)) in
  let* nxt := load (NodeNext c) in
  let* nxt := erase_pos_mark_loop fuel c nxt in
  let next_guard := MarkedPtr (get nxt) false in
  (* Try to splice out node *)
  let expected := cur (info pos) in
  let* p := prev_ref (info pos) in
  let* '(ok, _) := compare_exchange_weak p expected next_guard in
  let* info :=
    (if (ok : bool) then
       let* _ := reclaim (cur (info pos)) in
       ret (set_cur next_guard (info pos))
     else
       let* key := node_key c in
       (* Another thread interfered: rewalk the list *)
       let* '(_, info) := find_kernel fuel key (bucket pos) (info pos) in
       ret info) in
  if is_null (cur info) then move_to_next_bucket (Iterator (bucket pos) info)
  else ret (Iterator (bucket pos) info).

(** ** Lists in the heap *)

(** Whether the node at [a] is logically deleted, and its key. *)
Definition node_marked (h : gmap addr node) (a : addr) : bool :=
  match h !! a with
  | Some n => mark (next n)
  | None => false
  end.

Definition key_at (h : gmap addr node) (a : addr) : Key :=
  match h !! a with
  | Some n => fst (value n)
  | None => 0%Z
  end.

(** [lseg h p l q]: following [next] from the pointer [p] visits exactly
    the nodes [l] and arrives at the pointer [q]. *)
Fixpoint lseg (h : gmap addr node) (p : option addr) (l : list addr)
    (q : option addr) : Prop :=
  match l with
  | [] => p = q
  | a :: l' => p = Some a ∧ ∃ n, h !! a = Some n ∧ lseg h (get (next n)) l' q
  end.

(** The nodes reachable from the head of bucket [b], in order. *)
Definition bucket_list (st : map_state) (b : nat) (l : list addr) : Prop :=
  ∃ hd, buckets st !! b = Some hd ∧ mark hd = false ∧
        lseg (heap st) (get hd) l None.

(** The same by a bounded walk, for concrete stores. *)
Fixpoint walk (n : nat) (h : gmap addr node) (p : option addr)
  : option (list addr) :=
  match p with
  | None => Some []
  | Some a =>
      match n with
      | 0 => None
      | S n => nd ← h !! a; l ← walk n h (get (next nd)); Some (a :: l)
      end
  end.

Definition bucket_nodes (st : map_state) (b : nat) : option (list addr) :=
  hd ← buckets st !! b;
  if mark hd then None else walk (S (size (heap st))) (heap st) (get hd).

(** The pointer that links the node following the nodes [pre] of bucket
    [b], and the node that owns this pointer. *)
Definition link_after (b : nat) (pre : list addr) : concurrent_ptr_ref :=
  match last pre with
  | Some s => NodeNext s
  | None => BucketHead b
  end.

(** What no operation changes in an allocated node: its value and its
    mark once set, and the whole node once it is marked. *)
Definition node_frame (n n' : node) : Prop :=
  value n' = value n ∧ mark (next n') = mark (next n) ∧
  (mark (next n) = true → n' = n).

Definition same_nodes (h h' : gmap addr node) : Prop :=
  ∀ a, option_Forall2 node_frame (h !! a) (h' !! a).

(** Keys strictly increase along [l]. *)
Definition key_lt (h : gmap addr node) (a a' : addr) : Prop :=
  (key_at h a < key_at h a')%Z.

Definition sorted_keys (h : gmap addr node) (l : list addr) : Prop :=
  StronglySorted (key_lt h) l.

(** ** Helping *)

(** One step of helping in bucket [b]: an attempt to splice the marked
    node [a] out of the list, which fails spuriously or unlinks and
    retires [a]. *)
Inductive help_step (b : nat) (st st' : map_state) : Prop :=
| help_fail pre a post o :
    bucket_list st b (pre ++ a :: post) →
    node_marked (heap st) a = true →
    cas_fail st = true :: o →
    st' = set_cas_fail o st →
    help_step b st st'
| help_unlink pre a post st1 :
    bucket_list st b (pre ++ a :: post) →
    node_marked (heap st) a = true →
    (∀ s, last pre = Some s → node_marked (heap st) s = false) →
    store (link_after b pre) (MarkedPtr (head post) false)
      (set_cas_fail (tail (cas_fail st)) st) = Some (tt, st1) →
    head (cas_fail st) ≠ Some true →
    st' = set_retired (retired st1 ++ [a]) st1 →
    help_step b st st'.

(** ** Invariants *)

(** The structural invariant, which holds whenever no thread is between
    two statements of an insertion; [priv] is the node an insertion has
    allocated and not yet published. *)
Record map_wf (priv : option addr) (st : map_state) : Prop := MapWf {
  wf_pos : 0 < Buckets;
  wf_length : length (buckets st) = Buckets;
  wf_lists : ∀ b, b < Buckets → ∃ l, bucket_list st b l;
  wf_sorted : ∀ b l, bucket_list st b l → sorted_keys (heap st) l;
  wf_hash : ∀ b l a, bucket_list st b l → a ∈ l →
            hash (key_at (heap st) a) mod Buckets = b;
  wf_linked : ∀ a, is_Some (heap st !! a) → node_marked (heap st) a = false →
              priv = Some a ∨ ∃ b l, bucket_list st b l ∧ a ∈ l;
  wf_priv : ∀ a b l, priv = Some a → bucket_list st b l → a ∉ l
}.

(** The invariant between operations: moreover no node of a list is
    marked. *)
Record map_inv (st : map_state) : Prop := MapInv {
  inv_wf : map_wf None st;
  inv_quiet : ∀ b l a, bucket_list st b l → a ∈ l → node_marked (heap st) a = false
}.

(** No list holds a marked node. *)
Definition quiet (st : map_state) : Prop :=
  ∀ b l a, bucket_list st b l → a ∈ l → node_marked (heap st) a = false.

(** The live keys of the map: the keys of the nodes of the lists. *)
Definition live (st : map_state) (a : addr) : Prop :=
  ∃ b l, bucket_list st b l ∧ a ∈ l.

Definition has_key (st : map_state) (key : Key) : Prop :=
  ∃ a, live st a ∧ key_at (heap st) a = key.

(** The conditions under which a cursor may be handed to the kernel for
    bucket [b]: the assertion at its entry, the node of [info.save]
    being allocated and, unless marked, in the list. *)
Definition valid_start (st : map_state) (b : nat) (l : list addr)
    (start : option concurrent_ptr_ref) (start_guard : guard_ptr) : Prop :=
  (start = Some (BucketHead b) ∧ get start_guard = None) ∨
  (∃ s, start = Some (NodeNext s) ∧ get start_guard = Some s ∧
        is_Some (heap st !! s) ∧
        (node_marked (heap st) s = false → s ∈ l)).

(** Where the kernel leaves the cursor: the list of the bucket is
    [pre0 ++ walked ++ rest], the walk began behind [pre0], passed the
    unmarked nodes [walked] of smaller keys and stopped at [rest]. *)
Definition cursor_at (st : map_state) (b : nat) (key : Key)
    (start : option concurrent_ptr_ref) (r : bool) (i : find_info) : Prop :=
  ∃ pre0 walked rest,
    bucket_list st b (pre0 ++ walked ++ rest) ∧
    (pre0 = [] ∨ ∃ s, start = Some (NodeNext s) ∧ last pre0 = Some s) ∧
    (∀ a, a ∈ walked →
          node_marked (heap st) a = false ∧ (key_at (heap st) a < key)%Z) ∧
    (∀ s, last (pre0 ++ walked) = Some s → node_marked (heap st) s = false) ∧
    prev i = Some (link_after b (pre0 ++ walked)) ∧
    get (save i) = last (pre0 ++ walked) ∧
    cur i = MarkedPtr (head rest) false ∧
    match rest with
    | [] => r = false ∧ next_ i = null_ptr
    | c :: rest' =>
        node_marked (heap st) c = false ∧
        (key ≤ key_at (heap st) c)%Z ∧
        r = (key_at (heap st) c =? key)%Z ∧
        next_ i = MarkedPtr (head rest') false
    end.

(** The cursor [i] and the result [r] of a search for [key] in the sorted
    list [l] of bucket [b]: [l] splits into the nodes of smaller keys and
    the rest, and the cursor stands between them. *)
Definition at_position (st : map_state) (b : nat) (key : Key) (l : list addr)
    (r : bool) (i : find_info) : Prop :=
  ∃ pre rest,
    l = pre ++ rest ∧
    (∀ a, a ∈ pre → (key_at (heap st) a < key)%Z) ∧
    (∀ a, a ∈ rest → (key ≤ key_at (heap st) a)%Z) ∧
    prev i = Some (link_after b pre) ∧
    get (save i) = last pre ∧
    cur i = MarkedPtr (head rest) false ∧
    next_ i = MarkedPtr (head (tail rest)) false ∧
    r = match rest with
        | c :: _ => (key_at (heap st) c =? key)%Z
        | [] => false
        end.

(** The number of [compare_exchange_weak] that fail before one succeeds,
    and the failures left after that one. *)
Fixpoint spurious_prefix (o : list bool) : nat :=
  match o with
  | true :: o => S (spurious_prefix o)
  | _ => 0
  end.

Definition after_cas (o : list bool) : list bool :=
  tail (drop (spurious_prefix o) o).

(** [make] constructs a node of key [key]: it allocates [a] with a null
    [next] and leaves lists, failures and the kernel log alone. *)
Definition allocates (key : Key) (st : map_state) (a : addr)
    (st' : map_state) : Prop :=
  heap st !! a = None ∧
  buckets st' = buckets st ∧ retired st' = retired st ∧
  cas_fail st' = cas_fail st ∧ kernel_calls st' = kernel_calls st ∧
  ∃ v, heap st' = <[a := Node (key, v) null_ptr]> (heap st).

(** The store once a call of the kernel is recorded. *)
Definition log_call (b : nat) (key : Key) (st : map_state) : map_state :=
  set_kernel_calls (kernel_calls st ++ [(b, key)]) st.

(** What the kernel guarantees for bucket [b]: it only helps, and leaves
    the cursor at the first node whose key is not below [key]. *)
Definition kernel_post (b : nat) (key : Key) (start : option concurrent_ptr_ref)
    (st : map_state) (res : (bool * find_info) * map_state) : Prop :=
  rtc (help_step b) st (snd res) ∧
  cursor_at (snd res) b key start (fst (fst res)) (snd (fst res)).

(** The state of an insertion of [key] at the top of its loop: [n] is
    the node if already constructed, private to the insertion; the cursor
    is at the head or behind a node of smaller key. *)
Definition insert_ready (key : Key) (st : map_state) (n : option addr)
    (i : find_info) : Prop :=
  let b := hash key mod Buckets in
  map_wf n st ∧ quiet st ∧
  (∀ a, n = Some a →
        ∃ nd, heap st !! a = Some nd ∧ fst (value nd) = key ∧
              mark (next nd) = false) ∧
  ∃ l, bucket_list st b l ∧
       ((prev i = Some (BucketHead b) ∧ get (save i) = None) ∨
        ∃ s, prev i = Some (NodeNext s) ∧ get (save i) = Some s ∧ s ∈ l ∧
             (key_at (heap st) s < key)%Z).

(** What one turn of the loop of an insertion of [key] does to the logs
    when it goes on to construct or install the node [a]. *)
Definition insert_logs (key : Key) (make : M addr) (n : option addr)
    (a : addr) (st st' : map_state) : Prop :=
  let b := hash key mod Buckets in
  retired st' = retired st ∧
  (n ≠ None → factory_calls st' = factory_calls st) ∧
  (n = None → ∃ st_a, make (log_call b key st) = Some (a, st_a) ∧
                      factory_calls st' = factory_calls st_a).

(** What every operation leaves alone in an allocated node: its value,
    and the whole node once it is marked. *)
Definition node_kept (n n' : node) : Prop :=
  value n' = value n ∧ (mark (next n) = true → n' = n).

(** Every node of [st] but [n] is still allocated in [st'], with its
    value. *)
Definition kept (n : option addr) (st st' : map_state) : Prop :=
  ∀ x nd, heap st !! x = Some nd → n ≠ Some x →
          ∃ nd', heap st' !! x = Some nd' ∧ node_kept nd nd'.

(** An iterator that may be advanced or erased: it holds an allocated
    node of its bucket, and its cursor satisfies the assertion at the
    entry of the kernel, behind a node of smaller key of the bucket. *)
Definition valid_iter (st : map_state) (it : iterator) : Prop :=
  ∃ c, cur (info it) = MarkedPtr (Some c) false ∧
       is_Some (heap st !! c) ∧
       bucket it = hash (key_at (heap st) c) mod Buckets ∧
       ((prev (info it) = Some (BucketHead (bucket it)) ∧
         get (save (info it)) = None) ∨
        ∃ s, prev (info it) = Some (NodeNext s) ∧
             get (save (info it)) = Some s ∧
             is_Some (heap st !! s) ∧
             hash (key_at (heap st) s) mod Buckets = bucket it ∧
             (key_at (heap st) s < key_at (heap st) c)%Z).

(** An iterator as the operations hand it out: valid, or past the last
    element, with a null guard and a bucket index of at most [Buckets]. *)
Definition iter_ok (st : map_state) (it : iterator) : Prop :=
  valid_iter st it ∨
  (get (cur (info it)) = None ∧ bucket it ≤ Buckets).

(** The outcome of [operator++] at a valid iterator: the map is as it
    was. *)
Definition incr_outcome (st : map_state) (it : iterator)
    (res : iterator * map_state) : Prop :=
  let it' := fst res in
  let st' := snd res in
  buckets st' = buckets st ∧ heap st' = heap st ∧
  cas_fail st' = cas_fail st ∧ retired st' = retired st ∧
  factory_calls st' = factory_calls st ∧
  iter_ok st' it' ∧ bucket it ≤ bucket it'.

(** The outcome of [erase(iterator)] at a valid iterator: the node of
    the iterator is no longer live. *)
Definition erase_pos_outcome (st : map_state) (pos : iterator)
    (res : iterator * map_state) : Prop :=
  let it' := fst res in
  let st' := snd res in
  ∃ c, get (cur (info pos)) = Some c ∧
       map_inv st' ∧ kept None st st' ∧
       iter_ok st' it' ∧ bucket pos ≤ bucket it' ∧
       (∀ x, live st' x ↔ live st x ∧ x ≠ c) ∧
       (∀ k, has_key st' k ↔
             has_key st k ∧ (live st c → k ≠ key_at (heap st) c)) ∧
       factory_calls st' = factory_calls st.

(** The outcome of an insertion of [key] between operations. *)
Definition insert_outcome (key : Key) (st : map_state)
    (res : (iterator * bool) * map_state) : Prop :=
  let b := hash key mod Buckets in
  let it := fst (fst res) in
  let ok := snd (fst res) in
  let st' := snd res in
  map_inv st' ∧
  (ok = true ↔ ¬ has_key st key) ∧
  (∀ k, has_key st' k ↔ has_key st k ∨ k = key) ∧
  (∀ x, live st x → live st' x) ∧
  kept None st st' ∧
  valid_iter st' it ∧
  bucket it = b ∧
  (∃ c, get (cur (info it)) = Some c ∧ live st' c ∧
        key_at (heap st') c = key) ∧
  kernel_calls st' =
    kernel_calls st ++
    replicate (if ok then S (spurious_prefix (cas_fail st)) else 1) (b, key) ∧
  cas_fail st' = (if ok then after_cas (cas_fail st) else cas_fail st) ∧
  retired st' = retired st ∧
  (ok = false → buckets st' = buckets st ∧ heap st' = heap st).

(** The number of calls of the kernel in [erase(key)]: one per marking
    CAS, and one more if the unlinking CAS fails. *)
Definition erase_kernel_calls (r : bool) (o : list bool) : nat :=
  if r then
    S (spurious_prefix o) +
    (if bool_decide (head (after_cas o) = Some true) then 1 else 0)
  else 1.

(** The outcome of [erase(key)] between operations. *)
Definition erase_outcome (key : Key) (st : map_state)
    (res : bool * map_state) : Prop :=
  let b := hash key mod Buckets in
  let r := fst res in
  let st' := snd res in
  map_inv st' ∧
  (r = true ↔ has_key st key) ∧
  (∀ k, has_key st' k ↔ has_key st k ∧ k ≠ key) ∧
  kept None st st' ∧
  (r = false →
   buckets st' = buckets st ∧ heap st' = heap st ∧
   cas_fail st' = cas_fail st ∧ retired st' = retired st) ∧
  (r = true →
   ∃ c nc, live st c ∧ heap st !! c = Some nc ∧ fst (value nc) = key ∧
           heap st' !! c =
             Some (Node (value nc) (MarkedPtr (get (next nc)) true)) ∧
           (∀ x, live st' x ↔ live st x ∧ x ≠ c)) ∧
  kernel_calls st' =
    kernel_calls st ++ replicate (erase_kernel_calls r (cas_fail st)) (b, key) ∧
  factory_calls st' = factory_calls st.

(** A computation that needs fuel returns [res] from [st] once the fuel
    suffices. *)
Definition returns {A} (f : nat → M A) (st : map_state)
    (res : A * map_state) : Prop :=
  ∃ n, ∀ fuel, n ≤ fuel → f fuel st = Some res.

Definition returns2 {A} (f : nat → nat → M A) (st : map_state)
    (res : A * map_state) : Prop :=
  ∃ n, ∀ kfuel fuel, n ≤ kfuel → n ≤ fuel → f kfuel fuel st = Some res.

(** ** Sequences of operations *)

(** The public member functions of the map and [operator++] of its
    iterators, with their arguments. *)
Inductive operation : Type :=
| OpContains (key : Key)
| OpFind (key : Key)
| OpEmplace (args : Key * Value)
| OpEmplaceOrGet (args : Key * Value)
| OpGetOrEmplace (key : Key) (args : Value)
| OpGetOrEmplaceLazy (key : Key) (value_factory : unit → Value)
| OpEraseKey (key : Key)
| OpErasePos (pos : iterator)
| OpBegin
| OpEnd
| OpIncr (pos : iterator).

Inductive result : Type :=
| RBool (r : bool)
| RIter (it : iterator)
| RPair (it : iterator) (r : bool).

Definition run_op (fuel : nat) (op : operation) : M result :=
  match op with
  | OpContains key => let* r := contains fuel key in ret (RBool r)
  | OpFind key => let* it := find fuel key in ret (RIter it)
  | OpEmplace args => let* r := emplace fuel args in ret (RBool r)
  | OpEmplaceOrGet args =>
      let* r := emplace_or_get fuel args in ret (RPair (fst r) (snd r))
  | OpGetOrEmplace key args =>
      let* r := get_or_emplace fuel key args in ret (RPair (fst r) (snd r))
  | OpGetOrEmplaceLazy key value_factory =>
      let* r := get_or_emplace_lazy fuel key value_factory in
      ret (RPair (fst r) (snd r))
  | OpEraseKey key => let* r := erase fuel key in ret (RBool r)
  | OpErasePos pos => let* it := erase_pos fuel pos in ret (RIter it)
  | OpBegin => let* it := begin in ret (RIter it)
  | OpEnd => let* it := end_ in ret (RIter it)
  | OpIncr pos => let* it := iterator_incr fuel pos in ret (RIter it)
  end.

(** The iterator and the boolean of a result. *)
Definition result_iter (res : result) : list iterator :=
  match res with
  | RBool _ => []
  | RIter it => [it]
  | RPair it _ => [it]
  end.

Definition result_flag (res : result) : bool :=
  match res with
  | RBool r => r
  | RIter _ => false
  | RPair _ r => r
  end.

(** The key an operation is about, and whether it is an insertion. *)
Definition op_key (op : operation) : option Key :=
  match op with
  | OpContains key | OpFind key | OpEraseKey key => Some key
  | OpEmplace args | OpEmplaceOrGet args => Some (fst args)
  | OpGetOrEmplace key _ | OpGetOrEmplaceLazy key _ => Some key
  | OpErasePos _ | OpBegin | OpEnd | OpIncr _ => None
  end.

Definition is_insert (op : operation) : bool :=
  match op with
  | OpEmplace _ | OpEmplaceOrGet _ | OpGetOrEmplace _ _
  | OpGetOrEmplaceLazy _ _ => true
  | _ => false
  end.

(** The precondition of an operation on an iterator: the iterator was
    handed out by an earlier operation and is not past the end. *)
Definition op_ready (its : list iterator) (op : operation) : Prop :=
  match op with
  | OpErasePos pos | OpIncr pos => pos ∈ its ∧ get (cur (info pos)) ≠ None
  | _ => True
  end.

(** [run allowed st its st' its']: a sequence of operations, each of
    them [allowed], leads from the store [st] with the iterators [its]
    handed out so far to [st'] and [its'].  Between two operations the
    supply of spurious failures may be anything. *)
Inductive run (allowed : map_state → operation → result → Prop)
  : map_state → list iterator → map_state → list iterator → Prop :=
| run_done st its : run allowed st its st its
| run_step st its op res st1 st2 its2 :
    op_ready its op → allowed st op res →
    returns (λ fuel, run_op fuel op) st (res, st1) →
    run allowed st1 (result_iter res ++ its) st2 its2 →
    run allowed st its st2 its2
| run_failures st its o st2 its2 :
    run allowed (set_cas_fail o st) its st2 its2 →
    run allowed st its st2 its2.

Definition any_op (st : map_state) (op : operation) (res : result) : Prop :=
  True.

(** The stores a program can see between two operations. *)
Definition reachable (st : map_state) (its : list iterator) : Prop :=
  ∃ o, run any_op (empty_map o) [] st its.

(** An operation that removes the element of key [k]: a successful
    [erase(k)], or [erase(pos)] at an iterator to a node of key [k]. *)
Definition removes_key (k : Key) (st : map_state) (op : operation)
    (res : result) : Prop :=
  match op with
  | OpEraseKey key => key = k ∧ res = RBool true
  | OpErasePos pos =>
      ∃ c, get (cur (info pos)) = Some c ∧ key_at (heap st) c = k
  | _ => False
  end.

Definition keeps_key (k : Key) (st : map_state) (op : operation)
    (res : result) : Prop :=
  ¬ removes_key k st op res.

(** The number of calls of the kernel in an operation on a key. *)
Definition op_kernel_calls (op : operation) (res : result) (o : list bool)
  : nat :=
  match op with
  | OpContains _ | OpFind _ => 1
  | OpEmplace _ | OpEmplaceOrGet _ | OpGetOrEmplace _ _
  | OpGetOrEmplaceLazy _ _ =>
      if result_flag res then S (spurious_prefix o) else 1
  | OpEraseKey _ => erase_kernel_calls (result_flag res) o
  | OpErasePos _ | OpBegin | OpEnd | OpIncr _ => 0
  end.

(** What an operation guarantees between operations. *)
Definition op_outcome (st : map_state) (op : operation) (res : result)
    (st' : map_state) : Prop :=
  map_inv st' ∧ kept None st st' ∧
  (∀ it, it ∈ result_iter res → iter_ok st' it) ∧
  (∀ k, keeps_key k st op res → has_key st k → has_key st' k) ∧
  (∀ k, is_insert op = true → op_key op = Some k → has_key st' k) ∧
  (∀ k, op_key op = Some k →
        kernel_calls st' =
          kernel_calls st ++
          replicate (op_kernel_calls op res (cas_fail st))
            (hash k mod Buckets, k)).

(** ** The ordering and uniqueness of keys *)




End HashMap.

(** ** A concrete map *)

(** A map of [int] keys with four buckets, [std::hash<int>] being taken
    as the absolute value. *)
Definition example_hash (k : Key) : nat := Z.abs_nat k.

Definition example_empty : @map_state nat := empty_map 4 [].

(** The map after [emplace_or_get(5, 7)], and the iterator returned. *)
Definition example_map : @map_state nat :=
  MapState [null_ptr; MarkedPtr (Some 1%positive) false; null_ptr; null_ptr]
    {[ 1%positive := Node (5%Z, 7) null_ptr ]} [] [] [(1, 5%Z)] 0.

Definition example_iter : iterator :=
  Iterator 1 (FindInfo (Some (BucketHead 1)) null_ptr
                (MarkedPtr (Some 1%positive) false) null_ptr).


(** A program: insert key 5 with value 7, then assign 9 through the
    reference an iterator yields, and read the value again. *)
Definition example_assign (fuel : nat) : @M nat (Key * nat) :=
  bind (emplace example_hash 4 fuel (5%Z, 7)) (λ _,
  bind (find example_hash 4 fuel 5%Z) (λ it,
  bind (iterator_deref it) (λ r,
  bind (ref_assign_second r 9) (λ _,
  bind (find example_hash 4 fuel 5%Z) (λ it',
  bind (iterator_deref it') (λ r',
  bind (ref_first r') (λ k,
  bind (ref_second r') (λ v, ret (k, v))))))))).

Section HashMapMore.
Context {Value : Type}.
Variable hash : Key → nat.
Variable Buckets : nat.

(** ** The destructor and further members of the iterator *)

(** [explicit operator bool()] of a [marked_ptr] (xenium/marked_ptr.hpp):
    the pointer with its mark bits is not null.  Where every pointer
    loaded is unmarked this is [get() != nullptr]. *)
Definition marked_ptr_bool (p : marked_ptr) : bool :=
  negb (is_null p) || mark p.

(** The [while (p)] loop of the destructor. *)
Fixpoint destroy_list (fuel : nat) (p : marked_ptr) : @M Value unit :=
  if marked_ptr_bool p then
    match fuel with
    | 0 => fail
    | S fuel =>
        bind (deref p) (λ a,
        bind (load (NodeNext a)) (λ nxt,
        bind (delete_node a) (λ _,
        destroy_list fuel nxt)))
    end
  else ret tt.

(** The [for] loop of the destructor, with [n] buckets left from [i]. *)
Fixpoint destroy_buckets (fuel n i : nat) : @M Value unit :=
  match n with
  | 0 => ret tt
  | S n =>
      bind (load (BucketHead i)) (λ p,
      bind (destroy_list fuel p) (λ _,
      destroy_buckets fuel n (S i)))
  end.

(** [~harris_michael_hash_map()]. *)
Definition destructor (fuel : nat) : @M Value unit :=
  destroy_buckets fuel Buckets 0.

(** [bool operator!=(const iterator&) const]. *)
Definition iterator_neq (a b : iterator) : bool := negb (iterator_eq a b).

(** [iterator operator++(int)]: the value returned and the iterator
    itself afterwards. *)
Definition iterator_post_incr (fuel : nat) (it : iterator)
  : @M Value (iterator * iterator) :=
  let retval := it in
  bind (iterator_incr Buckets fuel it) (λ it', ret (retval, it')).

(** The pair that [*it] designates, read through the reference. *)
Definition iterator_read (it : iterator) : @M Value (Key * Value) :=
  bind (iterator_deref it) (λ r,
  bind (ref_first r) (λ k,
  bind (ref_second r) (λ v, ret (k, v)))).

(** ** Frame conditions *)

(** [st'] has the nodes of [st], with their values: at most [next]
    pointers differ. *)
Definition stable (st st' : @map_state Value) : Prop :=
  ∀ x, match heap st !! x with
       | Some nd => ∃ nd', heap st' !! x = Some nd' ∧ value nd' = value nd
       | None => heap st' !! x = None
       end.

(** A computation that changes no value and allocates or frees no node. *)
Definition pres {A} (m : @M Value A) : Prop :=
  ∀ st x st', m st = Some (x, st') → stable st st'.

(** From [st] to [st'] the node [a] has been allocated with the value
    [v]; no other node has been allocated or freed, and no value has
    changed. *)
Definition inserted (st : @map_state Value) (a : addr) (v : Key * Value)
    (st' : @map_state Value) : Prop :=
  heap st !! a = None ∧
  (∃ nd, heap st' !! a = Some nd ∧ value nd = v) ∧
  ∀ x, x ≠ a →
       match heap st !! x with
       | Some nd => ∃ nd', heap st' !! x = Some nd' ∧ value nd' = value nd
       | None => heap st' !! x = None
       end.

(** The element an insertion is to insert. *)
Definition op_value (op : @operation Value) : option (Key * Value) :=
  match op with
  | OpEmplace args | OpEmplaceOrGet args => Some args
  | OpGetOrEmplace key args => Some (key, args)
  | OpGetOrEmplaceLazy key value_factory => Some (key, value_factory tt)
  | _ => None
  end.

(** An iterator is at the node [a] of bucket [b], or at no node. *)
Definition at_node (it : iterator) (r : option (nat * addr)) : Prop :=
  match r with
  | Some (b, a) => bucket it = b ∧ cur (info it) = MarkedPtr (Some a) false
  | None => get (cur (info it)) = None
  end.

(** The first node of the buckets from [b] on, if there is one. *)
Definition first_from (st : @map_state Value) (b : nat)
    (r : option (nat * addr)) : Prop :=
  match r with
  | Some (b', a) =>
      b ≤ b' ∧ b' < Buckets ∧ (∃ l, bucket_list st b' (a :: l)) ∧
      ∀ j, b ≤ j → j < b' → bucket_list st j []
  | None => ∀ j, b ≤ j → j < Buckets → bucket_list st j []
  end.

(** The node that follows a node of bucket [b] whose successors in the
    list are [post]. *)
Definition follows (st : @map_state Value) (b : nat) (post : list addr)
    (r : option (nat * addr)) : Prop :=
  match post with
  | c :: _ => r = Some (b, c)
  | [] => first_from st (S b) r
  end.

(** The lists of all buckets, in the order of the buckets. *)
Definition contents (st : @map_state Value) (ls : list (list addr)) : Prop :=
  length ls = Buckets ∧ ∀ b l, ls !! b = Some l → bucket_list st b l.

(** The loop [for (; it != end(); ++it)] of a traversal, which collects
    the nodes that [*it] designates. *)
Fixpoint traverse (fuel n : nat) (it : iterator) : @M Value (list reference) :=
  if iterator_neq it (iterator_end Buckets) then
    match n with
    | 0 => fail
    | S n =>
        bind (iterator_deref it) (λ r,
        bind (iterator_incr Buckets fuel it) (λ it',
        bind (traverse fuel n it') (λ rs, ret (r :: rs))))
    end
  else ret [].

Definition traverse_all (fuel : nat) : @M Value (list reference) :=
  bind (begin Buckets) (λ it, traverse fuel fuel it).

(** The three effects an operation can have on the map: none; the
    insertion of one new node [a] holding [kv]; the removal of one node
    [c], which is marked, unlinked and handed to the reclaimer. *)
Definition unchanged (st st' : @map_state Value) : Prop :=
  buckets st' = buckets st ∧ heap st' = heap st ∧ retired st' = retired st.

Definition inserts (st : @map_state Value) (a : addr) (kv : Key * Value)
    (st' : @map_state Value) : Prop :=
  inserted st a kv st' ∧
  ¬ has_key st (fst kv) ∧
  (∀ x, live st' x ↔ live st x ∨ x = a) ∧
  retired st' = retired st ∧
  kept None st st'.

Definition erases (st : @map_state Value) (c : addr)
    (st' : @map_state Value) : Prop :=
  stable st st' ∧ live st c ∧
  (∀ x, live st' x ↔ live st x ∧ x ≠ c) ∧
  retired st' = retired st ++ [c] ∧
  node_marked (heap st') c = true ∧
  kept None st st'.

(** The effect of each operation, by its result. *)
Definition op_change (st : @map_state Value) (op : @operation Value)
    (res : result) (st' : @map_state Value) : Prop :=
  match op with
  | OpContains _ | OpFind _ | OpBegin | OpEnd | OpIncr _ => unchanged st st'
  | OpEmplace _ | OpEmplaceOrGet _ | OpGetOrEmplace _ _
  | OpGetOrEmplaceLazy _ _ =>
      if result_flag res then
        ∃ a kv, op_value op = Some kv ∧ inserts st a kv st' ∧
                ∀ it, it ∈ result_iter res →
                      cur (info it) = MarkedPtr (Some a) false
      else unchanged st st'
  | OpEraseKey key =>
      ∃ r : bool, res = RBool r ∧
        if r then ∃ c, key_at (heap st) c = key ∧ erases st c st'
        else unchanged st st'
  | OpErasePos pos =>
      ∃ c, cur (info pos) = MarkedPtr (Some c) false ∧
           ((live st c ∧ erases st c st') ∨ (¬ live st c ∧ unchanged st st'))
  end.

(** Every allocated node is in a list or was handed to the reclaimer,
    once, after it left its list. *)
Record accounted (st : @map_state Value) : Prop := Accounted {
  acc_all : ∀ x, is_Some (heap st !! x) → live st x ∨ x ∈ retired st;
  acc_nodup : NoDup (retired st);
  acc_retired : ∀ x, x ∈ retired st →
                ¬ live st x ∧ node_marked (heap st) x = true
}.

End HashMapMore.

(** The map after [erase(5)] on [example_map]: the node is marked,
    unlinked and retired, and [example_iter] still holds it. *)
Definition example_erased : @map_state nat :=
  MapState [null_ptr; null_ptr; null_ptr; null_ptr]
    {[ 1%positive := Node (5%Z, 7) (MarkedPtr None true) ]}
    [1%positive] [] [(1, 5%Z); (1, 5%Z)] 0.

(** * Proofs *)

(** ** List segments *)

Section ListSegments.
Context {Value : Type}.
Implicit Types (h : gmap addr (@node Value)) (l : list addr) (p q : option addr).

Lemma lseg_app h p l1 l2 q :
  lseg h p (l1 ++ l2) q ↔ ∃ m, lseg h p l1 m ∧ lseg h m l2 q.
Proof.
  revert p. induction l1 as [|a l1 IH]; intros p; simpl.
  - split.
    + intros H. exists p. done.
    + intros (m & -> & H). done.
  - split.
    + intros (-> & n & Hn & H). apply IH in H as (m & H1 & H2).
      exists m. eauto.
    + intros (m & (-> & n & Hn & H1) & H2). split; [done|].
      exists n. split; [done|]. apply IH. eauto.
Qed.

Lemma lseg_func h p l1 l2 :
  lseg h p l1 None → lseg h p l2 None → l1 = l2.
Proof.
  revert p l2. induction l1 as [|a l1 IH]; intros p [|b l2]; simpl.
  - done.
  - intros -> (? & _). done.
  - intros (-> & _) ?. done.
  - intros (-> & n & Hn & H1) (Heq & n' & Hn' & H2).
    simplify_eq. f_equal. eauto.
Qed.

Lemma lseg_lookup h p l q a :
  lseg h p l q → a ∈ l → is_Some (h !! a).
Proof.
  revert p. induction l as [|b l IH]; intros p; simpl.
  - intros _ Ha. by apply elem_of_nil in Ha.
  - intros (-> & n & Hn & H) [->|Ha]%elem_of_cons; eauto.
Qed.

(** A list that ends in null does not visit a node twice. *)
Lemma lseg_NoDup h p l : lseg h p l None → NoDup l.
Proof.
  revert p. induction l as [|a l IH]; intros p; simpl.
  - constructor.
  - intros (-> & n & Hn & H). constructor; [|eauto].
    intros Ha. apply list_elem_of_split in Ha as (l1 & l2 & ->).
    apply lseg_app in H as (m & H1 & H2). simpl in H2.
    destruct H2 as (-> & n' & Hn' & H2). simplify_eq.
    assert (Hl : l2 = l1 ++ a :: l2).
    { eapply lseg_func; [exact H2|].
      apply lseg_app. exists (Some a). split; [done|].
      simpl. eauto. }
    apply (f_equal length) in Hl. rewrite length_app in Hl. simpl in Hl. lia.
Qed.

Lemma lseg_head h p l q : lseg h p l q → l ≠ [] → p = head l.
Proof. destruct l; simpl; [done|]. by intros (-> & _). Qed.

Lemma lseg_head_None h p l : lseg h p l None → p = head l.
Proof. destruct l; simpl; [done|]. by intros (-> & _). Qed.

(** Updating a node outside the segment leaves the segment alone. *)
Lemma lseg_insert_notin h p l q a n :
  a ∉ l → lseg h p l q → lseg (<[a := n]> h) p l q.
Proof.
  revert p. induction l as [|b l IH]; intros p Ha; simpl; [done|].
  apply not_elem_of_cons in Ha as [Hab Ha].
  intros (-> & nb & Hnb & H). split; [done|].
  exists nb. rewrite lookup_insert_ne by done. eauto.
Qed.

Lemma lseg_insert_notin_inv h p l q a n :
  a ∉ l → lseg (<[a := n]> h) p l q → lseg h p l q.
Proof.
  revert p. induction l as [|b l IH]; intros p Ha; simpl; [done|].
  apply not_elem_of_cons in Ha as [Hab Ha].
  intros (-> & nb & Hnb & H). split; [done|].
  exists nb. rewrite lookup_insert_ne in Hnb by done. eauto.
Qed.

Lemma lseg_delete_notin h p l q a :
  a ∉ l → lseg h p l q → lseg (delete a h) p l q.
Proof.
  revert p. induction l as [|b l IH]; intros p Ha; simpl; [done|].
  apply not_elem_of_cons in Ha as [Hab Ha].
  intros (-> & nb & Hnb & H). split; [done|].
  exists nb. rewrite lookup_delete_ne by done. eauto.
Qed.

Lemma lseg_snoc h p l s q :
  lseg h p (l ++ [s]) q ↔
  lseg h p l (Some s) ∧ ∃ n, h !! s = Some n ∧ get (next n) = q.
Proof.
  rewrite lseg_app. simpl. split.
  - intros (m & H1 & -> & n & Hn & Hq). eauto.
  - intros (H1 & n & Hn & Hq). exists (Some s). eauto.
Qed.

Lemma walk_lseg n h p l : walk n h p = Some l → lseg h p l None.
Proof.
  revert p l. induction n as [|n IH]; intros [a|] l; simpl; try done.
  - intros; by simplify_eq.
  - destruct (h !! a) as [nd|] eqn:Hnd; simpl; [|done].
    destruct (walk n h (get (next nd))) as [l'|] eqn:Hw; simpl; [|done].
    intros; simplify_eq. simpl. eauto.
  - intros; by simplify_eq.
Qed.

End ListSegments.

Section Primitives.
Context {Value : Type}.
Implicit Types (st : @map_state Value) (l pre rest : list addr) (b : nat).

Lemma bind_eq {A B} (m : @M Value A) (k : A → @M Value B) st a st' :
  m st = Some (a, st') → bind m k st = k a st'.
Proof. unfold bind. by intros ->. Qed.

Lemma bind_ret {A B} (a : A) (k : A → @M Value B) st : bind (ret a) k st = k a st.
Proof. done. Qed.

Lemma marked_ptr_eta (p : marked_ptr) : MarkedPtr (get p) (mark p) = p.
Proof. by destruct p. Qed.

Lemma set_cas_fail_id st : set_cas_fail (cas_fail st) st = st.
Proof. by destruct st. Qed.

Lemma last_snoc_inv {A} (xs : list A) (x : A) :
  last xs = Some x → ∃ ys, xs = ys ++ [x].
Proof.
  destruct xs as [|y xs _] using rev_ind; [done|].
  rewrite last_snoc. intros; simplify_eq. eauto.
Qed.

Lemma bucket_list_func st b l1 l2 :
  bucket_list st b l1 → bucket_list st b l2 → l1 = l2.
Proof.
  intros (hd & Hhd & _ & H1) (hd' & Hhd' & _ & H2). simplify_eq.
  eapply lseg_func; eauto.
Qed.

Lemma bucket_list_NoDup st b l : bucket_list st b l → NoDup l.
Proof. intros (hd & _ & _ & H). eapply lseg_NoDup; eauto. Qed.

Lemma bucket_list_lookup st b l a :
  bucket_list st b l → a ∈ l → is_Some (heap st !! a).
Proof. intros (hd & _ & _ & H). eapply lseg_lookup; eauto. Qed.

Lemma bucket_list_lt st b l : bucket_list st b l → b < length (buckets st).
Proof. intros (hd & Hhd & _). eapply lookup_lt_Some; eauto. Qed.

Lemma bucket_list_ext st st' b l :
  buckets st' = buckets st → heap st' = heap st →
  bucket_list st b l → bucket_list st' b l.
Proof. unfold bucket_list. by intros -> ->. Qed.

(** The value of the link behind [pre]. *)
Lemma load_link st b pre rest :
  bucket_list st b (pre ++ rest) →
  (∀ s, last pre = Some s → node_marked (heap st) s = false) →
  load (link_after b pre) st = Some (MarkedPtr (head rest) false, st).
Proof.
  intros (hd & Hhd & Hm & Hl) Hs.
  destruct pre as [|s pre _] using rev_ind.
  - simpl in *. unfold link_after; simpl. rewrite Hhd. simpl.
    apply lseg_head_None in Hl. destruct hd; simpl in *; by subst.
  - unfold link_after. rewrite last_snoc. simpl.
    apply lseg_app in Hl as (m & H1 & H2).
    apply lseg_snoc in H1 as (H1 & n & Hn & <-).
    specialize (Hs s). rewrite last_snoc in Hs. specialize (Hs eq_refl).
    unfold node_marked in Hs. rewrite Hn in Hs. rewrite Hn. simpl.
    apply lseg_head_None in H2. destruct (next n); simpl in *; by subst.
Qed.

(** Every node of a list is linked by the node before it. *)
Lemma lookup_node_of_list st b l a :
  bucket_list st b l → a ∈ l →
  ∃ pre post n, l = pre ++ a :: post ∧ heap st !! a = Some n ∧
                get (next n) = head post.
Proof.
  intros Hb Ha. apply list_elem_of_split in Ha as (pre & post & ->).
  destruct Hb as (hd & _ & _ & Hl).
  apply lseg_app in Hl as (m & _ & H2). simpl in H2.
  destruct H2 as (-> & n & Hn & H2). apply lseg_head_None in H2.
  eauto 10.
Qed.

End Primitives.

(** ** The primitives and the paths of the kernel *)

Section KernelPaths.
Context {Value : Type}.
Implicit Types (st : @map_state Value) (l pre rest : list addr) (b : nat).
Implicit Types (info : find_info) (p : concurrent_ptr_ref).

Lemma load_inv p st v st' : load p st = Some (v, st') → st' = st.
Proof.
  unfold load. destruct p; intros H.
  - destruct (buckets st !! i); simpl in H; by simplify_eq.
  - destruct (heap st !! a); simpl in H; by simplify_eq.
Qed.

Lemma load_ext p st st' v :
  buckets st' = buckets st → heap st' = heap st →
  load p st = Some (v, st) → load p st' = Some (v, st').
Proof.
  unfold load. intros -> ->. destruct p.
  - destruct (buckets st !! i); simpl; intros; by simplify_eq.
  - destruct (heap st !! a); simpl; intros; by simplify_eq.
Qed.

Lemma load_node st a n :
  heap st !! a = Some n → load (NodeNext a) st = Some (next n, st).
Proof. unfold load. by intros ->. Qed.

Lemma node_key_eq st a n :
  heap st !! a = Some n → node_key a st = Some (fst (value n), st).
Proof. unfold node_key, read_node, bind, ret. by intros ->. Qed.

Lemma acquire_if_equal_ok p v st :
  load p st = Some (v, st) → acquire_if_equal p v st = Some ((true, v), st).
Proof.
  intros H. unfold acquire_if_equal. rewrite (bind_eq _ _ _ _ _ H).
  by rewrite decide_True.
Qed.

Lemma cas_spurious p e d st o :
  load p st = Some (e, st) → cas_fail st = true :: o →
  compare_exchange_weak p e d st = Some ((false, e), set_cas_fail o st).
Proof.
  intros H Ho. unfold compare_exchange_weak. rewrite (bind_eq _ _ _ _ _ H).
  rewrite decide_True by done. unfold bind, spurious_failure. by rewrite Ho.
Qed.

Lemma cas_success p e d st st' :
  load p st = Some (e, st) → head (cas_fail st) ≠ Some true →
  store p d (set_cas_fail (tail (cas_fail st)) st) = Some (tt, st') →
  compare_exchange_weak p e d st = Some ((true, e), st').
Proof.
  intros H Ho Hs. unfold compare_exchange_weak. rewrite (bind_eq _ _ _ _ _ H).
  rewrite decide_True by done. unfold bind at 1, spurious_failure.
  destruct (cas_fail st) as [|[] o] eqn:Hc; simpl in *; try done.
  - rewrite <- Hc, set_cas_fail_id in Hs. unfold bind. by rewrite Hs.
  - unfold bind. by rewrite Hs.
Qed.

Lemma cas_mismatch p e d st v :
  load p st = Some (v, st) → v ≠ e →
  compare_exchange_weak p e d st = Some ((false, v), st).
Proof.
  intros H Hne. unfold compare_exchange_weak. rewrite (bind_eq _ _ _ _ _ H).
  by rewrite decide_False.
Qed.

Lemma prev_ref_eq info p st : prev info = Some p → prev_ref info st = Some (p, st).
Proof. unfold prev_ref, lift. by intros ->. Qed.

(** *** The paths through one iteration of the kernel's loop *)

Section Paths.
Variables (key : Key) (hd : concurrent_ptr_ref)
  (start : option concurrent_ptr_ref) (start_guard : guard_ptr).

Lemma find_loop_end fuel info p st :
  prev info = Some p → load p st = Some (next_ info, st) →
  get (next_ info) = None →
  find_loop (S fuel) key hd start start_guard info st =
  Some ((false, set_cur (next_ info) info), st).
Proof.
  intros Hp Hl Hn. simpl.
  rewrite (bind_eq _ _ _ _ _ (prev_ref_eq _ _ _ Hp)).
  rewrite (bind_eq _ _ _ _ _ (acquire_if_equal_ok _ _ _ Hl)).
  simpl. by rewrite Hn.
Qed.

Lemma find_loop_help_fail fuel info p st c n o :
  prev info = Some p → load p st = Some (next_ info, st) →
  next_ info = MarkedPtr (Some c) false →
  heap st !! c = Some n → mark (next n) = true →
  cas_fail st = true :: o →
  find_loop (S fuel) key hd start start_guard info st =
  find_retry fuel key hd start start_guard
    (set_next (MarkedPtr (get (next n)) false) (set_cur (next_ info) info))
    (set_cas_fail o st).
Proof.
  intros Hp Hl Hn Hc Hm Ho. simpl.
  rewrite (bind_eq _ _ _ _ _ (prev_ref_eq _ _ _ Hp)).
  rewrite (bind_eq _ _ _ _ _ (acquire_if_equal_ok _ _ _ Hl)).
  simpl. rewrite Hn. simpl.
  rewrite (bind_eq _ _ _ _ _ (load_node _ _ _ Hc)). rewrite Hm.
  rewrite (bind_eq _ _ _ _ _ (load_node _ _ _ Hc)). simpl.
  rewrite Hn in Hl.
  rewrite (bind_eq _ _ _ _ _ (cas_spurious _ _ _ _ _ Hl Ho)). simpl.
  done.
Qed.

Lemma find_loop_help fuel info p st c n st' :
  prev info = Some p → load p st = Some (next_ info, st) →
  next_ info = MarkedPtr (Some c) false →
  heap st !! c = Some n → mark (next n) = true →
  head (cas_fail st) ≠ Some true →
  store p (MarkedPtr (get (next n)) false)
    (set_cas_fail (tail (cas_fail st)) st) = Some (tt, st') →
  find_loop (S fuel) key hd start start_guard info st =
  find_loop fuel key hd start start_guard
    (set_cur null_ptr
       (set_next (MarkedPtr (get (next n)) false) (set_cur (next_ info) info)))
    (set_retired (retired st' ++ [c]) st').
Proof.
  intros Hp Hl Hn Hc Hm Ho Hs. simpl.
  rewrite (bind_eq _ _ _ _ _ (prev_ref_eq _ _ _ Hp)).
  rewrite (bind_eq _ _ _ _ _ (acquire_if_equal_ok _ _ _ Hl)).
  simpl. rewrite Hn. simpl.
  rewrite (bind_eq _ _ _ _ _ (load_node _ _ _ Hc)). rewrite Hm.
  rewrite (bind_eq _ _ _ _ _ (load_node _ _ _ Hc)). simpl.
  rewrite Hn in Hl.
  rewrite (bind_eq _ _ _ _ _ (cas_success _ _ _ _ _ Hl Ho Hs)). simpl.
  unfold reclaim. simpl. unfold bind at 1. simpl. done.
Qed.

Lemma find_loop_return fuel info p st c n :
  prev info = Some p → load p st = Some (next_ info, st) →
  next_ info = MarkedPtr (Some c) false →
  heap st !! c = Some n → mark (next n) = false →
  (key ≤ fst (value n))%Z →
  find_loop (S fuel) key hd start start_guard info st =
  Some (((fst (value n) =? key)%Z, set_next (next n) (set_cur (next_ info) info)), st).
Proof.
  intros Hp Hl Hn Hc Hm Hk. simpl.
  rewrite (bind_eq _ _ _ _ _ (prev_ref_eq _ _ _ Hp)).
  rewrite (bind_eq _ _ _ _ _ (acquire_if_equal_ok _ _ _ Hl)).
  simpl. rewrite Hn. simpl.
  rewrite (bind_eq _ _ _ _ _ (load_node _ _ _ Hc)). rewrite Hm.
  rewrite Hn in Hl. rewrite (bind_eq _ _ _ _ _ Hl).
  rewrite bool_decide_eq_true_2 by done. simpl.
  rewrite (bind_eq _ _ _ _ _ (node_key_eq _ _ _ Hc)).
  destruct (Z.geb_spec (fst (value n)) key) as [_|?]; [|lia].
  done.
Qed.

Lemma find_loop_advance fuel info p st c n :
  prev info = Some p → load p st = Some (next_ info, st) →
  next_ info = MarkedPtr (Some c) false →
  heap st !! c = Some n → mark (next n) = false →
  (fst (value n) < key)%Z →
  find_loop (S fuel) key hd start start_guard info st =
  find_loop fuel key hd start start_guard
    (FindInfo (Some (NodeNext c)) (next n) (save info) (next_ info)) st.
Proof.
  intros Hp Hl Hn Hc Hm Hk. simpl.
  rewrite (bind_eq _ _ _ _ _ (prev_ref_eq _ _ _ Hp)).
  rewrite (bind_eq _ _ _ _ _ (acquire_if_equal_ok _ _ _ Hl)).
  simpl. rewrite Hn. simpl.
  rewrite (bind_eq _ _ _ _ _ (load_node _ _ _ Hc)). rewrite Hm.
  rewrite Hn in Hl. rewrite (bind_eq _ _ _ _ _ Hl).
  rewrite bool_decide_eq_true_2 by done. simpl.
  rewrite (bind_eq _ _ _ _ _ (node_key_eq _ _ _ Hc)).
  destruct (Z.geb_spec (fst (value n)) key) as [?|_]; [lia|].
  done.
Qed.

Lemma find_retry_marked fuel info p st v :
  start = Some p → load p st = Some (v, st) → mark v = true →
  find_retry (S fuel) key hd start start_guard info st =
  find_retry fuel key hd (Some hd) null_ptr
    (set_next v (set_save start_guard (set_prev start info))) st.
Proof.
  intros Hp Hl Hm. simpl.
  unfold bind at 1, prev_ref, lift. simpl. rewrite Hp.
  rewrite (bind_eq _ _ _ _ _ Hl). by rewrite Hm.
Qed.

Lemma find_retry_unmarked fuel info p st v :
  start = Some p → load p st = Some (v, st) → mark v = false →
  find_retry (S fuel) key hd start start_guard info st =
  find_loop fuel key hd start start_guard
    (set_next v (set_save start_guard (set_prev start info))) st.
Proof.
  intros Hp Hl Hm. simpl.
  unfold bind at 1, prev_ref, lift. simpl. rewrite Hp.
  rewrite (bind_eq _ _ _ _ _ Hl). by rewrite Hm.
Qed.

End Paths.
End KernelPaths.

Section Helping.
Context {Value : Type}.
Implicit Types (st : @map_state Value) (l pre rest : list addr) (b : nat).
Implicit Types (info : find_info) (p : concurrent_ptr_ref).
Implicit Types (h : gmap addr (@node Value)).

Lemma same_nodes_refl h : same_nodes h h.
Proof.
  intros a. destruct (h !! a); constructor. by repeat split.
Qed.

Lemma same_nodes_trans h1 h2 h3 :
  same_nodes h1 h2 → same_nodes h2 h3 → same_nodes h1 h3.
Proof.
  intros H12 H23 a. specialize (H12 a). specialize (H23 a).
  destruct H12 as [n1 n2 (Hv & Hm & He)|]; inversion H23 as [? n3 (Hv' & Hm' & He')|];
    simplify_eq; constructor.
  repeat split; [congruence..|].
  intros Hmk. rewrite He' by congruence. by apply He.
Qed.

Lemma same_nodes_marked h h' a :
  same_nodes h h' → node_marked h' a = node_marked h a.
Proof.
  intros H. specialize (H a). unfold node_marked.
  by destruct H as [n n' (? & ? & ?)|].
Qed.

Lemma same_nodes_key h h' a : same_nodes h h' → key_at h' a = key_at h a.
Proof.
  intros H. specialize (H a). unfold key_at.
  destruct H as [n n' (Hv & ? & ?)|]; [by rewrite Hv|done].
Qed.

Lemma same_nodes_lookup h h' a :
  same_nodes h h' → is_Some (h' !! a) ↔ is_Some (h !! a).
Proof.
  intros H. specialize (H a).
  destruct H; split; intros [? ?]; by eauto.
Qed.

(** Redirecting the pointer of an unmarked node. *)
Lemma same_nodes_insert h s n v :
  h !! s = Some n → mark (next n) = false →
  same_nodes h (<[s := Node (value n) (MarkedPtr v false)]> h).
Proof.
  intros Hs Hm a. destruct (decide (a = s)) as [->|Hne].
  - rewrite lookup_insert_eq, Hs. constructor.
    repeat split; simpl; [done|]. congruence.
  - rewrite lookup_insert_ne by done. apply same_nodes_refl.
Qed.

Lemma store_inv p v st st' :
  store p v st = Some (tt, st') →
  retired st' = retired st ∧ cas_fail st' = cas_fail st ∧
  kernel_calls st' = kernel_calls st ∧ factory_calls st' = factory_calls st ∧
  match p with
  | BucketHead i =>
      i < length (buckets st) ∧ heap st' = heap st ∧
      buckets st' = <[i := v]> (buckets st)
  | NodeNext a =>
      buckets st' = buckets st ∧
      ∃ n, heap st !! a = Some n ∧
           heap st' = <[a := Node (value n) v]> (heap st)
  end.
Proof.
  unfold store. destruct p.
  - case_decide; [|done]. intros; simplify_eq. by simpl.
  - destruct (heap st !! a) as [n|] eqn:Hn; simpl; [|done].
    intros; simplify_eq. simpl. eauto 10.
Qed.

Lemma node_of_list st b pre c post :
  bucket_list st b (pre ++ c :: post) →
  ∃ n, heap st !! c = Some n ∧ get (next n) = head post.
Proof.
  intros (hd & _ & _ & Hl).
  apply lseg_app in Hl as (m & _ & H2). simpl in H2.
  destruct H2 as (-> & n & Hn & H2). apply lseg_head_None in H2. eauto.
Qed.

Lemma tail_of_list st b pre post :
  bucket_list st b (pre ++ post) →
  ∃ q, lseg (heap st) q post None.
Proof.
  intros (hd & _ & _ & Hl). apply lseg_app in Hl as (m & _ & H2). eauto.
Qed.

(** Storing an unmarked pointer to a list in the link behind [pre]. *)
Lemma store_link_list st b pre rest q rest' :
  bucket_list st b (pre ++ rest) →
  lseg (heap st) q rest' None →
  (∀ s, last pre = Some s → s ∉ rest') →
  ∃ st', store (link_after b pre) (MarkedPtr q false) st = Some (tt, st') ∧
         bucket_list st' b (pre ++ rest').
Proof.
  intros Hb Hq Hs. pose proof (bucket_list_NoDup _ _ _ Hb) as Hnd.
  pose proof (bucket_list_lt _ _ _ Hb) as Hlt.
  destruct Hb as (hd & Hhd & Hm & Hl).
  destruct pre as [|s pre _] using rev_ind.
  - unfold link_after; simpl. unfold store. rewrite decide_True by done.
    eexists; split; [done|]. exists (MarkedPtr q false). simpl.
    rewrite list_lookup_insert_eq by done. done.
  - unfold link_after. rewrite last_snoc. unfold store.
    apply lseg_app in Hl as (m & H1 & H2).
    apply lseg_snoc in H1 as (H1 & n & Hn & <-).
    rewrite Hn. simpl. eexists; split; [done|].
    exists hd. simpl. repeat split; [done..|].
    specialize (Hs s). rewrite last_snoc in Hs. specialize (Hs eq_refl).
    apply NoDup_app in Hnd as (Hnd & _ & _).
    apply NoDup_app in Hnd as (_ & Hnd & _).
    apply lseg_app. exists q. split.
    + apply lseg_snoc. split.
      * apply lseg_insert_notin; [|done]. intros ?. eapply Hnd; [done|].
        apply list_elem_of_singleton. done.
      * rewrite lookup_insert_eq. eauto.
    + by apply lseg_insert_notin.
Qed.

End Helping.

(** ** The kernel *)

Section Kernel.
Context {Value : Type}.
Implicit Types (st : @map_state Value) (l pre rest : list addr) (b : nat).
Implicit Types (info : find_info) (p : concurrent_ptr_ref).
Implicit Types (h : gmap addr (@node Value)).

Lemma returns_step {A} (f g : nat → @M Value A) st st' res :
  (∀ fuel, f (S fuel) st = g fuel st') → returns g st' res → returns f st res.
Proof.
  intros Hfg [n Hn]. exists (S n). intros [|fuel] ?; [lia|].
  rewrite Hfg. apply Hn. lia.
Qed.

Lemma returns_now {A} (f : nat → @M Value A) st res :
  (∀ fuel, f (S fuel) st = Some res) → returns f st res.
Proof. intros Hf. exists 1. intros [|fuel] ?; [lia|]. apply Hf. Qed.

Lemma returns_func {A} (f : nat → @M Value A) st res res' :
  returns f st res → returns f st res' → res = res'.
Proof.
  intros [n Hn] [m Hm].
  specialize (Hn (n `max` m) ltac:(lia)). specialize (Hm (n `max` m) ltac:(lia)).
  congruence.
Qed.

(** What one step of helping leaves alone. *)
Lemma help_step_frame b st st' :
  help_step b st st' →
  same_nodes (heap st) (heap st') ∧
  length (buckets st') = length (buckets st) ∧
  (∀ b', b' ≠ b → buckets st' !! b' = buckets st !! b') ∧
  kernel_calls st' = kernel_calls st ∧
  factory_calls st' = factory_calls st ∧
  (∃ used, cas_fail st = used ++ cas_fail st') ∧
  (∃ r, retired st' = retired st ++ r).
Proof.
  intros [pre a post o Hb Ha Ho ->|pre a post st1 Hb Ha Hs Hst Ho ->].
  - simpl. split; [apply same_nodes_refl|]. repeat split; try done.
    + exists [true]. done.
    + exists []. by rewrite app_nil_r.
  - apply store_inv in Hst as (Hr & Hc & Hk & Hf & Hp). simpl in *.
    assert (Hused : ∃ used, cas_fail st = used ++ cas_fail st1).
    { rewrite Hc. destruct (cas_fail st) as [|x o]; [by exists []|].
      by exists [x]. }
    assert (Hret : ∃ r, retired st1 ++ [a] = retired st ++ r).
    { rewrite Hr. eauto. }
    unfold link_after in Hp. destruct (last pre) as [s|] eqn:Hlast.
    + destruct Hp as (Hbk & n & Hn & Hh). rewrite Hh, Hbk.
      split; [|by repeat split].
      apply same_nodes_insert; [done|].
      specialize (Hs s eq_refl). unfold node_marked in Hs. by rewrite Hn in Hs.
    + destruct Hp as (Hlt & Hh & Hbk). rewrite Hh, Hbk.
      split; [apply same_nodes_refl|]. split; [by rewrite length_insert|].
      split; [|done]. intros b' Hne. by rewrite list_lookup_insert_ne.
Qed.

Section Loop.
Variables (key : Key) (b : nat) (start : option concurrent_ptr_ref)
  (start_guard : guard_ptr).

Let retry_spec (n : nat) : Prop :=
  ∀ st l info,
    length (cas_fail st) < n → bucket_list st b l →
    valid_start st b l start start_guard →
    ∃ res, returns (λ fuel, find_retry fuel key (BucketHead b) start start_guard info) st res ∧
           kernel_post b key start st res.

Lemma find_loop_spec n :
  retry_spec n →
  ∀ rest st pre0 walked info,
    length (cas_fail st) ≤ n →
    bucket_list st b ((pre0 ++ walked) ++ rest) →
    (start = Some (BucketHead b) ∧ pre0 = [] ∨
     ∃ s, start = Some (NodeNext s) ∧ last pre0 = Some s) →
    get start_guard = last pre0 →
    (∀ a, a ∈ walked →
          node_marked (heap st) a = false ∧ (key_at (heap st) a < key)%Z) →
    (∀ s, last (pre0 ++ walked) = Some s → node_marked (heap st) s = false) →
    prev info = Some (link_after b (pre0 ++ walked)) →
    get (save info) = last (pre0 ++ walked) →
    next_ info = MarkedPtr (head rest) false →
    ∃ res, returns (λ fuel, find_loop fuel key (BucketHead b) start start_guard info) st res ∧
           kernel_post b key start st res.
Proof.
  intros IHretry rest.
  induction rest as [|c rest IH];
    intros st pre0 walked info Hlen Hb Hstart Hsg Hwalked Howner Hprev Hsave Hnext.
  - (* end of the list *)
    pose proof (load_link _ _ _ _ Hb Howner) as Hload.
    rewrite <- Hnext in Hload.
    eexists. split.
    + apply returns_now. intros fuel.
      apply (find_loop_end _ _ _ _ _ _ _ _ Hprev Hload). by rewrite Hnext.
    + split; [apply rtc_refl|]. simpl.
      exists pre0, walked, []. rewrite app_assoc.
      split_and!; try done.
      destruct Hstart as [[_ ->]|(s & ? & ?)]; eauto.
  - pose proof (load_link _ _ _ _ Hb Howner) as Hload.
    rewrite <- Hnext in Hload. simpl in Hnext.
    destruct (node_of_list _ _ _ _ _ Hb) as (n0 & Hc & Hsucc).
    destruct (mark (next n0)) eqn:Hmark.
    + (* the node is marked: help *)
      assert (Hcm : node_marked (heap st) c = true).
      { unfold node_marked. by rewrite Hc. }
      destruct (decide (head (cas_fail st) = Some true)) as [Ho|Ho].
      * (* the splice fails spuriously *)
        destruct (cas_fail st) as [|x o] eqn:Hcf; simplify_eq/=.
        set (st1 := set_cas_fail o st).
        assert (Hstep : help_step b st st1).
        { eapply help_fail; eauto. }
        destruct (IHretry st1 ((pre0 ++ walked) ++ c :: rest)
                    (set_next (MarkedPtr (get (next n0)) false)
                       (set_cur (next_ info) info))) as (res & Hret & Hrtc & Hcur).
        { simpl. lia. }
        { by eapply bucket_list_ext. }
        { destruct Hstart as [[-> ->]|(s & -> & Hs)].
          - left. by rewrite Hsg.
          - right. exists s. rewrite Hsg. repeat split; [done|..].
            + simpl. eapply bucket_list_lookup; [done|].
              apply last_snoc_inv in Hs as (? & ->). set_solver.
            + intros _. apply last_snoc_inv in Hs as (? & ->). set_solver. }
        exists res. split.
        -- eapply returns_step; [|exact Hret]. intros fuel.
           eapply find_loop_help_fail; eauto.
        -- split; [|done]. eapply rtc_l; eauto.
      * (* the splice succeeds *)
        destruct (tail_of_list st b ((pre0 ++ walked) ++ [c]) rest) as (q & Hq).
        { by rewrite <- app_assoc. }
        pose proof (lseg_head_None _ _ _ Hq) as ->.
        pose proof (bucket_list_NoDup _ _ _ Hb) as Hnd.
        destruct (store_link_list (set_cas_fail (tail (cas_fail st)) st) b
                    (pre0 ++ walked) (c :: rest) (head rest) rest) as (st1 & Hst & Hb1).
        { by eapply bucket_list_ext. }
        { done. }
        { intros s Hs Hin. apply last_snoc_inv in Hs as (pre' & Hpre).
          rewrite Hpre in Hnd. apply NoDup_app in Hnd as (_ & Hnd & _).
          eapply (Hnd s); set_solver. }
        set (st2 := set_retired (retired st1 ++ [c]) st1).
        assert (Hstep : help_step b st st2).
        { eapply help_unlink; eauto. }
        pose proof (help_step_frame _ _ _ Hstep) as (Hsame & _ & _ & _ & _ & [used Hused] & _).
        destruct (IH st2 pre0 walked
                    (set_cur null_ptr
                       (set_next (MarkedPtr (get (next n0)) false)
                          (set_cur (next_ info) info)))) as (res & Hret & Hrtc & Hcur).
        { apply (f_equal length) in Hused. rewrite length_app in Hused. lia. }
        { by eapply bucket_list_ext. }
        { done. }
        { done. }
        { intros a Ha. rewrite (same_nodes_marked _ _ _ Hsame), (same_nodes_key _ _ _ Hsame).
          by apply Hwalked. }
        { intros s Hs. rewrite (same_nodes_marked _ _ _ Hsame). by apply Howner. }
        { done. }
        { done. }
        { simpl. by rewrite Hsucc. }
        exists res. split.
        -- eapply returns_step; [|exact Hret]. intros fuel.
           rewrite <- Hsucc in Hst.
           eapply find_loop_help; eauto.
        -- split; [|done]. eapply rtc_l; eauto.
    + (* the node is not marked *)
      assert (Hcm : node_marked (heap st) c = false).
      { unfold node_marked. by rewrite Hc. }
      assert (Hck : key_at (heap st) c = fst (value n0)).
      { unfold key_at. by rewrite Hc. }
      assert (Hnx : next n0 = MarkedPtr (head rest) false).
      { rewrite <- Hsucc, <- Hmark. by destruct (next n0). }
      destruct (decide (key ≤ fst (value n0))%Z) as [Hk|Hk].
      * (* found the position *)
        eexists. split.
        -- apply returns_now. intros fuel.
           eapply find_loop_return; eauto.
        -- split; [apply rtc_refl|]. simpl.
           exists pre0, walked, (c :: rest). rewrite app_assoc.
           split_and!; try done.
           ++ destruct Hstart as [[_ ->]|(s & ? & ?)]; eauto.
           ++ by rewrite Hck.
           ++ by rewrite Hck.
      * (* advance *)
        destruct (IH st pre0 (walked ++ [c])
                    (FindInfo (Some (NodeNext c)) (next n0) (save info) (next_ info)))
          as (res & Hret & Hrtc & Hcur).
        { done. }
        { by rewrite !app_assoc, <- (app_assoc _ [c]). }
        { done. }
        { done. }
        { intros a [Ha| ->%list_elem_of_singleton]%elem_of_app; [by apply Hwalked|].
          split; [done|]. rewrite Hck. lia. }
        { intros s. rewrite app_assoc, last_snoc. by intros [= <-]. }
        { simpl. unfold link_after. by rewrite app_assoc, last_snoc. }
        { simpl. by rewrite Hnext, app_assoc, last_snoc. }
        { done. }
        exists res. split; [|done].
        eapply returns_step; [|exact Hret]. intros fuel.
        eapply find_loop_advance; eauto. lia.
Qed.

End Loop.
End Kernel.

Section KernelSpec.
Context {Value : Type}.
Implicit Types (st : @map_state Value) (l pre rest : list addr) (b : nat).
Implicit Types (info : find_info) (p : concurrent_ptr_ref).
Implicit Types (h : gmap addr (@node Value)).

Lemma cursor_at_head st b key start r info :
  cursor_at st b key (Some (BucketHead b)) r info →
  cursor_at st b key start r info.
Proof.
  intros (pre0 & walked & rest & Hb & Hs & H).
  exists pre0, walked, rest. split; [done|]. split; [|done].
  destruct Hs as [->|(s & ? & _)]; [by left|done].
Qed.

(** The kernel, from the label [retry]: it returns, having only helped,
    with the cursor at the first node whose key is not below [key]. *)
Lemma find_retry_spec key b n :
  ∀ start start_guard st l info,
    length (cas_fail st) ≤ n → bucket_list st b l →
    valid_start st b l start start_guard →
    ∃ res, returns (λ fuel, find_retry fuel key (BucketHead b) start start_guard info) st res ∧
           kernel_post b key start st res.
Proof.
  induction n as [n IHn] using lt_wf_ind.
  assert (Hhead : ∀ sg st l info,
    length (cas_fail st) ≤ n → bucket_list st b l → get sg = None →
    ∃ res, returns (λ fuel, find_retry fuel key (BucketHead b) (Some (BucketHead b)) sg info) st res ∧
           kernel_post b key (Some (BucketHead b)) st res).
  { intros sg st l info Hlen Hb Hsg.
    pose proof (load_link st b [] l Hb ltac:(done)) as Hload.
    edestruct (find_loop_spec (Value:=Value) key b (Some (BucketHead b)) sg n)
      with (rest := l) (pre0 := @nil addr) (walked := @nil addr) (st := st)
           (info := set_next (MarkedPtr (head l) false)
                      (set_save sg (set_prev (Some (BucketHead b)) info)))
      as (res & Hret & Hpost).
    - intros st' l' info' Hlt. apply IHn with (m := length (cas_fail st')); [done|lia].
    - exact Hlen.
    - exact Hb.
    - by left.
    - done.
    - intros a Ha. by apply elem_of_nil in Ha.
    - done.
    - done.
    - done.
    - done.
    - exists res. split; [|done].
      eapply returns_step; [|exact Hret]. intros fuel.
      eapply find_retry_unmarked; eauto. }
  intros start sg st l info Hlen Hb [[-> Hsg]|(s & -> & Hsg & [ns Hns] & Hin)].
  - by eapply Hhead.
  - destruct (mark (next ns)) eqn:Hmark.
    + (* the start node is marked: restart from the head *)
      edestruct (Hhead null_ptr st l) as (res & Hret & Hrtc & Hcur); [done..|].
      exists res. split.
      * eapply returns_step; [|exact Hret]. intros fuel.
        eapply find_retry_marked; eauto. by apply load_node.
      * split; [done|]. by apply cursor_at_head.
    + assert (Hsm : node_marked (heap st) s = false).
      { unfold node_marked. by rewrite Hns. }
      specialize (Hin Hsm).
      apply list_elem_of_split in Hin as (p0 & rest & ->).
      destruct (node_of_list _ _ _ _ _ Hb) as (ns' & Hns' & Hsucc). simplify_eq.
      assert (Hnx : next ns = MarkedPtr (head rest) false).
      { rewrite <- Hsucc, <- Hmark. by destruct (next ns). }
      edestruct (find_loop_spec (Value:=Value) key b (Some (NodeNext s)) sg n)
        with (rest := rest) (pre0 := p0 ++ [s]) (walked := @nil addr) (st := st)
             (info := set_next (next ns)
                        (set_save sg (set_prev (Some (NodeNext s)) info)))
        as (res & Hret & Hpost).
      * intros st' l' info' Hlt. apply IHn with (m := length (cas_fail st')); [done|lia].
      * exact Hlen.
      * by rewrite app_nil_r, <- app_assoc.
      * right. exists s. by rewrite last_snoc.
      * by rewrite last_snoc.
      * intros a Ha. by apply elem_of_nil in Ha.
      * intros s'. rewrite app_nil_r, last_snoc. by intros [= <-].
      * simpl. unfold link_after. by rewrite app_nil_r, last_snoc.
      * simpl. by rewrite app_nil_r, last_snoc.
      * done.
      * exists res. split; [|done].
        eapply returns_step; [|exact Hret]. intros fuel.
        eapply find_retry_unmarked; eauto. by apply load_node.
Qed.

(** The kernel, for a cursor that satisfies the assertion at its entry. *)
Lemma find_kernel_spec key b st l info :
  bucket_list st b l →
  valid_start st b l (prev info) (save info) →
  ∃ res, returns (λ fuel, find_kernel fuel key b info) st res ∧
         kernel_post b key (prev info) (log_call b key st) res.
Proof.
  intros Hb Hv.
  destruct (find_retry_spec key b (length (cas_fail st)) (prev info) (save info)
              (log_call b key st) l info) as (res & [n Hret] & Hpost); [done|done|done|].
  exists res. split; [|done].
  exists n. intros fuel Hfuel. unfold find_kernel, bind, log_kernel_call, modify.
  by apply Hret.
Qed.

End KernelSpec.

(** ** The structural invariant *)

Section Invariant.
Context {Value : Type}.
Variable hash : Key → nat.
Variable Buckets : nat.
Implicit Types (st : @map_state Value) (l pre rest : list addr) (b : nat).
Implicit Types (info : find_info) (p : concurrent_ptr_ref).
Implicit Types (h : gmap addr (@node Value)).

Lemma lseg_agree h h' (p q : option addr) l :
  (∀ a, a ∈ l → h' !! a = h !! a) → lseg h p l q → lseg h' p l q.
Proof.
  revert p. induction l as [|a l IH]; intros p Hag; simpl; [done|].
  intros (-> & n & Hn & H). split; [done|]. exists n.
  rewrite Hag by set_solver. split; [done|]. apply IH; [|done].
  intros; apply Hag; set_solver.
Qed.

Lemma bucket_list_agree st st' b l :
  buckets st' !! b = buckets st !! b →
  (∀ a, a ∈ l → heap st' !! a = heap st !! a) →
  bucket_list st b l → bucket_list st' b l.
Proof.
  intros Hb Hag (hd & Hhd & Hm & Hl). exists hd. rewrite Hb.
  repeat split; [done..|]. by eapply lseg_agree.
Qed.

Lemma key_at_agree h h' a : h' !! a = h !! a → key_at h' a = key_at h a.
Proof. unfold key_at. by intros ->. Qed.

Lemma node_marked_agree h h' a : h' !! a = h !! a → node_marked h' a = node_marked h a.
Proof. unfold node_marked. by intros ->. Qed.

Lemma sorted_keys_agree h h' l :
  (∀ a, a ∈ l → key_at h' a = key_at h a) → sorted_keys h l → sorted_keys h' l.
Proof.
  unfold sorted_keys. induction l as [|x l IH]; intros Hag; [constructor|].
  rewrite !StronglySorted_cons. intros [Hx Hs]. split.
  - rewrite Forall_forall in *. intros y Hy. unfold key_lt.
    rewrite !Hag by set_solver. by apply Hx.
  - apply IH; [|done]. intros; apply Hag; set_solver.
Qed.

Lemma sorted_keys_sublist h l l' :
  l' `sublist_of` l → sorted_keys h l → sorted_keys h l'.
Proof.
  unfold sorted_keys. intros Hsub.
  induction Hsub as [|x l1 l2 Hsub IH|x l1 l2 Hsub IH]; simpl.
  - done.
  - rewrite !StronglySorted_cons. intros [Hx Hs]. split; [|by apply IH].
    rewrite Forall_forall in *. intros k Hk. apply Hx.
    revert Hk. by apply sublist_subseteq.
  - rewrite StronglySorted_cons. intros [_ Hs]. by apply IH.
Qed.

Lemma sorted_keys_lt h a1 a2 l1 l2 :
  sorted_keys h (l1 ++ a1 :: l2) → a2 ∈ l2 → (key_at h a1 < key_at h a2)%Z.
Proof.
  unfold sorted_keys. intros Hs Ha. apply StronglySorted_app_1_r in Hs.
  apply StronglySorted_cons in Hs as [Hs _].
  rewrite Forall_forall in Hs. by apply Hs.
Qed.

Lemma sorted_keys_lt_l h a1 a2 l1 l2 :
  sorted_keys h (l1 ++ a2 :: l2) → a1 ∈ l1 → (key_at h a1 < key_at h a2)%Z.
Proof.
  unfold sorted_keys. intros Hs Ha.
  eapply (StronglySorted_app_1_elem_of _ _ _ _ _ Hs); [done|set_solver].
Qed.

Lemma wf_disjoint priv st b b' l l' a :
  map_wf hash Buckets priv st →
  bucket_list st b l → bucket_list st b' l' → a ∈ l → a ∈ l' → b = b'.
Proof.
  intros Hwf Hb Hb' Ha Ha'.
  rewrite <- (wf_hash _ _ _ _ Hwf b l a Hb Ha).
  by rewrite <- (wf_hash _ _ _ _ Hwf b' l' a Hb' Ha').
Qed.

(** An update that changes the list of one bucket, nodes of that list
    and the private node only. *)
Lemma map_wf_update priv priv' b lb lb' st st' :
  map_wf hash Buckets priv st →
  bucket_list st b lb → bucket_list st' b lb' →
  length (buckets st') = length (buckets st) →
  (∀ b', b' ≠ b → buckets st' !! b' = buckets st !! b') →
  (∀ a, a ∉ lb → priv ≠ Some a → priv' ≠ Some a →
        heap st' !! a = heap st !! a) →
  sorted_keys (heap st') lb' →
  (∀ a, a ∈ lb' → hash (key_at (heap st') a) mod Buckets = b) →
  (∀ a, is_Some (heap st' !! a) → node_marked (heap st') a = false →
        priv' = Some a ∨ a ∈ lb' ∨
        ((a ∉ lb) ∧ priv ≠ Some a ∧ node_marked (heap st) a = false)) →
  (∀ a, priv' = Some a →
        a ∉ lb' ∧ (priv = Some a ∨ heap st !! a = None)) →
  map_wf hash Buckets priv' st' ∧
  (∀ b' l, b' ≠ b → bucket_list st' b' l ↔ bucket_list st b' l).
Proof.
  intros Hwf Hb Hb' Hlen Hbk Hheap Hsorted Hhash Hlinked Hpriv.
  assert (Htransfer : ∀ b' l, b' ≠ b → bucket_list st b' l →
            bucket_list st' b' l ∧ ∀ a, a ∈ l → heap st' !! a = heap st !! a).
  { intros b' l Hne Hl.
    assert (Hag : ∀ a, a ∈ l → heap st' !! a = heap st !! a).
    { intros a Ha. apply Hheap.
      - intros Ha'. apply Hne. by eapply wf_disjoint.
      - intros Hp. by eapply (wf_priv _ _ _ _ Hwf).
      - intros Hp. destruct (Hpriv a Hp) as [_ [Hp0|Hnone]].
        + by eapply (wf_priv _ _ _ _ Hwf).
        + destruct (bucket_list_lookup _ _ _ _ Hl Ha) as [? ?]. congruence. }
    split; [|done]. apply (bucket_list_agree st st'); auto. }
  assert (Hafter : ∀ b' l, bucket_list st' b' l →
            (b' = b ∧ l = lb') ∨ (b' ≠ b ∧ bucket_list st b' l)).
  { intros b' l Hl. destruct (decide (b' = b)) as [->|Hne].
    - left. split; [done|]. by eapply bucket_list_func.
    - right. split; [done|].
      pose proof (bucket_list_lt _ _ _ Hl) as Hlt.
      rewrite Hlen, (wf_length _ _ _ _ Hwf) in Hlt.
      destruct (wf_lists _ _ _ _ Hwf b' Hlt) as (l0 & Hl0).
      destruct (Htransfer b' l0 Hne Hl0) as [Hl0' _].
      by rewrite (bucket_list_func _ _ _ _ Hl Hl0'). }
  split; [split|].
  - by eapply wf_pos.
  - by rewrite Hlen, (wf_length _ _ _ _ Hwf).
  - intros b' Hlt. destruct (decide (b' = b)) as [->|Hne]; [eauto|].
    destruct (wf_lists _ _ _ _ Hwf b' Hlt) as (l0 & Hl0).
    exists l0. by apply Htransfer.
  - intros b' l Hl. destruct (Hafter b' l Hl) as [[-> ->]|[Hne Hl0]]; [done|].
    destruct (Htransfer b' l Hne Hl0) as [_ Hag].
    eapply sorted_keys_agree; [|by eapply (wf_sorted _ _ _ _ Hwf)].
    intros a Ha. apply key_at_agree. by apply Hag.
  - intros b' l a Hl Ha. destruct (Hafter b' l Hl) as [[-> ->]|[Hne Hl0]]; [by apply Hhash|].
    destruct (Htransfer b' l Hne Hl0) as [_ Hag].
    rewrite (key_at_agree _ _ _ (Hag a Ha)). by eapply (wf_hash _ _ _ _ Hwf).
  - intros a Ha Hm. destruct (Hlinked a Ha Hm) as [?|[?|(Hnl & Hnp & Hm0)]]; [by left|right; eauto|].
    destruct (decide (priv' = Some a)) as [?|Hnp']; [by left|].
    right. pose proof (Hheap a Hnl Hnp Hnp') as Heq.
    rewrite Heq in Ha.
    destruct (wf_linked _ _ _ _ Hwf a Ha Hm0) as [?|(b0 & l0 & Hl0 & Ha0)]; [done|].
    assert (b0 ≠ b) as Hne.
    { intros ->. by rewrite (bucket_list_func _ _ _ _ Hl0 Hb) in Ha0. }
    exists b0, l0. split; [|done]. by apply Htransfer.
  - intros a b' l Hp Hl. destruct (Hpriv a Hp) as [Hnl Hp0].
    destruct (Hafter b' l Hl) as [[-> ->]|[Hne Hl0]]; [done|].
    destruct Hp0 as [Hp0|Hnone]; [by eapply (wf_priv _ _ _ _ Hwf)|].
    intros Ha. destruct (bucket_list_lookup _ _ _ _ Hl0 Ha) as [? ?]. congruence.
  - intros b' l Hne. split.
    + intros Hl. by destruct (Hafter b' l Hl) as [[-> ->]|[_ Hl0]].
    + intros Hl. by apply Htransfer.
Qed.

End Invariant.

Section HelpingInvariant.
Context {Value : Type}.
Variable hash : Key → nat.
Variable Buckets : nat.
Implicit Types (st : @map_state Value) (l pre rest : list addr) (b : nat).
Implicit Types (info : find_info) (p : concurrent_ptr_ref).
Implicit Types (h : gmap addr (@node Value)).

Lemma map_wf_ext priv st st' :
  buckets st' = buckets st → heap st' = heap st →
  map_wf hash Buckets priv st → map_wf hash Buckets priv st'.
Proof.
  intros Hb Hh Hwf.
  assert (Hiff : ∀ b l, bucket_list st' b l → bucket_list st b l).
  { intros b l. by apply bucket_list_ext. }
  assert (Hiff' : ∀ b l, bucket_list st b l → bucket_list st' b l).
  { intros b l. by apply bucket_list_ext. }
  destruct Hwf as [H0 H1 H2 H3 H4 H5 H6]. split; rewrite ?Hb, ?Hh.
  - done.
  - done.
  - intros b Hlt. destruct (H2 b Hlt) as [l Hl]. eauto.
  - eauto.
  - eauto.
  - intros a Ha Hm. destruct (H5 a Ha Hm) as [?|(b & l & ? & ?)]; eauto 10.
  - eauto.
Qed.

Lemma rtc_help_frame b st st' :
  rtc (help_step b) st st' →
  same_nodes (heap st) (heap st') ∧
  length (buckets st') = length (buckets st) ∧
  (∀ b', b' ≠ b → buckets st' !! b' = buckets st !! b') ∧
  kernel_calls st' = kernel_calls st ∧
  factory_calls st' = factory_calls st ∧
  (∃ used, cas_fail st = used ++ cas_fail st') ∧
  (∃ r, retired st' = retired st ++ r).
Proof.
  induction 1 as [st|st st1 st' Hstep _ IH].
  - split; [apply same_nodes_refl|]. split_and!; try done.
    + by exists [].
    + exists []. by rewrite app_nil_r.
  - apply help_step_frame in Hstep as (Hs & Hl & Hb & Hk & Hf & [u Hu] & [r Hr]).
    destruct IH as (Hs' & Hl' & Hb' & Hk' & Hf' & [u' Hu'] & [r' Hr']).
    split; [by eapply same_nodes_trans|]. split_and!.
    + congruence.
    + intros b' Hne. rewrite Hb', Hb; done.
    + congruence.
    + congruence.
    + exists (u ++ u'). by rewrite Hu, Hu', app_assoc.
    + exists (r ++ r'). by rewrite Hr', Hr, app_assoc.
Qed.

(** Helping is only possible while the list holds a marked node. *)
Lemma help_step_marked b st st' l :
  help_step b st st' → bucket_list st b l →
  ∃ a, a ∈ l ∧ node_marked (heap st) a = true.
Proof.
  intros [pre a post o Hb Ha _ _|pre a post st1 Hb Ha _ _ _ _] Hl;
    rewrite (bucket_list_func _ _ _ _ Hl Hb); exists a; split; auto; set_solver.
Qed.

Lemma rtc_help_quiet b st st' l :
  bucket_list st b l →
  (∀ a, a ∈ l → node_marked (heap st) a = false) →
  rtc (help_step b) st st' → st' = st.
Proof.
  intros Hl Hm Hrtc. destruct Hrtc as [|st st1 st' Hstep _]; [done|].
  destruct (help_step_marked _ _ _ _ Hstep Hl) as (a & Ha & Hma).
  rewrite Hm in Hma; done.
Qed.

Lemma help_step_wf priv b st st' :
  map_wf hash Buckets priv st → help_step b st st' →
  map_wf hash Buckets priv st' ∧
  (∀ b' l, b' ≠ b → bucket_list st' b' l ↔ bucket_list st b' l) ∧
  (∀ l, bucket_list st b l →
        ∃ l', bucket_list st' b l' ∧ l' `sublist_of` l ∧
              (∀ a, a ∈ l → node_marked (heap st) a = false → a ∈ l')).
Proof.
  intros Hwf Hstep.
  pose proof (help_step_frame _ _ _ Hstep) as (Hsame & Hlen & Hbk & _).
  destruct Hstep as [pre a post o Hb Ha Ho ->|pre a post st1 Hb Ha Hs Hst Ho ->].
  - split; [by apply (map_wf_ext priv st)|]. split.
    + intros b' l _. split; by apply bucket_list_ext.
    + intros l Hl. exists l. split; [by eapply bucket_list_ext|]. done.
  - set (st0 := set_cas_fail (tail (cas_fail st)) st) in *.
    destruct (tail_of_list st b (pre ++ [a]) post) as (q & Hq).
    { by rewrite <- app_assoc. }
    pose proof (lseg_head_None _ _ _ Hq) as ->.
    pose proof (bucket_list_NoDup _ _ _ Hb) as Hnd.
    destruct (store_link_list st0 b pre (a :: post) (head post) post) as (st1' & Hst' & Hb1).
    { by eapply bucket_list_ext. }
    { done. }
    { intros s Hlast Hin. apply last_snoc_inv in Hlast as (pre' & ->).
      apply NoDup_app in Hnd as (_ & Hnd & _). eapply (Hnd s); set_solver. }
    assert (st1' = st1) as -> by congruence. clear Hst'.
    set (st2 := set_retired (retired st1 ++ [a]) st1) in *.
    assert (Hb2 : bucket_list st2 b (pre ++ post)).
    { by eapply bucket_list_ext. }
    assert (Hsub : pre ++ post `sublist_of` pre ++ a :: post).
    { apply sublist_app; [done|]. by apply sublist_cons. }
    assert (Hheap : ∀ x, x ∉ pre ++ a :: post → heap st2 !! x = heap st !! x).
    { intros x Hx. apply store_inv in Hst as (_ & _ & _ & _ & Hp). simpl.
      unfold link_after in Hp. destruct (last pre) as [s|] eqn:Hlast.
      - destruct Hp as (_ & n & Hn & ->). simpl. apply lookup_insert_ne.
        intros ->. apply Hx. apply last_snoc_inv in Hlast as (pre' & ->). set_solver.
      - by destruct Hp as (_ & -> & _). }
    destruct (map_wf_update hash Buckets priv priv b (pre ++ a :: post) (pre ++ post) st st2)
      as [Hwf2 Hothers]; try done.
    + intros x Hx _ _. by apply Hheap.
    + eapply sorted_keys_agree; [intros; by apply same_nodes_key|].
      eapply sorted_keys_sublist; [done|]. by eapply (wf_sorted _ _ _ _ Hwf).
    + intros x Hx. rewrite (same_nodes_key _ _ _ Hsame).
      eapply (wf_hash _ _ _ _ Hwf); [done|]. revert Hx. by apply sublist_subseteq.
    + intros x Hx Hm. rewrite (same_nodes_marked _ _ _ Hsame) in Hm.
      destruct (decide (x ∈ pre ++ a :: post)) as [Hin|Hnin].
      * right; left. apply elem_of_app in Hin as [?|[->|?]%elem_of_cons]; [set_solver| |set_solver].
        rewrite Ha in Hm; done.
      * destruct (decide (priv = Some x)); [by left|]. right; right. done.
    + intros x Hp. split; [|by left]. intros Hx.
      eapply (wf_priv _ _ _ _ Hwf); [done..|]. revert Hx. by apply sublist_subseteq.
    + split; [done|]. split; [done|].
      intros l Hl. rewrite (bucket_list_func _ _ _ _ Hl Hb).
      exists (pre ++ post). split; [done|]. split; [done|].
      intros x Hx Hm. apply elem_of_app in Hx as [?|[->|?]%elem_of_cons]; [set_solver| |set_solver].
      rewrite Ha in Hm; done.
Qed.

Lemma rtc_help_wf priv b st st' :
  map_wf hash Buckets priv st → rtc (help_step b) st st' →
  map_wf hash Buckets priv st' ∧
  (∀ b' l, b' ≠ b → bucket_list st' b' l ↔ bucket_list st b' l) ∧
  (∀ l, bucket_list st b l →
        ∃ l', bucket_list st' b l' ∧ l' `sublist_of` l ∧
              (∀ a, a ∈ l → node_marked (heap st) a = false → a ∈ l')).
Proof.
  intros Hwf Hrtc. revert Hwf.
  induction Hrtc as [st|st st1 st' Hstep Hrtc IH]; intros Hwf.
  - split; [done|]. split; [done|]. intros l Hl. exists l. done.
  - pose proof (help_step_frame _ _ _ Hstep) as (Hsame & _).
    destruct (help_step_wf _ _ _ _ Hwf Hstep) as (Hwf1 & Ho1 & Hl1).
    destruct (IH Hwf1) as (Hwf' & Ho' & Hl').
    split; [done|]. split.
    + intros b' l Hne. by rewrite Ho', Ho1.
    + intros l Hl. destruct (Hl1 l Hl) as (l1 & Hb1 & Hsub1 & Hin1).
      destruct (Hl' l1 Hb1) as (l' & Hb' & Hsub' & Hin').
      exists l'. split; [done|]. split; [by etrans|].
      intros a Ha Hm. apply Hin'; [by apply Hin1|].
      by rewrite (same_nodes_marked _ _ _ Hsame).
Qed.

End HelpingInvariant.

(** ** Lookups *)

Section Positions.
Context {Value : Type}.
Implicit Types (st : @map_state Value) (l pre rest : list addr) (b : nat).
Implicit Types (info : find_info) (p : concurrent_ptr_ref).
Implicit Types (h : gmap addr (@node Value)).

Lemma returns_bind {A B} (f : nat → @M Value A) (k : nat → A → @M Value B)
    st a st1 res :
  returns f st (a, st1) → returns (λ fuel, k fuel a) st1 res →
  returns (λ fuel, bind (f fuel) (k fuel)) st res.
Proof.
  intros [n Hn] [m Hm]. exists (n `max` m). intros fuel Hfuel.
  unfold bind. rewrite Hn by lia. apply Hm. lia.
Qed.

Lemma returns_const {A} (m : @M Value A) st res :
  m st = Some res → returns (λ _, m) st res.
Proof. intros H. by exists 0. Qed.

Lemma returns_ext {A} (f g : nat → @M Value A) st res :
  (∀ fuel, f fuel st = g fuel st) → returns g st res → returns f st res.
Proof. intros Hfg [n Hn]. exists n. intros fuel ?. rewrite Hfg. by apply Hn. Qed.

Lemma log_call_bucket_list st b key b' l :
  bucket_list (log_call b key st) b' l ↔ bucket_list st b' l.
Proof. done. Qed.

(** In a list without marked nodes the kernel changes nothing. *)
Lemma find_kernel_quiet st b l key info :
  bucket_list st b l →
  (∀ a, a ∈ l → node_marked (heap st) a = false) →
  valid_start st b l (prev info) (save info) →
  ∃ r info',
    returns (λ fuel, find_kernel fuel key b info) st ((r, info'), log_call b key st) ∧
    cursor_at (log_call b key st) b key (prev info) r info'.
Proof.
  intros Hb Hm Hv.
  destruct (find_kernel_spec key b st l info Hb Hv) as ([[r info'] st'] & Hret & Hrtc & Hcur).
  simpl in *.
  apply (rtc_help_quiet b _ _ l) in Hrtc; [|done|done]. subst st'.
  eauto.
Qed.

(** The position of the cursor in a sorted list, for a search that began
    at the head or behind a node of smaller key. *)
Lemma cursor_position st b l key start r info :
  bucket_list st b l → sorted_keys (heap st) l →
  (start = Some (BucketHead b) ∨
   ∃ s, start = Some (NodeNext s) ∧ (key_at (heap st) s < key)%Z) →
  cursor_at st b key start r info →
  at_position st b key l r info.
Proof.
  intros Hb Hsorted Hstart (pre0 & walked & rest & Hl & Hpre0 & Hwalked & _ & Hprev & Hsave & Hcur & Hrest).
  rewrite <- (bucket_list_func _ _ _ _ Hl Hb) in *. clear Hb.
  exists (pre0 ++ walked), rest. rewrite <- app_assoc.
  split_and!; try done.
  - intros a [Ha|Ha]%elem_of_app; [|by apply Hwalked].
    destruct Hpre0 as [->|(s & Hs & Hlast)]; [by apply elem_of_nil in Ha|].
    destruct Hstart as [->|(s' & -> & Hlt)]; [done|]. simplify_eq.
    apply last_snoc_inv in Hlast as (p0 & ->).
    apply elem_of_app in Ha as [Ha| ->%list_elem_of_singleton]; [|done].
    rewrite <- !app_assoc in Hsorted. simpl in Hsorted.
    pose proof (sorted_keys_lt_l _ _ _ _ _ Hsorted Ha). lia.
  - intros a Ha. destruct rest as [|c rest']; [by apply elem_of_nil in Ha|].
    destruct Hrest as (_ & Hc & _).
    apply elem_of_cons in Ha as [->|Ha]; [done|].
    rewrite app_assoc in Hsorted.
    pose proof (sorted_keys_lt _ _ _ _ _ Hsorted Ha). lia.
  - destruct rest as [|c rest']; [by destruct Hrest as [_ ->]|].
    by destruct Hrest as (_ & _ & _ & ->).
  - destruct rest as [|c rest']; [by destruct Hrest as [-> _]|].
    by destruct Hrest as (_ & _ & -> & _).
Qed.

(** What a position tells about the presence of the key. *)
Lemma at_position_found st b key l info :
  at_position st b key l true info →
  ∃ c, get (cur info) = Some c ∧ c ∈ l ∧ key_at (heap st) c = key.
Proof.
  intros (pre & rest & -> & _ & _ & _ & _ & Hcur & _ & Hr).
  destruct rest as [|c rest]; [done|]. exists c. rewrite Hcur. simpl.
  split; [done|]. split; [set_solver|]. symmetry in Hr. by apply Z.eqb_eq in Hr.
Qed.

Lemma at_position_absent st b key l info :
  sorted_keys (heap st) l →
  at_position st b key l false info →
  ∀ a, a ∈ l → key_at (heap st) a ≠ key.
Proof.
  intros Hsorted (pre & rest & -> & Hpre & Hrest & _ & _ & _ & _ & Hr) a Ha.
  apply elem_of_app in Ha as [Ha|Ha].
  - specialize (Hpre a Ha). lia.
  - destruct rest as [|c rest]; [by apply elem_of_nil in Ha|].
    symmetry in Hr. apply Z.eqb_neq in Hr.
    apply elem_of_cons in Ha as [->|Ha]; [done|].
    pose proof (sorted_keys_lt _ _ _ _ _ Hsorted Ha).
    specialize (Hrest c ltac:(set_solver)). lia.
Qed.

End Positions.

Section Lookup.
Context {Value : Type}.
Variable hash : Key → nat.
Variable Buckets : nat.
Implicit Types (st : @map_state Value) (l pre rest : list addr) (b : nat).
Implicit Types (info : find_info) (p : concurrent_ptr_ref).
Implicit Types (h : gmap addr (@node Value)).

(** The live nodes of a key are in the list of its bucket. *)
Lemma has_key_bucket priv st key l :
  map_wf hash Buckets priv st →
  bucket_list st (hash key mod Buckets) l →
  has_key st key ↔ ∃ a, a ∈ l ∧ key_at (heap st) a = key.
Proof.
  intros Hwf Hl. split.
  - intros (a & (b & l' & Hl' & Ha) & Hk). exists a. split; [|done].
    pose proof (wf_hash _ _ _ _ Hwf b l' a Hl' Ha) as Hb. rewrite Hk in Hb. subst b.
    by rewrite (bucket_list_func _ _ _ _ Hl Hl').
  - intros (a & Ha & Hk). exists a. split; [|done]. by exists (hash key mod Buckets), l.
Qed.

Lemma bucket_in_range priv st key :
  map_wf hash Buckets priv st → hash key mod Buckets < Buckets.
Proof. intros Hwf. apply Nat.mod_upper_bound. pose proof (wf_pos _ _ _ _ Hwf). lia. Qed.

Lemma valid_start_head st b l :
  valid_start st b l (prev (find_info_at (BucketHead b)))
    (save (find_info_at (BucketHead b))).
Proof. by left. Qed.

(** A search from the head of the bucket of the key, between operations. *)
Lemma find_kernel_head st key :
  map_inv hash Buckets st →
  let b := hash key mod Buckets in
  ∃ l r info',
    bucket_list st b l ∧
    returns (λ fuel, find_kernel fuel key b (find_info_at (BucketHead b))) st
      ((r, info'), log_call b key st) ∧
    at_position st b key l r info' ∧
    (r = true ↔ has_key st key).
Proof.
  intros [Hwf Hq] b.
  destruct (wf_lists _ _ _ _ Hwf b (bucket_in_range _ _ key Hwf)) as (l & Hl).
  destruct (find_kernel_quiet st b l key (find_info_at (BucketHead b)) Hl)
    as (r & info' & Hret & Hcur).
  { intros a Ha. by eapply Hq. }
  { apply valid_start_head. }
  assert (Hpos : at_position st b key l r info').
  { eapply (cursor_position (log_call b key st)); [done| |by left|done].
    by eapply (wf_sorted _ _ _ _ Hwf). }
  exists l, r, info'. split_and!; try done.
  rewrite (has_key_bucket _ _ _ _ Hwf Hl). destruct r.
  - split; [|done]. intros _. apply at_position_found in Hpos as (c & _ & ? & ?). eauto.
  - split; [done|]. intros (a & Ha & Hk).
    eapply at_position_absent in Hpos; [|by eapply (wf_sorted _ _ _ _ Hwf)|done]. done.
Qed.

(** [contains] answers whether the key is live and changes nothing. *)
Lemma contains_spec st key :
  map_inv hash Buckets st →
  ∃ r, returns (λ fuel, contains hash Buckets fuel key) st
         (r, log_call (hash key mod Buckets) key st) ∧
       (r = true ↔ has_key st key).
Proof.
  intros Hinv. destruct (find_kernel_head st key Hinv) as (l & r & info' & Hl & Hret & Hpos & Hr).
  exists r. split; [|done].
  unfold contains.
  eapply (returns_bind _ (λ _ x, let '(found, _) := x in ret found)); [exact Hret|].
  by apply returns_const.
Qed.

(** [find] returns an iterator at the live node of the key, or the end
    iterator, and changes nothing. *)
Lemma find_spec st key :
  map_inv hash Buckets st →
  let b := hash key mod Buckets in
  ∃ l (r : bool) info',
    bucket_list st b l ∧
    returns (λ fuel, find hash Buckets fuel key) st
      (if r then Iterator b info' else iterator_end Buckets, log_call b key st) ∧
    at_position st b key l r info' ∧
    (r = true ↔ has_key st key).
Proof.
  intros Hinv b. destruct (find_kernel_head st key Hinv) as (l & r & info' & Hl & Hret & Hpos & Hr).
  exists l, r, info'. split_and!; try done.
  unfold find.
  eapply (returns_bind _ (λ _ x, let '(found, info) := x in
            if (found : bool) then ret (Iterator b info) else end_ Buckets)); [exact Hret|].
  apply returns_const. by destruct r.
Qed.

End Lookup.

(** ** Insertion *)

Section InsertPaths.
Context {Value : Type}.
Variable hash : Key → nat.
Variable Buckets : nat.
Implicit Types (st : @map_state Value) (l pre rest : list addr) (b : nat).
Implicit Types (info : find_info) (p : concurrent_ptr_ref).
Implicit Types (h : gmap addr (@node Value)) (make : @M Value addr).

(** The three loops of the source are instances of [insert_loop]. *)
Lemma emplace_or_get_loop_eq kfuel fuel key make n b info st :
  emplace_or_get_loop kfuel fuel n b info st =
  insert_loop kfuel fuel key make b (Some n) info st.
Proof.
  revert info st. induction fuel as [|fuel IH]; intros info st; [done|]. simpl.
  unfold bind. destruct (node_key n st) as [[k st1]|]; [|done].
  destruct (find_kernel kfuel k b info st1) as [[[found info'] st2]|]; [|done].
  destruct found; [done|]. simpl.
  destruct (try_install n info' st2) as [[[ok info''] st3]|]; [|done].
  destruct ok; [done|]. simpl. apply IH.
Qed.

Lemma get_or_emplace_loop_eq kfuel fuel key args b n info st :
  get_or_emplace_loop kfuel fuel key args b n info st =
  insert_loop kfuel fuel key (new_node (key, args)) b n info st.
Proof.
  revert n info st. induction fuel as [|fuel IH]; intros n info st; [done|]. simpl.
  unfold bind. destruct (read_pkey key n st) as [[k st1]|]; [|done].
  destruct (find_kernel kfuel k b info st1) as [[[found info'] st2]|]; [|done].
  destruct found; [done|].
  destruct (match n with Some a => ret a | None => new_node (key, args) end st2)
    as [[a st3]|]; [|done].
  destruct (try_install a info' st3) as [[[ok info''] st4]|]; [|done].
  destruct ok; [done|]. simpl. apply IH.
Qed.

Lemma get_or_emplace_lazy_loop_eq kfuel fuel key value_factory b n info st :
  get_or_emplace_lazy_loop kfuel fuel key value_factory b n info st =
  insert_loop kfuel fuel key
    (bind (call_factory value_factory) (λ v, new_node (key, v))) b n info st.
Proof.
  revert n info st. induction fuel as [|fuel IH]; intros n info st; [done|]. simpl.
  unfold bind. destruct (read_pkey key n st) as [[k st1]|]; [|done].
  destruct (find_kernel kfuel k b info st1) as [[[found info'] st2]|]; [|done].
  destruct found; [done|].
  destruct n as [a|].
  - simpl. destruct (try_install a info' st2) as [[[ok info''] st4]|]; [|done].
    destruct ok; [done|]. simpl. apply IH.
  - destruct (call_factory value_factory st2) as [[v st3]|]; [|done].
    destruct (new_node (key, v) st3) as [[a st4]|]; [|done].
    destruct (try_install a info' st4) as [[[ok info''] st5]|]; [|done].
    destruct ok; [done|]. simpl. apply IH.
Qed.

(** *** One attempt to install a node *)

Lemma try_install_fail a info st na p o :
  heap st !! a = Some na → prev info = Some p →
  let cur_ := MarkedPtr (get (cur info)) false in
  let st1 := set_heap (<[a := Node (value na) cur_]> (heap st)) st in
  load p st1 = Some (cur_, st1) →
  cas_fail st = true :: o →
  try_install a info st =
  Some ((false, set_cur (MarkedPtr (Some a) false) info), set_cas_fail o st1).
Proof.
  intros Ha Hp cur_ st1 Hload Ho. unfold try_install.
  assert (Hst : store (NodeNext a) cur_ st = Some (tt, st1)).
  { unfold store. by rewrite Ha. }
  rewrite (bind_eq _ _ _ _ _ Hst).
  rewrite (bind_eq _ _ _ _ _ (prev_ref_eq (set_cur (MarkedPtr (Some a) false) info) p _ Hp)).
  by rewrite (bind_eq _ _ _ _ _ (cas_spurious _ _ _ _ _ Hload Ho)).
Qed.

Lemma try_install_ok a info st na p st' :
  heap st !! a = Some na → prev info = Some p →
  let cur_ := MarkedPtr (get (cur info)) false in
  let st1 := set_heap (<[a := Node (value na) cur_]> (heap st)) st in
  load p st1 = Some (cur_, st1) →
  head (cas_fail st) ≠ Some true →
  store p (MarkedPtr (Some a) false) (set_cas_fail (tail (cas_fail st)) st1) = Some (tt, st') →
  try_install a info st =
  Some ((true, set_cur (MarkedPtr (Some a) false) info), st').
Proof.
  intros Ha Hp cur_ st1 Hload Ho Hs. unfold try_install.
  assert (Hst : store (NodeNext a) cur_ st = Some (tt, st1)).
  { unfold store. by rewrite Ha. }
  rewrite (bind_eq _ _ _ _ _ Hst).
  rewrite (bind_eq _ _ _ _ _ (prev_ref_eq (set_cur (MarkedPtr (Some a) false) info) p _ Hp)).
  by rewrite (bind_eq _ _ _ _ _ (cas_success _ _ _ _ _ Hload Ho Hs)).
Qed.

End InsertPaths.

Section PrivateNode.
Context {Value : Type}.
Variable hash : Key → nat.
Variable Buckets : nat.
Implicit Types (st : @map_state Value) (l pre rest : list addr) (b : nat).
Implicit Types (info : find_info) (p : concurrent_ptr_ref).
Implicit Types (h : gmap addr (@node Value)) (make : @M Value addr).

(** An update of the private node alone: allocating it, writing to it or
    deleting it. *)
Lemma map_wf_private priv priv' st st' :
  map_wf hash Buckets priv st →
  buckets st' = buckets st →
  (∀ x, priv ≠ Some x → priv' ≠ Some x → heap st' !! x = heap st !! x) →
  (∀ a, priv' = Some a → priv = Some a ∨ heap st !! a = None) →
  (∀ a, priv = Some a → priv' ≠ Some a → heap st' !! a = None) →
  map_wf hash Buckets priv' st' ∧
  (∀ b l, bucket_list st' b l ↔ bucket_list st b l) ∧
  (quiet st → quiet st').
Proof.
  intros Hwf Hbk Hheap Hnew Hold.
  assert (Hag : ∀ b l x, bucket_list st b l → x ∈ l → heap st' !! x = heap st !! x).
  { intros b l x Hl Hx. apply Hheap.
    - intros Hp. by eapply (wf_priv _ _ _ _ Hwf).
    - intros Hp. destruct (Hnew x Hp) as [Hp0|Hnone].
      + by eapply (wf_priv _ _ _ _ Hwf).
      + destruct (bucket_list_lookup _ _ _ _ Hl Hx) as [? ?]. congruence. }
  assert (Hto : ∀ b l, bucket_list st b l → bucket_list st' b l).
  { intros b l Hl. apply (bucket_list_agree st st'); [by rewrite Hbk| |done].
    intros x Hx. by eapply Hag. }
  assert (Hfrom : ∀ b l, bucket_list st' b l → bucket_list st b l).
  { intros b l Hl. pose proof (bucket_list_lt _ _ _ Hl) as Hlt.
    rewrite Hbk, (wf_length _ _ _ _ Hwf) in Hlt.
    destruct (wf_lists _ _ _ _ Hwf b Hlt) as (l0 & Hl0).
    by rewrite (bucket_list_func _ _ _ _ Hl (Hto _ _ Hl0)). }
  split; [split|split].
  - by eapply wf_pos.
  - by rewrite Hbk, (wf_length _ _ _ _ Hwf).
  - intros b Hlt. destruct (wf_lists _ _ _ _ Hwf b Hlt) as (l0 & Hl0). eauto.
  - intros b l Hl. apply Hfrom in Hl.
    eapply sorted_keys_agree; [|by eapply (wf_sorted _ _ _ _ Hwf)].
    intros x Hx. apply key_at_agree. by eapply Hag.
  - intros b l x Hl Hx. apply Hfrom in Hl.
    rewrite (key_at_agree _ _ _ (Hag _ _ _ Hl Hx)). by eapply (wf_hash _ _ _ _ Hwf).
  - intros x Hx Hm. destruct (decide (priv' = Some x)) as [?|Hnp']; [by left|]. right.
    destruct (decide (priv = Some x)) as [Hp|Hnp].
    { rewrite (Hold x Hp Hnp') in Hx. by destruct Hx. }
    rewrite (Hheap x Hnp Hnp') in Hx.
    rewrite (node_marked_agree _ _ _ (Hheap x Hnp Hnp')) in Hm.
    destruct (wf_linked _ _ _ _ Hwf x Hx Hm) as [?|(b & l & Hl & Hin)]; [done|].
    exists b, l. eauto.
  - intros x b l Hp Hl. apply Hfrom in Hl. destruct (Hnew x Hp) as [Hp0|Hnone].
    + by eapply (wf_priv _ _ _ _ Hwf).
    + intros Hx. destruct (bucket_list_lookup _ _ _ _ Hl Hx) as [? ?]. congruence.
  - intros b l. split; eauto.
  - intros Hq b l x Hl Hx. apply Hfrom in Hl.
    rewrite (node_marked_agree _ _ _ (Hag _ _ _ Hl Hx)). by eapply Hq.
Qed.

End PrivateNode.

Section Insert.
Context {Value : Type}.
Variable hash : Key → nat.
Variable Buckets : nat.
Implicit Types (st : @map_state Value) (l pre rest : list addr) (b : nat).
Implicit Types (info : find_info) (p : concurrent_ptr_ref).
Implicit Types (h : gmap addr (@node Value)) (make : @M Value addr).

Lemma node_frame_refl (nd : @node Value) : node_frame nd nd.
Proof. by repeat split. Qed.

Lemma node_frame_trans (n1 n2 n3 : @node Value) :
  node_frame n1 n2 → node_frame n2 n3 → node_frame n1 n3.
Proof.
  intros (Hv & Hm & He) (Hv' & Hm' & He'). repeat split; [congruence..|].
  intros Hmk. rewrite He' by congruence. by apply He.
Qed.

Lemma node_kept_refl (nd : @node Value) : node_kept nd nd.
Proof. by split. Qed.

Lemma node_kept_trans (n1 n2 n3 : @node Value) :
  node_kept n1 n2 → node_kept n2 n3 → node_kept n1 n3.
Proof.
  intros (Hv & He) (Hv' & He'). split; [congruence|].
  intros Hmk. specialize (He Hmk). subst n2. by apply He'.
Qed.

Lemma node_frame_kept (n1 n2 : @node Value) : node_frame n1 n2 → node_kept n1 n2.
Proof. intros (Hv & _ & He). by split. Qed.

Lemma kept_refl n st : kept n st st.
Proof. intros x nd Hx _. exists nd. split; [done|apply node_kept_refl]. Qed.

Lemma kept_trans n st1 st2 st3 :
  kept n st1 st2 → kept n st2 st3 → kept n st1 st3.
Proof.
  intros H12 H23 x nd Hx Hn. destruct (H12 x nd Hx Hn) as (nd2 & Hx2 & Hf2).
  destruct (H23 x nd2 Hx2 Hn) as (nd3 & Hx3 & Hf3).
  exists nd3. split; [done|]. by eapply node_kept_trans.
Qed.

Lemma kept_weaken n st st' : kept None st st' → kept n st st'.
Proof. intros H x nd Hx _. by apply H. Qed.

Lemma same_nodes_kept n st st' : same_nodes (heap st) (heap st') → kept n st st'.
Proof.
  intros Hs x nd Hx _. specialize (Hs x). rewrite Hx in Hs.
  inversion Hs as [? nd' Hf|]; simplify_eq. exists nd'. split; [done|].
  by apply node_frame_kept.
Qed.

Lemma kept_key n st st' x :
  kept n st st' → is_Some (heap st !! x) → n ≠ Some x →
  key_at (heap st') x = key_at (heap st) x.
Proof.
  intros Hk [nd Hx] Hn. destruct (Hk x nd Hx Hn) as (nd' & Hx' & Hv & _).
  unfold key_at. by rewrite Hx, Hx', Hv.
Qed.

(** The search at the top of the loop of an insertion. *)
Lemma insert_find_step key st n info :
  insert_ready hash Buckets key st n info →
  let b := hash key mod Buckets in
  ∃ l r info1,
    bucket_list st b l ∧
    read_pkey key n st = Some (key, st) ∧
    returns (λ fuel, find_kernel fuel key b info) st ((r, info1), log_call b key st) ∧
    at_position st b key l r info1.
Proof.
  intros (Hwf & Hq & Hn & l & Hl & Hstart) b.
  destruct (find_kernel_quiet st b l key info Hl) as (r & info1 & Hret & Hcur).
  { intros a Ha. by eapply Hq. }
  { destruct Hstart as [[Hp Hs]|(s & Hp & Hs & Hin & Hlt)].
    - left. by rewrite Hp.
    - right. exists s. rewrite Hp, Hs. split_and!; try done.
      by eapply bucket_list_lookup. }
  exists l, r, info1. split_and!; try done.
  - destruct n as [a|]; [|done]. destruct (Hn a eq_refl) as (nd & Hnd & Hk & _).
    simpl. rewrite (node_key_eq _ _ _ Hnd). by rewrite Hk.
  - eapply (cursor_position (log_call b key st)); [done| | |done].
    + by eapply (wf_sorted _ _ _ _ Hwf).
    + destruct Hstart as [[-> _]|(s & -> & _ & _ & Hlt)]; [by left|right; eauto].
Qed.

End Insert.

Section Install.
Context {Value : Type}.
Variable hash : Key → nat.
Variable Buckets : nat.
Implicit Types (st : @map_state Value) (l pre rest : list addr) (b : nat).
Implicit Types (info : find_info) (p : concurrent_ptr_ref).
Implicit Types (h : gmap addr (@node Value)) (make : @M Value addr).

(** Writing the successor into the private node. *)
Lemma install_prepare st a (na : @node Value) v :
  map_wf hash Buckets (Some a) st → quiet st →
  heap st !! a = Some na → mark (next na) = false →
  let st1 := set_heap (<[a := Node (value na) (MarkedPtr v false)]> (heap st)) st in
  map_wf hash Buckets (Some a) st1 ∧ quiet st1 ∧
  (∀ b l, bucket_list st1 b l ↔ bucket_list st b l) ∧
  same_nodes (heap st) (heap st1).
Proof.
  intros Hwf Hq Ha Hm st1.
  destruct (map_wf_private hash Buckets (Some a) (Some a) st st1 Hwf) as (Hwf1 & Hl1 & Hq1).
  - done.
  - intros x Hx _. simpl. apply lookup_insert_ne. congruence.
  - intros x ?. by left.
  - intros x ? ?. done.
  - split_and!; auto. by apply same_nodes_insert.
Qed.

(** Linking the private node [a] between [pre] and [rest]. *)
Lemma install_link key st a (na : @node Value) pre rest :
  let b := hash key mod Buckets in
  map_wf hash Buckets (Some a) st → quiet st →
  heap st !! a = Some na → fst (value na) = key → get (next na) = head rest →
  mark (next na) = false →
  bucket_list st b (pre ++ rest) →
  (∀ x, x ∈ pre → (key_at (heap st) x < key)%Z) →
  (∀ x, x ∈ rest → (key < key_at (heap st) x)%Z) →
  ∃ st', store (link_after b pre) (MarkedPtr (Some a) false)
           (set_cas_fail (tail (cas_fail st)) st) = Some (tt, st') ∧
         map_inv hash Buckets st' ∧
         bucket_list st' b (pre ++ a :: rest) ∧
         (∀ b' l', b' ≠ b → bucket_list st' b' l' ↔ bucket_list st b' l') ∧
         same_nodes (heap st) (heap st') ∧
         retired st' = retired st ∧ cas_fail st' = tail (cas_fail st) ∧
         kernel_calls st' = kernel_calls st ∧ factory_calls st' = factory_calls st.
Proof.
  intros b Hwf Hq Ha Hk Hsucc Hm Hl Hpre Hrest.
  set (st0 := set_cas_fail (tail (cas_fail st)) st).
  assert (Hl0 : bucket_list st0 b (pre ++ rest)) by by eapply bucket_list_ext.
  assert (Hanl : a ∉ pre ++ rest) by by eapply (wf_priv _ _ _ _ Hwf).
  pose proof (bucket_list_NoDup _ _ _ Hl) as Hnd.
  destruct (tail_of_list st b pre rest Hl) as (q & Hq').
  pose proof (lseg_head_None _ _ _ Hq') as ->.
  destruct (store_link_list st0 b pre rest (Some a) (a :: rest) Hl0) as (st' & Hst & Hl').
  { simpl. split; [done|]. exists na. split; [done|]. by rewrite Hsucc. }
  { intros s Hs Hin. apply last_snoc_inv in Hs as (pre' & ->).
    apply elem_of_cons in Hin as [->|Hin]; [set_solver|].
    apply NoDup_app in Hnd as (_ & Hnd & _). eapply (Hnd s); set_solver. }
  exists st'. split; [done|].
  pose proof (store_inv _ _ _ _ Hst) as (Hr & Hc & Hkc & Hf & Hp). simpl in *.
  assert (Hsame : same_nodes (heap st) (heap st')).
  { unfold link_after in Hp. destruct (last pre) as [s|] eqn:Hlast.
    - destruct Hp as (_ & n & Hn & ->). apply same_nodes_insert; [done|].
      pose proof (Hq b (pre ++ rest) s Hl) as Hs. unfold node_marked in Hs.
      rewrite Hn in Hs. apply Hs. apply last_snoc_inv in Hlast as (pre' & ->). set_solver.
    - destruct Hp as (_ & -> & _). apply same_nodes_refl. }
  assert (Hheap : ∀ x, x ∉ pre ++ rest → heap st' !! x = heap st !! x).
  { intros x Hx. unfold link_after in Hp. destruct (last pre) as [s|] eqn:Hlast.
    - destruct Hp as (_ & n & Hn & ->). apply lookup_insert_ne.
      intros ->. apply Hx. apply last_snoc_inv in Hlast as (pre' & ->). set_solver.
    - by destruct Hp as (_ & -> & _). }
  assert (Hka : key_at (heap st) a = key).
  { unfold key_at. by rewrite Ha. }
  destruct (map_wf_update hash Buckets (Some a) None b (pre ++ rest) (pre ++ a :: rest) st st')
    as [Hwf' Hothers]; try done.
  - unfold link_after in Hp. destruct (last pre); [by destruct Hp as (-> & _)|].
    destruct Hp as (_ & _ & ->). by rewrite length_insert.
  - intros b' Hne. unfold link_after in Hp. destruct (last pre); [by destruct Hp as (-> & _)|].
    destruct Hp as (_ & _ & ->). by rewrite list_lookup_insert_ne.
  - intros x Hx _ _. by apply Hheap.
  - eapply sorted_keys_agree; [intros; by apply same_nodes_key|].
    pose proof (wf_sorted _ _ _ _ Hwf b _ Hl) as Hs. unfold sorted_keys in *.
    apply StronglySorted_app in Hs as (Hcross & Hs1 & Hs2).
    apply StronglySorted_app. split_and!; [|done|].
    + intros x y Hx [->|Hy]%elem_of_cons; [|by apply Hcross].
      unfold key_lt. rewrite Hka. by apply Hpre.
    + apply StronglySorted_cons. split; [|done].
      rewrite Forall_forall. intros y Hy. unfold key_lt. rewrite Hka. by apply Hrest.
  - intros x Hx. rewrite (same_nodes_key _ _ _ Hsame).
    apply elem_of_app in Hx as [Hx|[->|Hx]%elem_of_cons].
    + eapply (wf_hash _ _ _ _ Hwf); [done|set_solver].
    + by rewrite Hka.
    + eapply (wf_hash _ _ _ _ Hwf); [done|set_solver].
  - intros x Hx Hmx. rewrite (same_nodes_marked _ _ _ Hsame) in Hmx.
    destruct (decide (x = a)) as [->|Hne]; [right; left; set_solver|].
    destruct (decide (x ∈ pre ++ rest)) as [Hin|Hnin]; [right; left; set_solver|].
    right; right. split_and!; [done|congruence|done].
  - split_and!; try done.
    split; [done|]. intros b' l' x Hl'' Hx.
    rewrite (same_nodes_marked _ _ _ Hsame).
    destruct (decide (b' = b)) as [->|Hne].
    + rewrite (bucket_list_func _ _ _ _ Hl'' Hl') in Hx.
      apply elem_of_app in Hx as [Hx|[->|Hx]%elem_of_cons].
      * eapply Hq; [done|set_solver].
      * unfold node_marked. by rewrite Ha.
      * eapply Hq; [done|set_solver].
    + apply Hothers in Hl''; [|done]. by eapply Hq.
Qed.

End Install.

Section InsertLoop.
Context {Value : Type}.
Variable hash : Key → nat.
Variable Buckets : nat.
Implicit Types (st : @map_state Value) (l pre rest : list addr) (b : nat).
Implicit Types (info : find_info) (p : concurrent_ptr_ref).
Implicit Types (h : gmap addr (@node Value)) (make : @M Value addr).

(** One turn of the loop for a key that is not in the map. *)
Lemma insert_attempt key make st n info :
  insert_ready hash Buckets key st n info →
  ¬ has_key st key →
  (∀ st0, ∃ a st_a, make st0 = Some (a, st_a) ∧ allocates key st0 a st_a) →
  let b := hash key mod Buckets in
  ∃ N a info2,
    (n = Some a ∨ n = None ∧ heap st !! a = None) ∧
    get (cur info2) = Some a ∧
    ((head (cas_fail st) ≠ Some true ∧
      ∃ st',
        (∀ kfuel fuel, N ≤ kfuel →
           insert_loop kfuel (S fuel) key make b n info st =
           Some ((Iterator b info2, true), st')) ∧
        map_inv hash Buckets st' ∧
        valid_iter hash Buckets st' (Iterator b info2) ∧
        (∀ x, live st' x ↔ live st x ∨ x = a) ∧
        key_at (heap st') a = key ∧
        cas_fail st' = tail (cas_fail st) ∧
        kept None st st' ∧
        kernel_calls st' = kernel_calls st ++ [(b, key)] ∧
        insert_logs hash Buckets key make n a st st') ∨
     (∃ o st',
        cas_fail st = true :: o ∧
        (∀ kfuel fuel, N ≤ kfuel →
           insert_loop kfuel (S fuel) key make b n info st =
           insert_loop kfuel fuel key make b (Some a) info2 st') ∧
        insert_ready hash Buckets key st' (Some a) info2 ∧
        (∀ x, live st' x ↔ live st x) ∧
        cas_fail st' = o ∧
        kept None st st' ∧
        kernel_calls st' = kernel_calls st ++ [(b, key)] ∧
        insert_logs hash Buckets key make n a st st')).
Proof.
  intros Hready Habsent Hmake b.
  destruct (insert_find_step hash Buckets key st n info Hready)
    as (l & r & info1 & Hl & Hpkey & [N Hfind] & Hpos).
  destruct Hready as (Hwf & Hq & Hn & _).
  fold b in Hl, Hfind, Hpos.
  (* the key is absent, so the search fails *)
  assert (Habs : ∀ x, x ∈ l → key_at (heap st) x ≠ key).
  { intros x Hx Hk. apply Habsent. exists x. split; [|done]. by exists b, l. }
  assert (r = false) as ->.
  { destruct r; [|done]. apply at_position_found in Hpos as (c & _ & Hc & Hk).
    by destruct (Habs c Hc). }
  destruct Hpos as (pre & rest & -> & Hpre & Hrest & Hprev & Hsave & Hcur & _ & _).
  set (st1 := log_call b key st) in *.
  (* the node *)
  assert (∃ a st_a na,
    (match n with Some a => ret a | None => make end) st1 = Some (a, st_a) ∧
    (n = Some a ∨ n = None ∧ heap st !! a = None) ∧
    map_wf hash Buckets (Some a) st_a ∧ quiet st_a ∧
    heap st_a !! a = Some na ∧ fst (value na) = key ∧ mark (next na) = false ∧
    (∀ b' l', bucket_list st_a b' l' ↔ bucket_list st b' l') ∧
    kept None st st_a ∧
    (∀ x, x ≠ a → key_at (heap st_a) x = key_at (heap st) x) ∧
    cas_fail st_a = cas_fail st ∧
    kernel_calls st_a = kernel_calls st ++ [(b, key)] ∧
    insert_logs hash Buckets key make n a st st_a)
    as (a & st_a & na & Hmk & Hna & Hwfa & Hqa & Ha & Hka & Hma & Hla & Hkept & Hkeys & Hcf & Hkc & Hlogs).
  { destruct n as [a|].
    - destruct (Hn a eq_refl) as (na & Ha & Hk & Hm).
      exists a, st1, na. split_and!.
      * done.
      * by left.
      * by apply (map_wf_ext hash Buckets (Some a) st).
      * exact Hq.
      * done.
      * done.
      * done.
      * done.
      * intros x nd Hx _. exists nd. split; [done|apply node_kept_refl].
      * done.
      * done.
      * done.
      * split_and!; done.
    - destruct (Hmake st1) as (a & st_a & Hmk & Hfresh & Hbk & Hr & Hcf & Hkc & v & Hh).
      destruct (map_wf_private hash Buckets None (Some a) st st_a Hwf) as (Hwfa & Hla & Hqa).
      + done.
      + intros x _ Hx. rewrite Hh. apply lookup_insert_ne. congruence.
      + intros x [= <-]. by right.
      + done.
      + exists a, st_a, (Node (key, v) null_ptr). split_and!; try done.
        * by right.
        * by apply Hqa.
        * rewrite Hh. by rewrite lookup_insert_eq.
        * intros x nd Hx _. exists nd. split; [|apply node_kept_refl].
          rewrite Hh. rewrite lookup_insert_ne; [done|]. intros <-. simpl in Hfresh. congruence.
        * intros x Hx. apply key_at_agree. rewrite Hh. by apply lookup_insert_ne.
        * split_and!; [done|done|]. intros _. eauto. }
  (* the successor is written into the node *)
  set (cur_ := MarkedPtr (get (cur info1)) false).
  assert (Hcur_ : cur_ = MarkedPtr (head rest) false).
  { unfold cur_. by rewrite Hcur. }
  set (st_b := set_heap (<[a := Node (value na) cur_]> (heap st_a)) st_a).
  destruct (install_prepare hash Buckets st_a a na (get (cur info1)) Hwfa Hqa Ha Hma)
    as (Hwfb & Hqb & Hlb & Hsameb).
  fold cur_ st_b in Hwfb, Hqb, Hlb, Hsameb.
  assert (Hlb' : bucket_list st_b b (pre ++ rest)).
  { apply Hlb, Hla. done. }
  assert (Hload : load (link_after b pre) st_b = Some (cur_, st_b)).
  { rewrite Hcur_. apply load_link; [done|].
    intros s Hs. eapply Hqb; [done|].
    apply last_snoc_inv in Hs as (pre' & ->). set_solver. }
  assert (Hkeyb : ∀ x, x ≠ a → key_at (heap st_b) x = key_at (heap st) x).
  { intros x Hx. rewrite (same_nodes_key _ _ _ Hsameb). by apply Hkeys. }
  assert (Hanl : a ∉ pre ++ rest).
  { eapply (wf_priv _ _ _ _ Hwfb); done. }
  set (info2 := set_cur (MarkedPtr (Some a) false) info1).
  exists (S N), a, info2. split; [done|]. split; [done|].
  destruct (decide (head (cas_fail st) = Some true)) as [Ho|Ho].
  - (* the linking CAS fails spuriously *)
    right. destruct (cas_fail st) as [|[] o] eqn:Hcfs; try done. clear Ho.
    exists o, (set_cas_fail o st_b). split_and!; try done.
    + intros kfuel fuel Hk. simpl.
      rewrite (bind_eq _ _ _ _ _ Hpkey).
      rewrite (bind_eq _ _ _ _ _ (Hfind kfuel ltac:(lia))).
      rewrite (bind_eq _ _ _ _ _ Hmk).
      rewrite (bind_eq _ _ _ _ _ (try_install_fail a info1 st_a na _ o Ha Hprev Hload Hcf)).
      done.
    + split_and!.
      * by apply (map_wf_ext hash Buckets (Some a) st_b).
      * intros b' l' x Hl' Hx. eapply (Hqb b' l' x); [|done]. by eapply bucket_list_ext.
      * intros a' [= <-]. exists (Node (value na) cur_). simpl.
        rewrite lookup_insert_eq. done.
      * exists (pre ++ rest). split; [by eapply bucket_list_ext|].
        simpl. rewrite Hprev, Hsave. unfold link_after.
        destruct (last pre) as [s|] eqn:Hlast; [right|by left].
        exists s. split_and!; try done.
        -- apply last_snoc_inv in Hlast as (pre' & ->). set_solver.
        -- assert (Hs : s ∈ pre).
           { apply last_snoc_inv in Hlast as (pre' & ->). set_solver. }
           rewrite Hkeyb; [by apply Hpre|]. intros ->. apply Hanl. set_solver.
    + intros x. unfold live. split.
      * intros (b' & l' & Hl' & Hx). exists b', l'. split; [|done].
        apply Hla, Hlb. by eapply bucket_list_ext.
      * intros (b' & l' & Hl' & Hx). exists b', l'. split; [|done].
        apply (bucket_list_ext st_b); [done..|]. by apply Hlb, Hla.
    + eapply kept_trans; [done|]. by apply same_nodes_kept.
  - (* the linking CAS succeeds *)
    left. split; [done|].
    destruct (install_link hash Buckets key st_b a (Node (value na) cur_) pre rest)
      as (st' & Hst & Hinv' & Hl' & Hothers & Hsame' & Hr' & Hc' & Hkc' & Hf'); try done.
    { simpl. by rewrite lookup_insert_eq. }
    { by rewrite Hcur_. }
    { intros x Hx. rewrite Hkeyb; [by apply Hpre|]. intros ->. apply Hanl. set_solver. }
    { intros x Hx. rewrite Hkeyb; [|intros ->; apply Hanl; set_solver].
      specialize (Hrest x Hx). specialize (Habs x ltac:(set_solver)). lia. }
    exists st'. split_and!; try done.
    + intros kfuel fuel Hk. simpl.
      rewrite (bind_eq _ _ _ _ _ Hpkey).
      rewrite (bind_eq _ _ _ _ _ (Hfind kfuel ltac:(lia))).
      rewrite (bind_eq _ _ _ _ _ Hmk).
      assert (Ho' : head (cas_fail st_a) ≠ Some true) by by rewrite Hcf.
      rewrite (bind_eq _ _ _ _ _ (try_install_ok a info1 st_a na _ st' Ha Hprev Hload Ho' Hst)).
      done.
    + assert (Hka' : key_at (heap st') a = key).
      { rewrite (same_nodes_key _ _ _ Hsame'). unfold key_at. simpl.
        by rewrite lookup_insert_eq. }
      exists a. simpl. split_and!; [done| |by rewrite Hka'|].
      { eapply bucket_list_lookup; [exact Hl'|]. set_solver. }
      rewrite Hprev, Hsave. unfold link_after.
      destruct (last pre) as [s|] eqn:Hlast; [right|by left].
      assert (Hs : s ∈ pre).
      { apply last_snoc_inv in Hlast as (pre' & ->). set_solver. }
      exists s. split_and!; try done.
      * eapply bucket_list_lookup; [exact Hl'|]. set_solver.
      * eapply (wf_hash _ _ _ _ (inv_wf _ _ _ Hinv')); [exact Hl'|]. set_solver.
      * rewrite Hka', (same_nodes_key _ _ _ Hsame'), Hkeyb; [by apply Hpre|].
        intros ->. apply Hanl. set_solver.
    + intros x. unfold live. split.
      * intros (b' & l' & Hl'' & Hx). destruct (decide (b' = b)) as [->|Hne].
        -- rewrite (bucket_list_func _ _ _ _ Hl'' Hl') in Hx.
           destruct (decide (x = a)) as [->|Hxa]; [by right|]. left.
           exists b, (pre ++ rest). split; [done|]. set_solver.
        -- left. exists b', l'. split; [|done]. by apply Hla, Hlb, Hothers.
      * intros [(b' & l' & Hl'' & Hx)| ->].
        -- destruct (decide (b' = b)) as [->|Hne].
           ++ rewrite (bucket_list_func _ _ _ _ Hl'' Hl) in Hx.
              exists b, (pre ++ a :: rest). split; [done|]. set_solver.
           ++ exists b', l'. split; [|done]. by apply Hothers, Hlb, Hla.
        -- exists b, (pre ++ a :: rest). split; [done|]. set_solver.
    + rewrite (same_nodes_key _ _ _ Hsame'). unfold key_at. simpl.
      by rewrite lookup_insert_eq.
    + rewrite Hc'. simpl. by rewrite Hcf.
    + eapply kept_trans; [done|]. eapply kept_trans; by apply same_nodes_kept.
    + by rewrite Hkc'.
    + destruct Hlogs as (Hr & Hf1 & Hf2). split_and!.
      * by rewrite Hr'.
      * intros Hnn. rewrite Hf'. by apply Hf1.
      * intros Hnn. destruct (Hf2 Hnn) as (st_a' & ? & ?). exists st_a'. by rewrite Hf'.
Qed.

End InsertLoop.

Section InsertLoopSpec.
Context {Value : Type}.
Variable hash : Key → nat.
Variable Buckets : nat.
Implicit Types (st : @map_state Value) (l pre rest : list addr) (b : nat).
Implicit Types (info : find_info) (p : concurrent_ptr_ref).
Implicit Types (h : gmap addr (@node Value)) (make : @M Value addr).

Lemma live_lookup st x : live st x → is_Some (heap st !! x).
Proof. intros (b & l & Hl & Hx). by eapply bucket_list_lookup. Qed.

(** The loop of an insertion for a key that is not in the map: the node
    is linked after as many turns as the linking CAS fails, plus one. *)
Lemma insert_loop_absent key make :
  (∀ st0, ∃ a st_a, make st0 = Some (a, st_a) ∧ allocates key st0 a st_a) →
  let b := hash key mod Buckets in
  ∀ o st n info,
    cas_fail st = o →
    insert_ready hash Buckets key st n info →
    ¬ has_key st key →
    ∃ a info' st',
      returns2 (λ kfuel fuel, insert_loop kfuel fuel key make b n info) st
        ((Iterator b info', true), st') ∧
      get (cur info') = Some a ∧
      (n = Some a ∨ n = None ∧ heap st !! a = None) ∧
      map_inv hash Buckets st' ∧
      valid_iter hash Buckets st' (Iterator b info') ∧
      (∀ x, live st' x ↔ live st x ∨ x = a) ∧
      key_at (heap st') a = key ∧
      cas_fail st' = after_cas o ∧
      kept None st st' ∧
      kernel_calls st' =
        kernel_calls st ++ replicate (S (spurious_prefix o)) (b, key) ∧
      insert_logs hash Buckets key make n a st st'.
Proof.
  intros Hmake b o. induction o as [|x o IH]; intros st n info Ho Hready Habsent.
  - destruct (insert_attempt hash Buckets key make st n info Hready Habsent Hmake)
      as (N & a & info2 & Hn & Hcur & [(_ & st' & Hrun & Hinv & Hvi & Hlive & Hk & Hcf & Hkept & Hkc & Hlogs)
                                      |(o' & st' & Hcf & _)]); [|congruence].
    exists a, info2, st'. split_and!; try done.
    + exists (S N). intros kfuel [|fuel] ? ?; [lia|]. apply Hrun. lia.
    + by rewrite Hcf, Ho.
  - destruct (insert_attempt hash Buckets key make st n info Hready Habsent Hmake)
      as (N & a & info2 & Hn & Hcur & [(Hhd & st' & Hrun & Hinv & Hvi & Hlive & Hk & Hcf & Hkept & Hkc & Hlogs)
                                      |(o' & st1 & Hcf & Hrun & Hready1 & Hlive1 & Hcf1 & Hkept1 & Hkc1 & Hlogs1)]).
    + rewrite Ho in Hhd, Hcf. destruct x; [done|].
      exists a, info2, st'. split_and!; try done.
      exists (S N). intros kfuel [|fuel] ? ?; [lia|]. apply Hrun. lia.
    + rewrite Ho in Hcf. simplify_eq.
      destruct (IH st1 (Some a) info2 eq_refl Hready1)
        as (a' & info' & st' & [N' Hrun'] & Hcur' & Hn' & Hinv & Hvi & Hlive & Hk & Hcf' & Hkept & Hkc & Hlogs).
      { intros (y & Hy & Hky). apply Habsent. exists y. split; [by apply Hlive1|].
        rewrite <- Hky. symmetry. eapply kept_key; [done| |done].
        apply live_lookup. by apply Hlive1. }
      destruct Hn' as [[= <-]|[? _]]; [|done].
      exists a, info', st'. split_and!; try done.
      * exists (S (N `max` N')). intros kfuel [|fuel] ? ?; [lia|].
        rewrite Hrun by lia. apply Hrun'; lia.
      * intros y. rewrite Hlive. by rewrite Hlive1.
      * by eapply kept_trans.
      * rewrite Hkc, Hkc1. simpl. by rewrite <- app_assoc.
      * destruct Hlogs1 as (Hr1 & Hf1 & Hf1'). destruct Hlogs as (Hr & Hf & _).
        split_and!.
        -- congruence.
        -- intros Hnn. rewrite Hf by done. by apply Hf1.
        -- intros Hnn. destruct (Hf1' Hnn) as (st_a & ? & ?). exists st_a.
           split; [done|]. rewrite Hf by done. done.
Qed.

(** The loop of an insertion for a key that is in the map: one search,
    the node if any is deleted, and nothing else changes. *)
Lemma insert_loop_present key make st n info :
  let b := hash key mod Buckets in
  insert_ready hash Buckets key st n info →
  has_key st key →
  ∃ l info',
    bucket_list st b l ∧
    at_position st b key l true info' ∧
    returns2 (λ kfuel fuel, insert_loop kfuel fuel key make b n info) st
      ((Iterator b info', false),
       log_call b key
         (match n with
          | Some a => set_heap (delete a (heap st)) st
          | None => st
          end)).
Proof.
  intros b Hready Hkey.
  destruct (insert_find_step hash Buckets key st n info Hready)
    as (l & r & info1 & Hl & Hpkey & [N Hfind] & Hpos).
  destruct Hready as (Hwf & Hq & Hn & _).
  fold b in Hl, Hfind, Hpos.
  assert (r = true) as ->.
  { destruct r; [done|].
    destruct (proj1 (has_key_bucket hash Buckets n st key l Hwf Hl) Hkey) as (c & Hc & Hk).
    eapply at_position_absent in Hpos; [|by eapply (wf_sorted _ _ _ _ Hwf)|done]. done. }
  exists l, info1. split_and!; try done.
  exists (S N). intros kfuel [|fuel] ? ?; [lia|]. simpl.
  rewrite (bind_eq _ _ _ _ _ Hpkey).
  rewrite (bind_eq _ _ _ _ _ (Hfind kfuel ltac:(lia))).
  by destruct n.
Qed.

End InsertLoopSpec.

Section InsertSpec.
Context {Value : Type}.
Variable hash : Key → nat.
Variable Buckets : nat.
Implicit Types (st : @map_state Value) (l pre rest : list addr) (b : nat).
Implicit Types (info : find_info) (p : concurrent_ptr_ref).
Implicit Types (h : gmap addr (@node Value)) (make : @M Value addr).

Lemma has_key_dec st key :
  map_inv hash Buckets st → has_key st key ∨ ¬ has_key st key.
Proof.
  intros Hinv.
  destruct (find_kernel_head hash Buckets st key Hinv) as (l & r & info' & _ & _ & _ & Hr).
  destruct r; [left; by apply Hr|right]. intros H. apply Hr in H. done.
Qed.

Lemma map_inv_ext st st' :
  buckets st' = buckets st → heap st' = heap st →
  map_inv hash Buckets st → map_inv hash Buckets st'.
Proof.
  intros Hb Hh [Hwf Hq]. split; [by eapply map_wf_ext|].
  intros b l a Hl Ha. rewrite Hh. eapply Hq; [|done]. by eapply bucket_list_ext.
Qed.

Lemma live_ext st st' x :
  buckets st' = buckets st → heap st' = heap st → live st x → live st' x.
Proof.
  intros Hb Hh (b & l & Hl & Hx). exists b, l. split; [|done].
  by eapply bucket_list_ext.
Qed.

Lemma has_key_ext st st' k :
  buckets st' = buckets st → heap st' = heap st → has_key st k → has_key st' k.
Proof.
  intros Hb Hh (x & Hx & Hk). exists x. rewrite Hh. split; [|done]. by eapply live_ext.
Qed.

Lemma kept_ext n st st' : heap st' = heap st → kept n st st'.
Proof.
  intros Hh x nd Hx _. exists nd. rewrite Hh. split; [done|apply node_kept_refl].
Qed.

Lemma valid_iter_kept st st' it :
  kept None st st' → valid_iter hash Buckets st it → valid_iter hash Buckets st' it.
Proof.
  intros Hk (c & Hcur & [nc Hc] & Hb & Hs).
  assert (Hkc : key_at (heap st') c = key_at (heap st) c).
  { eapply kept_key; eauto. }
  exists c. rewrite Hkc. split_and!; try done.
  - destruct (Hk c nc Hc) as (? & -> & _); done.
  - destruct Hs as [?|(s & Hp & Hsv & [ns Hs] & Hh & Hlt)]; [by left|right].
    assert (Hks : key_at (heap st') s = key_at (heap st) s).
    { eapply kept_key; eauto. }
    exists s. rewrite Hks. split_and!; try done.
    destruct (Hk s ns Hs) as (? & -> & _); done.
Qed.

(** The iterator that a successful search hands out. *)
Lemma at_position_valid_iter priv st key l info :
  let b := hash key mod Buckets in
  map_wf hash Buckets priv st → bucket_list st b l →
  at_position st b key l true info →
  valid_iter hash Buckets st (Iterator b info) ∧
  ∃ c, get (cur info) = Some c ∧ live st c ∧ key_at (heap st) c = key.
Proof.
  intros b Hwf Hl (pre & rest & -> & Hpre & Hrest & Hprev & Hsave & Hcur & _ & Hr).
  destruct rest as [|c rest]; [done|].
  symmetry in Hr. apply Z.eqb_eq in Hr.
  assert (Hlive : live st c).
  { exists b, (pre ++ c :: rest). split; [done|set_solver]. }
  split; [|exists c; by rewrite Hcur].
  exists c. simpl. split_and!; [done|by apply live_lookup|by rewrite Hr|].
  rewrite Hprev, Hsave. unfold link_after.
  destruct (last pre) as [s|] eqn:Hlast; [right|by left].
  assert (Hs : s ∈ pre).
  { apply last_snoc_inv in Hlast as (pre' & ->). set_solver. }
  exists s. split_and!; try done.
  - eapply bucket_list_lookup; [exact Hl|set_solver].
  - eapply (wf_hash _ _ _ _ Hwf); [exact Hl|set_solver].
  - rewrite Hr. by apply Hpre.
Qed.

Lemma has_key_insert st st' a key :
  (∀ x, live st' x ↔ live st x ∨ x = a) →
  kept None st st' → key_at (heap st') a = key →
  ∀ k, has_key st' k ↔ has_key st k ∨ k = key.
Proof.
  intros Hlive Hkept Hka k. split.
  - intros (x & Hx & Hk). apply Hlive in Hx as [Hx| ->]; [left|right; congruence].
    exists x. split; [done|]. rewrite <- Hk. symmetry.
    eapply kept_key; [done|by apply live_lookup|done].
  - intros [(x & Hx & Hk)| ->].
    + exists x. split; [apply Hlive; by left|]. rewrite <- Hk.
      eapply kept_key; [done|by apply live_lookup|done].
    + exists a. split; [apply Hlive; by right|done].
Qed.

Lemma map_inv_ready st key :
  map_inv hash Buckets st →
  insert_ready hash Buckets key st None
    (find_info_at (BucketHead (hash key mod Buckets))).
Proof.
  intros [Hwf Hq]. split_and!; [done|done|done|].
  destruct (wf_lists _ _ _ _ Hwf _ (bucket_in_range hash Buckets None st key Hwf)) as (l & Hl).
  exists l. split; [done|]. by left.
Qed.

(** The loop of an insertion, entered between operations with no node
    constructed yet. *)
Lemma insert_loop_spec key make st :
  (∀ st0, ∃ a st_a, make st0 = Some (a, st_a) ∧ allocates key st0 a st_a) →
  map_inv hash Buckets st →
  let b := hash key mod Buckets in
  ∃ res,
    returns2 (λ kfuel fuel,
      insert_loop kfuel fuel key make b None (find_info_at (BucketHead b))) st res ∧
    insert_outcome hash Buckets key st res ∧
    (snd (fst res) = false → factory_calls (snd res) = factory_calls st) ∧
    (snd (fst res) = true →
     ∃ a st_a, make (log_call b key st) = Some (a, st_a) ∧
               factory_calls (snd res) = factory_calls st_a).
Proof.
  intros Hmake Hinv b. pose proof (map_inv_ready st key Hinv) as Hready.
  destruct (has_key_dec st key Hinv) as [Hkey|Hkey].
  - destruct (insert_loop_present hash Buckets key make st None _ Hready Hkey)
      as (l & info' & Hl & Hpos & Hret).
    eexists. split; [exact Hret|]. simpl.
    destruct (at_position_valid_iter None st key l info' (inv_wf _ _ _ Hinv) Hl Hpos)
      as (Hvi & c & Hc & Hlive & Hk).
    split; [|done]. unfold insert_outcome. simpl. split_and!.
    + by apply (map_inv_ext st).
    + done.
    + intros k. split.
      * intros H. left. by apply (has_key_ext (log_call b key st) st).
      * intros [H| ->]; by apply (has_key_ext st).
    + intros x. by apply live_ext.
    + by apply kept_ext.
    + by apply (valid_iter_kept st); [apply kept_ext|].
    + done.
    + exists c. split_and!; done.
    + done.
    + done.
    + done.
    + done.
  - destruct (insert_loop_absent hash Buckets key make Hmake _ st None _ eq_refl Hready Hkey)
      as (a & info' & st' & Hret & Hcur & Hn & Hinv' & Hvi & Hlive & Hk & Hcf & Hkept & Hkc & Hlogs).
    exists ((Iterator b info', true), st'). split; [exact Hret|]. simpl.
    destruct Hlogs as (Hr & _ & Hf).
    split; [|split; [done|intros _; exists a; by apply Hf]].
    unfold insert_outcome. simpl. split_and!.
    + done.
    + done.
    + by eapply has_key_insert.
    + intros x Hx. apply Hlive. by left.
    + done.
    + done.
    + done.
    + exists a. split_and!; try done. apply Hlive. by right.
    + done.
    + done.
    + done.
    + done.
Qed.

End InsertSpec.

Section InsertOps.
Context {Value : Type}.
Variable hash : Key → nat.
Variable Buckets : nat.
Implicit Types (st : @map_state Value) (l pre rest : list addr) (b : nat).
Implicit Types (info : find_info) (p : concurrent_ptr_ref).
Implicit Types (h : gmap addr (@node Value)) (make : @M Value addr).

Lemma returns2_diag {A} (f : nat → nat → @M Value A) st res :
  returns2 f st res → returns (λ fuel, f fuel fuel) st res.
Proof. intros [n Hn]. exists n. intros fuel ?. by apply Hn. Qed.

Lemma returns2_ext {A} (f g : nat → nat → @M Value A) st res :
  (∀ kfuel fuel, f kfuel fuel st = g kfuel fuel st) →
  returns2 g st res → returns2 f st res.
Proof. intros Hfg [n Hn]. exists n. intros kfuel fuel ? ?. rewrite Hfg. by apply Hn. Qed.

Lemma fresh_lookup h : h !! fresh (dom h) = None.
Proof. apply not_elem_of_dom, is_fresh. Qed.

Lemma set_heap_id st : set_heap (heap st) st = st.
Proof. by destruct st. Qed.

Lemma new_node_allocates key (v : Value) st :
  ∃ a st_a, new_node (key, v) st = Some (a, st_a) ∧ allocates key st a st_a ∧
            factory_calls st_a = factory_calls st.
Proof.
  eexists _, _. split; [done|]. split; [|done].
  split; [apply fresh_lookup|]. simpl. split_and!; try done. by exists v.
Qed.

Lemma lazy_make_allocates key (value_factory : unit → Value) st :
  ∃ a st_a,
    bind (call_factory value_factory) (λ v, new_node (key, v)) st = Some (a, st_a) ∧
    allocates key st a st_a ∧ factory_calls st_a = S (factory_calls st).
Proof.
  eexists _, _. split; [done|]. split; [|done].
  split; [apply fresh_lookup|]. simpl. split_and!; try done. by eexists.
Qed.

(** [get_or_emplace]. *)
Lemma get_or_emplace_spec st key (args : Value) :
  map_inv hash Buckets st →
  ∃ res, returns (λ fuel, get_or_emplace hash Buckets fuel key args) st res ∧
         insert_outcome hash Buckets key st res ∧
         factory_calls (snd res) = factory_calls st.
Proof.
  intros Hinv.
  destruct (insert_loop_spec hash Buckets key (new_node (key, args)) st)
    as (res & Hret & Hout & Hf0 & Hf1); [|done|].
  { intros st0. destruct (new_node_allocates key args st0) as (a & st_a & ? & ? & _). eauto. }
  exists res. split_and!; [|done|].
  - apply (returns2_diag (λ kfuel fuel,
      get_or_emplace_loop kfuel fuel key args (hash key mod Buckets) None
        (find_info_at (BucketHead (hash key mod Buckets))))).
    eapply returns2_ext; [|exact Hret].
    intros kfuel fuel. apply get_or_emplace_loop_eq.
  - destruct (snd (fst res)); [|by apply Hf0].
    destruct (Hf1 eq_refl) as (a & st_a & Hmk & ->).
    destruct (new_node_allocates key args (log_call (hash key mod Buckets) key st))
      as (a' & st_a' & Hmk' & _ & Hf). rewrite Hmk in Hmk'. by simplify_eq.
Qed.

(** [get_or_emplace_lazy]: the factory runs once if the key is absent and
    not at all if it is present. *)
Lemma get_or_emplace_lazy_spec st key (value_factory : unit → Value) :
  map_inv hash Buckets st →
  ∃ res, returns (λ fuel, get_or_emplace_lazy hash Buckets fuel key value_factory) st res ∧
         insert_outcome hash Buckets key st res ∧
         factory_calls (snd res) =
           factory_calls st + (if snd (fst res) then 1 else 0).
Proof.
  intros Hinv.
  destruct (insert_loop_spec hash Buckets key
              (bind (call_factory value_factory) (λ v, new_node (key, v))) st)
    as (res & Hret & Hout & Hf0 & Hf1); [|done|].
  { intros st0. destruct (lazy_make_allocates key value_factory st0) as (a & st_a & ? & ? & _). eauto. }
  exists res. split_and!; [|done|].
  - apply (returns2_diag (λ kfuel fuel,
      get_or_emplace_lazy_loop kfuel fuel key value_factory (hash key mod Buckets) None
        (find_info_at (BucketHead (hash key mod Buckets))))).
    eapply returns2_ext; [|exact Hret].
    intros kfuel fuel. apply get_or_emplace_lazy_loop_eq.
  - destruct (snd (fst res)); [|rewrite Hf0 by done; lia].
    destruct (Hf1 eq_refl) as (a & st_a & Hmk & ->).
    destruct (lazy_make_allocates key value_factory (log_call (hash key mod Buckets) key st))
      as (a' & st_a' & Hmk' & _ & Hf). rewrite Hmk in Hmk'. simplify_eq. rewrite Hf. simpl. lia.
Qed.

End InsertOps.

Section Emplace.
Context {Value : Type}.
Variable hash : Key → nat.
Variable Buckets : nat.
Implicit Types (st : @map_state Value) (l pre rest : list addr) (b : nat).
Implicit Types (info : find_info) (p : concurrent_ptr_ref).
Implicit Types (h : gmap addr (@node Value)) (make : @M Value addr).

Lemma at_position_agree st st' b key l r info :
  (∀ x, x ∈ l → key_at (heap st') x = key_at (heap st) x) →
  at_position st b key l r info → at_position st' b key l r info.
Proof.
  intros Hag (pre & rest & -> & Hpre & Hrest & Hprev & Hsave & Hcur & Hnext & Hr).
  exists pre, rest. split_and!; try done.
  - intros a Ha. rewrite Hag by set_solver. by apply Hpre.
  - intros a Ha. rewrite Hag by set_solver. by apply Hrest.
  - destruct rest as [|c rest]; [done|]. rewrite Hag by set_solver. done.
Qed.

(** [emplace_or_get]. *)
Lemma emplace_or_get_spec st (args : Key * Value) :
  map_inv hash Buckets st →
  ∃ res, returns (λ fuel, emplace_or_get hash Buckets fuel args) st res ∧
         insert_outcome hash Buckets (fst args) st res ∧
         factory_calls (snd res) = factory_calls st.
Proof.
  intros Hinv. destruct args as [key v]. simpl.
  set (b := hash key mod Buckets).
  set (a := fresh (dom (heap st))).
  set (st_n := set_heap (<[a := Node (key, v) null_ptr]> (heap st)) st).
  assert (Hfresh : heap st !! a = None) by apply fresh_lookup.
  assert (Hnew : new_node (key, v) st = Some (a, st_n)) by done.
  assert (Hnode : heap st_n !! a = Some (Node (key, v) null_ptr)).
  { simpl. by rewrite lookup_insert_eq. }
  assert (Hother : ∀ x, x ≠ a → heap st_n !! x = heap st !! x).
  { intros x Hx. simpl. by rewrite lookup_insert_ne. }
  destruct Hinv as [Hwf Hq].
  destruct (map_wf_private hash Buckets None (Some a) st st_n Hwf) as (Hwfn & Hln & Hqn).
  { done. }
  { intros x _ Hx. apply Hother. congruence. }
  { intros x [= <-]. by right. }
  { done. }
  specialize (Hqn Hq).
  destruct (wf_lists _ _ _ _ Hwf b (bucket_in_range hash Buckets None st key Hwf)) as (l & Hl).
  assert (Hanl : ∀ b' l', bucket_list st b' l' → a ∉ l').
  { intros b' l' Hl' Ha. destruct (bucket_list_lookup _ _ _ _ Hl' Ha) as [? ?]. congruence. }
  assert (Hready : insert_ready hash Buckets key st_n (Some a)
                     (find_info_at (BucketHead b))).
  { split_and!; [done|done| |].
    - intros a' [= <-]. eexists. split; [done|]. done.
    - exists l. split; [by apply Hln|]. by left. }
  assert (Hlive : ∀ x, live st_n x ↔ live st x).
  { intros x. unfold live. split; intros (b' & l' & Hl' & Hx); exists b', l';
      (split; [by apply Hln|done]). }
  assert (Hkeys : ∀ x, live st x → key_at (heap st_n) x = key_at (heap st) x).
  { intros x (b' & l' & Hl' & Hx). apply key_at_agree, Hother.
    intros ->. by eapply Hanl. }
  assert (Hhk : ∀ k, has_key st_n k ↔ has_key st k).
  { intros k. split; intros (x & Hx & Hk); exists x.
    - apply Hlive in Hx. split; [done|]. by rewrite <- Hkeys.
    - split; [by apply Hlive|]. by rewrite Hkeys. }
  assert (Hrun : ∀ res,
    returns2 (λ kfuel fuel, insert_loop kfuel fuel key (new_node (key, v)) b (Some a)
                (find_info_at (BucketHead b))) st_n res →
    returns (λ fuel, emplace_or_get hash Buckets fuel (key, v)) st res).
  { intros res [N HN]. exists N. intros fuel Hfuel. unfold emplace_or_get.
    rewrite (bind_eq _ _ _ _ _ Hnew).
    rewrite (bind_eq _ _ _ _ _ (node_key_eq _ _ _ Hnode)). simpl.
    rewrite (emplace_or_get_loop_eq fuel fuel key (new_node (key, v))).
    by apply HN. }
  destruct (has_key_dec hash Buckets st key (MapInv hash Buckets st Hwf Hq)) as [Hkey|Hkey].
  - destruct (insert_loop_present hash Buckets key (new_node (key, v)) st_n (Some a) _ Hready)
      as (l' & info' & Hl' & Hpos & Hret); [by apply Hhk|].
    assert (Hst' : set_heap (delete a (heap st_n)) st_n = st).
    { simpl. rewrite delete_insert_id by done. unfold st_n, set_heap. simpl. by destruct st. }
    rewrite Hst' in Hret.
    apply Hln in Hl'. rewrite (bucket_list_func _ _ _ _ Hl' Hl) in Hpos.
    apply (at_position_agree st_n st) in Hpos.
    2:{ intros x Hx. symmetry. apply Hkeys. by exists b, l. }
    destruct (at_position_valid_iter hash Buckets None st key l info' Hwf Hl Hpos)
      as (Hvi & c & Hc & Hlc & Hk).
    eexists. split; [apply Hrun; exact Hret|]. simpl. split; [|done].
    unfold insert_outcome. simpl. split_and!.
    + by apply (map_inv_ext hash Buckets st).
    + done.
    + intros k. split.
      * intros H. left. by apply (has_key_ext (log_call b key st) st).
      * intros [H| ->]; by apply (has_key_ext st).
    + intros x. by apply live_ext.
    + by apply kept_ext.
    + by apply (valid_iter_kept hash Buckets st); [apply kept_ext|].
    + done.
    + exists c. split_and!; done.
    + done.
    + done.
    + done.
    + done.
  - destruct (insert_loop_absent hash Buckets key (new_node (key, v))) with
      (o := cas_fail st_n) (st := st_n) (n := Some a) (info := find_info_at (BucketHead b))
      as (a' & info' & st' & Hret & Hcur & Hn & Hinv' & Hvi & Hlive' & Hk & Hcf & Hkept & Hkc & Hlogs).
    { intros st0. destruct (new_node_allocates key v st0) as (? & ? & ? & ? & _). eauto. }
    { done. }
    { done. }
    { by rewrite Hhk. }
    destruct Hn as [[= <-]|[? _]]; [|done].
    assert (Hkept' : kept None st st').
    { eapply kept_trans; [|exact Hkept].
      intros x nd Hx _. exists nd. split; [|apply node_kept_refl].
      rewrite Hother; [done|]. intros ->. congruence. }
    assert (Hlive'' : ∀ x, live st' x ↔ live st x ∨ x = a).
    { intros x. rewrite Hlive'. by rewrite Hlive. }
    destruct Hlogs as (Hr & Hf & _).
    exists ((Iterator b info', true), st'). split; [by apply Hrun|]. simpl.
    split; [|by apply Hf].
    unfold insert_outcome. simpl. split_and!.
    + done.
    + done.
    + by eapply has_key_insert.
    + intros x Hx. apply Hlive''. by left.
    + done.
    + done.
    + done.
    + exists a. split_and!; try done. apply Hlive''. by right.
    + done.
    + done.
    + done.
    + done.
Qed.

(** [emplace] is [emplace_or_get] with the iterator dropped. *)
Lemma emplace_unfold fuel (args : Key * Value) st :
  emplace hash Buckets fuel args st =
  match emplace_or_get hash Buckets fuel args st with
  | Some ((it, ok), st') => Some (ok, st')
  | None => None
  end.
Proof.
  unfold emplace, bind. destruct (emplace_or_get hash Buckets fuel args st) as [[[it ok] st']|]; done.
Qed.

End Emplace.

(** ** Erasure by key *)

Section Unlink.
Context {Value : Type}.
Implicit Types (st : @map_state Value) (l pre rest : list addr) (b : nat).
Implicit Types (h : gmap addr (@node Value)).

Lemma sublist_length_eq {A} (l1 l2 : list A) :
  l1 `sublist_of` l2 → length l2 ≤ length l1 → l1 = l2.
Proof.
  induction 1 as [|x l1 l2 Hs IH|x l1 l2 Hs IH]; simpl; intros Hlen.
  - done.
  - f_equal. apply IH. lia.
  - apply sublist_length in Hs. lia.
Qed.

Lemma sublist_remove_absent {A} (l' pre post : list A) c :
  l' `sublist_of` pre ++ c :: post → c ∉ l' → l' `sublist_of` pre ++ post.
Proof.
  intros Hs Hc. apply sublist_app_r in Hs as (l1 & l2 & -> & H1 & H2).
  apply sublist_app; [done|].
  apply sublist_cons_r in H2 as [H2|(l2' & -> & _)]; [done|].
  exfalso. apply Hc. set_solver.
Qed.

(** A sublist that keeps every node but [c]. *)
Lemma sublist_exact l' pre post c :
  NoDup (pre ++ c :: post) →
  l' `sublist_of` pre ++ c :: post → c ∉ l' →
  (∀ x, x ∈ pre ++ post → x ∈ l') →
  l' = pre ++ post.
Proof.
  intros Hnd Hs Hc Hall.
  apply sublist_length_eq; [by eapply sublist_remove_absent|].
  apply submseteq_length, NoDup_submseteq.
  - apply NoDup_app in Hnd as (H1 & H2 & H3). apply NoDup_cons in H3 as [_ H3].
    apply NoDup_app. split_and!; [done| |done].
    intros x Hx Hx'. apply (H2 x Hx). set_solver.
  - intros x Hx. by apply Hall.
Qed.

Lemma lseg_succ h h' (p q : option addr) l :
  (∀ a n, a ∈ l → h !! a = Some n →
          ∃ n', h' !! a = Some n' ∧ get (next n') = get (next n)) →
  lseg h p l q → lseg h' p l q.
Proof.
  revert p. induction l as [|a l IH]; intros p Hag; simpl; [done|].
  intros (-> & n & Hn & H). split; [done|].
  destruct (Hag a n ltac:(set_solver) Hn) as (n' & Hn' & Hg).
  exists n'. split; [done|]. rewrite Hg. apply IH; [|done].
  intros a' na Ha'. apply Hag. set_solver.
Qed.

End Unlink.

Section Erase.
Context {Value : Type}.
Variable hash : Key → nat.
Variable Buckets : nat.
Implicit Types (st : @map_state Value) (l pre rest : list addr) (b : nat).
Implicit Types (info : find_info) (p : concurrent_ptr_ref).
Implicit Types (h : gmap addr (@node Value)).

(** Marking a node of the list of bucket [b]. *)
Lemma mark_node st b l c (nc : @node Value) :
  map_wf hash Buckets None st →
  bucket_list st b l → c ∈ l → heap st !! c = Some nc →
  let st' := set_heap (<[c := Node (value nc) (MarkedPtr (get (next nc)) true)]> (heap st)) st in
  map_wf hash Buckets None st' ∧
  (∀ b' l', bucket_list st' b' l' ↔ bucket_list st b' l') ∧
  node_marked (heap st') c = true ∧
  (∀ x, x ≠ c → heap st' !! x = heap st !! x) ∧
  (∀ x, key_at (heap st') x = key_at (heap st) x).
Proof.
  intros Hwf Hl Hc Hnc st'.
  assert (Hother : ∀ x, x ≠ c → heap st' !! x = heap st !! x).
  { intros x Hx. simpl. by rewrite lookup_insert_ne. }
  assert (Hkeys : ∀ x, key_at (heap st') x = key_at (heap st) x).
  { intros x. destruct (decide (x = c)) as [->|Hx]; [|by apply key_at_agree, Hother].
    unfold key_at. simpl. by rewrite lookup_insert_eq, Hnc. }
  assert (Hto : ∀ b' l', bucket_list st b' l' → bucket_list st' b' l').
  { intros b' l' (hd & Hhd & Hm & Hseg). exists hd. split_and!; [done..|].
    eapply lseg_succ; [|done]. intros a n _ Ha.
    destruct (decide (a = c)) as [->|Hne].
    - simplify_eq. eexists. simpl. rewrite lookup_insert_eq. done.
    - exists n. by rewrite Hother. }
  assert (Hcm : node_marked (heap st') c = true).
  { unfold node_marked. simpl. by rewrite lookup_insert_eq. }
  destruct (map_wf_update hash Buckets None None b l l st st' Hwf Hl) as [Hwf' Hothers];
    try done.
  - by apply Hto.
  - intros x Hx _ _. apply Hother. intros ->. done.
  - eapply sorted_keys_agree; [by intros; apply Hkeys|]. by eapply (wf_sorted _ _ _ _ Hwf).
  - intros x Hx. rewrite Hkeys. by eapply (wf_hash _ _ _ _ Hwf).
  - intros x Hx Hm. destruct (decide (x ∈ l)) as [?|Hnl]; [by right; left|].
    right; right. split_and!; [done|done|].
    rewrite <- (node_marked_agree _ _ _ (Hother x ltac:(by intros ->))). done.
  - split_and!; try done. intros b' l'. destruct (decide (b' = b)) as [->|Hne].
    + split; intros Hl'.
      * by rewrite (bucket_list_func _ _ _ _ Hl' (Hto _ _ Hl)).
      * by apply Hto.
    + by apply Hothers.
Qed.

(** Where a search for [key] stops, no marked node of key [key] is left
    in the list. *)
Lemma cursor_excludes priv st b key start r info c l :
  map_wf hash Buckets priv st →
  (start = Some (BucketHead b) ∨
   ∃ s, start = Some (NodeNext s) ∧ (key_at (heap st) s < key)%Z) →
  cursor_at st b key start r info →
  node_marked (heap st) c = true → key_at (heap st) c = key →
  bucket_list st b l → c ∉ l.
Proof.
  intros Hwf Hstart Hcur Hcm Hck Hl Hin.
  pose proof (wf_sorted _ _ _ _ Hwf b l Hl) as Hsorted.
  destruct Hcur as (pre0 & walked & rest & Hl' & Hpre0 & Hwalked & _ & _ & _ & _ & Hrest).
  rewrite (bucket_list_func _ _ _ _ Hl Hl') in Hin, Hsorted. clear Hl.
  apply elem_of_app in Hin as [Hin|Hin]; [|apply elem_of_app in Hin as [Hin|Hin]].
  - destruct Hpre0 as [->|(s & Hs & Hlast)]; [by apply elem_of_nil in Hin|].
    destruct Hstart as [->|(s' & -> & Hlt)]; [done|]. simplify_eq.
    apply last_snoc_inv in Hlast as (p0 & ->).
    apply elem_of_app in Hin as [Hin| ->%list_elem_of_singleton]; [|lia].
    rewrite <- !app_assoc in Hsorted. simpl in Hsorted.
    pose proof (sorted_keys_lt_l _ _ _ _ _ Hsorted Hin). lia.
  - destruct (Hwalked c Hin) as [Hm _]. congruence.
  - destruct rest as [|c0 rest']; [by apply elem_of_nil in Hin|].
    destruct Hrest as (Hm0 & Hk0 & _).
    apply elem_of_cons in Hin as [->|Hin]; [congruence|].
    rewrite app_assoc in Hsorted.
    pose proof (sorted_keys_lt _ _ _ _ _ Hsorted Hin). lia.
Qed.

(** Once the one marked node [c] of the map is out of its list the
    invariant between operations holds again. *)
Lemma unlinked_inv st st' b pre c post :
  map_wf hash Buckets None st →
  bucket_list st b (pre ++ c :: post) →
  (∀ b' l' x, bucket_list st b' l' → x ∈ l' → x ≠ c →
              node_marked (heap st) x = false) →
  rtc (help_step b) st st' →
  (∀ l', bucket_list st' b l' → c ∉ l') →
  map_inv hash Buckets st' ∧
  bucket_list st' b (pre ++ post) ∧
  (∀ b' l', b' ≠ b → bucket_list st' b' l' ↔ bucket_list st b' l').
Proof.
  intros Hwf Hl Hq Hrtc Hc.
  pose proof (bucket_list_NoDup _ _ _ Hl) as Hnd.
  destruct (rtc_help_wf hash Buckets None b st st' Hwf Hrtc) as (Hwf' & Hothers & Hb).
  destruct (Hb _ Hl) as (l' & Hl' & Hsub & Hkeep).
  pose proof (rtc_help_frame _ _ _ Hrtc) as (Hsame & _).
  assert (l' = pre ++ post) as ->.
  { apply (sublist_exact l' pre post c); [done|done|by apply Hc|].
    intros x Hx. apply Hkeep; [set_solver|].
    eapply Hq; [exact Hl|set_solver|].
    intros ->. apply NoDup_app in Hnd as (_ & H2 & H3).
    apply NoDup_cons in H3 as [H3 _].
    apply elem_of_app in Hx as [Hx|Hx]; [|done]. apply (H2 c Hx). set_solver. }
  split_and!; [|done|done].
  split; [done|]. intros b' l' x Hl'' Hx.
  rewrite (same_nodes_marked _ _ _ Hsame).
  destruct (decide (b' = b)) as [->|Hne].
  - rewrite (bucket_list_func _ _ _ _ Hl'' Hl') in Hx.
    eapply Hq; [exact Hl|set_solver|].
    intros ->. apply (Hc _ Hl'). done.
  - apply Hothers in Hl''; [|done]. eapply Hq; [done..|].
    intros ->. apply Hne. eapply (wf_disjoint hash Buckets None st); [done|exact Hl''|exact Hl|done|set_solver].
Qed.

End Erase.

Section EraseKey.
Context {Value : Type}.
Variable hash : Key → nat.
Variable Buckets : nat.
Implicit Types (st : @map_state Value) (l pre rest : list addr) (b : nat).
Implicit Types (info : find_info) (p : concurrent_ptr_ref).
Implicit Types (h : gmap addr (@node Value)).

Lemma set_next_id info : set_next (next_ info) info = info.
Proof. by destruct info. Qed.

Lemma live_key_unique priv st x y :
  map_wf hash Buckets priv st → live st x → live st y →
  key_at (heap st) x = key_at (heap st) y → x = y.
Proof.
  intros Hwf (b & l & Hl & Hx) (b' & l' & Hl' & Hy) Hk.
  assert (b = b') as <-.
  { rewrite <- (wf_hash _ _ _ _ Hwf b l x Hl Hx), <- (wf_hash _ _ _ _ Hwf b' l' y Hl' Hy).
    by rewrite Hk. }
  rewrite (bucket_list_func _ _ _ _ Hl' Hl) in Hy.
  pose proof (wf_sorted _ _ _ _ Hwf b l Hl) as Hs.
  apply list_elem_of_split in Hx as (l1 & l2 & ->).
  apply elem_of_app in Hy as [Hy|[->|Hy]%elem_of_cons]; [|done|].
  - pose proof (sorted_keys_lt_l _ _ _ _ _ Hs Hy). lia.
  - pose proof (sorted_keys_lt _ _ _ _ _ Hs Hy). lia.
Qed.

(** The marking loop of [erase(const Key&)] for a key that is not in the
    map. *)
Lemma erase_mark_absent key st info :
  let b := hash key mod Buckets in
  insert_ready hash Buckets key st None info →
  ¬ has_key st key →
  returns2 (λ kfuel fuel, erase_mark_loop kfuel fuel key b info) st
    (None, log_call b key st).
Proof.
  intros b Hready Habsent.
  destruct (insert_find_step hash Buckets key st None info Hready)
    as (l & r & info1 & Hl & _ & [N Hfind] & Hpos).
  destruct Hready as (Hwf & _).
  assert (r = false) as ->.
  { destruct r; [|done]. apply at_position_found in Hpos as (c & _ & Hc & Hk).
    destruct Habsent. exists c. split; [|done]. by exists b, l. }
  exists (S N). intros kfuel [|fuel] ? ?; [lia|]. simpl.
  by rewrite (bind_eq _ _ _ _ _ (Hfind kfuel ltac:(lia))).
Qed.

(** The marking loop for a key that is in the map: the node of the key
    is marked after as many turns as the marking CAS fails, plus one. *)
Lemma erase_mark_present key :
  let b := hash key mod Buckets in
  ∀ o st info,
    cas_fail st = o →
    insert_ready hash Buckets key st None info →
    has_key st key →
    ∃ pre c post nc info',
      bucket_list st b (pre ++ c :: post) ∧
      heap st !! c = Some nc ∧ fst (value nc) = key ∧
      (∀ x, x ∈ pre → (key_at (heap st) x < key)%Z) ∧
      prev info' = Some (link_after b pre) ∧
      get (save info') = last pre ∧
      cur info' = MarkedPtr (Some c) false ∧
      next_ info' = MarkedPtr (head post) false ∧
      returns2 (λ kfuel fuel, erase_mark_loop kfuel fuel key b info) st
        (Some info',
         set_heap (<[c := Node (value nc) (MarkedPtr (get (next nc)) true)]> (heap st))
           (set_cas_fail (after_cas o)
              (set_kernel_calls
                 (kernel_calls st ++ replicate (S (spurious_prefix o)) (b, key)) st))).
Proof.
  intros b o. induction o as [|x o IH]; intros st info Ho Hready Hkey.
  all: destruct (insert_find_step hash Buckets key st None info Hready)
    as (l & r & info1 & Hl & _ & [N Hfind] & Hpos).
  all: pose proof Hready as (Hwf & Hq & _).
  all: fold b in Hl, Hfind, Hpos.
  all: assert (r = true) as ->
    by (destruct r; [done|];
        destruct (proj1 (has_key_bucket hash Buckets None st key l Hwf Hl) Hkey) as (c & Hc & Hk);
        eapply at_position_absent in Hpos; [|by eapply (wf_sorted _ _ _ _ Hwf)|done]; done).
  all: destruct Hpos as (pre & rest & -> & Hpre & Hrest & Hprev & Hsave & Hcur & Hnext & Hr).
  all: destruct rest as [|c post]; [done|].
  all: symmetry in Hr; apply Z.eqb_eq in Hr.
  all: destruct (node_of_list _ _ _ _ _ Hl) as (nc & Hc & Hsucc).
  all: assert (Hcm : mark (next nc) = false)
    by (pose proof (Hq b _ c Hl ltac:(set_solver)) as Hm; unfold node_marked in Hm;
        by rewrite Hc in Hm).
  all: assert (Hck : fst (value nc) = key) by (unfold key_at in Hr; by rewrite Hc in Hr).
  all: assert (Hnx : next nc = next_ info1)
    by (rewrite Hnext; simpl; rewrite <- Hsucc, <- Hcm; by destruct (next nc)).
  all: set (st1 := log_call b key st) in *.
  all: assert (Hload : load (NodeNext c) st1 = Some (next_ info1, st1))
    by (rewrite <- Hnx; by apply load_node).
  all: assert (Hderef : deref (cur info1) st1 = Some (c, st1)) by (by rewrite Hcur).
  - (* no failure left: the marking CAS succeeds *)
    exists pre, c, post, nc, (set_next (next_ info1) info1).
    split_and!; try done.
    exists (S N). intros kfuel [|fuel] ? ?; [lia|]. simpl.
    rewrite (bind_eq _ _ _ _ _ (Hfind kfuel ltac:(lia))). simpl.
    rewrite (bind_eq _ _ _ _ _ Hderef).
    assert (Hhd : head (cas_fail st1) ≠ Some true) by (simpl; by rewrite Ho).
    assert (Hst : store (NodeNext c) (MarkedPtr (get (next_ info1)) true)
                    (set_cas_fail (tail (cas_fail st1)) st1) =
                  Some (tt, set_heap (<[c := Node (value nc) (MarkedPtr (get (next_ info1)) true)]> (heap st))
                              (set_cas_fail (tail (cas_fail st1)) st1))).
    { unfold store. simpl. by rewrite Hc. }
    rewrite (bind_eq _ _ _ _ _ (cas_success _ _ _ _ _ Hload Hhd Hst)). simpl.
    rewrite Ho, Hnx. done.
  - destruct x.
    + (* the marking CAS fails spuriously *)
      set (st2 := set_cas_fail o st1).
      destruct (IH st2 info1 eq_refl) as (pre' & c' & post' & nc' & info' & Hl' & Hc' & Hck' & Hpre' & Hp' & Hs' & Hcur' & Hn' & [N' Hret']).
      { split_and!.
        - by apply (map_wf_ext hash Buckets None st).
        - intros b' l' a Hl' Ha. eapply (Hq b' l' a); [|done]. by eapply bucket_list_ext.
        - done.
        - exists (pre ++ c :: post). split; [by eapply bucket_list_ext|].
          rewrite Hprev, Hsave. unfold link_after.
          destruct (last pre) as [s|] eqn:Hlast; [right|by left].
          assert (Hs : s ∈ pre).
          { apply last_snoc_inv in Hlast as (pre'' & ->). set_solver. }
          exists s. split_and!; try done; [set_solver|]. by apply Hpre. }
      { destruct Hkey as (y & (b' & l' & Hl' & Hy) & Hk). exists y. split; [|done].
        exists b', l'. split; [|done]. by eapply bucket_list_ext. }
      exists pre', c', post', nc', info'. split_and!; try done.
      exists (S (N `max` N')). intros kfuel [|fuel] ? ?; [lia|]. simpl.
      rewrite (bind_eq _ _ _ _ _ (Hfind kfuel ltac:(lia))). simpl.
      rewrite (bind_eq _ _ _ _ _ Hderef).
      assert (Hcf : cas_fail st1 = true :: o) by done.
      rewrite (bind_eq _ _ _ _ _ (cas_spurious _ _ _ _ _ Hload Hcf)). simpl.
      rewrite set_next_id. rewrite Hret' by lia. f_equal. f_equal.
      unfold set_heap, set_cas_fail, set_kernel_calls, after_cas. simpl.
      by rewrite <- app_assoc.
    + (* the marking CAS succeeds *)
      exists pre, c, post, nc, (set_next (next_ info1) info1).
      split_and!; try done.
      exists (S N). intros kfuel [|fuel] ? ?; [lia|]. simpl.
      rewrite (bind_eq _ _ _ _ _ (Hfind kfuel ltac:(lia))). simpl.
      rewrite (bind_eq _ _ _ _ _ Hderef).
      assert (Hhd : head (cas_fail st1) ≠ Some true) by (simpl; by rewrite Ho).
      assert (Hst : store (NodeNext c) (MarkedPtr (get (next_ info1)) true)
                      (set_cas_fail (tail (cas_fail st1)) st1) =
                    Some (tt, set_heap (<[c := Node (value nc) (MarkedPtr (get (next_ info1)) true)]> (heap st))
                                (set_cas_fail (tail (cas_fail st1)) st1))).
      { unfold store. simpl. by rewrite Hc. }
      rewrite (bind_eq _ _ _ _ _ (cas_success _ _ _ _ _ Hload Hhd Hst)). simpl.
      rewrite Ho, Hnx. done.
Qed.

End EraseKey.

Section EraseSpec.
Context {Value : Type}.
Variable hash : Key → nat.
Variable Buckets : nat.
Implicit Types (st : @map_state Value) (l pre rest : list addr) (b : nat).
Implicit Types (info : find_info) (p : concurrent_ptr_ref).
Implicit Types (h : gmap addr (@node Value)).

(** What is left to do once the one marked node [c] of the map is out of
    its list. *)
Lemma erased_outcome st st_m st' b pre c post (nc : @node Value) key :
  b = hash key mod Buckets →
  map_inv hash Buckets st →
  bucket_list st b (pre ++ c :: post) →
  heap st !! c = Some nc → fst (value nc) = key →
  heap st_m = <[c := Node (value nc) (MarkedPtr (get (next nc)) true)]> (heap st) →
  buckets st_m = buckets st →
  rtc (help_step b) st_m st' →
  (map_wf hash Buckets None st' → ∀ l', bucket_list st' b l' → c ∉ l') →
  map_inv hash Buckets st' ∧
  (∀ k, has_key st' k ↔ has_key st k ∧ k ≠ key) ∧
  kept None st st' ∧
  heap st' !! c = Some (Node (value nc) (MarkedPtr (get (next nc)) true)) ∧
  (∀ x, live st' x ↔ live st x ∧ x ≠ c).
Proof.
  intros Hb [Hwf Hq] Hl Hc Hk Hheap Hbk Hrtc Hout.
  pose proof (bucket_list_NoDup _ _ _ Hl) as Hnd.
  assert (Hcl : c ∈ pre ++ c :: post) by set_solver.
  destruct (mark_node hash Buckets st b _ c nc Hwf Hl Hcl Hc) as (Hwfm0 & Hlm0 & Hcm0 & Hom0 & Hkm0).
  set (st_0 := set_heap (<[c := Node (value nc) (MarkedPtr (get (next nc)) true)]> (heap st)) st) in *.
  assert (Hwfm : map_wf hash Buckets None st_m).
  { apply (map_wf_ext hash Buckets None st_0); done. }
  assert (Hlm : ∀ b' l', bucket_list st_m b' l' ↔ bucket_list st b' l').
  { intros b' l'. rewrite <- Hlm0. split; apply bucket_list_ext; done. }
  pose proof (rtc_help_frame _ _ _ Hrtc) as (Hsame & _).
  destruct (rtc_help_wf hash Buckets None b st_m st' Hwfm Hrtc) as (Hwf' & _ & _).
  destruct (unlinked_inv hash Buckets st_m st' b pre c post Hwfm) as (Hinv' & Hl' & Hothers).
  { by apply Hlm. }
  { intros b' l' x Hl'' Hx Hne. rewrite Hheap.
    rewrite (node_marked_agree (heap st)); [|by apply lookup_insert_ne].
    eapply Hq; [|done]. by apply Hlm. }
  { done. }
  { by apply Hout. }
  assert (Hkeys : ∀ x, key_at (heap st') x = key_at (heap st) x).
  { intros x. rewrite (same_nodes_key _ _ _ Hsame). rewrite Hheap. apply Hkm0. }
  assert (Hcnl : c ∉ pre ++ post).
  { apply NoDup_app in Hnd as (_ & H2 & H3). apply NoDup_cons in H3 as [H3 _].
    intros [Hx|Hx]%elem_of_app; [|done]. apply (H2 c Hx). set_solver. }
  assert (Hlive : ∀ x, live st' x ↔ live st x ∧ x ≠ c).
  { intros x. split.
    - intros (b' & l' & Hl'' & Hx). destruct (decide (b' = b)) as [->|Hne].
      + rewrite (bucket_list_func _ _ _ _ Hl'' Hl') in Hx. split.
        * exists b, (pre ++ c :: post). split; [done|set_solver].
        * by intros ->.
      + apply Hothers, Hlm in Hl''; [|done]. split; [by exists b', l'|].
        intros ->. apply Hne. by eapply (wf_disjoint hash Buckets None st).
    - intros [(b' & l' & Hl'' & Hx) Hne]. destruct (decide (b' = b)) as [->|Hnb].
      + rewrite (bucket_list_func _ _ _ _ Hl'' Hl) in Hx.
        exists b, (pre ++ post). split; [done|set_solver].
      + exists b', l'. split; [|done]. by apply Hothers, Hlm. }
  assert (Hkc : key_at (heap st) c = key).
  { unfold key_at. by rewrite Hc. }
  split_and!; [done| | |  |done].
  - intros k. split.
    + intros (x & Hx & Hkx). apply Hlive in Hx as [Hx Hne].
      rewrite Hkeys in Hkx. split; [by exists x|].
      intros ->. apply Hne. eapply (live_key_unique hash Buckets None st); [done..| |congruence].
      by exists b, (pre ++ c :: post).
    + intros [(x & Hx & Hkx) Hne]. exists x. rewrite Hkeys. split; [|done].
      apply Hlive. split; [done|]. intros ->. congruence.
  - eapply kept_trans; [|by apply same_nodes_kept].
    intros x nd Hx _. rewrite Hheap. destruct (decide (x = c)) as [->|Hne].
    + rewrite lookup_insert_eq. assert (nd = nc) as -> by congruence.
      eexists. split; [done|].
      split; [done|]. intros Hm.
      pose proof (Hq b _ c Hl Hcl) as Hcm. unfold node_marked in Hcm. rewrite Hc in Hcm.
      congruence.
    + rewrite lookup_insert_ne by done. exists nd. split; [done|apply node_kept_refl].
  - specialize (Hsame c). rewrite Hheap, lookup_insert_eq in Hsame.
    inversion Hsame as [n0 n' (_ & _ & He) Heq1 Heq2|]. subst n0.
    rewrite He; done.
Qed.

End EraseSpec.

Section EraseKeySpec.
Context {Value : Type}.
Variable hash : Key → nat.
Variable Buckets : nat.
Implicit Types (st : @map_state Value) (l pre rest : list addr) (b : nat).
Implicit Types (info : find_info) (p : concurrent_ptr_ref).
Implicit Types (h : gmap addr (@node Value)).

(** [erase(const Key&)]. *)
Lemma erase_spec st key :
  map_inv hash Buckets st →
  ∃ res, returns (λ fuel, erase hash Buckets fuel key) st res ∧
         erase_outcome hash Buckets key st res.
Proof.
  intros Hinv. set (b := hash key mod Buckets).
  pose proof (map_inv_ready hash Buckets st key Hinv) as Hready. fold b in Hready.
  destruct (has_key_dec hash Buckets st key Hinv) as [Hkey|Hkey].
  2:{ (* no such node *)
    destruct (erase_mark_absent hash Buckets key st _ Hready Hkey) as [N Hmark].
    exists (false, log_call b key st). split.
    - exists N. intros fuel Hfuel. unfold erase.
      by rewrite (bind_eq _ _ _ _ _ (Hmark fuel fuel Hfuel Hfuel)).
    - unfold erase_outcome. simpl. split_and!; try done.
      + by apply (map_inv_ext hash Buckets st).
      + intros k. split.
        * intros H. apply (has_key_ext _ st) in H; [|done..].
          split; [done|]. by intros ->.
        * intros [H _]. by apply (has_key_ext st).
      + by apply kept_ext. }
  destruct (erase_mark_present hash Buckets key (cas_fail st) st _ eq_refl Hready Hkey)
    as (pre & c & post & nc & info' & Hl & Hc & Hck & Hpre & Hprev & Hsave & Hcur & Hnext & [N Hmark]).
  fold b in Hl, Hprev, Hmark.
  set (o := cas_fail st) in *. set (k := spurious_prefix o) in *.
  set (st_m := set_heap (<[c := Node (value nc) (MarkedPtr (get (next nc)) true)]> (heap st))
                 (set_cas_fail (after_cas o)
                    (set_kernel_calls (kernel_calls st ++ replicate (S k) (b, key)) st))) in *.
  pose proof Hinv as [Hwf Hq].
  assert (Hcl : c ∈ pre ++ c :: post) by set_solver.
  destruct (mark_node hash Buckets st b _ c nc Hwf Hl Hcl Hc) as (Hwfm0 & Hlm0 & Hcm0 & Hom0 & Hkm0).
  assert (Hlm : bucket_list st_m b (pre ++ c :: post)).
  { eapply (bucket_list_ext (set_heap _ st)); [done..|]. by apply Hlm0. }
  pose proof (bucket_list_NoDup _ _ _ Hl) as Hnd.
  assert (Hcnp : c ∉ pre).
  { apply NoDup_app in Hnd as (_ & H2 & _). intros Hx. apply (H2 c Hx). set_solver. }
  assert (Hkc : key_at (heap st) c = key).
  { unfold key_at. by rewrite Hc. }
  assert (Howner : ∀ s, last pre = Some s → node_marked (heap st_m) s = false).
  { intros s Hs. apply last_snoc_inv in Hs as (pre' & ->).
    assert (s ≠ c) by (intros ->; apply Hcnp; set_solver).
    rewrite (node_marked_agree (heap st)); [|by apply Hom0].
    eapply Hq; [exact Hl|set_solver]. }
  assert (Hload : load (link_after b pre) st_m = Some (cur info', st_m)).
  { rewrite Hcur. by apply (load_link st_m b pre (c :: post)). }
  assert (Hrun : ∀ fuel, N ≤ fuel →
    erase hash Buckets fuel key st =
    bind (compare_exchange_weak (link_after b pre) (cur info')
            (MarkedPtr (get (next_ info')) false))
      (λ x, let '(ok, _) := x in
            bind (if (ok : bool)
                  then bind (reclaim (cur info')) (λ _, ret tt)
                  else bind (find_kernel fuel key b info') (λ _, ret tt))
              (λ _, ret true)) st_m).
  { intros fuel Hfuel. unfold erase. fold b.
    rewrite (bind_eq _ _ _ _ _ (Hmark fuel fuel Hfuel Hfuel)).
    by rewrite (bind_eq _ _ _ _ _ (prev_ref_eq _ _ _ Hprev)). }
  assert (Hfin : ∃ st_x st',
    heap st_x = <[c := Node (value nc) (MarkedPtr (get (next nc)) true)]> (heap st) ∧
    buckets st_x = buckets st ∧
    rtc (help_step b) st_x st' ∧
    (map_wf hash Buckets None st' → ∀ l', bucket_list st' b l' → c ∉ l') ∧
    returns (λ fuel, erase hash Buckets fuel key) st (true, st') ∧
    kernel_calls st' =
      kernel_calls st ++ replicate (erase_kernel_calls true o) (b, key) ∧
    factory_calls st' = factory_calls st).
  { destruct (decide (head (after_cas o) = Some true)) as [Ho|Ho].
    - (* the unlinking CAS fails: rewalk the list *)
      destruct (after_cas o) as [|[] o2] eqn:Hac; try done. clear Ho.
      set (st_f := set_cas_fail o2 st_m).
      assert (Hcf : cas_fail st_m = true :: o2) by done.
      destruct (find_kernel_spec key b st_f (pre ++ c :: post) info')
        as ([[r2 info2] st'] & [N2 Hret2] & Hrtc & Hcursor).
      { by eapply bucket_list_ext. }
      { rewrite Hprev. unfold link_after.
        destruct (last pre) as [s|] eqn:Hlast; [right|left; by rewrite Hsave].
        assert (s ∈ pre) by (apply last_snoc_inv in Hlast as (pre' & ->); set_solver).
        exists s. rewrite Hsave. split_and!; try done.
        - eapply bucket_list_lookup; [exact Hlm|set_solver].
        - intros _. set_solver. }
      simpl in Hrtc, Hcursor.
      pose proof (rtc_help_frame _ _ _ Hrtc) as (Hsame & _ & _ & Hkc' & Hf' & _).
      exists (log_call b key st_f), st'. split_and!; try done.
      + intros Hwf' l' Hl'.
        eapply (cursor_excludes hash Buckets None st' b key (prev info') r2 info2 c l' Hwf'); try done.
        * rewrite Hprev. unfold link_after.
          destruct (last pre) as [s|] eqn:Hlast; [right|by left].
          assert (s ∈ pre) by (apply last_snoc_inv in Hlast as (pre' & ->); set_solver).
          exists s. split; [done|]. rewrite (same_nodes_key _ _ _ Hsame). simpl.
          rewrite Hkm0. by apply Hpre.
        * rewrite (same_nodes_marked _ _ _ Hsame). done.
        * rewrite (same_nodes_key _ _ _ Hsame). simpl. by rewrite Hkm0.
      + exists (N `max` N2). intros fuel Hfuel. rewrite Hrun by lia.
        rewrite (bind_eq _ _ _ _ _ (cas_spurious _ _ _ _ _ Hload Hcf)). simpl.
        unfold bind at 1. unfold bind at 1. rewrite Hret2 by lia. done.
      + rewrite Hkc'. simpl. unfold erase_kernel_calls. rewrite Hac.
        rewrite bool_decide_eq_true_2 by done. fold k.
        rewrite <- app_assoc. f_equal. rewrite Nat.add_1_r.
        change (replicate (S (S k)) (b, key)) with ((b, key) :: replicate (S k) (b, key)).
        rewrite (replicate_cons_app (S k)). done.
    - (* the unlinking CAS succeeds *)
      destruct (tail_of_list st_m b (pre ++ [c]) post) as (q & Hq').
      { by rewrite <- app_assoc. }
      pose proof (lseg_head_None _ _ _ Hq') as ->.
      destruct (store_link_list (set_cas_fail (tail (cas_fail st_m)) st_m) b
                  pre (c :: post) (head post) post) as (st_u & Hst & Hlu).
      { by eapply bucket_list_ext. }
      { done. }
      { intros s Hlast Hin. apply last_snoc_inv in Hlast as (pre' & ->).
        apply NoDup_app in Hnd as (_ & H2 & _). eapply (H2 s); set_solver. }
      set (st' := set_retired (retired st_u ++ [c]) st_u).
      assert (Hstep : help_step b st_m st').
      { eapply help_unlink; eauto. }
      pose proof (store_inv _ _ _ _ Hst) as (_ & _ & Hkc' & Hf' & _).
      exists st_m, st'. split_and!; try done.
      + by apply rtc_once.
      + intros _ l' Hl'.
        assert (Hlu' : bucket_list st' b (pre ++ post)) by by eapply bucket_list_ext.
        rewrite (bucket_list_func _ _ _ _ Hl' Hlu').
        apply NoDup_app in Hnd as (_ & H2 & H3). apply NoDup_cons in H3 as [H3 _].
        intros [Hx|Hx]%elem_of_app; [|done]. apply (H2 c Hx). set_solver.
      + exists N. intros fuel Hfuel. rewrite Hrun by lia.
        assert (Hhd : head (cas_fail st_m) ≠ Some true) by done.
        rewrite Hnext. simpl.
        rewrite (bind_eq _ _ _ _ _ (cas_success _ _ _ _ _ Hload Hhd Hst)). simpl.
        unfold reclaim. rewrite Hcur. simpl. done.
      + simpl. rewrite Hkc'. simpl. unfold erase_kernel_calls.
        rewrite bool_decide_eq_false_2 by done. fold k. by rewrite Nat.add_0_r. }
  destruct Hfin as (st_x & st' & Hhx & Hbx & Hrtc & Hout & Hret & Hkcalls & Hfc).
  destruct (erased_outcome hash Buckets st st_x st' b pre c post nc key)
    as (Hinv' & Hhk & Hkept & Hc' & Hlive); try done.
  exists (true, st'). split; [done|].
  unfold erase_outcome. simpl. split_and!; try done.
  intros _. exists c, nc. split_and!; try done. by exists b, (pre ++ c :: post).
Qed.

End EraseKeySpec.

(** ** Iterators *)

Section BucketScan.
Context {Value : Type}.
Variable hash : Key → nat.
Variable Buckets : nat.
Implicit Types (st : @map_state Value) (l pre rest : list addr) (b : nat).
Implicit Types (info : find_info) (p : concurrent_ptr_ref) (it : iterator).
Implicit Types (h : gmap addr (@node Value)).

Lemma size_pred_lt n k : 0 < n → (N.of_nat k <? size_pred n)%N = bool_decide (k < n - 1).
Proof.
  intros Hn. destruct n as [|m]; [lia|]. simpl. rewrite Nat.sub_0_r.
  destruct (N.ltb_spec (N.of_nat k) (N.of_nat m)); [rewrite bool_decide_eq_true_2|rewrite bool_decide_eq_false_2]; lia.
Qed.

(** The loop of [move_to_next_bucket] stops at the first bucket behind
    [bucket it] whose head is not null, or at the last bucket. *)
Lemma move_loop_spec st n it :
  0 < Buckets → length (buckets st) = Buckets →
  Buckets - 1 - bucket it ≤ n →
  ∃ it', move_loop Buckets n it st = Some (it', st) ∧
    bucket it ≤ bucket it' ∧
    bucket it' ≤ bucket it `max` (Buckets - 1) ∧
    save (info it') = save (info it) ∧
    (get (cur (info it)) ≠ None → it' = it) ∧
    (get (cur (info it)) = None →
       (∀ j, bucket it < j → j < bucket it' → buckets st !! j = Some null_ptr ∨
             ∃ hd, buckets st !! j = Some hd ∧ get hd = None) ∧
       ((get (cur (info it')) = None ∧ bucket it' = bucket it `max` (Buckets - 1)) ∨
        (bucket it < bucket it' ∧
         prev (info it') = Some (BucketHead (bucket it')) ∧
         buckets st !! bucket it' = Some (cur (info it')) ∧
         get (cur (info it')) ≠ None))).
Proof.
  intros Hpos Hlen. revert it. induction n as [|n IH]; intros it Hn.
  - exists it. simpl. rewrite size_pred_lt by done.
    rewrite (bool_decide_eq_false_2 (bucket it < Buckets - 1)) by lia.
    rewrite andb_false_r. split_and!; try done; [lia|].
    intros Hnull. split; [intros; lia|]. left. split; [done|lia].
  - simpl. rewrite size_pred_lt by done. unfold is_null.
    destruct (get (cur (info it))) as [c|] eqn:Hcur.
    { exists it. simpl. split_and!; try done; lia. }
    simpl. case_bool_decide as Hlt.
    2:{ exists it. split_and!; try done; [lia|].
        intros _. split; [intros; lia|]. left. split; [done|lia]. }
    assert (Hhd : is_Some (buckets st !! S (bucket it))).
    { apply lookup_lt_is_Some. lia. }
    destruct Hhd as [hd Hhd].
    assert (Hacq : acquire (BucketHead (S (bucket it))) st = Some (hd, st)).
    { unfold acquire, load. by rewrite Hhd. }
    rewrite (bind_eq _ _ _ _ _ Hacq).
    destruct (IH (Iterator (S (bucket it))
                    (set_cur hd (set_prev (Some (BucketHead (S (bucket it)))) (info it)))))
      as (it' & Hrun & Hle & Hmax & Hsave & Hkeep & Hnull).
    { simpl. lia. }
    simpl in *. exists it'. split; [done|]. split_and!; try done; [lia|lia|].
    intros _. destruct (get hd) as [c|] eqn:Hc.
    + rewrite Hkeep by done. simpl. split; [intros; lia|]. right.
      split_and!; try done; [lia|]. by rewrite Hc.
    + destruct (Hnull eq_refl) as [Hbetween Hend]. split.
      * intros j Hj1 Hj2. destruct (decide (j = S (bucket it))) as [->|Hne].
        -- right. eauto.
        -- apply Hbetween; lia.
      * destruct Hend as [[? ?]|(? & ? & ? & ?)]; [left|right].
        -- split; [done|lia].
        -- split_and!; try done; lia.
Qed.

End BucketScan.

Section Iterators.
Context {Value : Type}.
Variable hash : Key → nat.
Variable Buckets : nat.
Implicit Types (st : @map_state Value) (l pre rest : list addr) (b : nat).
Implicit Types (info : find_info) (p : concurrent_ptr_ref) (it : iterator).
Implicit Types (h : gmap addr (@node Value)).

Lemma head_of_bucket priv st b hd :
  map_wf hash Buckets priv st → buckets st !! b = Some hd →
  ∃ l, bucket_list st b l ∧ hd = MarkedPtr (head l) false.
Proof.
  intros Hwf Hhd. pose proof (lookup_lt_Some _ _ _ Hhd) as Hlt.
  rewrite (wf_length _ _ _ _ Hwf) in Hlt.
  destruct (wf_lists _ _ _ _ Hwf b Hlt) as (l & Hl). exists l. split; [done|].
  destruct Hl as (hd' & Hhd' & Hm & Hseg). simplify_eq.
  apply lseg_head_None in Hseg. destruct hd; simpl in *; by subst.
Qed.

(** An iterator at the head of a non-empty bucket is valid. *)
Lemma head_valid_iter priv st b hd info :
  map_wf hash Buckets priv st → buckets st !! b = Some hd →
  get hd ≠ None →
  prev info = Some (BucketHead b) → cur info = hd → get (save info) = None →
  valid_iter hash Buckets st (Iterator b info).
Proof.
  intros Hwf Hhd Hnn Hprev Hcur Hsave.
  destruct (head_of_bucket priv st b hd Hwf Hhd) as (l & Hl & ->).
  destruct l as [|c l]; [done|]. exists c. simpl. split_and!; try done.
  - eapply bucket_list_lookup; [done|set_solver].
  - symmetry. eapply (wf_hash _ _ _ _ Hwf); [done|set_solver].
  - by left.
Qed.

(** [move_to_next_bucket] leaves the store alone and yields an iterator
    at the head of a later bucket, or one with a null guard at the last
    bucket. *)
Lemma move_to_next_bucket_spec priv st it :
  map_wf hash Buckets priv st → bucket it ≤ Buckets →
  get (cur (info it)) = None →
  ∃ it', move_to_next_bucket Buckets it st = Some (it', st) ∧
         iter_ok hash Buckets st it' ∧
         bucket it ≤ bucket it' ∧
         (get (cur (info it')) = None →
          bucket it' = bucket it `max` (Buckets - 1)).
Proof.
  intros Hwf Hb Hnull. unfold move_to_next_bucket.
  destruct (move_loop_spec Buckets st Buckets
              (Iterator (bucket it) (set_save null_ptr (info it))))
    as (it' & Hrun & Hle & Hmax & Hsave & _ & Hres).
  { by eapply wf_pos. }
  { by eapply wf_length. }
  { simpl. lia. }
  simpl in *. destruct (Hres Hnull) as [_ [[Hn' Hb']|(Hlt & Hprev & Hhd & Hnn)]].
  - exists it'. split_and!; try done. right. split; [done|]. lia.
  - exists it'. split_and!; try done.
    left. destruct it' as [b' info']. simpl in *.
    eapply head_valid_iter; try done. by rewrite Hsave.
Qed.

(** [iterator(map, bucket)]. *)
Lemma iterator_at_spec priv st b :
  map_wf hash Buckets priv st → b < Buckets →
  ∃ it, iterator_at Buckets b st = Some (it, st) ∧
        iter_ok hash Buckets st it ∧ b ≤ bucket it ∧
        (get (cur (info it)) = None → bucket it = Buckets - 1).
Proof.
  intros Hwf Hb. unfold iterator_at.
  assert (Hhd : is_Some (buckets st !! b)).
  { apply lookup_lt_is_Some. by rewrite (wf_length _ _ _ _ Hwf). }
  destruct Hhd as [hd Hhd].
  assert (Hacq : acquire (BucketHead b) st = Some (hd, st)).
  { unfold acquire, load. by rewrite Hhd. }
  rewrite (bind_eq _ _ _ _ _ Hacq). simpl. unfold is_null. simpl.
  destruct (get hd) as [c|] eqn:Hc.
  - eexists. split; [done|]. simpl. split_and!.
    + left. eapply head_valid_iter; try done. by rewrite Hc.
    + done.
    + intros Hn. congruence.
  - destruct (move_to_next_bucket_spec priv st
                (Iterator b (set_cur hd (find_info_at (BucketHead b)))) Hwf)
      as (it' & Hrun & Hok & Hle & Hend); [simpl; lia|done|].
    exists it'. simpl in *. split_and!; try done. intros Hn. rewrite Hend by done. lia.
Qed.

(** [begin()]. *)
Lemma begin_spec st :
  map_inv hash Buckets st →
  ∃ it, begin Buckets st = Some (it, st) ∧ iter_ok hash Buckets st it ∧
        (get (cur (info it)) = None → bucket it = Buckets - 1).
Proof.
  intros [Hwf _].
  destruct (iterator_at_spec None st 0 Hwf (wf_pos _ _ _ _ Hwf)) as (it & ? & ? & _ & ?).
  eauto.
Qed.

(** The cursor the kernel leaves at a node makes a valid iterator. *)
Lemma cursor_valid_iter priv st b key start r info :
  map_wf hash Buckets priv st →
  cursor_at st b key start r info →
  get (cur info) ≠ None →
  valid_iter hash Buckets st (Iterator b info).
Proof.
  intros Hwf (pre0 & walked & rest & Hl & _ & _ & _ & Hprev & Hsave & Hcur & Hrest) Hnn.
  rewrite Hcur in Hnn. destruct rest as [|c rest]; [done|]. clear Hnn.
  rewrite app_assoc in Hl.
  pose proof (wf_sorted _ _ _ _ Hwf b _ Hl) as Hsorted.
  exists c. simpl. split_and!; try done.
  - eapply bucket_list_lookup; [done|set_solver].
  - symmetry. eapply (wf_hash _ _ _ _ Hwf); [done|set_solver].
  - rewrite Hprev, Hsave. unfold link_after.
    destruct (last (pre0 ++ walked)) as [s|] eqn:Hlast; [right|by left].
    assert (Hs : s ∈ pre0 ++ walked).
    { apply last_snoc_inv in Hlast as (pre' & ->). set_solver. }
    exists s. split_and!; try done.
    + eapply bucket_list_lookup; [done|set_solver].
    + eapply (wf_hash _ _ _ _ Hwf); [done|set_solver].
    + by eapply sorted_keys_lt_l.
Qed.

End Iterators.

Section Pointers.
Context {Value : Type}.
Variable hash : Key → nat.
Variable Buckets : nat.
Implicit Types (st : @map_state Value) (l pre rest : list addr) (b : nat).
Implicit Types (info : find_info) (p : concurrent_ptr_ref) (it : iterator).
Implicit Types (h : gmap addr (@node Value)).

Lemma NoDup_split_unique {A} (p1 q1 p2 q2 : list A) c :
  NoDup (p1 ++ c :: q1) → p1 ++ c :: q1 = p2 ++ c :: q2 → p1 = p2 ∧ q1 = q2.
Proof.
  revert p2. induction p1 as [|x p1 IH]; intros [|y p2] Hnd Heq; simplify_eq/=.
  - done.
  - apply NoDup_cons in Hnd as [Hc _]. destruct Hc. set_solver.
  - apply NoDup_cons in Hnd as [Hc _]. destruct Hc. set_solver.
  - apply NoDup_cons in Hnd as [_ Hnd]. destruct (IH p2 Hnd) as [-> ->]; done.
Qed.

(** A cursor between [pre] and a node [c] of the list makes a valid
    iterator. *)
Lemma position_valid_iter priv st b pre c rest info :
  map_wf hash Buckets priv st →
  bucket_list st b (pre ++ c :: rest) →
  prev info = Some (link_after b pre) → get (save info) = last pre →
  cur info = MarkedPtr (Some c) false →
  valid_iter hash Buckets st (Iterator b info).
Proof.
  intros Hwf Hl Hprev Hsave Hcur.
  pose proof (wf_sorted _ _ _ _ Hwf b _ Hl) as Hsorted.
  exists c. simpl. split_and!; try done.
  - eapply bucket_list_lookup; [done|set_solver].
  - symmetry. eapply (wf_hash _ _ _ _ Hwf); [done|set_solver].
  - rewrite Hprev, Hsave. unfold link_after.
    destruct (last pre) as [s|] eqn:Hlast; [right|by left].
    assert (Hs : s ∈ pre).
    { apply last_snoc_inv in Hlast as (pre' & ->). set_solver. }
    exists s. split_and!; try done.
    + eapply bucket_list_lookup; [done|set_solver].
    + eapply (wf_hash _ _ _ _ Hwf); [done|set_solver].
    + by eapply sorted_keys_lt_l.
Qed.

(** The last statements of [operator++] and [erase(iterator)]. *)
Lemma finish_iter priv st b info :
  map_wf hash Buckets priv st → b ≤ Buckets →
  (get (cur info) ≠ None → valid_iter hash Buckets st (Iterator b info)) →
  ∃ it', (if is_null (cur info)
          then move_to_next_bucket Buckets (Iterator b info)
          else ret (Iterator b info)) st = Some (it', st) ∧
         iter_ok hash Buckets st it' ∧ b ≤ bucket it'.
Proof.
  intros Hwf Hb Hv. unfold is_null. destruct (get (cur info)) as [c|] eqn:Hc.
  - eexists. split; [done|]. split; [|done]. left. by apply Hv.
  - destruct (move_to_next_bucket_spec hash Buckets priv st (Iterator b info) Hwf Hb Hc)
      as (it' & ? & ? & ? & _). eauto.
Qed.

(** What the pointer of a cursor holds, for a valid iterator. *)
Lemma load_start priv st b p :
  map_wf hash Buckets priv st → b < Buckets →
  (p = BucketHead b ∨ ∃ s, p = NodeNext s ∧ is_Some (heap st !! s)) →
  ∃ v, load p st = Some (v, st).
Proof.
  intros Hwf Hb [->|(s & -> & [ns Hs])].
  - assert (Hhd : is_Some (buckets st !! b)).
    { apply lookup_lt_is_Some. by rewrite (wf_length _ _ _ _ Hwf). }
    destruct Hhd as [hd Hhd]. exists hd. unfold load. by rewrite Hhd.
  - exists (next ns). by apply load_node.
Qed.

(** A pointer of bucket [b] that holds the unmarked address of the node
    [c] of the list is the link behind the nodes before [c]. *)
Lemma link_of_pointer st b p pre c post v :
  map_wf hash Buckets None st →
  bucket_list st b (pre ++ c :: post) →
  (p = BucketHead b ∨
   ∃ s, p = NodeNext s ∧ hash (key_at (heap st) s) mod Buckets = b) →
  load p st = Some (v, st) → v = MarkedPtr (Some c) false →
  p = link_after b pre ∧
  (∀ s, last pre = Some s → node_marked (heap st) s = false).
Proof.
  intros Hwf Hl Hp Hload ->.
  pose proof (bucket_list_NoDup _ _ _ Hl) as Hnd.
  destruct Hp as [->|(s & -> & Hhash)].
  - destruct Hl as (hd & Hhd & Hm & Hseg). unfold load in Hload. rewrite Hhd in Hload.
    simpl in Hload. assert (hd = MarkedPtr (Some c) false) as -> by congruence.
    apply lseg_head_None in Hseg. simpl in Hseg.
    destruct pre as [|x pre]; [by split|]. simpl in Hseg. assert (x = c) as -> by congruence.
    apply NoDup_cons in Hnd as [Hc _]. destruct Hc. set_solver.
  - unfold load in Hload. destruct (heap st !! s) as [ns|] eqn:Hs; simpl in Hload; [|done].
    assert (Hnx : next ns = MarkedPtr (Some c) false) by congruence. clear Hload.
    assert (Hsm : node_marked (heap st) s = false).
    { unfold node_marked. rewrite Hs. by rewrite Hnx. }
    destruct (wf_linked _ _ _ _ Hwf s ltac:(eauto) Hsm) as [?|(b' & l' & Hl' & Hin)]; [done|].
    pose proof (wf_hash _ _ _ _ Hwf b' l' s Hl' Hin) as Hb'.
    assert (b' = b) as -> by congruence.
    rewrite (bucket_list_func _ _ _ _ Hl' Hl) in Hin. clear Hl' Hb'.
    apply list_elem_of_split in Hin as (l1 & l2 & Heq).
    rewrite Heq in Hl. destruct (node_of_list _ _ _ _ _ Hl) as (ns' & Hs' & Hsucc).
    assert (ns' = ns) as -> by congruence. rewrite Hnx in Hsucc. simpl in Hsucc.
    destruct l2 as [|c' l2]; [done|]. simpl in Hsucc. assert (c' = c) as -> by congruence.
    assert (Heq' : pre ++ c :: post = (l1 ++ [s]) ++ c :: l2).
    { by rewrite Heq, <- app_assoc. }
    destruct (NoDup_split_unique _ _ _ _ _ Hnd Heq') as [-> ->].
    unfold link_after. rewrite last_snoc. split; [done|].
    intros s'. by intros [= <-].
Qed.

(** The pointer of a cursor never holds the unmarked address of a marked
    node, between operations. *)
Lemma load_not_marked st p c v :
  map_inv hash Buckets st →
  node_marked (heap st) c = true →
  load p st = Some (v, st) → v ≠ MarkedPtr (Some c) false.
Proof.
  intros [Hwf Hq] Hcm Hload ->. destruct p as [b|s].
  - unfold load in Hload. destruct (buckets st !! b) as [hd|] eqn:Hhd; simpl in Hload; [|done].
    assert (hd = MarkedPtr (Some c) false) as -> by congruence. clear Hload.
    destruct (head_of_bucket hash Buckets None st b _ Hwf Hhd) as (l & Hl & Heq).
    destruct l as [|c' l]; [done|]. simpl in Heq. assert (c' = c) as -> by congruence.
    rewrite (Hq b _ c Hl) in Hcm; [done|set_solver].
  - unfold load in Hload. destruct (heap st !! s) as [ns|] eqn:Hs; simpl in Hload; [|done].
    assert (Hnx : next ns = MarkedPtr (Some c) false) by congruence. clear Hload.
    assert (Hsm : node_marked (heap st) s = false).
    { unfold node_marked. rewrite Hs. by rewrite Hnx. }
    destruct (wf_linked _ _ _ _ Hwf s ltac:(eauto) Hsm) as [?|(b' & l' & Hl' & Hin)]; [done|].
    apply list_elem_of_split in Hin as (l1 & l2 & ->).
    destruct (node_of_list _ _ _ _ _ Hl') as (ns' & Hs' & Hsucc).
    assert (ns' = ns) as -> by congruence. rewrite Hnx in Hsucc. simpl in Hsucc.
    destruct l2 as [|c' l2]; [done|]. simpl in Hsucc. assert (c' = c) as -> by congruence.
    rewrite (Hq b' _ c Hl') in Hcm; [done|set_solver].
Qed.

(** The marking loop of [erase(iterator)] on an unmarked node. *)
Lemma erase_pos_mark_spec c (nc : @node Value) :
  mark (next nc) = false →
  ∀ o st, cas_fail st = o → heap st !! c = Some nc →
    returns (λ fuel, erase_pos_mark_loop fuel c (next nc)) st
      (next nc,
       set_heap (<[c := Node (value nc) (MarkedPtr (get (next nc)) true)]> (heap st))
         (set_cas_fail (after_cas o) st)).
Proof.
  intros Hm o. induction o as [|x o IH]; intros st Ho Hc.
  all: pose proof (load_node _ _ _ Hc) as Hload.
  - exists 1. intros [|fuel] ?; [lia|]. simpl. rewrite Hm.
    assert (Hhd : head (cas_fail st) ≠ Some true) by by rewrite Ho.
    assert (Hst : store (NodeNext c) (MarkedPtr (get (next nc)) true)
                    (set_cas_fail (tail (cas_fail st)) st) =
                  Some (tt, set_heap (<[c := Node (value nc) (MarkedPtr (get (next nc)) true)]> (heap st))
                              (set_cas_fail (tail (cas_fail st)) st))).
    { unfold store. simpl. by rewrite Hc. }
    rewrite (bind_eq _ _ _ _ _ (cas_success _ _ _ _ _ Hload Hhd Hst)). simpl.
    by rewrite Ho.
  - destruct x.
    + destruct (IH (set_cas_fail o st) eq_refl Hc) as [N HN].
      exists (S N). intros [|fuel] ?; [lia|]. simpl. rewrite Hm.
      rewrite (bind_eq _ _ _ _ _ (cas_spurious _ _ _ _ _ Hload Ho)). simpl.
      unfold bind at 1. simpl. rewrite HN by lia. done.
    + exists 1. intros [|fuel] ?; [lia|]. simpl. rewrite Hm.
      assert (Hhd : head (cas_fail st) ≠ Some true) by by rewrite Ho.
      assert (Hst : store (NodeNext c) (MarkedPtr (get (next nc)) true)
                      (set_cas_fail (tail (cas_fail st)) st) =
                    Some (tt, set_heap (<[c := Node (value nc) (MarkedPtr (get (next nc)) true)]> (heap st))
                                (set_cas_fail (tail (cas_fail st)) st))).
      { unfold store. simpl. by rewrite Hc. }
      rewrite (bind_eq _ _ _ _ _ (cas_success _ _ _ _ _ Hload Hhd Hst)). simpl.
      by rewrite Ho.
Qed.

End Pointers.

Section Increment.
Context {Value : Type}.
Variable hash : Key → nat.
Variable Buckets : nat.
Implicit Types (st : @map_state Value) (l pre rest : list addr) (b : nat).
Implicit Types (info : find_info) (p : concurrent_ptr_ref) (it : iterator).
Implicit Types (h : gmap addr (@node Value)).

Lemma valid_iter_bucket priv st it :
  map_wf hash Buckets priv st → valid_iter hash Buckets st it → bucket it < Buckets.
Proof.
  intros Hwf (c & _ & _ & -> & _). apply Nat.mod_upper_bound.
  pose proof (wf_pos _ _ _ _ Hwf). lia.
Qed.

(** The cursor of a valid iterator satisfies the assertion at the entry
    of the kernel. *)
Lemma valid_iter_start st it l :
  map_wf hash Buckets None st → valid_iter hash Buckets st it →
  bucket_list st (bucket it) l →
  valid_start st (bucket it) l (prev (info it)) (save (info it)).
Proof.
  intros Hwf (c & _ & _ & _ & Hs) Hl.
  destruct Hs as [[Hp Hsv]|(s & Hp & Hsv & Hal & Hh & _)]; [by left|right].
  exists s. split_and!; try done. intros Hm.
  destruct (wf_linked _ _ _ _ Hwf s Hal Hm) as [?|(b' & l' & Hl' & Hin)]; [done|].
  pose proof (wf_hash _ _ _ _ Hwf b' l' s Hl' Hin) as Hb'.
  assert (b' = bucket it) as -> by congruence.
  by rewrite (bucket_list_func _ _ _ _ Hl Hl').
Qed.

(** [operator++] at a valid iterator. *)
Lemma iterator_incr_spec st it :
  map_inv hash Buckets st → valid_iter hash Buckets st it →
  ∃ res, returns (λ fuel, iterator_incr Buckets fuel it) st res ∧
         incr_outcome hash Buckets st it res.
Proof.
  intros [Hwf Hq] Hv.
  pose proof (valid_iter_bucket None st it Hwf Hv) as Hb.
  destruct (wf_lists _ _ _ _ Hwf _ Hb) as (l & Hl).
  pose proof (valid_iter_start st it l Hwf Hv Hl) as Hstart.
  destruct Hv as (c & Hcur & [nc Hc] & Hbc & Hs).
  assert (Hderef : deref (cur (info it)) st = Some (c, st)) by by rewrite Hcur.
  destruct (mark (next nc)) eqn:Hm.
  - (* cur is marked for removal *)
    destruct (find_kernel_quiet st (bucket it) l (fst (value nc)) (info it) Hl)
      as (r & info1 & [N Hret] & Hcursor); [by intros; eapply Hq|done|].
    set (st1 := log_call (bucket it) (fst (value nc)) st) in *.
    assert (Hwf1 : map_wf hash Buckets None st1) by by apply (map_wf_ext hash Buckets None st).
    destruct (finish_iter hash Buckets None st1 (bucket it) info1 Hwf1 ltac:(lia))
      as (it' & Hfin & Hok & Hle).
    { intros Hnn. by eapply cursor_valid_iter. }
    exists (it', st1). split.
    + exists N. intros fuel Hfuel. unfold iterator_incr.
      rewrite (bind_eq _ _ _ _ _ Hderef).
      rewrite (bind_eq _ _ _ _ _ (load_node _ _ _ Hc)). rewrite Hm.
      rewrite bind_ret. simpl.
      unfold bind at 1. unfold bind at 1.
      rewrite (node_key_eq _ _ _ Hc). unfold bind at 1. rewrite Hret by done.
      simpl. exact Hfin.
    + unfold incr_outcome. simpl. split_and!; done.
  - (* advance to the successor *)
    assert (Hcm : node_marked (heap st) c = false).
    { unfold node_marked. by rewrite Hc. }
    destruct (wf_linked _ _ _ _ Hwf c ltac:(eauto) Hcm) as [?|(b' & l' & Hl' & Hin)]; [done|].
    pose proof (wf_hash _ _ _ _ Hwf b' l' c Hl' Hin) as Hb'.
    assert (b' = bucket it) as -> by congruence.
    rewrite (bucket_list_func _ _ _ _ Hl' Hl) in Hin. clear Hl' Hb'.
    apply list_elem_of_split in Hin as (pre & post & ->).
    destruct (node_of_list _ _ _ _ _ Hl) as (nc' & Hc' & Hsucc).
    assert (nc' = nc) as -> by congruence.
    assert (Hnx : next nc = MarkedPtr (head post) false).
    { rewrite <- Hsucc, <- Hm. by destruct (next nc). }
    set (info' := set_cur (next nc)
                    (set_save (cur (info it)) (set_prev (Some (NodeNext c)) (info it)))).
    destruct (finish_iter hash Buckets None st (bucket it) info' Hwf ltac:(lia))
      as (it' & Hfin & Hok & Hle).
    { intros Hnn. simpl in Hnn. rewrite Hnx in Hnn. simpl in Hnn.
      destruct post as [|c2 post]; [done|].
      apply (position_valid_iter hash Buckets None st (bucket it) (pre ++ [c]) c2 post);
        [done|by rewrite <- app_assoc|..].
      - simpl. unfold link_after. by rewrite last_snoc.
      - simpl. by rewrite Hcur, last_snoc.
      - simpl. by rewrite Hnx. }
    exists (it', st). split.
    + exists 0. intros fuel _. unfold iterator_incr.
      rewrite (bind_eq _ _ _ _ _ Hderef).
      rewrite (bind_eq _ _ _ _ _ (load_node _ _ _ Hc)). rewrite Hm.
      rewrite (bind_eq _ _ _ _ _ (acquire_if_equal_ok _ _ _ (load_node _ _ _ Hc))).
      rewrite bind_ret. exact Hfin.
    + unfold incr_outcome. simpl. split_and!; done.
Qed.

End Increment.

(** ** Erasure at an iterator *)

Section ErasePosition.
Context {Value : Type}.
Variable hash : Key → nat.
Variable Buckets : nat.
Implicit Types (st : @map_state Value) (l pre rest : list addr) (b : nat).
Implicit Types (info : find_info) (p : concurrent_ptr_ref) (it pos : iterator).
Implicit Types (h : gmap addr (@node Value)).

(** A weak CAS fails, perhaps spuriously, or finds the expected value. *)
Lemma cas_cases p e d st v :
  load p st = Some (v, st) →
  (∃ o, compare_exchange_weak p e d st = Some ((false, v), set_cas_fail o st)) ∨
  (v = e ∧ head (cas_fail st) ≠ Some true).
Proof.
  intros Hload. destruct (decide (v = e)) as [->|Hne].
  - destruct (cas_fail st) as [|[] o] eqn:Ho.
    + by right.
    + left. exists o. by apply cas_spurious.
    + by right.
  - left. exists (cas_fail st). rewrite set_cas_fail_id. by apply cas_mismatch.
Qed.

(** The pointer [info.prev] of a valid iterator. *)
Lemma valid_iter_prev st pos :
  valid_iter hash Buckets st pos →
  ∃ p, prev (info pos) = Some p ∧
       (p = BucketHead (bucket pos) ∨
        ∃ s, p = NodeNext s ∧ is_Some (heap st !! s) ∧
             hash (key_at (heap st) s) mod Buckets = bucket pos) ∧
       get (save (info pos)) =
         match p with BucketHead _ => None | NodeNext s => Some s end.
Proof.
  intros (c & _ & _ & _ & [[Hp Hs]|(s & Hp & Hs & Hal & Hh & _)]).
  - exists (BucketHead (bucket pos)). split_and!; [done|by left|done].
  - exists (NodeNext s). split_and!; [done|right; eauto|done].
Qed.

(** [erase(iterator)] at an iterator whose node was erased before. *)
Lemma erase_pos_stale st pos c (nc : @node Value) :
  map_inv hash Buckets st → valid_iter hash Buckets st pos →
  cur (info pos) = MarkedPtr (Some c) false →
  heap st !! c = Some nc → mark (next nc) = true →
  ∃ res, returns (λ fuel, erase_pos Buckets fuel pos) st res ∧
         erase_pos_outcome hash Buckets st pos res.
Proof.
  intros Hinv Hv Hcur Hc Hm. pose proof Hinv as [Hwf Hq].
  pose proof (valid_iter_bucket hash Buckets None st pos Hwf Hv) as Hb.
  destruct (wf_lists _ _ _ _ Hwf _ Hb) as (l & Hl).
  pose proof (valid_iter_start hash Buckets st pos l Hwf Hv Hl) as Hstart.
  destruct (valid_iter_prev st pos Hv) as (p & Hprev & Hp & _).
  destruct (load_start hash Buckets None st (bucket pos) p Hwf Hb) as (v & Hload).
  { destruct Hp as [?|(s & ? & ? & _)]; [by left|right; eauto]. }
  assert (Hcm : node_marked (heap st) c = true).
  { unfold node_marked. by rewrite Hc. }
  assert (Hne : v ≠ cur (info pos)).
  { rewrite Hcur. by eapply load_not_marked. }
  assert (Hnl : ¬ live st c).
  { intros (b' & l' & Hl' & Hin). rewrite (Hq b' l' c Hl' Hin) in Hcm. done. }
  destruct (find_kernel_quiet st (bucket pos) l (fst (value nc)) (info pos) Hl)
    as (r & info1 & [N Hret] & Hcursor); [by intros; eapply Hq|done|].
  set (st1 := log_call (bucket pos) (fst (value nc)) st) in *.
  assert (Hwf1 : map_wf hash Buckets None st1) by by apply (map_wf_ext hash Buckets None st).
  destruct (finish_iter hash Buckets None st1 (bucket pos) info1 Hwf1 ltac:(lia))
    as (it' & Hfin & Hok & Hle).
  { intros Hnn. by eapply cursor_valid_iter. }
  assert (Hloop : ∀ fuel, erase_pos_mark_loop fuel c (next nc) st = Some (next nc, st)).
  { intros [|fuel]; simpl; by rewrite Hm. }
  assert (Hderef : deref (cur (info pos)) st = Some (c, st)) by by rewrite Hcur.
  exists (it', st1). split.
  - exists N. intros fuel Hfuel. unfold erase_pos.
    rewrite (bind_eq _ _ _ _ _ Hderef).
    rewrite (bind_eq _ _ _ _ _ (load_node _ _ _ Hc)).
    rewrite (bind_eq _ _ _ _ _ (Hloop fuel)).
    rewrite (bind_eq _ _ _ _ _ (prev_ref_eq _ _ _ Hprev)).
    rewrite (bind_eq _ _ _ _ _ (cas_mismatch _ _ _ _ _ Hload Hne)). simpl.
    unfold bind at 1. unfold bind at 1.
    rewrite (node_key_eq _ _ _ Hc). unfold bind at 1. rewrite Hret by done.
    simpl. exact Hfin.
  - exists c. simpl. split_and!; try done.
    + by rewrite Hcur.
    + by apply kept_ext.
    + intros x. split.
      * intros H. apply (live_ext _ st) in H; [|done..]. split; [done|]. by intros ->.
      * intros [H _]. by apply (live_ext st).
    + intros k. split.
      * intros H. apply (has_key_ext _ st) in H; [|done..]. split; [done|]. by intros ?.
      * intros [H _]. by apply (has_key_ext st).
Qed.

End ErasePosition.

Section ErasePositionLive.
Context {Value : Type}.
Variable hash : Key → nat.
Variable Buckets : nat.
Implicit Types (st : @map_state Value) (l pre rest : list addr) (b : nat).
Implicit Types (info : find_info) (p : concurrent_ptr_ref) (it pos : iterator).
Implicit Types (h : gmap addr (@node Value)).

(** [erase(iterator)] at an iterator whose node is in the map. *)
Lemma erase_pos_live st pos c (nc : @node Value) :
  map_inv hash Buckets st → valid_iter hash Buckets st pos →
  cur (info pos) = MarkedPtr (Some c) false →
  heap st !! c = Some nc → mark (next nc) = false →
  ∃ res, returns (λ fuel, erase_pos Buckets fuel pos) st res ∧
         erase_pos_outcome hash Buckets st pos res.
Proof.
  intros Hinv Hv Hcur Hc Hm. pose proof Hinv as [Hwf Hq].
  pose proof (valid_iter_bucket hash Buckets None st pos Hwf Hv) as Hb.
  destruct (wf_lists _ _ _ _ Hwf _ Hb) as (l & Hl).
  pose proof (valid_iter_start hash Buckets st pos l Hwf Hv Hl) as Hstart.
  destruct (valid_iter_prev hash Buckets st pos Hv) as (p & Hprev & Hp & Hsave).
  set (b := bucket pos) in *. set (key := fst (value nc)).
  assert (Hkc : key_at (heap st) c = key).
  { unfold key_at. by rewrite Hc. }
  assert (Hbc : b = hash key mod Buckets).
  { destruct Hv as (c' & Hcur' & _ & Hbc & _).
    assert (c' = c) as -> by congruence. by rewrite <- Hkc. }
  assert (Hlt : ∀ s, p = NodeNext s → (key_at (heap st) s < key)%Z).
  { intros s ->. destruct Hv as (c' & Hcur' & _ & _ & [[Hp' _]|(s' & Hp' & _ & _ & _ & Hlt)]).
    - congruence.
    - assert (c' = c) as -> by congruence. assert (s' = s) as -> by congruence.
      by rewrite <- Hkc. }
  assert (Hcm : node_marked (heap st) c = false).
  { unfold node_marked. by rewrite Hc. }
  destruct (wf_linked _ _ _ _ Hwf c ltac:(eauto) Hcm) as [?|(b' & l' & Hl' & Hin)]; [done|].
  pose proof (wf_hash _ _ _ _ Hwf b' l' c Hl' Hin) as Hb'.
  assert (b' = b) as -> by congruence.
  rewrite (bucket_list_func _ _ _ _ Hl' Hl) in Hin. clear Hl' Hb'.
  apply list_elem_of_split in Hin as (pre & post & ->).
  destruct (node_of_list _ _ _ _ _ Hl) as (nc' & Hc' & Hsucc).
  assert (nc' = nc) as -> by congruence. clear Hc'.
  destruct (erase_pos_mark_spec c nc Hm (cas_fail st) st eq_refl Hc) as [N Hmark].
  set (nm := Node (value nc) (MarkedPtr (get (next nc)) true)) in *.
  set (st_m := set_heap (<[c := nm]> (heap st))
                 (set_cas_fail (after_cas (cas_fail st)) st)) in *.
  assert (Hcl : c ∈ pre ++ c :: post) by set_solver.
  destruct (mark_node hash Buckets st b _ c nc Hwf Hl Hcl Hc) as (Hwfm0 & Hlm0 & Hcm0 & Hom0 & Hkm0).
  fold nm in Hwfm0, Hlm0, Hcm0, Hom0, Hkm0.
  assert (Hwfm : ∀ st2, buckets st2 = buckets st_m → heap st2 = heap st_m →
                        map_wf hash Buckets None st2).
  { intros st2 ? ?.
    apply (map_wf_ext hash Buckets None (set_heap (<[c := nm]> (heap st)) st)); done. }
  assert (Hlm : ∀ st2, buckets st2 = buckets st_m → heap st2 = heap st_m →
                       bucket_list st2 b (pre ++ c :: post)).
  { intros st2 ? ?.
    eapply (bucket_list_ext (set_heap (<[c := nm]> (heap st)) st)); [done..|].
    by apply Hlm0. }
  pose proof (bucket_list_NoDup _ _ _ Hl) as Hnd.
  assert (Hcnp : c ∉ pre).
  { apply NoDup_app in Hnd as (_ & H2 & _). intros Hx. apply (H2 c Hx). set_solver. }
  assert (Hcnq : c ∉ post).
  { apply NoDup_app in Hnd as (_ & _ & H3). by apply NoDup_cons in H3 as [H3 _]. }
  assert (Hal : ∀ s, is_Some (heap st !! s) → is_Some (heap st_m !! s)).
  { intros s Hs. simpl. destruct (decide (s = c)) as [->|Hne].
    - rewrite lookup_insert_eq. eauto.
    - by rewrite lookup_insert_ne. }
  assert (Hcmm : heap st_m !! c = Some nm) by (simpl; by rewrite lookup_insert_eq).
  destruct (load_start hash Buckets None st_m b p (Hwfm st_m eq_refl eq_refl) Hb)
    as (v & Hload).
  { destruct Hp as [?|(s & ? & ? & _)]; [by left|right; eauto]. }
  assert (Hderef : deref (cur (info pos)) st = Some (c, st)) by by rewrite Hcur.
  assert (Hrun : ∀ fuel, N ≤ fuel →
    erase_pos Buckets fuel pos st =
    bind (compare_exchange_weak p (cur (info pos)) (MarkedPtr (get (next nc)) false))
      (λ x, let '(ok, _) := x in
            bind (if (ok : bool)
                  then bind (reclaim (cur (info pos)))
                         (λ _, ret (set_cur (MarkedPtr (get (next nc)) false) (info pos)))
                  else bind (node_key c)
                         (λ key, bind (find_kernel fuel key b (info pos))
                                   (λ y, let '(_, info) := y in ret info)))
              (λ info, if is_null (cur info)
                       then move_to_next_bucket Buckets (Iterator b info)
                       else ret (Iterator b info))) st_m).
  { intros fuel Hfuel. unfold erase_pos.
    rewrite (bind_eq _ _ _ _ _ Hderef).
    rewrite (bind_eq _ _ _ _ _ (load_node _ _ _ Hc)).
    rewrite (bind_eq _ _ _ _ _ (Hmark fuel Hfuel)).
    by rewrite (bind_eq _ _ _ _ _ (prev_ref_eq _ _ _ Hprev)). }
  assert (Hfin : ∃ st_x st' it',
    heap st_x = <[c := nm]> (heap st) ∧ buckets st_x = buckets st ∧
    rtc (help_step b) st_x st' ∧
    (map_wf hash Buckets None st' → ∀ l', bucket_list st' b l' → c ∉ l') ∧
    returns (λ fuel, erase_pos Buckets fuel pos) st (it', st') ∧
    (map_wf hash Buckets None st' → iter_ok hash Buckets st' it' ∧ b ≤ bucket it') ∧
    factory_calls st' = factory_calls st).
  { destruct (cas_cases p (cur (info pos)) (MarkedPtr (get (next nc)) false) st_m v Hload)
      as [[o Hcas]|[-> Hhd]].
    - (* the unlinking CAS fails: rewalk the list *)
      set (st_f := set_cas_fail o st_m) in *.
      destruct (find_kernel_spec key b st_f (pre ++ c :: post) (info pos))
        as ([[r2 info2] st'] & [N2 Hret2] & Hrtc & Hcursor); [by apply Hlm| |].
      { destruct Hstart as [?|(s & Hps & Hsv & Hsal & Hsin)]; [by left|right].
        exists s. split_and!; try done.
        - by apply Hal.
        - intros Hsm. apply Hsin. rewrite <- Hsm. symmetry.
          apply node_marked_agree. simpl. apply lookup_insert_ne.
          intros <-. simpl in Hsm. unfold node_marked in Hsm.
          by rewrite lookup_insert_eq in Hsm. }
      simpl in Hrtc, Hcursor.
      pose proof (rtc_help_frame _ _ _ Hrtc) as (Hsame & _ & _ & _ & Hf' & _).
      destruct (rtc_help_wf hash Buckets None b _ st'
                  (Hwfm (log_call b key st_f) eq_refl eq_refl) Hrtc) as (Hwf' & _ & _).
      destruct (finish_iter hash Buckets None st' b info2 Hwf' ltac:(lia))
        as (it' & Hfinish & Hok & Hle).
      { intros Hnn. by eapply cursor_valid_iter. }
      exists (log_call b key st_f), st', it'. split_and!; try done.
      + intros _ l2 Hl2.
        eapply (cursor_excludes hash Buckets None st' b key (prev (info pos)) r2 info2 c l2 Hwf');
          try done.
        * rewrite Hprev. destruct Hp as [->|(s & -> & _)]; [by left|right].
          exists s. split; [done|]. rewrite (same_nodes_key _ _ _ Hsame). simpl.
          rewrite Hkm0. by apply Hlt.
        * rewrite (same_nodes_marked _ _ _ Hsame). done.
        * rewrite (same_nodes_key _ _ _ Hsame). simpl. by rewrite Hkm0.
      + exists (N `max` N2). intros fuel Hfuel. rewrite Hrun by lia.
        rewrite (bind_eq _ _ _ _ _ Hcas). simpl.
        unfold bind at 1. unfold bind at 1.
        assert (Hcf : heap st_f !! c = Some nm) by done.
        rewrite (node_key_eq _ _ _ Hcf). unfold bind at 1. simpl. fold key.
        rewrite Hret2 by lia. simpl. exact Hfinish.
    - (* the unlinking CAS succeeds *)
      destruct (link_of_pointer hash Buckets st_m b p pre c post (cur (info pos))
                  (Hwfm st_m eq_refl eq_refl) (Hlm st_m eq_refl eq_refl))
        as (Hpl & Howner); try done.
      { destruct Hp as [?|(s & ? & _ & Hh)]; [by left|right].
        exists s. split; [done|]. simpl. by rewrite Hkm0. }
      destruct (tail_of_list st_m b (pre ++ [c]) post) as (q & Hq').
      { rewrite <- app_assoc. by apply Hlm. }
      pose proof (lseg_head_None _ _ _ Hq') as ->.
      destruct (store_link_list (set_cas_fail (tail (cas_fail st_m)) st_m) b
                  pre (c :: post) (head post) post) as (st_u & Hst & Hlu).
      { by apply Hlm. }
      { done. }
      { intros s Hlast Hin. apply last_snoc_inv in Hlast as (pre' & ->).
        apply NoDup_app in Hnd as (_ & H2 & _). eapply (H2 s); set_solver. }
      set (st' := set_retired (retired st_u ++ [c]) st_u).
      assert (Hstep : help_step b st_m st').
      { eapply (help_unlink b st_m st' pre c post st_u); try done.
        by apply Hlm. }
      pose proof (store_inv _ _ _ _ Hst) as (_ & _ & _ & Hf' & _).
      assert (Hlu' : bucket_list st' b (pre ++ post)) by by eapply bucket_list_ext.
      set (info' := set_cur (MarkedPtr (get (next nc)) false) (info pos)).
      exists st_m, st'.
      assert (Hfinish : map_wf hash Buckets None st' →
        ∃ it', (if is_null (cur info')
                then move_to_next_bucket Buckets (Iterator b info')
                else ret (Iterator b info')) st' = Some (it', st') ∧
               iter_ok hash Buckets st' it' ∧ b ≤ bucket it').
      { intros Hwf'. apply (finish_iter hash Buckets None st' b info' Hwf' ltac:(lia)).
        intros Hnn. simpl in Hnn. rewrite Hsucc in Hnn.
        destruct post as [|c2 post']; [done|].
        apply (position_valid_iter hash Buckets None st' b pre c2 post'); [done|done|..].
        - simpl. by rewrite Hprev, Hpl.
        - simpl. rewrite Hsave, Hpl. unfold link_after. by destruct (last pre).
        - simpl. by rewrite Hsucc. }
      destruct (rtc_help_wf hash Buckets None b st_m st' (Hwfm st_m eq_refl eq_refl))
        as (Hwf' & _ & _); [by apply rtc_once|].
      destruct (Hfinish Hwf') as (it' & Hfinish' & Hok & Hle).
      exists it'. split_and!; try done.
      + by apply rtc_once.
      + intros _ l2 Hl2. rewrite (bucket_list_func _ _ _ _ Hl2 Hlu').
        intros [Hx|Hx]%elem_of_app; done.
      + exists N. intros fuel Hfuel. rewrite Hrun by lia.
        rewrite Hpl. rewrite Hpl in Hload. rewrite Hsucc.
        rewrite (bind_eq _ _ _ _ _ (cas_success _ _ _ _ _ Hload Hhd Hst)). simpl.
        unfold reclaim. rewrite Hcur. simpl. unfold bind at 1. simpl.
        fold st'. rewrite <- Hsucc. exact Hfinish'. }
  destruct Hfin as (st_x & st' & it' & Hhx & Hbx & Hrtc & Hout & Hret & Hiter & Hfc).
  destruct (erased_outcome hash Buckets st st_x st' b pre c post nc key)
    as (Hinv' & Hhk & Hkept & Hc' & Hlive); try done.
  destruct (Hiter (inv_wf _ _ _ Hinv')) as [Hok Hle].
  exists (it', st'). split; [done|].
  exists c. simpl. split_and!; try done.
  - by rewrite Hcur.
  - intros k. rewrite Hhk. rewrite Hkc. split; intros [H1 H2]; split; try done.
    + apply H2. exists b, (pre ++ c :: post). done.
Qed.

(** [erase(iterator)] at a valid iterator. *)
Lemma erase_pos_spec st pos :
  map_inv hash Buckets st → valid_iter hash Buckets st pos →
  ∃ res, returns (λ fuel, erase_pos Buckets fuel pos) st res ∧
         erase_pos_outcome hash Buckets st pos res.
Proof.
  intros Hinv Hv. pose proof Hv as (c & Hcur & [nc Hc] & _).
  destruct (mark (next nc)) eqn:Hm.
  - by eapply erase_pos_stale.
  - by eapply erase_pos_live.
Qed.

End ErasePositionLive.

(** ** Sequences of operations *)

Section EmptyMap.
Context {Value : Type}.
Variable hash : Key → nat.
Variable Buckets : nat.
Implicit Types (st : @map_state Value) (l pre rest : list addr) (b : nat).
Implicit Types (h : gmap addr (@node Value)).

Lemma lseg_null h l : lseg h None l None → l = [].
Proof. destruct l as [|a l]; [done|]. by intros [? _]. Qed.

(** The lists of a map whose heads are all null. *)
Lemma null_bucket_list st b l :
  buckets st = replicate Buckets null_ptr →
  bucket_list st b l ↔ b < Buckets ∧ l = [].
Proof.
  intros Hbk. unfold bucket_list. rewrite Hbk. split.
  - intros (hd & Hhd & _ & Hl). apply lookup_replicate in Hhd as [-> Hb].
    split; [done|]. by apply lseg_null in Hl.
  - intros [Hb ->]. exists null_ptr. split_and!; try done.
    by apply lookup_replicate.
Qed.

(** The map as constructed satisfies the invariant. *)
Lemma empty_map_inv o :
  0 < Buckets → map_inv hash Buckets (@empty_map Value Buckets o).
Proof.
  intros Hpos.
  assert (Hnull : ∀ b l, bucket_list (@empty_map Value Buckets o) b l ↔
                         b < Buckets ∧ l = []).
  { intros b l. by apply null_bucket_list. }
  split; [split|].
  - done.
  - simpl. by rewrite length_replicate.
  - intros b Hb. exists []. by apply Hnull.
  - intros b l [_ ->]%Hnull. constructor.
  - intros b l a [_ ->]%Hnull Ha. by apply elem_of_nil in Ha.
  - intros a [n Hn]. simpl in Hn. by rewrite lookup_empty in Hn.
  - done.
  - intros b l a [_ ->]%Hnull Ha. by apply elem_of_nil in Ha.
Qed.

End EmptyMap.

Section Ordering.
Context {Value : Type}.
Variable hash : Key → nat.
Variable Buckets : nat.
Implicit Types (st : @map_state Value) (l pre rest : list addr) (b : nat).
Implicit Types (h : gmap addr (@node Value)).




(** Iterators stay usable while the nodes are kept. *)
Lemma iter_ok_kept st st' it :
  kept None st st' → iter_ok hash Buckets st it → iter_ok hash Buckets st' it.
Proof.
  intros Hk [Hv|Hn]; [left|by right]. by eapply valid_iter_kept.
Qed.

Lemma iter_ok_valid st it :
  iter_ok hash Buckets st it → get (cur (info it)) ≠ None →
  valid_iter hash Buckets st it.
Proof. by intros [?|[? _]] ?. Qed.

Lemma returns_map {A B} (f : nat → @M Value A) (g : A → B) st a st' :
  returns f st (a, st') →
  returns (λ fuel, bind (f fuel) (λ x, ret (g x))) st (g a, st').
Proof.
  intros H. eapply (returns_bind f (λ _ x, ret (g x))); [exact H|].
  by apply returns_const.
Qed.

End Ordering.

Section Operations.
Context {Value : Type}.
Variable hash : Key → nat.
Variable Buckets : nat.
Implicit Types (st : @map_state Value) (l pre rest : list addr) (b : nat).
Implicit Types (it pos : iterator) (its : list iterator).
Implicit Types (op : @operation Value) (res : result).

(** The outcome of an insertion as the outcome of an operation. *)
Lemma insert_op_outcome st op key it ok st' :
  is_insert op = true → op_key op = Some key →
  insert_outcome hash Buckets key st ((it, ok), st') →
  ∀ res, (∀ it', it' ∈ result_iter res → it' = it) → result_flag res = ok →
         op_outcome hash Buckets st op res st'.
Proof.
  intros Hins Hkey (Hinv & _ & Hhk & _ & Hkept & Hv & _ & _ & Hkc & _) res Hri Hrf.
  simpl in *. split_and!; try done.
  - intros it' Hit. rewrite (Hri it' Hit). by left.
  - intros k _ Hk. apply Hhk. by left.
  - intros k _ Hk. apply Hhk. right. congruence.
  - intros k Hk. assert (k = key) as -> by congruence. rewrite Hkc.
    destruct op; try done; simpl; by rewrite Hrf.
Qed.

(** A store that differs in the log of kernel calls only. *)
Lemma logged_outcome st op res b key n :
  map_inv hash Buckets st →
  (∀ it, it ∈ result_iter res → iter_ok hash Buckets st it) →
  is_insert op = false →
  (∀ k, op_key op = Some k → k = key ∧ b = hash key mod Buckets ∧
                             op_kernel_calls op res (cas_fail st) = n) →
  ∀ st', buckets st' = buckets st → heap st' = heap st →
         kernel_calls st' = kernel_calls st ++ replicate n (b, key) →
         op_outcome hash Buckets st op res st'.
Proof.
  intros Hinv Hits Hins Hkey st' Hbk Hh Hkc.
  assert (Hkept : kept None st st') by by apply kept_ext.
  split_and!; try done.
  - by apply (map_inv_ext hash Buckets st).
  - intros it Hit. eapply iter_ok_kept; [done|]. by apply Hits.
  - intros k _ Hk. by apply (has_key_ext st).
  - intros k Hk. by rewrite Hins in Hk.
  - intros k Hk. destruct (Hkey k Hk) as (-> & -> & ->). done.
Qed.

(** Every operation returns and re-establishes the invariant. *)
Lemma op_spec st its op :
  map_inv hash Buckets st →
  (∀ it, it ∈ its → iter_ok hash Buckets st it) →
  op_ready its op →
  ∃ res st', returns (λ fuel, run_op hash Buckets fuel op) st (res, st') ∧
             op_outcome hash Buckets st op res st'.
Proof.
  intros Hinv Hits Hready. destruct op as [key|key|args|args|key args|key vf|key|pos| | |pos].
  - (* contains *)
    destruct (contains_spec hash Buckets st key Hinv) as (r & Hret & Hr).
    exists (RBool r), (log_call (hash key mod Buckets) key st). split.
    + by apply (returns_map _ RBool).
    + eapply (logged_outcome st _ _ (hash key mod Buckets) key 1); try done.
      * by intros it Hit%elem_of_nil.
      * intros k [= <-]. done.
  - (* find *)
    destruct (find_spec hash Buckets st key Hinv) as (l & r & info' & Hl & Hret & Hpos & Hr).
    eexists (RIter _), (log_call (hash key mod Buckets) key st). split.
    + apply (returns_map _ RIter). exact Hret.
    + eapply (logged_outcome st _ _ (hash key mod Buckets) key 1); try done.
      * intros it ->%list_elem_of_singleton. destruct r.
        -- left. eapply at_position_valid_iter; [by apply inv_wf|done|done].
        -- right. done.
      * intros k [= <-]. done.
  - (* emplace *)
    destruct (emplace_or_get_spec hash Buckets st args Hinv) as ([[it ok] st'] & Hret & Hout & _).
    exists (RBool ok), st'. split.
    + apply (returns_map _ RBool). unfold emplace.
      by apply (returns_map _ snd) in Hret.
    + eapply (insert_op_outcome st _ (fst args) it ok); try done.
      by intros it' Hit%elem_of_nil.
  - (* emplace_or_get *)
    destruct (emplace_or_get_spec hash Buckets st args Hinv) as ([[it ok] st'] & Hret & Hout & _).
    exists (RPair it ok), st'. split.
    + by apply (returns_map _ (λ r, RPair (fst r) (snd r))) in Hret.
    + eapply (insert_op_outcome st _ (fst args) it ok); try done.
      by intros it' ->%list_elem_of_singleton.
  - (* get_or_emplace *)
    destruct (get_or_emplace_spec hash Buckets st key args Hinv) as ([[it ok] st'] & Hret & Hout & _).
    exists (RPair it ok), st'. split.
    + by apply (returns_map _ (λ r, RPair (fst r) (snd r))) in Hret.
    + eapply (insert_op_outcome st _ key it ok); try done.
      by intros it' ->%list_elem_of_singleton.
  - (* get_or_emplace_lazy *)
    destruct (get_or_emplace_lazy_spec hash Buckets st key vf Hinv) as ([[it ok] st'] & Hret & Hout & _).
    exists (RPair it ok), st'. split.
    + by apply (returns_map _ (λ r, RPair (fst r) (snd r))) in Hret.
    + eapply (insert_op_outcome st _ key it ok); try done.
      by intros it' ->%list_elem_of_singleton.
  - (* erase(key) *)
    destruct (erase_spec hash Buckets st key Hinv) as ([r st'] & Hret & Hout).
    destruct Hout as (Hinv' & Hr & Hhk & Hkept & _ & _ & Hkc & _). simpl in *.
    exists (RBool r), st'. split.
    + by apply (returns_map _ RBool) in Hret.
    + split_and!; try done.
      * by intros it Hit%elem_of_nil.
      * intros k Hkeep Hk. apply Hhk. split; [done|]. intros ->.
        apply Hkeep. split; [done|]. f_equal. by apply Hr.
      * intros k [= <-]. done.
  - (* erase(iterator) *)
    destruct Hready as [Hin Hnn].
    pose proof (iter_ok_valid hash Buckets st pos (Hits pos Hin) Hnn) as Hv.
    destruct (erase_pos_spec hash Buckets st pos Hinv Hv) as ([it' st'] & Hret & Hout).
    destruct Hout as (c & Hc & Hinv' & Hkept & Hok & _ & _ & Hhk & _). simpl in *.
    exists (RIter it'), st'. split.
    + by apply (returns_map _ RIter) in Hret.
    + split_and!; try done.
      * by intros it ->%list_elem_of_singleton.
      * intros k Hkeep Hk. apply Hhk. split; [done|]. intros _ ->.
        apply Hkeep. by exists c.
  - (* begin *)
    destruct (begin_spec hash Buckets st Hinv) as (it & Hret & Hok & _).
    exists (RIter it), st. split.
    + apply (returns_map (λ _, begin Buckets) RIter). by apply returns_const.
    + split_and!; try done.
      * apply kept_refl.
      * by intros it' ->%list_elem_of_singleton.
  - (* end *)
    exists (RIter (iterator_end Buckets)), st. split.
    + by apply returns_const.
    + split_and!; try done.
      * apply kept_refl.
      * intros it' ->%list_elem_of_singleton. by right.
  - (* operator++ *)
    destruct Hready as [Hin Hnn].
    pose proof (iter_ok_valid hash Buckets st pos (Hits pos Hin) Hnn) as Hv.
    destruct (iterator_incr_spec hash Buckets st pos Hinv Hv) as ([it' st'] & Hret & Hout).
    destruct Hout as (Hbk & Hh & _ & _ & _ & Hok & _). simpl in *.
    exists (RIter it'), st'. split.
    + by apply (returns_map _ RIter) in Hret.
    + assert (Hkept : kept None st st') by by apply kept_ext.
      split_and!; try done.
      * by apply (map_inv_ext hash Buckets st).
      * by intros it ->%list_elem_of_singleton.
      * intros k _ Hk. by apply (has_key_ext st).
Qed.

End Operations.

Section Runs.
Context {Value : Type}.
Variable hash : Key → nat.
Variable Buckets : nat.
Implicit Types (st : @map_state Value) (l pre rest : list addr) (b : nat).
Implicit Types (it pos : iterator) (its : list iterator).
Implicit Types (op : @operation Value) (res : result).

(** The outcome of an operation that returned. *)
Lemma op_returned st its op res st' :
  map_inv hash Buckets st →
  (∀ it, it ∈ its → iter_ok hash Buckets st it) →
  op_ready its op →
  returns (λ fuel, run_op hash Buckets fuel op) st (res, st') →
  op_outcome hash Buckets st op res st'.
Proof.
  intros Hinv Hits Hready Hret.
  destruct (op_spec hash Buckets st its op Hinv Hits Hready) as (res0 & st0 & Hret0 & Hout).
  pose proof (returns_func _ _ _ _ Hret Hret0) as Heq.
  assert (res = res0) as -> by congruence. assert (st' = st0) as -> by congruence.
  done.
Qed.

(** The invariant along a sequence of operations, and the keys that no
    operation of the sequence removes. *)
Lemma run_inv allowed st its st' its' :
  run hash Buckets allowed st its st' its' →
  map_inv hash Buckets st →
  (∀ it, it ∈ its → iter_ok hash Buckets st it) →
  map_inv hash Buckets st' ∧
  (∀ it, it ∈ its' → iter_ok hash Buckets st' it) ∧
  ∀ k, (∀ st0 op res, allowed st0 op res → keeps_key k st0 op res) →
       has_key st k → has_key st' k.
Proof.
  induction 1 as [st its|st its op res st1 st2 its2 Hready Hall Hret Hrun IH
                  |st its o st2 its2 Hrun IH]; intros Hinv Hits.
  - done.
  - destruct (op_returned st its op res st1 Hinv Hits Hready Hret)
      as (Hinv1 & Hkept & Hres & Hkeep & _).
    destruct IH as (Hinv2 & Hits2 & Hkey2); [done| |].
    { intros it [Hit|Hit]%elem_of_app; [by apply Hres|].
      eapply iter_ok_kept; [done|]. by apply Hits. }
    split_and!; [done..|]. intros k Hk Hhas. apply Hkey2; [done|].
    apply Hkeep; [|done]. by apply Hk.
  - destruct IH as (Hinv2 & Hits2 & Hkey2).
    { by apply (map_inv_ext hash Buckets st). }
    { intros it Hit. eapply (iter_ok_kept hash Buckets st); [by apply kept_ext|].
      by apply Hits. }
    split_and!; [done..|]. intros k Hk Hhas. apply Hkey2; [done|].
    by apply (has_key_ext st).
Qed.

Lemma reachable_inv st its :
  0 < Buckets → reachable hash Buckets st its →
  map_inv hash Buckets st ∧ (∀ it, it ∈ its → iter_ok hash Buckets st it).
Proof.
  intros Hpos [o Hrun].
  destruct (run_inv _ _ _ _ _ Hrun) as (? & ? & _); [by apply empty_map_inv| |done].
  by intros it Hit%elem_of_nil.
Qed.

(** An operation on a key needs no iterator. *)
Lemma op_key_ready its op key : op_key op = Some key → op_ready its op.
Proof. by destruct op. Qed.


(** [move_to_next_bucket] reads bucket heads only. *)
Lemma move_loop_heap n it st (h : gmap addr (@node Value)) :
  move_loop Buckets n it (set_heap h st) =
  match move_loop Buckets n it st with
  | Some (it', st') => Some (it', set_heap h st')
  | None => None
  end.
Proof.
  revert it. induction n as [|n IH]; intros it; simpl.
  - by destruct (is_null (cur (info it)) && _).
  - destruct (is_null (cur (info it)) && _); [|done].
    unfold bind, acquire, load. simpl.
    destruct (buckets st !! S (bucket it)) as [hd|]; simpl; [|done].
    apply IH.
Qed.

Lemma begin_heap st (h : gmap addr (@node Value)) :
  begin Buckets (set_heap h st) =
  match begin Buckets st with
  | Some (it', st') => Some (it', set_heap h st')
  | None => None
  end.
Proof.
  unfold begin, iterator_at, bind, acquire, load. simpl.
  destruct (buckets st !! 0) as [hd|]; simpl; [|done].
  destruct (is_null hd); [|done]. apply move_loop_heap.
Qed.

End Runs.

(** ** The properties of the specification *)

Section KernelAndSequences.
Context {Value : Type}.
Variable hash : Key → nat.
Variable Buckets : nat.
Implicit Types (st : @map_state Value) (l pre rest : list addr) (b : nat).
Implicit Types (it pos : iterator) (its : list iterator) (info : find_info).
Implicit Types (op : @operation Value) (res : result).




End KernelAndSequences.

Section EraseInsertValues.
Context {Value : Type}.
Variable hash : Key → nat.
Variable Buckets : nat.
Implicit Types (st : @map_state Value) (l pre rest : list addr) (b : nat).
Implicit Types (it pos : iterator) (its : list iterator) (info : find_info).
Implicit Types (op : @operation Value) (res : result).

(** C4: [erase(key)] returns; when no element has the key it returns
    false and leaves buckets, nodes and retired nodes as they were; when
    an element has the key it returns true, the [next] pointer of that
    node is marked and the node is no longer in its list; and an
    [erase(key)] that follows at once returns false. *)
Theorem C4_erase st key :
  map_inv hash Buckets st →
  ∃ (r : bool) st',
    returns (λ fuel, erase hash Buckets fuel key) st (r, st') ∧
    (¬ has_key st key →
     r = false ∧ buckets st' = buckets st ∧ heap st' = heap st ∧
     retired st' = retired st) ∧
    (has_key st key →
     r = true ∧
     ∃ c nc, live st c ∧ heap st !! c = Some nc ∧ fst (value nc) = key ∧
             heap st' !! c =
               Some (Node (value nc) (MarkedPtr (get (next nc)) true)) ∧
             (∀ x, live st' x ↔ live st x ∧ x ≠ c)) ∧
    ∃ st'', returns (λ fuel, erase hash Buckets fuel key) st' (false, st'').
Proof.
  intros Hinv.
  destruct (erase_spec hash Buckets st key Hinv) as ([r st'] & Hret & Hout).
  destruct Hout as (Hinv' & Hr & Hhk & _ & Hfalse & Htrue & _). simpl in *.
  exists r, st'. split_and!; [done|..].
  - intros Hno. assert (r = false) as ->.
    { destruct r; [|done]. destruct Hno. by apply Hr. }
    destruct (Hfalse eq_refl) as (? & ? & _ & ?). done.
  - intros Hk. assert (r = true) as -> by by apply Hr. split; [done|]. by apply Htrue.
  - destruct (erase_spec hash Buckets st' key Hinv') as ([r2 st''] & Hret2 & Hout2).
    destruct Hout2 as (_ & Hr2 & _). simpl in *.
    exists st''. destruct r2; [|done].
    destruct (proj1 (Hhk key) (proj1 Hr2 eq_refl)) as [_ Hne]. done.
Qed.

(** C5: [get_or_emplace_lazy(key, factory)] returns; when the key is
    present it returns [false] and an iterator to the node of that key
    without calling the factory and without changing a node; the factory
    is called only when the key is absent, and at most once. *)
Theorem C5_lazy_factory st key (value_factory : unit → Value) :
  map_inv hash Buckets st →
  ∃ it (ok : bool) st',
    returns (λ fuel, get_or_emplace_lazy hash Buckets fuel key value_factory) st
      ((it, ok), st') ∧
    (has_key st key →
     ok = false ∧ factory_calls st' = factory_calls st ∧
     heap st' = heap st ∧ buckets st' = buckets st ∧
     ∃ c, get (cur (info it)) = Some c ∧ live st c ∧
          key_at (heap st) c = key) ∧
    (factory_calls st' ≠ factory_calls st → ¬ has_key st key) ∧
    factory_calls st' ≤ factory_calls st + 1.
Proof.
  intros Hinv.
  destruct (get_or_emplace_lazy_spec hash Buckets st key value_factory Hinv)
    as ([[it ok] st'] & Hret & Hout & Hf).
  destruct Hout as (_ & Hok & _ & _ & _ & _ & _ & (c & Hc & Hlive & Hkc) & _ & _ & _ & Hsame).
  simpl in *. exists it, ok, st'. split_and!; [done|..].
  - intros Hk. assert (ok = false) as ->.
    { destruct ok; [|done]. by destruct (proj1 Hok eq_refl). }
    destruct (Hsame eq_refl) as [Hbk Hh]. rewrite Hf, Nat.add_0_r.
    split_and!; try done. exists c. split; [done|]. rewrite <- Hh. split; [|done].
    by apply (live_ext st').
  - intros Hne Hk. destruct ok; [by destruct (proj1 Hok eq_refl)|].
    rewrite Nat.add_0_r in Hf. done.
  - rewrite Hf. destruct ok; lia.
Qed.

(** C6 (amended): no operation of the map changes the value of an
    allocated node; the key of a node cannot be changed through the
    reference that [operator*] and [operator->] of an iterator yield,
    but its mapped value can: an assignment to [second] replaces it and
    leaves the key and the [next] pointer alone. *)
Theorem C6_value_frame st its op res st' :
  0 < Buckets → reachable hash Buckets st its → op_ready its op →
  returns (λ fuel, run_op hash Buckets fuel op) st (res, st') →
  (∀ x nd, heap st !! x = Some nd →
           ∃ nd', heap st' !! x = Some nd' ∧ value nd' = value nd) ∧
  (∀ (r : reference) (v : Value) nd,
     heap st' !! r = Some nd →
     ref_assign_second r v st' =
       Some (tt, set_heap (<[r := Node (fst (value nd), v) (next nd)]> (heap st')) st')).
Proof.
  intros Hpos Hreach Hready Hret.
  destruct (reachable_inv hash Buckets st its Hpos Hreach) as [Hinv Hits].
  destruct (op_returned hash Buckets st its op res st' Hinv Hits Hready Hret)
    as (_ & Hkept & _).
  split.
  - intros x nd Hx. destruct (Hkept x nd Hx) as (nd' & Hx' & Hv & _); [done|]. eauto.
  - intros r v nd Hr. unfold reference in *.
    unfold ref_assign_second, bind, read_node. simpl. by rewrite Hr.
Qed.

End EraseInsertValues.

Section IteratorsAndCalls.
Context {Value : Type}.
Variable hash : Key → nat.
Variable Buckets : nat.
Implicit Types (st : @map_state Value) (l pre rest : list addr) (b : nat).
Implicit Types (it pos : iterator) (its : list iterator) (info : find_info).
Implicit Types (op : @operation Value) (res : result).

(** C7 (amended): every iterator handed out has its bucket in [0, B],
    and [end()] has bucket [B]; [move_to_next_bucket] on an iterator
    whose node pointer is null advances the bucket index over buckets
    with a null head, and stops at the first bucket with a non-null head
    or, when there is none, once the index has reached [B - 1]: there the
    index saturates, with a null node pointer. *)
Theorem C7_iterator_bucket st its :
  0 < Buckets → reachable hash Buckets st its →
  (∀ it, it ∈ its → bucket it ≤ Buckets) ∧
  bucket (iterator_end Buckets) = Buckets ∧
  ∀ it, get (cur (info it)) = None →
    ∃ it', move_to_next_bucket Buckets it st = Some (it', st) ∧
           bucket it ≤ bucket it' ∧
           bucket it' ≤ bucket it `max` (Buckets - 1) ∧
           (∀ j, bucket it < j → j < bucket it' →
                 ∃ hd, buckets st !! j = Some hd ∧ get hd = None) ∧
           ((get (cur (info it')) = None ∧
             bucket it' = bucket it `max` (Buckets - 1)) ∨
            (bucket it < bucket it' ∧
             buckets st !! bucket it' = Some (cur (info it')) ∧
             get (cur (info it')) ≠ None)).
Proof.
  intros Hpos Hreach.
  destruct (reachable_inv hash Buckets st its Hpos Hreach) as [[Hwf _] Hits].
  split_and!; [|done|].
  - intros it Hit. destruct (Hits it Hit) as [Hv|[_ Hle]]; [|done].
    pose proof (valid_iter_bucket hash Buckets None st it Hwf Hv). lia.
  - intros it Hnull. unfold move_to_next_bucket.
    destruct (move_loop_spec Buckets st Buckets
                (Iterator (bucket it) (set_save null_ptr (info it))))
      as (it' & Hrun & Hle & Hmax & _ & _ & Hres); [done|by eapply wf_length|simpl; lia|].
    simpl in *. destruct (Hres Hnull) as [Hskip Hstop].
    exists it'. split_and!; try done.
    + intros j Hj Hj'. destruct (Hskip j Hj Hj') as [?|?]; [by exists null_ptr|done].
    + destruct Hstop as [?|(? & _ & ? & ?)]; [by left|by right].
Qed.


(** C9: [emplace(args...)] returns the boolean of
    [emplace_or_get(args...)] and leaves the store that
    [emplace_or_get(args...)] leaves; it fails when that one fails. *)
Theorem C9_emplace_discards_iterator fuel (args : Key * Value) st :
  emplace hash Buckets fuel args st =
  match emplace_or_get hash Buckets fuel args st with
  | Some ((it, ok), st') => Some (ok, st')
  | None => None
  end.
Proof. apply emplace_unfold. Qed.

(** C10: on a map all of whose bucket heads are null, [begin()] returns
    an iterator that [operator==] finds equal to [end()], and it returns
    the same whatever the heap holds: it reads no node. *)
Theorem C10_begin_empty st :
  0 < Buckets → length (buckets st) = Buckets →
  (∀ b hd, buckets st !! b = Some hd → get hd = None) →
  ∃ it, begin Buckets st = Some (it, st) ∧
        iterator_eq it (iterator_end Buckets) = true ∧
        ∀ h, begin Buckets (set_heap h st) = Some (it, set_heap h st).
Proof.
  intros Hpos Hlen Hnull.
  assert (Hhd : is_Some (buckets st !! 0)).
  { apply lookup_lt_is_Some. lia. }
  destruct Hhd as [hd Hhd]. pose proof (Hnull 0 hd Hhd) as Hget.
  destruct (move_loop_spec Buckets st Buckets
              (Iterator 0 (set_save null_ptr (set_cur hd (find_info_at (BucketHead 0))))))
    as (it' & Hrun & _ & _ & _ & _ & Hres); [done|done|simpl; lia|].
  simpl in Hres. destruct (Hres Hget) as [_ Hstop].
  assert (Hn : get (cur (info it')) = None).
  { destruct Hstop as [[? _]|(_ & _ & Hb & Hnn)]; [done|]. destruct Hnn. by eapply Hnull. }
  assert (Hbegin : begin Buckets st = Some (it', st)).
  { unfold begin, iterator_at, bind, acquire, load. rewrite Hhd. simpl.
    unfold is_null. simpl. rewrite Hget. exact Hrun. }
  exists it'. split_and!; [done|..].
  - unfold iterator_eq. apply bool_decide_eq_true. by rewrite Hn.
  - intros h. by rewrite begin_heap, Hbegin.
Qed.

End IteratorsAndCalls.

(** ** The concrete map *)

Lemma example_insert_returns :
  returns (λ fuel, emplace_or_get example_hash 4 fuel (5%Z, 7)) example_empty
    ((example_iter, true), example_map).
Proof.
  exists 3. intros fuel Hfuel.
  do 3 (destruct fuel as [|fuel]; [lia|]). vm_compute. reflexivity.
Qed.

Lemma example_op_returns :
  returns (λ fuel, run_op example_hash 4 fuel (OpEmplaceOrGet (5%Z, 7)))
    example_empty (RPair example_iter true, example_map).
Proof.
  apply (returns_map _ (λ r, RPair (fst r) (snd r)) _ _ _ example_insert_returns).
Qed.

Lemma example_empty_reachable : reachable example_hash 4 example_empty [].
Proof. exists []. apply run_done. Qed.

Lemma example_reachable : reachable example_hash 4 example_map [example_iter].
Proof.
  exists []. eapply (run_step _ _ _ _ _ (OpEmplaceOrGet (5%Z, 7))).
  - exact I.
  - exact I.
  - exact example_op_returns.
  - apply run_done.
Qed.

Lemma example_inv : map_inv example_hash 4 example_map.
Proof.
  apply (reachable_inv example_hash 4 example_map [example_iter]); [lia|].
  exact example_reachable.
Qed.

Lemma example_bucket_list : bucket_list example_map 1 [1%positive].
Proof.
  exists (MarkedPtr (Some 1%positive) false). split_and!; [reflexivity..|].
  split; [reflexivity|]. exists (Node (5%Z, 7) null_ptr). split; reflexivity.
Qed.

Lemma example_has_key : has_key example_map 5%Z.
Proof.
  exists 1%positive. split; [|reflexivity].
  exists 1, [1%positive]. split; [exact example_bucket_list|].
  by apply list_elem_of_singleton.
Qed.

(** ** Instances of the theorems *)




Lemma C4_erase_witness :
  ∃ st' st'',
    returns (λ fuel, erase example_hash 4 fuel 5%Z) example_map (true, st') ∧
    returns (λ fuel, erase example_hash 4 fuel 5%Z) st' (false, st'').
Proof.
  destruct (C4_erase example_hash 4 example_map 5%Z example_inv)
    as (r & st' & Hret & _ & Hpresent & st'' & Hagain).
  destruct (Hpresent example_has_key) as [-> _].
  exists st', st''. split; [exact Hret|exact Hagain].
Defined.

Lemma C5_lazy_factory_witness :
  ∃ it st',
    returns (λ fuel, get_or_emplace_lazy example_hash 4 fuel 5%Z (λ _, 9))
      example_map ((it, false), st') ∧
    factory_calls st' = 0.
Proof.
  destruct (C5_lazy_factory example_hash 4 example_map 5%Z (λ _, 9) example_inv)
    as (it & ok & st' & Hret & Hpresent & _).
  destruct (Hpresent example_has_key) as (-> & Hf & _).
  exists it, st'. split; [exact Hret|exact Hf].
Defined.

Lemma C6_value_frame_witness :
  ref_assign_second 1%positive 9 example_map =
  Some (tt, set_heap (<[1%positive := Node (5%Z, 9) null_ptr]> (heap example_map))
              example_map).
Proof.
  destruct (C6_value_frame example_hash 4 example_empty []
              (OpEmplaceOrGet (5%Z, 7)) (RPair example_iter true) example_map)
    as [_ Hassign].
  - lia.
  - exact example_empty_reachable.
  - exact I.
  - exact example_op_returns.
  - apply (Hassign 1%positive 9 (Node (5%Z, 7) null_ptr)). reflexivity.
Defined.

Lemma C7_iterator_bucket_witness : bucket example_iter ≤ 4.
Proof.
  destruct (C7_iterator_bucket example_hash 4 example_map [example_iter])
    as (Hle & _); [lia|exact example_reachable|].
  apply Hle. by apply list_elem_of_singleton.
Defined.


Lemma C10_begin_empty_witness :
  ∃ it, begin 4 example_empty = Some (it, example_empty) ∧
        iterator_eq it (iterator_end 4) = true.
Proof.
  destruct (C10_begin_empty 4 example_empty) as (it & Hb & He & _).
  - lia.
  - reflexivity.
  - intros b hd [-> _]%lookup_replicate. reflexivity.
  - exists it. split; [exact Hb|exact He].
Defined.

(** ** Counterexamples *)


(** C6 as stated: the value 7 stored with key 5 is replaced by 9 through
    the reference that [operator*] of an iterator yields. *)
Lemma C6_counterexample :
  fst <$> example_assign 10 example_empty = Some (5%Z, 9).
Proof. vm_compute. reflexivity. Qed.

(** C7 as stated: on the empty map of four buckets
    [move_to_next_bucket], and so [begin()], stops at bucket 3, not 4;
    the iterator is equal to [end()] while its bucket is not [B]. *)
Lemma C7_counterexample :
  ∃ it, begin 4 example_empty = Some (it, example_empty) ∧
        move_to_next_bucket 4 (Iterator 0 (find_info_at (BucketHead 0)))
          example_empty = Some (it, example_empty) ∧
        iterator_eq it (iterator_end 4) = true ∧
        bucket it = 3 ∧ bucket it ≠ 4.
Proof.
  eexists. split_and!; [vm_compute; reflexivity|vm_compute; reflexivity|
                        vm_compute; reflexivity|reflexivity|simpl; lia].
Qed.


(** ** Effects of the operations on the store *)

Section Stable.
Context {Value : Type}.
Implicit Types (st : @map_state Value) (p : concurrent_ptr_ref).

Lemma stable_refl st : stable st st.
Proof. intros x. destruct (heap st !! x) as [nd|]; eauto. Qed.

Lemma stable_trans st1 st2 st3 : stable st1 st2 → stable st2 st3 → stable st1 st3.
Proof.
  intros H12 H23 x. specialize (H12 x). specialize (H23 x).
  destruct (heap st1 !! x) as [nd|].
  - destruct H12 as (nd2 & Hx2 & Hv2). rewrite Hx2 in H23.
    destruct H23 as (nd3 & Hx3 & Hv3). exists nd3. split; [done|congruence].
  - by rewrite H12 in H23.
Qed.

Lemma stable_ext st st' : heap st' = heap st → stable st st'.
Proof. intros Hh x. rewrite Hh. destruct (heap st !! x); eauto. Qed.

Lemma pres_ret {A} (a : A) : @pres Value _ (@ret Value A a).
Proof. intros st x st' [= _ <-]. apply stable_refl. Qed.

Lemma pres_fail {A} : @pres Value _ (@fail Value A).
Proof. by intros st x st'. Qed.

Lemma pres_bind {A B} (m : @M Value A) (k : A → @M Value B) :
  @pres Value _ m → (∀ a, @pres Value _ (k a)) → @pres Value _ (bind m k).
Proof.
  intros Hm Hk st x st' H. unfold bind in H.
  destruct (m st) as [[a st1]|] eqn:E; [|done].
  eapply stable_trans; [by eapply Hm|by eapply Hk].
Qed.

Lemma pres_lift {A} (o : option A) : @pres Value _ (@lift Value A o).
Proof. intros st x st' H. destruct o; [|done]. injection H as _ <-. apply stable_refl. Qed.

Lemma pres_load p : @pres Value _ (load p).
Proof. intros st x st' H. apply load_inv in H as ->. apply stable_refl. Qed.

Lemma pres_store p v : @pres Value _ (store p v).
Proof.
  intros st [] st' H. apply store_inv in H as (_ & _ & _ & _ & H).
  destruct p as [i|a].
  - destruct H as (_ & Hh & _). by apply stable_ext.
  - destruct H as (_ & n & Hn & Hh). intros x. rewrite Hh.
    destruct (decide (x = a)) as [->|Hne].
    + rewrite Hn, lookup_insert_eq. eauto.
    + rewrite lookup_insert_ne by done. destruct (heap st !! x); eauto.
Qed.

Lemma pres_modify (f : @map_state Value → @map_state Value) :
  (∀ st, heap (f st) = heap st) → @pres Value _ (modify f).
Proof. intros Hf st x st' [= _ <-]. by apply stable_ext. Qed.

Lemma pres_spurious : @pres Value _ (@spurious_failure Value).
Proof.
  intros st x st' H. unfold spurious_failure in H.
  destruct (cas_fail st); injection H as _ <-; by apply stable_ext.
Qed.

Lemma pres_cas p e d : @pres Value _ (compare_exchange_weak p e d).
Proof.
  unfold compare_exchange_weak. apply pres_bind; [apply pres_load|]. intros actual.
  destruct (decide (actual = e)); [|apply pres_ret].
  apply pres_bind; [apply pres_spurious|]. intros [|]; [apply pres_ret|].
  apply pres_bind; [apply pres_store|]. intros _. apply pres_ret.
Qed.

Lemma pres_acquire_if_equal p e : @pres Value _ (acquire_if_equal p e).
Proof.
  unfold acquire_if_equal. apply pres_bind; [apply pres_load|]. intros actual.
  destruct (decide (actual = e)); apply pres_ret.
Qed.

Lemma pres_reclaim g : @pres Value _ (reclaim g).
Proof.
  unfold reclaim. destruct (get g); [|apply pres_ret].
  apply pres_bind; [by apply pres_modify|]. intros _. apply pres_ret.
Qed.

Lemma pres_read_node a : @pres Value _ (read_node a).
Proof.
  intros st x st' H. unfold read_node in H.
  destruct (heap st !! a); simpl in H; [|done]. injection H as _ <-. apply stable_refl.
Qed.

Lemma pres_node_key a : @pres Value _ (node_key a).
Proof.
  unfold node_key. apply pres_bind; [apply pres_read_node|]. intros n. apply pres_ret.
Qed.

End Stable.

(** Steps through a computation built from the primitives above. *)
Ltac pres_step :=
  first
    [ apply pres_ret | apply pres_fail | apply pres_load | apply pres_store
    | apply pres_cas | apply pres_acquire_if_equal | apply pres_reclaim
    | apply pres_node_key | apply pres_read_node | apply pres_lift
    | apply pres_spurious
    | apply pres_modify; done
    | apply pres_bind; [|intros ?]
    | match goal with
      | |- pres (match ?x with _ => _ end) => destruct x
      end ].

Section StableKernel.
Context {Value : Type}.
Implicit Types (st : @map_state Value) (p : concurrent_ptr_ref) (info : find_info).

(** The kernel changes no value and allocates or frees no node. *)
Lemma pres_find_loops fuel key hd :
  (∀ start sg info, @pres Value _ (@find_retry Value fuel key hd start sg info)) ∧
  (∀ start sg info, @pres Value _ (@find_loop Value fuel key hd start sg info)).
Proof.
  induction fuel as [|fuel [IHr IHl]]; split; intros start sg info; simpl;
    try apply pres_fail.
  - unfold prev_ref, backoff. repeat (first [apply IHr|apply IHl|pres_step]).
  - unfold prev_ref, backoff. repeat (first [apply IHr|apply IHl|pres_step]).
Qed.

Lemma pres_find_kernel fuel key b info : @pres Value _ (@find_kernel Value fuel key b info).
Proof.
  unfold find_kernel, log_kernel_call. apply pres_bind; [by apply pres_modify|].
  intros _. apply pres_find_loops.
Qed.

Lemma pres_try_install n info : @pres Value _ (@try_install Value n info).
Proof. unfold try_install, prev_ref. repeat pres_step. Qed.

End StableKernel.

Section InsertedNode.
Context {Value : Type}.
Variable hash : Key → nat.
Variable Buckets : nat.
Implicit Types (st : @map_state Value) (p : concurrent_ptr_ref) (inf : find_info).
Implicit Types (it : iterator) (make : @M Value addr).

Lemma bind_some {A B} (m : @M Value A) (k : A → @M Value B) st r :
  bind m k st = Some r → ∃ a st1, m st = Some (a, st1) ∧ k a st1 = Some r.
Proof. unfold bind. destruct (m st) as [[a st1]|]; [eauto|done]. Qed.

Lemma try_install_cur n inf st ok info' st' :
  try_install n inf st = Some ((ok, info'), st') →
  cur info' = MarkedPtr (Some n) false.
Proof.
  unfold try_install. intros H.
  apply bind_some in H as (? & st1 & _ & H).
  apply bind_some in H as (p & st2 & _ & H).
  apply bind_some in H as ([ok' e] & st3 & _ & H).
  by injection H as _ <- _.
Qed.

(** A successful insertion whose node exists already links that node. *)
Lemma insert_loop_linked kfuel fuel key make b a inf st it st' :
  insert_loop kfuel fuel key make b (Some a) inf st = Some ((it, true), st') →
  stable st st' ∧ cur (info it) = MarkedPtr (Some a) false.
Proof.
  revert inf st. induction fuel as [|fuel IH]; intros inf st H; [done|].
  simpl in H.
  apply bind_some in H as (k & st1 & Hk & H).
  apply bind_some in H as ([found info1] & st2 & Hf & H).
  destruct found.
  { apply bind_some in H as (? & ? & _ & H). by injection H. }
  apply bind_some in H as (a' & st3 & Ha & H). injection Ha as <- <-.
  apply bind_some in H as ([ok info2] & st4 & Ht & H).
  assert (Hst : stable st st4).
  { eapply stable_trans; [by eapply pres_node_key|].
    eapply stable_trans; [by eapply pres_find_kernel|]. by eapply pres_try_install. }
  destruct ok.
  - injection H as <- <-. split; [done|]. simpl. by eapply try_install_cur.
  - apply bind_some in H as (? & st5 & Hb & H). injection Hb as _ <-.
    destruct (IH _ _ H) as [Hst' Hcur]. split; [|done]. by eapply stable_trans.
Qed.

(** A successful insertion that has no node yet constructs one, once. *)
Lemma insert_loop_fresh kfuel fuel key make b inf st it st' :
  insert_loop kfuel fuel key make b None inf st = Some ((it, true), st') →
  ∃ st1 a st_a, stable st st1 ∧ make st1 = Some (a, st_a) ∧ stable st_a st' ∧
                cur (info it) = MarkedPtr (Some a) false.
Proof.
  destruct fuel as [|fuel]; intros H; [done|]. simpl in H.
  apply bind_some in H as (k & st1 & Hk & H). injection Hk as _ <-.
  apply bind_some in H as ([found info1] & st2 & Hf & H).
  destruct found.
  { apply bind_some in H as (? & ? & _ & H). by injection H. }
  apply bind_some in H as (a & st3 & Ha & H).
  apply bind_some in H as ([ok info2] & st4 & Ht & H).
  exists st2, a, st3. split; [by eapply pres_find_kernel|]. split; [done|].
  destruct ok.
  - injection H as <- <-. split; [by eapply pres_try_install|].
    simpl. by eapply try_install_cur.
  - apply bind_some in H as (? & st5 & Hb & H). injection Hb as _ <-.
    destruct (insert_loop_linked _ _ _ _ _ _ _ _ _ _ H) as [Hst' Hcur].
    split; [|done]. eapply stable_trans; [by eapply pres_try_install|done].
Qed.

(** Allocation between two runs that allocate nothing. *)
Lemma inserted_compose st st1 st_a st' a (v : Key * Value) :
  stable st st1 → heap st1 !! a = None →
  heap st_a = <[a := Node v null_ptr]> (heap st1) →
  stable st_a st' → inserted st a v st'.
Proof.
  intros H1 Hfresh Hh H2. split_and!.
  - specialize (H1 a). destruct (heap st !! a) as [nd|]; [|done].
    destruct H1 as (? & ? & _). congruence.
  - specialize (H2 a). rewrite Hh, lookup_insert_eq in H2. done.
  - intros x Hx. specialize (H1 x). specialize (H2 x).
    rewrite Hh, lookup_insert_ne in H2 by done.
    destruct (heap st !! x) as [nd|].
    + destruct H1 as (nd1 & Hx1 & Hv1). rewrite Hx1 in H2.
      destruct H2 as (nd2 & Hx2 & Hv2). exists nd2. split; [done|congruence].
    + by rewrite H1 in H2.
Qed.

Lemma new_node_inv (v : Key * Value) st a st_a :
  new_node v st = Some (a, st_a) →
  heap st !! a = None ∧ heap st_a = <[a := Node v null_ptr]> (heap st).
Proof.
  unfold new_node. intros [= <- <-]. split; [apply fresh_lookup|done].
Qed.

(** [emplace_or_get] when it reports an insertion. *)
Lemma emplace_or_get_inserted fuel (args : Key * Value) st it st' :
  emplace_or_get hash Buckets fuel args st = Some ((it, true), st') →
  ∃ a, cur (info it) = MarkedPtr (Some a) false ∧ inserted st a args st'.
Proof.
  unfold emplace_or_get. intros H.
  apply bind_some in H as (a & st1 & Hnew & H).
  apply bind_some in H as (k & st2 & Hk & H).
  rewrite (emplace_or_get_loop_eq fuel fuel k (new_node args)) in H.
  destruct (insert_loop_linked _ _ _ _ _ _ _ _ _ _ H) as [Hst Hcur].
  apply new_node_inv in Hnew as [Hfresh Hh].
  exists a. split; [done|].
  eapply (inserted_compose st st st1); [apply stable_refl|done|done|].
  eapply stable_trans; [by eapply pres_node_key|done].
Qed.

(** [get_or_emplace] when it reports an insertion. *)
Lemma get_or_emplace_inserted fuel key (args : Value) st it st' :
  get_or_emplace hash Buckets fuel key args st = Some ((it, true), st') →
  ∃ a, cur (info it) = MarkedPtr (Some a) false ∧
       inserted st a (key, args) st'.
Proof.
  unfold get_or_emplace. intros H.
  rewrite get_or_emplace_loop_eq in H.
  destruct (insert_loop_fresh _ _ _ _ _ _ _ _ _ H) as (st1 & a & st_a & H1 & Hnew & H2 & Hcur).
  apply new_node_inv in Hnew as [Hfresh Hh].
  exists a. split; [done|]. by eapply inserted_compose.
Qed.

(** [get_or_emplace_lazy] when it reports an insertion. *)
Lemma get_or_emplace_lazy_inserted fuel key (value_factory : unit → Value) st it st' :
  get_or_emplace_lazy hash Buckets fuel key value_factory st = Some ((it, true), st') →
  ∃ a, cur (info it) = MarkedPtr (Some a) false ∧
       inserted st a (key, value_factory tt) st'.
Proof.
  unfold get_or_emplace_lazy. intros H.
  rewrite get_or_emplace_lazy_loop_eq in H.
  destruct (insert_loop_fresh _ _ _ _ _ _ _ _ _ H) as (st1 & a & st_a & H1 & Hnew & H2 & Hcur).
  apply bind_some in Hnew as (v & st1' & Hf & Hnew).
  unfold call_factory, bind, modify, ret in Hf. injection Hf as <- <-.
  apply new_node_inv in Hnew as [Hfresh Hh]. simpl in Hfresh, Hh.
  exists a. split; [done|]. by eapply inserted_compose.
Qed.

End InsertedNode.

Section Retired.
Context {Value : Type}.
Variable hash : Key → nat.
Variable Buckets : nat.
Implicit Types (st : @map_state Value) (l pre rest post : list addr) (b : nat).
Implicit Types (p : concurrent_ptr_ref).

(** Helping in a list whose only marked node is [c] retires [c], once. *)
Lemma erased_retired st_m st' b pre c post :
  bucket_list st_m b (pre ++ c :: post) →
  node_marked (heap st_m) c = true →
  (∀ x, x ∈ pre ++ post → node_marked (heap st_m) x = false) →
  rtc (help_step b) st_m st' →
  (∀ l', bucket_list st' b l' → c ∉ l') →
  retired st' = retired st_m ++ [c] ∧ bucket_list st' b (pre ++ post).
Proof.
  intros Hl Hcm Hq Hrtc Hout.
  induction Hrtc as [s|s s1 s' Hstep Hrtc IH].
  - exfalso. eapply Hout; [exact Hl|set_solver].
  - pose proof (bucket_list_NoDup _ _ _ Hl) as Hnd.
    destruct Hstep as [pre' a post' o Hb Ha Ho ->|pre' a post' st1 Hb Ha Hs Hst Ho ->].
    + apply IH; done.
    + pose proof (bucket_list_func _ _ _ _ Hl Hb) as Heq.
      assert (a = c) as ->.
      { destruct (decide (a = c)) as [->|Hne]; [done|].
        assert (Hin : a ∈ pre ++ c :: post) by (rewrite Heq; set_solver).
        rewrite (Hq a) in Ha; [done|set_solver]. }
      destruct (NoDup_split_unique pre post pre' post' c Hnd Heq) as [<- <-].
      destruct (store_link_list (set_cas_fail (tail (cas_fail s)) s) b
                  pre (c :: post) (head post) post) as (st_u & Hst_u & Hlu).
      { by eapply bucket_list_ext. }
      { destruct (tail_of_list s b (pre ++ [c]) post) as (q & Hq').
        { by rewrite <- app_assoc. }
        by pose proof (lseg_head_None _ _ _ Hq') as ->. }
      { intros sl Hlast Hin. apply last_snoc_inv in Hlast as (pre' & ->).
        apply NoDup_app in Hnd as (_ & H2 & _). eapply (H2 sl); set_solver. }
      assert (st_u = st1) as -> by congruence.
      pose proof (store_inv _ _ _ _ Hst) as (Hr & _ & _ & _ & Hp).
      set (s1 := set_retired (retired st1 ++ [c]) st1) in *.
      assert (Hl1 : bucket_list s1 b (pre ++ post)) by by eapply bucket_list_ext.
      assert (Hq1 : ∀ x, x ∈ pre ++ post → node_marked (heap s1) x = false).
      { intros x Hx. simpl. unfold link_after in Hp.
        destruct (last pre) as [sl|] eqn:Hlast.
        - destruct Hp as (_ & n & Hn & ->). unfold node_marked.
          destruct (decide (x = sl)) as [->|Hne].
          + by rewrite lookup_insert_eq.
          + rewrite lookup_insert_ne by done. by apply Hq.
        - destruct Hp as (_ & -> & _). by apply Hq. }
      pose proof (rtc_help_quiet b s1 s' _ Hl1 Hq1 Hrtc) as ->.
      split; [|done]. simpl. by rewrite Hr.
Qed.

End Retired.

Section EraseRetires.
Context {Value : Type}.
Variable hash : Key → nat.
Variable Buckets : nat.
Implicit Types (st : @map_state Value) (l pre rest : list addr) (b : nat).
Implicit Types (info : find_info) (p : concurrent_ptr_ref).
Implicit Types (h : gmap addr (@node Value)).

(** The run of [erase(key)] for a key of the map: the node is marked,
    then unlinked by the operation itself or by the kernel. *)
Lemma erase_present_run st key :
  map_inv hash Buckets st → has_key st key →
  let b := hash key mod Buckets in
  ∃ pre c post nc st_x st',
    bucket_list st b (pre ++ c :: post) ∧
    heap st !! c = Some nc ∧ fst (value nc) = key ∧
    heap st_x = <[c := Node (value nc) (MarkedPtr (get (next nc)) true)]> (heap st) ∧
    buckets st_x = buckets st ∧
    rtc (help_step b) st_x st' ∧
    (map_wf hash Buckets None st' → ∀ l', bucket_list st' b l' → c ∉ l') ∧
    returns (λ fuel, erase hash Buckets fuel key) st (true, st') ∧
    retired st_x = retired st.
Proof.
  intros Hinv Hkey b.
  pose proof (map_inv_ready hash Buckets st key Hinv) as Hready. fold b in Hready.
  destruct (erase_mark_present hash Buckets key (cas_fail st) st _ eq_refl Hready Hkey)
    as (pre & c & post & nc & info' & Hl & Hc & Hck & Hpre & Hprev & Hsave & Hcur & Hnext & [N Hmark]).
  fold b in Hl, Hprev, Hmark.
  set (o := cas_fail st) in *. set (k := spurious_prefix o) in *.
  set (st_m := set_heap (<[c := Node (value nc) (MarkedPtr (get (next nc)) true)]> (heap st))
                 (set_cas_fail (after_cas o)
                    (set_kernel_calls (kernel_calls st ++ replicate (S k) (b, key)) st))) in *.
  pose proof Hinv as [Hwf Hq].
  assert (Hcl : c ∈ pre ++ c :: post) by set_solver.
  destruct (mark_node hash Buckets st b _ c nc Hwf Hl Hcl Hc) as (Hwfm0 & Hlm0 & Hcm0 & Hom0 & Hkm0).
  assert (Hlm : bucket_list st_m b (pre ++ c :: post)).
  { eapply (bucket_list_ext (set_heap _ st)); [done..|]. by apply Hlm0. }
  pose proof (bucket_list_NoDup _ _ _ Hl) as Hnd.
  assert (Hcnp : c ∉ pre).
  { apply NoDup_app in Hnd as (_ & H2 & _). intros Hx. apply (H2 c Hx). set_solver. }
  assert (Hkc : key_at (heap st) c = key).
  { unfold key_at. by rewrite Hc. }
  assert (Howner : ∀ s, last pre = Some s → node_marked (heap st_m) s = false).
  { intros s Hs. apply last_snoc_inv in Hs as (pre' & ->).
    assert (s ≠ c) by (intros ->; apply Hcnp; set_solver).
    rewrite (node_marked_agree (heap st)); [|by apply Hom0].
    eapply Hq; [exact Hl|set_solver]. }
  assert (Hload : load (link_after b pre) st_m = Some (cur info', st_m)).
  { rewrite Hcur. by apply (load_link st_m b pre (c :: post)). }
  assert (Hrun : ∀ fuel, N ≤ fuel →
    erase hash Buckets fuel key st =
    bind (compare_exchange_weak (link_after b pre) (cur info')
            (MarkedPtr (get (next_ info')) false))
      (λ x, let '(ok, _) := x in
            bind (if (ok : bool)
                  then bind (reclaim (cur info')) (λ _, ret tt)
                  else bind (find_kernel fuel key b info') (λ _, ret tt))
              (λ _, ret true)) st_m).
  { intros fuel Hfuel. unfold erase. fold b.
    rewrite (bind_eq _ _ _ _ _ (Hmark fuel fuel Hfuel Hfuel)).
    by rewrite (bind_eq _ _ _ _ _ (prev_ref_eq _ _ _ Hprev)). }
  assert (Hfin : ∃ st_x st',
    heap st_x = <[c := Node (value nc) (MarkedPtr (get (next nc)) true)]> (heap st) ∧
    buckets st_x = buckets st ∧
    rtc (help_step b) st_x st' ∧
    (map_wf hash Buckets None st' → ∀ l', bucket_list st' b l' → c ∉ l') ∧
    returns (λ fuel, erase hash Buckets fuel key) st (true, st') ∧
    retired st_x = retired st).
  { destruct (decide (head (after_cas o) = Some true)) as [Ho|Ho].
    - (* the unlinking CAS fails: rewalk the list *)
      destruct (after_cas o) as [|[] o2] eqn:Hac; try done. clear Ho.
      set (st_f := set_cas_fail o2 st_m).
      assert (Hcf : cas_fail st_m = true :: o2) by done.
      destruct (find_kernel_spec key b st_f (pre ++ c :: post) info')
        as ([[r2 info2] st'] & [N2 Hret2] & Hrtc & Hcursor).
      { by eapply bucket_list_ext. }
      { rewrite Hprev. unfold link_after.
        destruct (last pre) as [s|] eqn:Hlast; [right|left; by rewrite Hsave].
        assert (s ∈ pre) by (apply last_snoc_inv in Hlast as (pre' & ->); set_solver).
        exists s. rewrite Hsave. split_and!; try done.
        - eapply bucket_list_lookup; [exact Hlm|set_solver].
        - intros _. set_solver. }
      simpl in Hrtc, Hcursor.
      pose proof (rtc_help_frame _ _ _ Hrtc) as (Hsame & _ & _ & Hkc' & Hf' & _).
      exists (log_call b key st_f), st'. split_and!; try done.
      + intros Hwf' l' Hl'.
        eapply (cursor_excludes hash Buckets None st' b key (prev info') r2 info2 c l' Hwf'); try done.
        * rewrite Hprev. unfold link_after.
          destruct (last pre) as [s|] eqn:Hlast; [right|by left].
          assert (s ∈ pre) by (apply last_snoc_inv in Hlast as (pre' & ->); set_solver).
          exists s. split; [done|]. rewrite (same_nodes_key _ _ _ Hsame). simpl.
          rewrite Hkm0. by apply Hpre.
        * rewrite (same_nodes_marked _ _ _ Hsame). done.
        * rewrite (same_nodes_key _ _ _ Hsame). simpl. by rewrite Hkm0.
      + exists (N `max` N2). intros fuel Hfuel. rewrite Hrun by lia.
        rewrite (bind_eq _ _ _ _ _ (cas_spurious _ _ _ _ _ Hload Hcf)). simpl.
        unfold bind at 1. unfold bind at 1. rewrite Hret2 by lia. done.
    - (* the unlinking CAS succeeds *)
      destruct (tail_of_list st_m b (pre ++ [c]) post) as (q & Hq').
      { by rewrite <- app_assoc. }
      pose proof (lseg_head_None _ _ _ Hq') as ->.
      destruct (store_link_list (set_cas_fail (tail (cas_fail st_m)) st_m) b
                  pre (c :: post) (head post) post) as (st_u & Hst & Hlu).
      { by eapply bucket_list_ext. }
      { done. }
      { intros s Hlast Hin. apply last_snoc_inv in Hlast as (pre' & ->).
        apply NoDup_app in Hnd as (_ & H2 & _). eapply (H2 s); set_solver. }
      set (st' := set_retired (retired st_u ++ [c]) st_u).
      assert (Hstep : help_step b st_m st').
      { eapply help_unlink; eauto. }
      pose proof (store_inv _ _ _ _ Hst) as (_ & _ & Hkc' & Hf' & _).
      exists st_m, st'. split_and!; try done.
      + by apply rtc_once.
      + intros _ l' Hl'.
        assert (Hlu' : bucket_list st' b (pre ++ post)) by by eapply bucket_list_ext.
        rewrite (bucket_list_func _ _ _ _ Hl' Hlu').
        apply NoDup_app in Hnd as (_ & H2 & H3). apply NoDup_cons in H3 as [H3 _].
        intros [Hx|Hx]%elem_of_app; [|done]. apply (H2 c Hx). set_solver.
      + exists N. intros fuel Hfuel. rewrite Hrun by lia.
        assert (Hhd : head (cas_fail st_m) ≠ Some true) by done.
        rewrite Hnext. simpl.
        rewrite (bind_eq _ _ _ _ _ (cas_success _ _ _ _ _ Hload Hhd Hst)). simpl.
        unfold reclaim. rewrite Hcur. simpl. done.
        }
  destruct Hfin as (st_x & st' & Hhx & Hbx & Hrtc & Hout & Hret & Hrx).
  exists pre, c, post, nc, st_x, st'. split_and!; done.
Qed.

(** [erase(key)] for a key of the map hands the node of the key to the
    reclaimer, once, and does not free it. *)
Lemma erase_retires st key :
  map_inv hash Buckets st → has_key st key →
  ∃ c st',
    returns (λ fuel, erase hash Buckets fuel key) st (true, st') ∧
    live st c ∧ key_at (heap st) c = key ∧
    retired st' = retired st ++ [c] ∧
    map_inv hash Buckets st' ∧
    (∀ x, live st' x ↔ live st x ∧ x ≠ c) ∧
    (∀ k, has_key st' k ↔ has_key st k ∧ k ≠ key) ∧
    node_marked (heap st') c = true ∧
    kept None st st'.
Proof.
  intros Hinv Hkey.
  destruct (erase_present_run st key Hinv Hkey)
    as (pre & c & post & nc & st_x & st' & Hl & Hc & Hk & Hhx & Hbx & Hrtc & Hout & Hret & Hrx).
  destruct (erased_outcome hash Buckets st st_x st' (hash key mod Buckets) pre c post nc key)
    as (Hinv' & Hhk & Hkept & Hc' & Hlive); try done.
  pose proof Hinv as [Hwf Hq].
  pose proof (bucket_list_NoDup _ _ _ Hl) as Hnd.
  assert (Hcl : c ∈ pre ++ c :: post) by set_solver.
  destruct (mark_node hash Buckets st (hash key mod Buckets) (pre ++ c :: post) c nc Hwf Hl Hcl Hc)
    as (_ & Hlm0 & Hcm0 & Hom0 & _).
  assert (Hlx : bucket_list st_x (hash key mod Buckets) (pre ++ c :: post)).
  { apply (bucket_list_ext
             (set_heap (<[c := Node (value nc) (MarkedPtr (get (next nc)) true)]> (heap st)) st));
      [done|by rewrite Hhx|by apply Hlm0]. }
  assert (Hcx : node_marked (heap st_x) c = true).
  { rewrite Hhx. unfold node_marked. by rewrite lookup_insert_eq. }
  assert (Hqx : ∀ x, x ∈ pre ++ post → node_marked (heap st_x) x = false).
  { intros x Hx. rewrite Hhx.
    assert (x ≠ c).
    { intros ->. apply NoDup_app in Hnd as (_ & H2 & H3). apply NoDup_cons in H3 as [H3 _].
      apply elem_of_app in Hx as [Hx|Hx]; [|done]. apply (H2 c Hx). set_solver. }
    rewrite (node_marked_agree (heap st)); [|by apply lookup_insert_ne].
    eapply Hq; [exact Hl|set_solver]. }
  destruct (erased_retired st_x st' (hash key mod Buckets) pre c post Hlx Hcx Hqx Hrtc)
    as [Hret' _].
  { apply Hout. by apply inv_wf. }
  exists c, st'. split_and!; try done.
  - by exists (hash key mod Buckets), (pre ++ c :: post).
  - unfold key_at. by rewrite Hc.
  - by rewrite Hret', Hrx.
  - unfold node_marked. by rewrite Hc'.
Qed.

End EraseRetires.

Section NextNode.
Context {Value : Type}.
Variable hash : Key → nat.
Variable Buckets : nat.
Implicit Types (st : @map_state Value) (l pre rest post : list addr) (b : nat).
Implicit Types (inf : find_info) (p : concurrent_ptr_ref) (it : iterator).

(** The loop of [move_to_next_bucket] stops at the first later bucket
    whose head is not null; if there is none, all later heads are null. *)
Lemma move_loop_first st n it :
  0 < Buckets → length (buckets st) = Buckets →
  Buckets - 1 - bucket it ≤ n → bucket it < Buckets →
  get (cur (info it)) = None →
  ∃ it', move_loop Buckets n it st = Some (it', st) ∧
    save (info it') = save (info it) ∧
    ((∃ hd, bucket it < bucket it' ∧ bucket it' < Buckets ∧
            buckets st !! bucket it' = Some hd ∧ get hd ≠ None ∧
            cur (info it') = hd ∧
            prev (info it') = Some (BucketHead (bucket it')) ∧
            ∀ j, bucket it < j → j < bucket it' →
                 ∃ hd', buckets st !! j = Some hd' ∧ get hd' = None) ∨
     (get (cur (info it')) = None ∧ bucket it' < Buckets ∧
      ∀ j, bucket it < j → j < Buckets →
           ∃ hd', buckets st !! j = Some hd' ∧ get hd' = None)).
Proof.
  intros Hpos Hlen. revert it. induction n as [|n IH]; intros it Hn Hb Hnull.
  - exists it. simpl. rewrite size_pred_lt by done.
    rewrite (bool_decide_eq_false_2 (bucket it < Buckets - 1)) by lia.
    rewrite andb_false_r. split_and!; try done. right. split_and!; try done.
    intros; lia.
  - simpl. rewrite size_pred_lt by done. unfold is_null. rewrite Hnull. simpl.
    case_bool_decide as Hlt.
    2:{ exists it. split_and!; try done. right. split_and!; try done. intros; lia. }
    assert (Hhd : is_Some (buckets st !! S (bucket it))).
    { apply lookup_lt_is_Some. lia. }
    destruct Hhd as [hd Hhd].
    assert (Hacq : acquire (BucketHead (S (bucket it))) st = Some (hd, st)).
    { unfold acquire, load. by rewrite Hhd. }
    rewrite (bind_eq _ _ _ _ _ Hacq).
    set (it1 := Iterator (S (bucket it))
                  (set_cur hd (set_prev (Some (BucketHead (S (bucket it)))) (info it)))).
    destruct (get hd) as [c|] eqn:Hc.
    + exists it1. split_and!.
      * destruct n; simpl; unfold is_null; simpl; by rewrite Hc.
      * done.
      * left. exists hd. simpl.
        split_and!; first [done|lia|by rewrite Hc|intros; lia].
    + destruct (IH it1) as (it' & Hrun & Hsave & Hres); [simpl; lia|simpl; lia|done|].
      exists it'. split; [done|]. split; [done|]. simpl in Hres.
      destruct Hres as [(hd' & H1 & H2 & H3 & H4 & H5 & H6 & H7)|(H1 & H2 & H3)]; [left|right].
      * exists hd'. split_and!; try done; [lia|].
        intros j Hj1 Hj2. destruct (decide (j = S (bucket it))) as [->|Hne]; [by eauto|].
        apply H7; lia.
      * split_and!; try done.
        intros j Hj1 Hj2. destruct (decide (j = S (bucket it))) as [->|Hne]; [by eauto|].
        apply H3; lia.
Qed.

Lemma null_head_list priv st j hd :
  map_wf hash Buckets priv st → buckets st !! j = Some hd → get hd = None →
  bucket_list st j [].
Proof.
  intros Hwf Hhd Hnull.
  destruct (head_of_bucket hash Buckets priv st j hd Hwf Hhd) as (l & Hl & ->).
  by destruct l.
Qed.

(** [move_to_next_bucket] goes to the first node of the later buckets. *)
Lemma move_next_first priv st it :
  map_wf hash Buckets priv st → bucket it < Buckets →
  get (cur (info it)) = None →
  ∃ it' r, move_to_next_bucket Buckets it st = Some (it', st) ∧
           first_from Buckets st (S (bucket it)) r ∧ at_node it' r ∧
           iter_ok hash Buckets st it'.
Proof.
  intros Hwf Hb Hnull. unfold move_to_next_bucket.
  destruct (move_loop_first st Buckets
              (Iterator (bucket it) (set_save null_ptr (info it))))
    as (it' & Hrun & Hsave & Hres); [by eapply wf_pos|by eapply wf_length|simpl; lia|done|done|].
  simpl in *.
  destruct Hres as [(hd & H1 & H2 & H3 & H4 & H5 & H6 & H7)|(H1 & H2 & H3)].
  - destruct (head_of_bucket hash Buckets priv st _ hd Hwf H3) as (l & Hl & Hhd).
    destruct l as [|a l]; [exfalso; apply H4; rewrite Hhd; reflexivity|].
    exists it', (Some (bucket it', a)). split_and!; try done.
    + simpl. split_and!; [lia|done|by exists l|].
      intros j Hj1 Hj2. destruct (H7 j) as (hd' & ? & ?); [lia|lia|].
      by eapply null_head_list.
    + simpl. split; [done|]. by rewrite H5, Hhd.
    + left. destruct it' as [b' info']. simpl in *.
      eapply head_valid_iter; try done. by rewrite Hsave.
  - exists it', None. split_and!; try done.
    + simpl. intros j Hj1 Hj2. destruct (H3 j) as (hd' & ? & ?); [lia|lia|].
      by eapply null_head_list.
    + right. split; [done|lia].
Qed.

(** [begin()] is at the first node of the map. *)
Lemma begin_first st :
  map_inv hash Buckets st →
  ∃ it r, begin Buckets st = Some (it, st) ∧ first_from Buckets st 0 r ∧
          at_node it r ∧ iter_ok hash Buckets st it.
Proof.
  intros [Hwf _]. pose proof (wf_pos _ _ _ _ Hwf) as Hpos.
  unfold begin, iterator_at.
  assert (Hhd : is_Some (buckets st !! 0)).
  { apply lookup_lt_is_Some. by rewrite (wf_length _ _ _ _ Hwf). }
  destruct Hhd as [hd Hhd].
  assert (Hacq : acquire (BucketHead 0) st = Some (hd, st)).
  { unfold acquire, load. by rewrite Hhd. }
  rewrite (bind_eq _ _ _ _ _ Hacq). simpl. unfold is_null. simpl.
  destruct (head_of_bucket hash Buckets None st 0 hd Hwf Hhd) as (l & Hl & Hhd').
  destruct l as [|a l]; subst hd; simpl.
  - destruct (move_next_first None st
                (Iterator 0 (set_cur (MarkedPtr None false) (find_info_at (BucketHead 0)))))
      as (it' & r & Hrun & Hfirst & Hat & Hok); [done|done|done|].
    exists it', r. split_and!; try done. simpl in Hfirst.
    destruct r as [[b' a]|]; simpl in *.
    + destruct Hfirst as (H1 & H2 & H3 & H4). split_and!; [lia|done|done|].
      intros j _ Hj. destruct (decide (j = 0)) as [->|Hne]; [done|]. apply H4; lia.
    + intros j _ Hj. destruct (decide (j = 0)) as [->|Hne]; [done|]. apply Hfirst; lia.
  - eexists _, (Some (0, a)). split; [done|]. simpl. split_and!; try done.
    + by eauto.
    + intros; lia.
    + left. eapply head_valid_iter; try done.
Qed.

(** The last statements of [operator++] and [erase(iterator)], for a
    cursor in front of [post]. *)
Lemma finish_iter_first priv st b inf post :
  map_wf hash Buckets priv st → b < Buckets →
  cur inf = MarkedPtr (head post) false →
  (post ≠ [] → valid_iter hash Buckets st (Iterator b inf)) →
  ∃ it' r, (if is_null (cur inf)
            then move_to_next_bucket Buckets (Iterator b inf)
            else ret (Iterator b inf)) st = Some (it', st) ∧
           follows Buckets st b post r ∧ at_node it' r ∧
           iter_ok hash Buckets st it'.
Proof.
  intros Hwf Hb Hcur Hv. unfold is_null. rewrite Hcur.
  destruct post as [|c post]; simpl.
  - destruct (move_next_first priv st (Iterator b inf) Hwf Hb) as (it' & r & ? & ? & ? & ?).
    { simpl. by rewrite Hcur. }
    exists it', r. done.
  - exists (Iterator b inf), (Some (b, c)). split_and!; try done. left. by apply Hv.
Qed.

(** [operator++] at an iterator to a node of the map moves to the node
    that follows, and changes nothing. *)
Lemma incr_next st it c pre post :
  map_inv hash Buckets st → valid_iter hash Buckets st it →
  cur (info it) = MarkedPtr (Some c) false →
  bucket_list st (bucket it) (pre ++ c :: post) →
  ∃ it' r, (∀ fuel, iterator_incr Buckets fuel it st = Some (it', st)) ∧
           follows Buckets st (bucket it) post r ∧ at_node it' r ∧
           iter_ok hash Buckets st it'.
Proof.
  intros [Hwf Hq] Hv Hcur Hl.
  pose proof (valid_iter_bucket hash Buckets None st it Hwf Hv) as Hb.
  destruct (node_of_list _ _ _ _ _ Hl) as (nc & Hc & Hsucc).
  assert (Hm : mark (next nc) = false).
  { pose proof (Hq _ _ c Hl ltac:(set_solver)) as Hcm.
    unfold node_marked in Hcm. by rewrite Hc in Hcm. }
  assert (Hnx : next nc = MarkedPtr (head post) false).
  { rewrite <- Hsucc, <- Hm. by destruct (next nc). }
  assert (Hderef : deref (cur (info it)) st = Some (c, st)) by by rewrite Hcur.
  set (info' := set_cur (next nc)
                  (set_save (cur (info it)) (set_prev (Some (NodeNext c)) (info it)))).
  destruct (finish_iter_first None st (bucket it) info' post Hwf Hb)
    as (it' & r & Hfin & Hfol & Hat & Hok); [done| |].
  { intros Hne. destruct post as [|c2 post']; [done|].
    apply (position_valid_iter hash Buckets None st (bucket it) (pre ++ [c]) c2 post');
      [done|by rewrite <- app_assoc|..].
    - simpl. unfold link_after. by rewrite last_snoc.
    - simpl. by rewrite Hcur, last_snoc.
    - simpl. by rewrite Hnx. }
  exists it', r. split_and!; try done.
  intros fuel. unfold iterator_incr.
  rewrite (bind_eq _ _ _ _ _ Hderef).
  rewrite (bind_eq _ _ _ _ _ (load_node _ _ _ Hc)). rewrite Hm.
  rewrite (bind_eq _ _ _ _ _ (acquire_if_equal_ok _ _ _ (load_node _ _ _ Hc))).
  rewrite bind_ret. exact Hfin.
Qed.

End NextNode.

Section ErasePositionNext.
Context {Value : Type}.
Variable hash : Key → nat.
Variable Buckets : nat.
Implicit Types (st : @map_state Value) (l pre rest : list addr) (b : nat).
Implicit Types (info : find_info) (p : concurrent_ptr_ref) (it pos : iterator).
Implicit Types (h : gmap addr (@node Value)).

(** A list is cut in one way only into the keys below [key] and the
    others. *)
Lemma split_by_key h key (l1 l2 l1' l2' : list addr) :
  l1 ++ l2 = l1' ++ l2' →
  (∀ x, x ∈ l1 → (key_at h x < key)%Z) → (∀ x, x ∈ l2 → (key ≤ key_at h x)%Z) →
  (∀ x, x ∈ l1' → (key_at h x < key)%Z) → (∀ x, x ∈ l2' → (key ≤ key_at h x)%Z) →
  l1 = l1' ∧ l2 = l2'.
Proof.
  revert l1'. induction l1 as [|x l1 IH]; intros [|y l1'] Heq H1 H2 H1' H2'; simpl in *.
  - done.
  - subst l2. specialize (H2 y ltac:(set_solver)). specialize (H1' y ltac:(set_solver)). lia.
  - subst l2'. specialize (H2' x ltac:(set_solver)). specialize (H1 x ltac:(set_solver)). lia.
  - injection Heq as <- Heq. destruct (IH l1' Heq) as [-> ->]; try done.
    + intros z Hz. apply H1. set_solver.
    + intros z Hz. apply H1'. set_solver.
Qed.

(** [erase(iterator)] at an iterator whose node is in the map: the node
    leaves its list and is retired, and the iterator returned is at the
    node that follows. *)
Lemma erase_pos_live_run st pos c (nc : @node Value) :
  map_inv hash Buckets st → valid_iter hash Buckets st pos →
  cur (info pos) = MarkedPtr (Some c) false →
  heap st !! c = Some nc → mark (next nc) = false →
  ∃ pre post it' r st',
    bucket_list st (bucket pos) (pre ++ c :: post) ∧
    returns (λ fuel, erase_pos Buckets fuel pos) st (it', st') ∧
    map_inv hash Buckets st' ∧
    bucket_list st' (bucket pos) (pre ++ post) ∧
    retired st' = retired st ++ [c] ∧
    follows Buckets st' (bucket pos) post r ∧ at_node it' r ∧
    iter_ok hash Buckets st' it' ∧
    (∀ x, live st' x ↔ live st x ∧ x ≠ c) ∧
    (∀ k, has_key st' k ↔ has_key st k ∧ k ≠ key_at (heap st) c) ∧
    kept None st st' ∧
    node_marked (heap st') c = true.
Proof.
  intros Hinv Hv Hcur Hc Hm. pose proof Hinv as [Hwf Hq].
  pose proof (valid_iter_bucket hash Buckets None st pos Hwf Hv) as Hb.
  destruct (wf_lists _ _ _ _ Hwf _ Hb) as (l & Hl).
  pose proof (valid_iter_start hash Buckets st pos l Hwf Hv Hl) as Hstart.
  destruct (valid_iter_prev hash Buckets st pos Hv) as (p & Hprev & Hp & Hsave).
  set (b := bucket pos) in *. set (key := fst (value nc)).
  assert (Hkc : key_at (heap st) c = key).
  { unfold key_at. by rewrite Hc. }
  assert (Hbc : b = hash key mod Buckets).
  { destruct Hv as (c' & Hcur' & _ & Hbc & _).
    assert (c' = c) as -> by congruence. by rewrite <- Hkc. }
  assert (Hlt : ∀ s, p = NodeNext s → (key_at (heap st) s < key)%Z).
  { intros s ->. destruct Hv as (c' & Hcur' & _ & _ & [[Hp' _]|(s' & Hp' & _ & _ & _ & Hlt)]).
    - congruence.
    - assert (c' = c) as -> by congruence. assert (s' = s) as -> by congruence.
      by rewrite <- Hkc. }
  assert (Hcm : node_marked (heap st) c = false).
  { unfold node_marked. by rewrite Hc. }
  destruct (wf_linked _ _ _ _ Hwf c ltac:(eauto) Hcm) as [?|(b' & l' & Hl' & Hin)]; [done|].
  pose proof (wf_hash _ _ _ _ Hwf b' l' c Hl' Hin) as Hb'.
  assert (b' = b) as -> by congruence.
  rewrite (bucket_list_func _ _ _ _ Hl' Hl) in Hin. clear Hl' Hb'.
  apply list_elem_of_split in Hin as (pre & post & ->).
  destruct (node_of_list _ _ _ _ _ Hl) as (nc' & Hc' & Hsucc).
  assert (nc' = nc) as -> by congruence. clear Hc'.
  destruct (erase_pos_mark_spec c nc Hm (cas_fail st) st eq_refl Hc) as [N Hmark].
  set (nm := Node (value nc) (MarkedPtr (get (next nc)) true)) in *.
  set (st_m := set_heap (<[c := nm]> (heap st))
                 (set_cas_fail (after_cas (cas_fail st)) st)) in *.
  assert (Hcl : c ∈ pre ++ c :: post) by set_solver.
  destruct (mark_node hash Buckets st b _ c nc Hwf Hl Hcl Hc) as (Hwfm0 & Hlm0 & Hcm0 & Hom0 & Hkm0).
  fold nm in Hwfm0, Hlm0, Hcm0, Hom0, Hkm0.
  assert (Hwfm : ∀ st2, buckets st2 = buckets st_m → heap st2 = heap st_m →
                        map_wf hash Buckets None st2).
  { intros st2 ? ?.
    apply (map_wf_ext hash Buckets None (set_heap (<[c := nm]> (heap st)) st)); done. }
  assert (Hlm : ∀ st2, buckets st2 = buckets st_m → heap st2 = heap st_m →
                       bucket_list st2 b (pre ++ c :: post)).
  { intros st2 ? ?.
    eapply (bucket_list_ext (set_heap (<[c := nm]> (heap st)) st)); [done..|].
    by apply Hlm0. }
  pose proof (bucket_list_NoDup _ _ _ Hl) as Hnd.
  assert (Hcnp : c ∉ pre).
  { apply NoDup_app in Hnd as (_ & H2 & _). intros Hx. apply (H2 c Hx). set_solver. }
  assert (Hcnq : c ∉ post).
  { apply NoDup_app in Hnd as (_ & _ & H3). by apply NoDup_cons in H3 as [H3 _]. }
  assert (Hal : ∀ s, is_Some (heap st !! s) → is_Some (heap st_m !! s)).
  { intros s Hs. simpl. destruct (decide (s = c)) as [->|Hne].
    - rewrite lookup_insert_eq. eauto.
    - by rewrite lookup_insert_ne. }
  assert (Hcmm : heap st_m !! c = Some nm) by (simpl; by rewrite lookup_insert_eq).
  destruct (load_start hash Buckets None st_m b p (Hwfm st_m eq_refl eq_refl) Hb)
    as (v & Hload).
  { destruct Hp as [?|(s & ? & ? & _)]; [by left|right; eauto]. }
  assert (Hderef : deref (cur (info pos)) st = Some (c, st)) by by rewrite Hcur.
  assert (Hrun : ∀ fuel, N ≤ fuel →
    erase_pos Buckets fuel pos st =
    bind (compare_exchange_weak p (cur (info pos)) (MarkedPtr (get (next nc)) false))
      (λ x, let '(ok, _) := x in
            bind (if (ok : bool)
                  then bind (reclaim (cur (info pos)))
                         (λ _, ret (set_cur (MarkedPtr (get (next nc)) false) (info pos)))
                  else bind (node_key c)
                         (λ key, bind (find_kernel fuel key b (info pos))
                                   (λ y, let '(_, info) := y in ret info)))
              (λ info, if is_null (cur info)
                       then move_to_next_bucket Buckets (Iterator b info)
                       else ret (Iterator b info))) st_m).
  { intros fuel Hfuel. unfold erase_pos.
    rewrite (bind_eq _ _ _ _ _ Hderef).
    rewrite (bind_eq _ _ _ _ _ (load_node _ _ _ Hc)).
    rewrite (bind_eq _ _ _ _ _ (Hmark fuel Hfuel)).
    by rewrite (bind_eq _ _ _ _ _ (prev_ref_eq _ _ _ Hprev)). }
  assert (Hsorted : sorted_keys (heap st) (pre ++ c :: post)) by by eapply wf_sorted.
  assert (Hrx : ∀ st_x st', 
    heap st_x = <[c := nm]> (heap st) → buckets st_x = buckets st →
    retired st_x = retired st →
    rtc (help_step b) st_x st' →
    (∀ l', bucket_list st' b l' → c ∉ l') →
    map_inv hash Buckets st' ∧ bucket_list st' b (pre ++ post) ∧
    retired st' = retired st ++ [c] ∧
    (∀ x, live st' x ↔ live st x ∧ x ≠ c) ∧
    (∀ k, has_key st' k ↔ has_key st k ∧ k ≠ key_at (heap st) c) ∧
    kept None st st' ∧ node_marked (heap st') c = true ∧
    (∀ x, x ∈ pre → (key_at (heap st') x < key)%Z) ∧
    (∀ x, x ∈ post → (key ≤ key_at (heap st') x)%Z)).
  { intros st_x st' Hhx Hbx Hretx Hrtc Hex.
    destruct (erased_outcome hash Buckets st st_x st' b pre c post nc key)
      as (Hinv' & Hhk & Hkept & Hc' & Hlive); try done.
    assert (Hlx : bucket_list st_x b (pre ++ c :: post)) by by apply Hlm.
    assert (Hcx : node_marked (heap st_x) c = true).
    { rewrite Hhx. unfold node_marked. by rewrite lookup_insert_eq. }
    assert (Hqx : ∀ x, x ∈ pre ++ post → node_marked (heap st_x) x = false).
    { intros x Hx. rewrite Hhx.
      assert (x ≠ c) by (intros ->; apply elem_of_app in Hx as [?|?]; done).
      rewrite (node_marked_agree (heap st)); [|by apply lookup_insert_ne].
      eapply Hq; [exact Hl|set_solver]. }
    destruct (erased_retired st_x st' b pre c post Hlx Hcx Hqx Hrtc Hex) as [Hret' Hl'].
    assert (Hkeys : ∀ x, is_Some (heap st !! x) → key_at (heap st') x = key_at (heap st) x).
    { intros x [nd Hx]. by eapply kept_key. }
    split_and!; try done.
    - by rewrite Hret', Hretx.
    - by rewrite Hkc.
    - unfold node_marked. by rewrite Hc'.
    - intros x Hx. rewrite Hkeys.
      + rewrite <- Hkc. by eapply sorted_keys_lt_l.
      + eapply bucket_list_lookup; [exact Hl|set_solver].
    - intros x Hx. rewrite Hkeys.
      + rewrite <- Hkc. pose proof (sorted_keys_lt _ _ _ _ _ Hsorted Hx). lia.
      + eapply bucket_list_lookup; [exact Hl|set_solver]. }
  destruct (cas_cases p (cur (info pos)) (MarkedPtr (get (next nc)) false) st_m v Hload)
    as [[o Hcas]|[-> Hhd]].
  - (* the unlinking CAS fails: rewalk the list *)
    set (st_f := set_cas_fail o st_m) in *.
    destruct (find_kernel_spec key b st_f (pre ++ c :: post) (info pos))
      as ([[r2 info2] st'] & [N2 Hret2] & Hrtc & Hcursor); [by apply Hlm| |].
    { destruct Hstart as [?|(s & Hps & Hsv & Hsal & Hsin)]; [by left|right].
      exists s. split_and!; try done.
      - by apply Hal.
      - intros Hsm. apply Hsin. rewrite <- Hsm. symmetry.
        apply node_marked_agree. simpl. apply lookup_insert_ne.
        intros <-. simpl in Hsm. unfold node_marked in Hsm.
        by rewrite lookup_insert_eq in Hsm. }
    simpl in Hrtc, Hcursor.
    pose proof (rtc_help_frame _ _ _ Hrtc) as (Hsame & _).
    destruct (rtc_help_wf hash Buckets None b _ st'
                (Hwfm (log_call b key st_f) eq_refl eq_refl) Hrtc) as (Hwf' & _ & _).
    assert (Hsmall : prev (info pos) = Some (BucketHead b) ∨
              ∃ s, prev (info pos) = Some (NodeNext s) ∧ (key_at (heap st') s < key)%Z).
    { rewrite Hprev. destruct Hp as [->|(s & -> & _)]; [by left|right].
      exists s. split; [done|]. rewrite (same_nodes_key _ _ _ Hsame). simpl.
      rewrite Hkm0. by apply Hlt. }
    assert (Hex : ∀ l2, bucket_list st' b l2 → c ∉ l2).
    { intros l2 Hl2.
      eapply (cursor_excludes hash Buckets None st' b key (prev (info pos)) r2 info2 c l2 Hwf');
        try done.
      - rewrite (same_nodes_marked _ _ _ Hsame). done.
      - rewrite (same_nodes_key _ _ _ Hsame). simpl. by rewrite Hkm0. }
    destruct (Hrx (log_call b key st_f) st') as
      (Hinv' & Hl' & Hret' & Hlive & Hhk & Hkept & Hcm' & Hkpre & Hkpost); try done.
    pose proof (cursor_position st' b _ key (prev (info pos)) r2 info2 Hl'
                  (wf_sorted _ _ _ _ Hwf' _ _ Hl') Hsmall Hcursor)
      as (pre2 & rest2 & Heq & Hpre2 & Hrest2 & Hprev2 & Hsave2 & Hcur2 & _).
    destruct (split_by_key (heap st') key pre post pre2 rest2 Heq) as [<- <-]; try done.
    destruct (finish_iter_first hash Buckets None st' b info2 post Hwf' Hb Hcur2)
      as (it' & r & Hfinish & Hfol & Hat & Hok).
    { intros Hne. eapply cursor_valid_iter; [done..|].
      rewrite Hcur2. by destruct post. }
    exists pre, post, it', r, st'. split_and!; try done.
    exists (N `max` N2). intros fuel Hfuel. rewrite Hrun by lia.
    rewrite (bind_eq _ _ _ _ _ Hcas). simpl.
    unfold bind at 1. unfold bind at 1.
    assert (Hcf : heap st_f !! c = Some nm) by done.
    rewrite (node_key_eq _ _ _ Hcf). unfold bind at 1. simpl. fold key.
    rewrite Hret2 by lia. simpl. exact Hfinish.
  - (* the unlinking CAS succeeds *)
    destruct (link_of_pointer hash Buckets st_m b p pre c post (cur (info pos))
                (Hwfm st_m eq_refl eq_refl) (Hlm st_m eq_refl eq_refl))
      as (Hpl & Howner); try done.
    { destruct Hp as [?|(s & ? & _ & Hh)]; [by left|right].
      exists s. split; [done|]. simpl. by rewrite Hkm0. }
    destruct (tail_of_list st_m b (pre ++ [c]) post) as (q & Hq').
    { rewrite <- app_assoc. by apply Hlm. }
    pose proof (lseg_head_None _ _ _ Hq') as ->.
    destruct (store_link_list (set_cas_fail (tail (cas_fail st_m)) st_m) b
                pre (c :: post) (head post) post) as (st_u & Hst & Hlu).
    { by apply Hlm. }
    { done. }
    { intros s Hlast Hin. apply last_snoc_inv in Hlast as (pre' & ->).
      apply NoDup_app in Hnd as (_ & H2 & _). eapply (H2 s); set_solver. }
    set (st' := set_retired (retired st_u ++ [c]) st_u).
    assert (Hstep : help_step b st_m st').
    { eapply (help_unlink b st_m st' pre c post st_u); try done.
      by apply Hlm. }
    assert (Hlu' : bucket_list st' b (pre ++ post)) by by eapply bucket_list_ext.
    set (info' := set_cur (MarkedPtr (get (next nc)) false) (info pos)).
    destruct (Hrx st_m st') as
      (Hinv' & Hl' & Hret' & Hlive & Hhk & Hkept & Hcm' & _); try done.
    { by apply rtc_once. }
    { intros l2 Hl2. rewrite (bucket_list_func _ _ _ _ Hl2 Hlu').
      intros [Hx|Hx]%elem_of_app; done. }
    destruct (finish_iter_first hash Buckets None st' b info' post (inv_wf _ _ _ Hinv') Hb)
      as (it' & r & Hfinish & Hfol & Hat & Hok).
    { simpl. by rewrite Hsucc. }
    { intros Hne. destruct post as [|c2 post']; [done|].
      apply (position_valid_iter hash Buckets None st' b pre c2 post');
        [by apply inv_wf|done|..].
      - simpl. by rewrite Hprev, Hpl.
      - simpl. rewrite Hsave, Hpl. unfold link_after. by destruct (last pre).
      - simpl. by rewrite Hsucc. }
    exists pre, post, it', r, st'. split_and!; try done.
    exists N. intros fuel Hfuel. rewrite Hrun by lia.
    rewrite Hpl. rewrite Hpl in Hload. rewrite Hsucc.
    rewrite (bind_eq _ _ _ _ _ (cas_success _ _ _ _ _ Hload Hhd Hst)). simpl.
    unfold reclaim. rewrite Hcur. simpl. unfold bind at 1. simpl.
    fold st'. rewrite <- Hsucc. exact Hfinish.
Qed.

(** [erase(iterator)] at an iterator whose node was erased before
    changes nothing but the log of kernel calls. *)
Lemma erase_pos_stale_run st pos c (nc : @node Value) :
  map_inv hash Buckets st → valid_iter hash Buckets st pos →
  cur (info pos) = MarkedPtr (Some c) false →
  heap st !! c = Some nc → mark (next nc) = true →
  ∃ it', returns (λ fuel, erase_pos Buckets fuel pos) st
           (it', log_call (bucket pos) (fst (value nc)) st) ∧
         iter_ok hash Buckets st it' ∧ ¬ live st c.
Proof.
  intros Hinv Hv Hcur Hc Hm. pose proof Hinv as [Hwf Hq].
  pose proof (valid_iter_bucket hash Buckets None st pos Hwf Hv) as Hb.
  destruct (wf_lists _ _ _ _ Hwf _ Hb) as (l & Hl).
  pose proof (valid_iter_start hash Buckets st pos l Hwf Hv Hl) as Hstart.
  destruct (valid_iter_prev hash Buckets st pos Hv) as (p & Hprev & Hp & _).
  destruct (load_start hash Buckets None st (bucket pos) p Hwf Hb) as (v & Hload).
  { destruct Hp as [?|(s & ? & ? & _)]; [by left|right; eauto]. }
  assert (Hcm : node_marked (heap st) c = true).
  { unfold node_marked. by rewrite Hc. }
  assert (Hne : v ≠ cur (info pos)).
  { rewrite Hcur. by eapply load_not_marked. }
  assert (Hnl : ¬ live st c).
  { intros (b' & l' & Hl' & Hin). rewrite (Hq b' l' c Hl' Hin) in Hcm. done. }
  destruct (find_kernel_quiet st (bucket pos) l (fst (value nc)) (info pos) Hl)
    as (r & info1 & [N Hret] & Hcursor); [by intros; eapply Hq|done|].
  set (st1 := log_call (bucket pos) (fst (value nc)) st) in *.
  assert (Hwf1 : map_wf hash Buckets None st1) by by apply (map_wf_ext hash Buckets None st).
  destruct (finish_iter hash Buckets None st1 (bucket pos) info1 Hwf1 ltac:(lia))
    as (it' & Hfin & Hok & Hle).
  { intros Hnn. by eapply cursor_valid_iter. }
  assert (Hloop : ∀ fuel, erase_pos_mark_loop fuel c (next nc) st = Some (next nc, st)).
  { intros [|fuel]; simpl; by rewrite Hm. }
  assert (Hderef : deref (cur (info pos)) st = Some (c, st)) by by rewrite Hcur.
  exists it'. split; [|done].
  exists N. intros fuel Hfuel. unfold erase_pos.
  rewrite (bind_eq _ _ _ _ _ Hderef).
  rewrite (bind_eq _ _ _ _ _ (load_node _ _ _ Hc)).
  rewrite (bind_eq _ _ _ _ _ (Hloop fuel)).
  rewrite (bind_eq _ _ _ _ _ (prev_ref_eq _ _ _ Hprev)).
  rewrite (bind_eq _ _ _ _ _ (cas_mismatch _ _ _ _ _ Hload Hne)). simpl.
  unfold bind at 1. unfold bind at 1.
  rewrite (node_key_eq _ _ _ Hc). unfold bind at 1. rewrite Hret by done.
  simpl. exact Hfin.
Qed.

End ErasePositionNext.

Section StableErase.
Context {Value : Type}.
Variable hash : Key → nat.
Variable Buckets : nat.
Implicit Types (st : @map_state Value) (inf : find_info) (it pos : iterator).

Lemma pres_erase_mark_loop kfuel fuel key b inf :
  @pres Value _ (erase_mark_loop kfuel fuel key b inf).
Proof.
  revert inf. induction fuel as [|fuel IH]; intros inf; simpl; [apply pres_fail|].
  unfold deref. repeat (first [apply IH|apply pres_find_kernel|pres_step]).
Qed.

(** [erase(key)] changes no value and allocates or frees no node. *)
Lemma pres_erase fuel key : @pres Value _ (erase hash Buckets fuel key).
Proof.
  unfold erase, prev_ref.
  repeat (first [apply pres_erase_mark_loop|apply pres_find_kernel|pres_step]).
Qed.

Lemma pres_move_loop n it : @pres Value _ (move_loop Buckets n it).
Proof.
  revert it. induction n as [|n IH]; intros it; simpl; unfold acquire;
    repeat (first [apply IH|pres_step]).
Qed.

Lemma pres_erase_pos_mark_loop fuel c nxt :
  @pres Value _ (erase_pos_mark_loop fuel c nxt).
Proof.
  revert nxt. induction fuel as [|fuel IH]; intros nxt; simpl; unfold backoff;
    repeat (first [apply IH|pres_step]).
Qed.

(** [erase(iterator)] changes no value and allocates or frees no node. *)
Lemma pres_erase_pos fuel pos : @pres Value _ (erase_pos Buckets fuel pos).
Proof.
  unfold erase_pos, prev_ref, deref, move_to_next_bucket.
  repeat (first [apply pres_erase_pos_mark_loop|apply pres_find_kernel
                |apply pres_move_loop|pres_step]).
Qed.

End StableErase.

Section Effects.
Context {Value : Type}.
Variable hash : Key → nat.
Variable Buckets : nat.
Implicit Types (st : @map_state Value) (inf : find_info) (it pos : iterator).
Implicit Types (its : list iterator) (op : @operation Value) (res : result).

Lemma returns_pair_eq {A} (f : nat → @M Value A) st (a a0 : A) st' st0 :
  returns f st (a, st') → returns f st (a0, st0) → a = a0 ∧ st' = st0.
Proof. intros H1 H2. pose proof (returns_func _ _ _ _ H1 H2) as Heq. by injection Heq. Qed.

Lemma returns_at {A} (f : nat → @M Value A) st r :
  returns f st r → ∃ fuel, f fuel st = Some r.
Proof. intros [N HN]. exists N. by apply HN. Qed.

Lemma unchanged_ext st st' :
  buckets st' = buckets st → heap st' = heap st → retired st' = retired st →
  unchanged st st'.
Proof. done. Qed.

(** A successful insertion adds to the lists the node it allocated, and
    nothing else. *)
Lemma insert_inserts st key (v : Value) it a st' :
  map_inv hash Buckets st →
  insert_outcome hash Buckets key st ((it, true), st') →
  inserted st a (key, v) st' →
  cur (info it) = MarkedPtr (Some a) false →
  inserts st a (key, v) st'.
Proof.
  intros [Hwf Hq] Hout Hins Hcur.
  destruct Hout as (Hinv' & Hok & _ & Hlive & Hkept & _ & _ & (c & Hc & Hlc & _) & _ & _ & Hret & _).
  simpl in *. rewrite Hcur in Hc. injection Hc as <-.
  split_and!; try done.
  - by apply Hok.
  - intros x. split.
    2:{ intros [Hx|Hx]; [by apply Hlive|by subst x]. }
    intros Hx. destruct (decide (x = a)) as [->|Hne]; [by right|left].
    destruct Hins as (_ & _ & Hothers). specialize (Hothers x Hne).
    destruct (live_lookup st' x Hx) as [nd' Hx'].
    destruct (heap st !! x) as [nd|] eqn:Hxs; [|congruence].
    destruct (Hkept x nd Hxs) as (nd2 & Hx2 & _ & Hfrozen); [done|].
    assert (nd2 = nd') as -> by congruence.
    destruct Hx as (b' & l' & Hl' & Hin).
    pose proof (inv_quiet _ _ _ Hinv' _ _ _ Hl' Hin) as Hm'.
    assert (Hm : node_marked (heap st) x = false).
    { unfold node_marked in *. rewrite Hxs. rewrite Hx' in Hm'.
      destruct (mark (next nd)) eqn:E; [|done]. rewrite (Hfrozen eq_refl) in Hm'. congruence. }
    destruct (wf_linked _ _ _ _ Hwf x ltac:(eauto) Hm) as [?|?]; done.
Qed.

(** The effect of an operation that returned. *)
Lemma op_change_spec st its op res st' :
  map_inv hash Buckets st →
  (∀ it, it ∈ its → iter_ok hash Buckets st it) →
  op_ready its op →
  returns (λ fuel, run_op hash Buckets fuel op) st (res, st') →
  op_change st op res st'.
Proof.
  intros Hinv Hits Hready Hret.
  destruct op as [key|key|args|args|key args|key vf|key|pos| | |pos]; simpl.
  - (* contains *)
    destruct (contains_spec hash Buckets st key Hinv) as (r & Hret0 & _).
    apply (returns_map _ RBool) in Hret0.
    by destruct (returns_pair_eq _ _ _ _ _ _ Hret Hret0) as [_ ->].
  - (* find *)
    destruct (find_spec hash Buckets st key Hinv) as (l & r & info' & _ & Hret0 & _).
    apply (returns_map _ RIter) in Hret0.
    by destruct (returns_pair_eq _ _ _ _ _ _ Hret Hret0) as [_ ->].
  - (* emplace *)
    destruct (emplace_or_get_spec hash Buckets st args Hinv) as ([[it ok] st0] & Hret0 & Hout & _).
    pose proof (returns_map _ RBool _ _ _ (returns_map _ snd _ _ _ Hret0)) as Hret1.
    destruct (returns_pair_eq _ _ _ _ _ _ Hret Hret1) as [-> ->]. simpl.
    destruct ok.
    + destruct (returns_at _ _ _ Hret0) as [fuel Hrun].
      destruct (emplace_or_get_inserted hash Buckets fuel args st it st0 Hrun) as (a & Hcur & Hins).
      exists a, args. split; [done|]. split; [|by intros ? ?%elem_of_nil].
      destruct args as [k v]. by eapply insert_inserts.
    + destruct Hout as (_ & _ & _ & _ & _ & _ & _ & _ & _ & _ & ? & Hsame).
      destruct (Hsame eq_refl). done.
  - (* emplace_or_get *)
    destruct (emplace_or_get_spec hash Buckets st args Hinv) as ([[it ok] st0] & Hret0 & Hout & _).
    pose proof (returns_map _ (λ r, RPair (fst r) (snd r)) _ _ _ Hret0) as Hret1.
    destruct (returns_pair_eq _ _ _ _ _ _ Hret Hret1) as [-> ->]. simpl.
    destruct ok.
    + destruct (returns_at _ _ _ Hret0) as [fuel Hrun].
      destruct (emplace_or_get_inserted hash Buckets fuel args st it st0 Hrun) as (a & Hcur & Hins).
      exists a, args. split; [done|]. split; [|by intros ? ->%list_elem_of_singleton].
      destruct args as [k v]. by eapply insert_inserts.
    + destruct Hout as (_ & _ & _ & _ & _ & _ & _ & _ & _ & _ & ? & Hsame).
      destruct (Hsame eq_refl). done.
  - (* get_or_emplace *)
    destruct (get_or_emplace_spec hash Buckets st key args Hinv) as ([[it ok] st0] & Hret0 & Hout & _).
    pose proof (returns_map _ (λ r, RPair (fst r) (snd r)) _ _ _ Hret0) as Hret1.
    destruct (returns_pair_eq _ _ _ _ _ _ Hret Hret1) as [-> ->]. simpl.
    destruct ok.
    + destruct (returns_at _ _ _ Hret0) as [fuel Hrun].
      destruct (get_or_emplace_inserted hash Buckets fuel key args st it st0 Hrun)
        as (a & Hcur & Hins).
      exists a, (key, args). split; [done|]. split; [|by intros ? ->%list_elem_of_singleton].
      by eapply insert_inserts.
    + destruct Hout as (_ & _ & _ & _ & _ & _ & _ & _ & _ & _ & ? & Hsame).
      destruct (Hsame eq_refl). done.
  - (* get_or_emplace_lazy *)
    destruct (get_or_emplace_lazy_spec hash Buckets st key vf Hinv)
      as ([[it ok] st0] & Hret0 & Hout & _).
    pose proof (returns_map _ (λ r, RPair (fst r) (snd r)) _ _ _ Hret0) as Hret1.
    destruct (returns_pair_eq _ _ _ _ _ _ Hret Hret1) as [-> ->]. simpl.
    destruct ok.
    + destruct (returns_at _ _ _ Hret0) as [fuel Hrun].
      destruct (get_or_emplace_lazy_inserted hash Buckets fuel key vf st it st0 Hrun)
        as (a & Hcur & Hins).
      exists a, (key, vf tt). split; [done|]. split; [|by intros ? ->%list_elem_of_singleton].
      by eapply insert_inserts.
    + destruct Hout as (_ & _ & _ & _ & _ & _ & _ & _ & _ & _ & ? & Hsame).
      destruct (Hsame eq_refl). done.
  - (* erase(key) *)
    destruct (has_key_dec hash Buckets st key Hinv) as [Hkey|Hkey].
    + destruct (erase_retires hash Buckets st key Hinv Hkey)
        as (c & st0 & Hret0 & Hlc & Hkc & Hr & _ & Hlive & _ & Hcm & Hkept).
      destruct (returns_at _ _ _ Hret0) as [fuel Hrun].
      pose proof (pres_erase hash Buckets fuel key _ _ _ Hrun) as Hst.
      apply (returns_map _ RBool) in Hret0.
      destruct (returns_pair_eq _ _ _ _ _ _ Hret Hret0) as [-> ->].
      exists true. split; [done|]. exists c. done.
    + destruct (erase_spec hash Buckets st key Hinv) as ([r st0] & Hret0 & Hout).
      destruct Hout as (_ & Hr & _ & _ & Hfalse & _). simpl in *.
      assert (r = false) as ->.
      { destruct r; [|done]. destruct Hkey. by apply Hr. }
      apply (returns_map _ RBool) in Hret0.
      destruct (returns_pair_eq _ _ _ _ _ _ Hret Hret0) as [-> ->].
      exists false. split; [done|].
      destruct (Hfalse eq_refl) as (? & ? & _ & ?). done.
  - (* erase(iterator) *)
    destruct Hready as [Hin Hnn].
    pose proof (iter_ok_valid hash Buckets st pos (Hits pos Hin) Hnn) as Hv.
    pose proof Hv as (c & Hcur & [nc Hc] & _).
    exists c. split; [done|].
    destruct (mark (next nc)) eqn:Hm.
    + destruct (erase_pos_stale_run hash Buckets st pos c nc Hinv Hv Hcur Hc Hm)
        as (it' & Hret0 & _ & Hnl).
      apply (returns_map _ RIter) in Hret0.
      destruct (returns_pair_eq _ _ _ _ _ _ Hret Hret0) as [-> ->].
      right. done.
    + destruct (erase_pos_live_run hash Buckets st pos c nc Hinv Hv Hcur Hc Hm)
        as (pre & post & it' & r & st0 & Hl & Hret0 & _ & _ & Hr & _ & _ & _ & Hlive & _ & Hkept & Hcm).
      destruct (returns_at _ _ _ Hret0) as [fuel Hrun].
      pose proof (pres_erase_pos Buckets fuel pos _ _ _ Hrun) as Hst.
      apply (returns_map _ RIter) in Hret0.
      destruct (returns_pair_eq _ _ _ _ _ _ Hret Hret0) as [-> ->].
      assert (Hlc : live st c).
      { exists (bucket pos), (pre ++ c :: post). split; [done|set_solver]. }
      left. done.
  - (* begin *)
    destruct (begin_spec hash Buckets st Hinv) as (it & Hret0 & _).
    pose proof (returns_map (λ _, begin Buckets) RIter _ _ _ (returns_const _ _ _ Hret0)) as Hret1.
    by destruct (returns_pair_eq _ _ _ _ _ _ Hret Hret1) as [_ ->].
  - (* end *)
    assert (Hret1 : returns (λ fuel, run_op hash Buckets fuel (@OpEnd Value)) st
                      (RIter (iterator_end Buckets), st)) by by apply returns_const.
    by destruct (returns_pair_eq _ _ _ _ _ _ Hret Hret1) as [_ ->].
  - (* operator++ *)
    destruct Hready as [Hin Hnn].
    pose proof (iter_ok_valid hash Buckets st pos (Hits pos Hin) Hnn) as Hv.
    destruct (iterator_incr_spec hash Buckets st pos Hinv Hv) as ([it' st0] & Hret0 & Hout).
    destruct Hout as (Hbk & Hh & _ & Hr & _). simpl in *.
    apply (returns_map _ RIter) in Hret0.
    by destruct (returns_pair_eq _ _ _ _ _ _ Hret Hret0) as [_ ->].
Qed.

End Effects.

Section Accounting.
Context {Value : Type}.
Variable hash : Key → nat.
Variable Buckets : nat.
Implicit Types (st : @map_state Value) (inf : find_info) (it pos : iterator).
Implicit Types (its : list iterator) (op : @operation Value) (res : result).

Lemma marked_allocated st x : node_marked (heap st) x = true → is_Some (heap st !! x).
Proof. unfold node_marked. destruct (heap st !! x); [eauto|done]. Qed.

Lemma kept_marked st st' x :
  kept None st st' → node_marked (heap st) x = true → node_marked (heap st') x = true.
Proof.
  intros Hk Hm. destruct (marked_allocated st x Hm) as [nd Hx].
  destruct (Hk x nd Hx) as (nd' & Hx' & _ & Hfrozen); [done|].
  unfold node_marked in *. rewrite Hx in Hm. rewrite Hx', (Hfrozen Hm). done.
Qed.

Lemma unchanged_live st st' x : unchanged st st' → live st' x ↔ live st x.
Proof. intros (Hb & Hh & _). split; apply live_ext; done. Qed.

Lemma unchanged_kept st st' : unchanged st st' → kept None st st'.
Proof. intros (_ & Hh & _). by apply kept_ext. Qed.

Lemma accounted_empty o : accounted (@empty_map Value Buckets o).
Proof.
  split; simpl.
  - intros x [nd Hx]. by rewrite lookup_empty in Hx.
  - constructor.
  - by intros x Hx%elem_of_nil.
Qed.

Lemma accounted_unchanged st st' : unchanged st st' → accounted st → accounted st'.
Proof.
  intros Hu [H1 H2 H3]. pose proof Hu as (Hb & Hh & Hr). split; rewrite ?Hr, ?Hh.
  - intros x Hx. destruct (H1 x Hx) as [?|?]; [left|by right]. by apply (unchanged_live st).
  - done.
  - intros x Hx. destruct (H3 x Hx) as [Hnl Hm]. split; [|done].
    intros Hl. apply Hnl. by apply (unchanged_live st st').
Qed.

Lemma accounted_inserts st a kv st' : inserts st a kv st' → accounted st → accounted st'.
Proof.
  intros ((Hfresh & _ & Hothers) & _ & Hlive & Hr & Hkept) [H1 H2 H3]. split; rewrite ?Hr.
  - intros x Hx. destruct (decide (x = a)) as [->|Hne]; [left; apply Hlive; by right|].
    specialize (Hothers x Hne). destruct (heap st !! x) as [nd|] eqn:Hxs.
    + destruct (H1 x) as [?|?]; [by rewrite Hxs|left|by right]. apply Hlive. by left.
    + rewrite Hothers in Hx. by destruct Hx.
  - done.
  - intros x Hx. destruct (H3 x Hx) as [Hnl Hm]. split; [|by eapply kept_marked].
    intros [Hl| ->]%Hlive; [done|].
    destruct (marked_allocated st a Hm) as [? ?]. congruence.
Qed.

Lemma accounted_erases st c st' : erases st c st' → accounted st → accounted st'.
Proof.
  intros (Hst & Hlc & Hlive & Hr & Hcm & Hkept) [H1 H2 H3]. split; rewrite ?Hr.
  - intros x Hx. specialize (Hst x). destruct (heap st !! x) as [nd|] eqn:Hxs.
    + destruct (H1 x) as [Hl|?]; [by rewrite Hxs| |right; set_solver].
      destruct (decide (x = c)) as [->|Hne]; [right; set_solver|left]. by apply Hlive.
    + rewrite Hst in Hx. by destruct Hx.
  - apply NoDup_app. split_and!; [done| |apply NoDup_singleton].
    intros x Hx ->%list_elem_of_singleton. by destruct (H3 c Hx).
  - intros x [Hx| ->%list_elem_of_singleton]%elem_of_app.
    + destruct (H3 x Hx) as [Hnl Hm]. split; [|by eapply kept_marked].
      by intros [Hl _]%Hlive.
    + split; [|done]. by intros [_ ?]%Hlive.
Qed.

(** Every operation keeps the account of the nodes. *)
Lemma accounted_op st op res st' :
  op_change st op res st' → accounted st → accounted st'.
Proof.
  intros Hch Hacc. destruct op; simpl in Hch;
    try (by eapply accounted_unchanged);
    try (destruct (result_flag res);
         [destruct Hch as (a & kv & _ & Hins & _); by eapply accounted_inserts
         |by eapply accounted_unchanged]).
  - destruct Hch as ([|] & _ & Hch); [|by eapply accounted_unchanged].
    destruct Hch as (c & _ & He). by eapply accounted_erases.
  - destruct Hch as (c & _ & [[_ He]|[_ Hu]]);
      [by eapply accounted_erases|by eapply accounted_unchanged].
Qed.

(** An operation that does not remove the key of a live node leaves the
    node in its list. *)
Lemma live_op st op res st' a :
  op_change st op res st' → live st a →
  keeps_key (key_at (heap st) a) st op res → live st' a.
Proof.
  intros Hch Hl Hkeep. destruct op; simpl in Hch;
    try (by apply (unchanged_live st st'));
    try (destruct (result_flag res);
         [destruct Hch as (a' & kv & _ & (_ & _ & Hlive & _) & _); apply Hlive; by left
         |by apply (unchanged_live st st')]).
  - destruct Hch as ([|] & -> & Hch); [|by apply (unchanged_live st st')].
    destruct Hch as (c & Hkc & _ & _ & Hlive & _). apply Hlive. split; [done|].
    intros ->. apply Hkeep. done.
  - destruct Hch as (c & Hcur & [[_ (_ & _ & Hlive & _)]|[_ Hu]]);
      [|by apply (unchanged_live st st')].
    apply Hlive. split; [done|]. intros ->. apply Hkeep. exists c. by rewrite Hcur.
Qed.

End Accounting.

Section RunsMore.
Context {Value : Type}.
Variable hash : Key → nat.
Variable Buckets : nat.
Implicit Types (st : @map_state Value) (inf : find_info) (it pos : iterator).
Implicit Types (its : list iterator) (op : @operation Value) (res : result).

(** Along a sequence of operations the nodes stay accounted for and keep
    their values, and a node stays in its list as long as no operation
    removes its key. *)
Lemma run_account allowed st its st' its' :
  run hash Buckets allowed st its st' its' →
  map_inv hash Buckets st →
  (∀ it, it ∈ its → iter_ok hash Buckets st it) →
  (accounted st → accounted st') ∧
  kept None st st' ∧
  ∀ a, live st a →
       (∀ st0 op res, allowed st0 op res →
                      keeps_key (key_at (heap st) a) st0 op res) →
       live st' a.
Proof.
  induction 1 as [st its|st its op res st1 st2 its2 Hready Hall Hret Hrun IH
                  |st its o st2 its2 Hrun IH]; intros Hinv Hits.
  - split_and!; [done|apply kept_refl|done].
  - pose proof (op_change_spec hash Buckets st its op res st1 Hinv Hits Hready Hret) as Hch.
    destruct (op_returned hash Buckets st its op res st1 Hinv Hits Hready Hret)
      as (Hinv1 & Hkept & Hres & _).
    destruct IH as (Hacc & Hkept2 & Hlive2); [done| |].
    { intros it [Hit|Hit]%elem_of_app; [by apply Hres|].
      eapply iter_ok_kept; [done|]. by apply Hits. }
    split_and!.
    + intros Ha. apply Hacc. by eapply accounted_op.
    + by eapply kept_trans.
    + intros a Hl Hkeep.
      assert (Hk : key_at (heap st1) a = key_at (heap st) a).
      { eapply kept_key; [done|by apply live_lookup|done]. }
      apply Hlive2.
      * eapply live_op; [done..|]. by apply Hkeep.
      * rewrite Hk. done.
  - destruct IH as (Hacc & Hkept2 & Hlive2).
    { by apply (map_inv_ext hash Buckets st). }
    { intros it Hit. eapply (iter_ok_kept hash Buckets st); [by apply kept_ext|].
      by apply Hits. }
    split_and!.
    + intros Ha. apply Hacc. eapply (accounted_unchanged st); done.
    + done.
    + intros a Hl Hkeep. apply Hlive2; [|done]. by apply (live_ext st).
Qed.

Lemma reachable_accounted st its :
  0 < Buckets → reachable hash Buckets st its → accounted st.
Proof.
  intros Hpos [o Hrun].
  destruct (run_account _ _ _ _ _ Hrun) as (Hacc & _); [by apply empty_map_inv| |].
  { by intros it Hit%elem_of_nil. }
  apply Hacc, accounted_empty.
Qed.

End RunsMore.

Section Destructor.
Context {Value : Type}.
Variable hash : Key → nat.
Variable Buckets : nat.
Implicit Types (st : @map_state Value) (l : list addr) (b : nat).

(** The inner loop of the destructor frees the nodes of a list without
    marked nodes, and nothing else. *)
Lemma destroy_list_spec l :
  ∀ st q, lseg (heap st) q l None →
    (∀ x, x ∈ l → node_marked (heap st) x = false) →
    ∃ st', (∀ fuel, length l ≤ fuel →
                    destroy_list fuel (MarkedPtr q false) st = Some (tt, st')) ∧
           buckets st' = buckets st ∧ retired st' = retired st ∧
           ∀ x, (x ∈ l → heap st' !! x = None) ∧
                (x ∉ l → heap st' !! x = heap st !! x).
Proof.
  induction l as [|a l IH]; intros st q Hseg Hq.
  - simpl in Hseg. subst q. exists st. split_and!; try done.
    + intros [|fuel] _; done.
    + intros x. split; [by intros ?%elem_of_nil|done].
  - pose proof (lseg_NoDup _ _ _ Hseg) as Hnd. apply NoDup_cons in Hnd as [Hal Hnd].
    simpl in Hseg. destruct Hseg as (-> & n & Hn & Hseg).
    assert (Hm : mark (next n) = false).
    { specialize (Hq a ltac:(set_solver)). unfold node_marked in Hq. by rewrite Hn in Hq. }
    set (st1 := set_heap (delete a (heap st)) st).
    destruct (IH st1 (get (next n))) as (st' & Hrun & Hb & Hr & Hh).
    { by apply lseg_delete_notin. }
    { intros x Hx. simpl. rewrite (node_marked_agree (heap st)); [apply Hq; set_solver|].
      apply lookup_delete_ne. intros ->. done. }
    exists st'. split_and!; try done.
    + intros [|fuel] Hfuel; [simpl in Hfuel; lia|]. simpl.
      unfold bind at 1. simpl.
      rewrite (bind_eq _ _ _ _ _ (load_node _ _ _ Hn)).
      unfold bind at 1, delete_node, modify. fold st1.
      replace (next n) with (MarkedPtr (get (next n)) false)
        by (rewrite <- Hm; by destruct (next n)).
      apply Hrun. simpl in Hfuel. lia.
    + intros x. destruct (Hh x) as [H1 H2]. split.
      * intros [->|Hx]%elem_of_cons; [|by apply H1].
        rewrite (H2 Hal). simpl. apply lookup_delete_eq.
      * intros Hx. apply not_elem_of_cons in Hx as [Hne Hx].
        rewrite (H2 Hx). simpl. by apply lookup_delete_ne.
Qed.

(** The loop over the buckets from [i] on frees the nodes of their
    lists. *)
Lemma destroy_buckets_spec st :
  map_inv hash Buckets st →
  ∀ n i st_i, i + n = Buckets → buckets st_i = buckets st →
    (∀ j l x, i ≤ j → bucket_list st j l → x ∈ l → heap st_i !! x = heap st !! x) →
    ∃ st', returns (λ fuel, destroy_buckets fuel n i) st_i (tt, st') ∧
           buckets st' = buckets st ∧ retired st' = retired st_i ∧
           ∀ x, ((∃ j l, i ≤ j ∧ bucket_list st j l ∧ x ∈ l) → heap st' !! x = None) ∧
                (¬ (∃ j l, i ≤ j ∧ bucket_list st j l ∧ x ∈ l) →
                 heap st' !! x = heap st_i !! x).
Proof.
  intros [Hwf Hq]. induction n as [|n IH]; intros i st_i Hi Hbk Hag.
  - exists st_i. split_and!; try done.
    + by exists 0.
    + intros x. split; [|done]. intros (j & l & Hj & Hl & _).
      pose proof (bucket_list_lt _ _ _ Hl) as Hlt.
      rewrite (wf_length _ _ _ _ Hwf) in Hlt. lia.
  - destruct (wf_lists _ _ _ _ Hwf i ltac:(lia)) as (l & Hl).
    assert (Hli : bucket_list st_i i l).
    { apply (bucket_list_agree st); [by rewrite Hbk| |done].
      intros x Hx. by apply (Hag i l). }
    destruct Hli as (hd & Hhd & Hm & Hseg).
    destruct (destroy_list_spec l st_i (get hd) Hseg) as (st1 & Hrun1 & Hb1 & Hr1 & Hh1).
    { intros x Hx. rewrite (node_marked_agree (heap st)); [by eapply Hq|].
      by apply (Hag i l). }
    destruct (IH (S i) st1) as (st' & [N Hrun] & Hb' & Hr' & Hh'); [lia|congruence| |].
    { intros j l' x Hj Hl' Hx. destruct (Hh1 x) as [_ H2]. rewrite H2.
      - apply (Hag j l'); [lia|done..].
      - intros Hxl. assert (i = j) by by eapply (wf_disjoint hash Buckets None st). lia. }
    exists st'. split_and!; try done.
    + exists (N `max` length l). intros fuel Hfuel. simpl.
      assert (Hload : load (BucketHead i) st_i = Some (hd, st_i)).
      { unfold load. by rewrite Hhd. }
      rewrite (bind_eq _ _ _ _ _ Hload).
      replace hd with (MarkedPtr (get hd) false) by (rewrite <- Hm; by destruct hd).
      unfold bind at 1. rewrite Hrun1 by lia. apply Hrun. lia.
    + congruence.
    + intros x. destruct (Hh' x) as [H1 H2]. destruct (Hh1 x) as [H3 H4]. split.
      * intros (j & l' & Hj & Hl' & Hx). destruct (decide (j = i)) as [->|Hne].
        -- rewrite (bucket_list_func _ _ _ _ Hl' Hl) in Hx.
           rewrite H2; [by apply H3|].
           intros (j & l2 & Hj2 & Hl2 & Hx2).
           pose proof (wf_disjoint hash Buckets None st i j l l2 x Hwf Hl Hl2 Hx Hx2). lia.
        -- apply H1. exists j, l'. split_and!; [lia|done..].
      * intros Hno. rewrite H2.
        -- apply H4. intros Hx. apply Hno. exists i, l. done.
        -- intros (j & l' & Hj & Hl' & Hx). apply Hno. exists j, l'. split_and!; [lia|done..].
Qed.

End Destructor.

Section Traversal.
Context {Value : Type}.
Variable hash : Key → nat.
Variable Buckets : nat.
Implicit Types (st : @map_state Value) (l pre post : list addr) (b : nat).
Implicit Types (it : iterator) (ls : list (list addr)).

Lemma concat_drop_skip ls b b' :
  b ≤ b' → (∀ j, b ≤ j → j < b' → ls !! j = Some []) →
  concat (drop b ls) = concat (drop b' ls).
Proof.
  intros Hle. induction Hle as [|b' Hle IH]; intros Hskip; [done|].
  rewrite IH by (intros; apply Hskip; lia).
  rewrite (drop_S ls [] b') by (apply Hskip; lia). done.
Qed.

Lemma contents_lookup st ls b :
  contents Buckets st ls → b < Buckets → ∃ l, ls !! b = Some l ∧ bucket_list st b l.
Proof.
  intros [Hlen Hls] Hb. destruct (lookup_lt_is_Some_2 ls b) as [l Hl]; [lia|]. eauto.
Qed.

Lemma contents_empty st ls b :
  contents Buckets st ls → b < Buckets → bucket_list st b [] → ls !! b = Some [].
Proof.
  intros Hc Hb He. destruct (contents_lookup st ls b Hc Hb) as (l & Hl & Hbl).
  by rewrite (bucket_list_func _ _ _ _ He Hbl).
Qed.

(** The nodes from the first node of the buckets from [b] on. *)
Lemma first_from_concat st ls b r :
  contents Buckets st ls → b ≤ Buckets → first_from Buckets st b r →
  match r with
  | Some (b', a) => ∃ l, ls !! b' = Some (a :: l) ∧
                         concat (drop b ls) = a :: l ++ concat (drop (S b') ls)
  | None => concat (drop b ls) = []
  end.
Proof.
  intros Hc Hb Hfirst. destruct r as [[b' a]|]; simpl in Hfirst.
  - destruct Hfirst as (Hle & Hlt & (l & Hl) & Hskip).
    destruct (contents_lookup st ls b' Hc Hlt) as (l' & Hl' & Hbl).
    rewrite (bucket_list_func _ _ _ _ Hbl Hl) in Hl'.
    exists l. split; [done|].
    rewrite (concat_drop_skip ls b b' Hle).
    + by rewrite (drop_S ls _ b' Hl').
    + intros j Hj1 Hj2. apply (contents_empty st); [done|lia|]. by apply Hskip.
  - rewrite (concat_drop_skip ls b Buckets Hb).
    + destruct Hc as [Hlen _]. by rewrite drop_ge by lia.
    + intros j Hj1 Hj2. apply (contents_empty st); [done|lia|]. by apply Hfirst.
Qed.

Lemma traverse_end fuel n it st :
  get (cur (info it)) = None → traverse Buckets fuel n it st = Some ([], st).
Proof.
  intros Hn. destruct n; simpl; unfold iterator_neq, iterator_eq; simpl;
    rewrite Hn; by rewrite bool_decide_eq_true_2.
Qed.

(** The traversal from an iterator at a node of the map collects that
    node and all the nodes behind it, bucket by bucket. *)
Lemma traverse_from st ls :
  map_inv hash Buckets st → contents Buckets st ls →
  ∀ n fuel it c pre post,
    valid_iter hash Buckets st it →
    cur (info it) = MarkedPtr (Some c) false →
    ls !! bucket it = Some (pre ++ c :: post) →
    length (post ++ concat (drop (S (bucket it)) ls)) < n →
    traverse Buckets fuel n it st =
      Some (c :: post ++ concat (drop (S (bucket it)) ls), st).
Proof.
  intros Hinv Hc. induction n as [|n IH]; intros fuel it c pre post Hv Hcur Hls Hn; [lia|].
  pose proof (valid_iter_bucket hash Buckets None st it (inv_wf _ _ _ Hinv) Hv) as Hb.
  assert (Hl : bucket_list st (bucket it) (pre ++ c :: post)) by by apply Hc.
  destruct (incr_next hash Buckets st it c pre post Hinv Hv Hcur Hl)
    as (it' & r & Hincr & Hfol & Hat & Hok).
  assert (Hstep : ∀ rs, traverse Buckets fuel n it' st = Some (rs, st) →
                        traverse Buckets fuel (S n) it st = Some (c :: rs, st)).
  { intros rs Hrs. simpl. unfold iterator_neq, iterator_eq. simpl. rewrite Hcur. simpl.
    try rewrite bool_decide_eq_false_2 by done. simpl.
    unfold bind at 1, iterator_deref, deref, lift. rewrite Hcur. simpl.
    unfold bind at 1. rewrite Hincr. unfold bind at 1. by rewrite Hrs. }
  apply Hstep. destruct post as [|c2 post]; simpl in Hfol.
  - pose proof (first_from_concat st ls (S (bucket it)) r Hc ltac:(lia) Hfol) as Hcat.
    destruct r as [[b' a]|]; simpl in Hat.
    + destruct Hcat as (l & Hlb & Hcat). destruct Hat as [Hb' Hcur'].
      simpl. rewrite Hcat. simpl in Hn. rewrite Hcat in Hn. simpl in Hn.
      subst b'. apply (IH fuel it' a [] l).
      * apply iter_ok_valid; [done|]. by rewrite Hcur'.
      * done.
      * done.
      * lia.
    + simpl. rewrite Hcat. by apply traverse_end.
  - subst r. destruct Hat as [Hb' Hcur']. rewrite <- Hb'.
    apply (IH fuel it' c2 (pre ++ [c]) post).
    + apply iter_ok_valid; [done|]. by rewrite Hcur'.
    + done.
    + rewrite Hb', <- app_assoc. done.
    + rewrite Hb'. simpl in Hn. lia.
Qed.

(** [for (it = begin(); it != end(); ++it)] visits the nodes of all
    lists, bucket by bucket, each one once, and changes nothing. *)
Lemma traverse_all_spec st ls :
  map_inv hash Buckets st → contents Buckets st ls →
  returns (λ fuel, traverse_all Buckets fuel) st (concat ls, st).
Proof.
  intros Hinv Hc.
  destruct (begin_first hash Buckets st Hinv) as (it & r & Hbegin & Hfirst & Hat & Hok).
  pose proof (first_from_concat st ls 0 r Hc ltac:(lia) Hfirst) as Hcat.
  rewrite drop_0 in Hcat.
  exists (S (length (concat ls))). intros fuel Hfuel. unfold traverse_all.
  rewrite (bind_eq _ _ _ _ _ Hbegin).
  destruct r as [[b' a]|]; simpl in Hat.
  - destruct Hcat as (l & Hlb & Hcat). destruct Hat as [Hb' Hcur'].
    rewrite Hcat. rewrite Hcat in Hfuel. simpl in Hfuel. subst b'.
    apply (traverse_from st ls Hinv Hc fuel fuel it a [] l).
    + apply iter_ok_valid; [done|]. by rewrite Hcur'.
    + done.
    + done.
    + lia.
  - rewrite Hcat. by apply traverse_end.
Qed.

End Traversal.

Section Reading.
Context {Value : Type}.
Variable hash : Key → nat.
Variable Buckets : nat.
Implicit Types (st : @map_state Value) (inf : find_info) (it pos : iterator).
Implicit Types (its : list iterator) (op : @operation Value) (res : result).

Lemma iterator_read_node st it c (nd : @node Value) :
  get (cur (info it)) = Some c → heap st !! c = Some nd →
  iterator_read it st = Some (value nd, st).
Proof.
  intros Hc Hn. unfold iterator_read, iterator_deref, deref, bind, lift. rewrite Hc.
  unfold ref_first, ref_second, bind, read_node. simpl. rewrite Hn. simpl.
  rewrite Hn. simpl. by destruct (value nd).
Qed.

Lemma iterator_read_end st it :
  get (cur (info it)) = None → iterator_read it st = None.
Proof.
  intros Hc. unfold iterator_read, iterator_deref, deref, bind, lift. by rewrite Hc.
Qed.

Lemma iterator_read_inv st it kv st' :
  iterator_read it st = Some (kv, st') →
  st' = st ∧ ∃ c nd, get (cur (info it)) = Some c ∧ heap st !! c = Some nd ∧ value nd = kv.
Proof.
  unfold iterator_read, iterator_deref, deref, bind, lift.
  destruct (get (cur (info it))) as [c|] eqn:Hc; [|done].
  unfold ref_first, ref_second, bind, read_node. simpl.
  destruct (heap st !! c) as [nd|] eqn:Hn; simpl; [|done]. rewrite Hn. simpl.
  intros [= <- <-]. split; [done|]. exists c, nd. by destruct (value nd).
Qed.

Lemma op_value_key op kv :
  op_value op = Some kv → is_insert op = true ∧ op_key op = Some (fst kv).
Proof. destruct op; simpl; try done; by intros [= <-]. Qed.

(** The keys after an insertion and after a removal. *)
Lemma inserts_has_key st a kv st' :
  inserts st a kv st' → ∀ k, has_key st' k ↔ has_key st k ∨ k = fst kv.
Proof.
  intros ((_ & (nd & Ha & Hv) & _) & _ & Hlive & _ & Hkept).
  apply (has_key_insert st st' a); [done|done|].
  unfold key_at. by rewrite Ha, Hv.
Qed.

Lemma erases_has_key priv st c st' :
  map_wf hash Buckets priv st → erases st c st' →
  ∀ k, has_key st' k ↔ has_key st k ∧ k ≠ key_at (heap st) c.
Proof.
  intros Hwf (_ & Hlc & Hlive & _ & _ & Hkept) k.
  assert (Hkeys : ∀ x, live st x → key_at (heap st') x = key_at (heap st) x).
  { intros x Hx. eapply kept_key; [done|by apply live_lookup|done]. }
  split.
  - intros (x & [Hx Hne]%Hlive & Hk). rewrite Hkeys in Hk by done. split; [by exists x|].
    intros ->. apply Hne. by eapply (live_key_unique hash Buckets priv st).
  - intros [(x & Hx & Hk) Hne]. exists x. rewrite Hkeys by done. split; [|done].
    apply Hlive. split; [done|]. intros ->. done.
Qed.

(** The insertions, with the outcome of the common loop. *)
Lemma insert_op_spec st op k :
  map_inv hash Buckets st → is_insert op = true → op_key op = Some k →
  ∃ it (ok : bool) res st',
    returns (λ fuel, run_op hash Buckets fuel op) st (res, st') ∧
    insert_outcome hash Buckets k st ((it, ok), st') ∧
    result_flag res = ok ∧ (∀ it', it' ∈ result_iter res → it' = it).
Proof.
  intros Hinv Hins Hkey. destruct op as [| |args|args|key args|key vf| | | | |]; try done;
    simpl in Hkey; injection Hkey as <-.
  - destruct (emplace_or_get_spec hash Buckets st args Hinv) as ([[it ok] st0] & Hret0 & Hout & _).
    exists it, ok, (RBool ok), st0. split_and!; try done.
    + exact (returns_map _ RBool _ _ _ (returns_map _ snd _ _ _ Hret0)).
    + by intros ? ?%elem_of_nil.
  - destruct (emplace_or_get_spec hash Buckets st args Hinv) as ([[it ok] st0] & Hret0 & Hout & _).
    exists it, ok, (RPair it ok), st0. split_and!; try done.
    + exact (returns_map _ (λ r, RPair (fst r) (snd r)) _ _ _ Hret0).
    + by intros ? ->%list_elem_of_singleton.
  - destruct (get_or_emplace_spec hash Buckets st key args Hinv) as ([[it ok] st0] & Hret0 & Hout & _).
    exists it, ok, (RPair it ok), st0. split_and!; try done.
    + exact (returns_map _ (λ r, RPair (fst r) (snd r)) _ _ _ Hret0).
    + by intros ? ->%list_elem_of_singleton.
  - destruct (get_or_emplace_lazy_spec hash Buckets st key vf Hinv)
      as ([[it ok] st0] & Hret0 & Hout & _).
    exists it, ok, (RPair it ok), st0. split_and!; try done.
    + exact (returns_map _ (λ r, RPair (fst r) (snd r)) _ _ _ Hret0).
    + by intros ? ->%list_elem_of_singleton.
Qed.

(** What helping unlinks, it retires. *)
Lemma help_retires priv b st st' :
  rtc (help_step b) st st' → map_wf hash Buckets priv st →
  ∀ l l', bucket_list st b l → bucket_list st' b l' →
          ∀ x, x ∈ l → x ∉ l' → x ∈ retired st'.
Proof.
  induction 1 as [st|st st1 st' Hstep Hrtc IH]; intros Hwf l l' Hl Hl' x Hx Hnx.
  - rewrite (bucket_list_func _ _ _ _ Hl Hl') in Hx. done.
  - destruct (help_step_wf hash Buckets priv b st st1 Hwf Hstep) as (Hwf1 & _ & Hb).
    destruct (Hb l Hl) as (l1 & Hl1 & Hsub & _).
    destruct (decide (x ∈ l1)) as [Hx1|Hx1]; [by eapply IH|].
    pose proof (rtc_help_frame _ _ _ Hrtc) as (_ & _ & _ & _ & _ & _ & (r & Hr)).
    rewrite Hr. apply elem_of_app. left.
    destruct Hstep as [pre a post o Hb0 Ha Ho ->|pre a post s1 Hb0 Ha Hs Hst Ho ->].
    + destruct Hx1. by rewrite (bucket_list_func _ _ _ _ Hl1 Hl).
    + simpl. apply elem_of_app.
      destruct (decide (x = a)) as [->|Hne]; [right; set_solver|exfalso].
      apply Hx1. rewrite (bucket_list_func _ _ _ _ Hl Hb0) in Hx.
      pose proof (bucket_list_NoDup _ _ _ Hb0) as Hnd.
      destruct (store_link_list (set_cas_fail (tail (cas_fail st)) st) b
                  pre (a :: post) (head post) post) as (st_u & Hst_u & Hlu).
      { by eapply bucket_list_ext. }
      { destruct (tail_of_list st b (pre ++ [a]) post) as (q & Hq').
        { by rewrite <- app_assoc. }
        by pose proof (lseg_head_None _ _ _ Hq') as ->. }
      { intros sl Hlast Hin. apply last_snoc_inv in Hlast as (pre' & ->).
        apply NoDup_app in Hnd as (_ & H2 & _). eapply (H2 sl); set_solver. }
      assert (st_u = s1) as -> by congruence.
      assert (Hl1' : bucket_list (set_retired (retired s1 ++ [a]) s1) b (pre ++ post))
        by by eapply bucket_list_ext.
      rewrite (bucket_list_func _ _ _ _ Hl1 Hl1'). set_solver.
Qed.

End Reading.

Section InsertAbsent.
Context {Value : Type}.
Variable hash : Key → nat.
Variable Buckets : nat.
Implicit Types (st : @map_state Value) (inf : find_info) (it pos : iterator).
Implicit Types (its : list iterator) (op : @operation Value) (res : result).

Lemma insert_op_ready its op : is_insert op = true → op_ready its op.
Proof. by destruct op. Qed.

(** An insertion of a key that is not in the map. *)
Lemma insert_absent_spec st op kv :
  map_inv hash Buckets st → op_value op = Some kv → ¬ has_key st (fst kv) →
  ∃ res a st',
    returns (λ fuel, run_op hash Buckets fuel op) st (res, st') ∧
    result_flag res = true ∧ map_inv hash Buckets st' ∧ inserts st a kv st' ∧
    ∀ it, it ∈ result_iter res → cur (info it) = MarkedPtr (Some a) false.
Proof.
  intros Hinv Hval Habsent. destruct (op_value_key op kv Hval) as [Hins Hkey].
  destruct (insert_op_spec hash Buckets st op (fst kv) Hinv Hins Hkey)
    as (it & ok & res & st' & Hret & Hout & Hflag & Hit).
  assert (ok = true) as ->.
  { destruct Hout as (_ & Hok & _). simpl in Hok. by apply Hok. }
  pose proof (op_change_spec hash Buckets st [] op res st' Hinv
                ltac:(by intros ? ?%elem_of_nil) (insert_op_ready [] op Hins) Hret) as Hch.
  assert (Hch' : ∃ a kv', op_value op = Some kv' ∧ inserts st a kv' st' ∧
                   ∀ it, it ∈ result_iter res → cur (info it) = MarkedPtr (Some a) false).
  { destruct op; try done; simpl in Hch; by rewrite Hflag in Hch. }
  destruct Hch' as (a & kv' & Hval' & Hi & Hcur).
  assert (kv' = kv) as -> by congruence.
  exists res, a, st'. split_and!; try done. by destruct Hout as (? & _).
Qed.

End InsertAbsent.

Section Contents.
Context {Value : Type}.
Variable hash : Key → nat.
Variable Buckets : nat.
Implicit Types (st : @map_state Value) (inf : find_info) (it pos : iterator).

Lemma elem_of_concat {A} (x : A) (ls : list (list A)) :
  x ∈ concat ls ↔ ∃ l, x ∈ l ∧ l ∈ ls.
Proof.
  induction ls as [|l0 ls IH]; simpl.
  - split; [by intros ?%elem_of_nil|]. by intros (l & _ & ?%elem_of_nil).
  - rewrite elem_of_app, IH. split.
    + intros [Hx|(l & Hx & Hl)]; [exists l0|exists l]; split; try done; set_solver.
    + intros (l & Hx & [->|Hl]%elem_of_cons); [by left|right; eauto].
Qed.

Lemma NoDup_concat_disjoint {A} (ls : list (list A)) :
  (∀ i l, ls !! i = Some l → NoDup l) →
  (∀ i j l l' x, ls !! i = Some l → ls !! j = Some l' → x ∈ l → x ∈ l' → i = j) →
  NoDup (concat ls).
Proof.
  induction ls as [|l ls IH]; intros Hnd Hdis; simpl; [constructor|].
  apply NoDup_app. split_and!.
  - by apply (Hnd 0).
  - intros x Hx Hx'. apply elem_of_concat in Hx' as (l' & Hxl' & Hl').
    apply list_elem_of_lookup in Hl' as [j Hj].
    by specialize (Hdis 0 (S j) l l' x eq_refl Hj Hx Hxl').
  - apply IH.
    + intros i l0 Hi. by apply (Hnd (S i)).
    + intros i j l1 l2 x Hi Hj Hx1 Hx2.
      by specialize (Hdis (S i) (S j) l1 l2 x Hi Hj Hx1 Hx2) as [= ->].
Qed.

(** The lists of the buckets of a well-formed map. *)
Lemma lists_upto st n :
  map_inv hash Buckets st → n ≤ Buckets →
  ∃ ls, length ls = n ∧ ∀ b l, ls !! b = Some l → bucket_list st b l.
Proof.
  intros Hinv. induction n as [|n IH]; intros Hn.
  - exists []. split; [done|]. intros b l Hl. by rewrite lookup_nil in Hl.
  - destruct IH as (ls & Hlen & Hls); [lia|].
    destruct (wf_lists _ _ _ _ (inv_wf _ _ _ Hinv) n) as [l Hl]; [lia|].
    exists (ls ++ [l]). split; [rewrite length_app; simpl; lia|].
    intros b l' Hb. apply lookup_app_Some in Hb as [Hb|[Hge Hb]]; [by apply Hls|].
    rewrite Hlen in *. destruct (b - n) as [|?] eqn:Hd; [|done]. simpl in Hb. injection Hb as <-.
    replace b with n by lia. done.
Qed.

Lemma contents_exists st : map_inv hash Buckets st → ∃ ls, contents Buckets st ls.
Proof. intros Hinv. by apply lists_upto. Qed.

Lemma contents_live st ls x :
  map_inv hash Buckets st → contents Buckets st ls → x ∈ concat ls ↔ live st x.
Proof.
  intros Hinv Hc. split.
  - intros (l & Hx & Hl)%elem_of_concat.
    apply list_elem_of_lookup in Hl as [b Hb]. exists b, l. split; [|done].
    by apply Hc.
  - intros (b & l & Hl & Hx).
    assert (Hb : b < Buckets).
    { rewrite <- (wf_length _ _ _ _ (inv_wf _ _ _ Hinv)). by eapply bucket_list_lt. }
    destruct (contents_lookup Buckets st ls b Hc Hb) as (l' & Hl' & Hbl).
    rewrite (bucket_list_func _ _ _ _ Hbl Hl) in Hl'.
    apply elem_of_concat. exists l. split; [done|]. by eapply list_elem_of_lookup_2.
Qed.

Lemma contents_NoDup st ls :
  map_inv hash Buckets st → contents Buckets st ls → NoDup (concat ls).
Proof.
  intros Hinv [_ Hc]. apply NoDup_concat_disjoint.
  - intros i l Hi. eapply bucket_list_NoDup. by apply Hc.
  - intros i j l l' x Hi Hj Hx Hx'.
    eapply (wf_disjoint hash Buckets None st i j l l' x); eauto using inv_wf.
Qed.

End Contents.

(** ** Properties of the member functions *)

Section Members.
Context {Value : Type}.
Variable hash : Key → nat.
Variable Buckets : nat.
Implicit Types (st : @map_state Value) (inf : find_info) (it pos : iterator).
Implicit Types (its : list iterator) (op : @operation Value) (res : result).

(** X1: between operations [contains(key)] returns, its result is true
    exactly when a node of the lists has the key, and it changes no
    bucket, no node and no retired node and uses up no failure of the
    weak compare-and-swap. *)
Theorem X1_contains st key :
  map_inv hash Buckets st →
  ∃ (r : bool) st',
    returns (λ fuel, contains hash Buckets fuel key) st (r, st') ∧
    (r = true ↔ has_key st key) ∧
    unchanged st st' ∧ cas_fail st' = cas_fail st.
Proof.
  intros Hinv. destruct (contains_spec hash Buckets st key Hinv) as (r & Hret & Hr).
  exists r, (log_call (hash key mod Buckets) key st). done.
Qed.

(** X2: between operations [find(key)] returns and leaves the map as it
    was.  If no node of the lists has the key, the result is [end()],
    which cannot be dereferenced; otherwise the result stands in the
    bucket [hash(key) % Buckets] at the node of the lists that has the
    key, and dereferencing it reads the pair of that node. *)
Theorem X2_find st key :
  map_inv hash Buckets st →
  ∃ it st',
    returns (λ fuel, find hash Buckets fuel key) st (it, st') ∧
    unchanged st st' ∧
    (¬ has_key st key →
       it = iterator_end Buckets ∧ iterator_read it st' = None) ∧
    (has_key st key →
       ∃ c nd, bucket it = hash key mod Buckets ∧
               cur (info it) = MarkedPtr (Some c) false ∧
               live st c ∧ heap st !! c = Some nd ∧ fst (value nd) = key ∧
               iterator_read it st' = Some (value nd, st')).
Proof.
  intros Hinv.
  destruct (find_spec hash Buckets st key Hinv) as (l & r & info' & Hl & Hret & Hpos & Hr).
  eexists _, _. split; [exact Hret|]. split; [done|]. split.
  - intros Habs. assert (r = false) as ->.
    { destruct r; [|done]. exfalso. by apply Habs, Hr. }
    split; [done|]. by apply iterator_read_end.
  - intros Hk. assert (r = true) as -> by by apply Hr.
    destruct (at_position_valid_iter hash Buckets None st key l info'
                (inv_wf _ _ _ Hinv) Hl Hpos) as ((c' & Hcur & _) & c & Hget & Hlive & Hkey).
    simpl in Hcur. rewrite Hcur in Hget. simpl in Hget. injection Hget as ->.
    destruct (live_lookup st c Hlive) as [nd Hnd].
    exists c, nd. split_and!; try done.
    + unfold key_at in Hkey. by rewrite Hnd in Hkey.
    + apply (iterator_read_node _ _ c); [by simpl; rewrite Hcur|done].
Qed.

(** X3: an insertion ([emplace], [emplace_or_get], [get_or_emplace],
    [get_or_emplace_lazy]) of a key that a node of the lists has returns
    false and changes no bucket, no node and no retired node: a node it
    constructed for the attempt is freed again.  The iterator it returns
    stands at the node that has the key. *)
Theorem X3_insert_present st op k :
  map_inv hash Buckets st → is_insert op = true → op_key op = Some k →
  has_key st k →
  ∃ res st',
    returns (λ fuel, run_op hash Buckets fuel op) st (res, st') ∧
    result_flag res = false ∧ unchanged st st' ∧
    ∀ it, it ∈ result_iter res →
          ∃ c, cur (info it) = MarkedPtr (Some c) false ∧
               live st c ∧ key_at (heap st) c = k.
Proof.
  intros Hinv Hins Hkey Hk.
  destruct (insert_op_spec hash Buckets st op k Hinv Hins Hkey)
    as (it & ok & res & st' & Hret & Hout & Hflag & Hit).
  assert (ok = false) as ->.
  { destruct ok; [|done]. destruct Hout as (_ & Hok & _). simpl in Hok.
    exfalso. by apply Hok. }
  pose proof (op_change_spec hash Buckets st [] op res st' Hinv
                ltac:(by intros ? ?%elem_of_nil) (insert_op_ready [] op Hins) Hret) as Hch.
  assert (Hun : unchanged st st').
  { destruct op; try done; simpl in Hch; by rewrite Hflag in Hch. }
  exists res, st'. split_and!; try done.
  intros it0 Hit0. specialize (Hit it0 Hit0). subst it0.
  destruct Hout as (_ & _ & _ & _ & _ & (c' & Hcur & _) & _ & (c & Hget & Hlive & Hkc) & _).
  simpl in *. rewrite Hcur in Hget. simpl in Hget. injection Hget as ->.
  exists c. split; [done|]. destruct Hun as (Hb & Hh & _).
  split; [by apply (live_ext st' st); [| |exact Hlive]|by rewrite <- Hh].
Qed.

(** X4: an insertion of a pair whose key no node of the lists has returns
    true and allocates one node that holds this pair; the nodes of the
    lists are those of before and the new one, every other node keeps
    its value, nothing is retired, the keys are those of before and the
    new one, and dereferencing the iterator returned reads the pair. *)
Theorem X4_insert_absent st op kv :
  map_inv hash Buckets st → op_value op = Some kv → ¬ has_key st (fst kv) →
  ∃ res a st',
    returns (λ fuel, run_op hash Buckets fuel op) st (res, st') ∧
    result_flag res = true ∧ map_inv hash Buckets st' ∧
    inserts st a kv st' ∧
    (∀ k, has_key st' k ↔ has_key st k ∨ k = fst kv) ∧
    ∀ it, it ∈ result_iter res →
          cur (info it) = MarkedPtr (Some a) false ∧
          iterator_read it st' = Some (kv, st').
Proof.
  intros Hinv Hval Habs.
  destruct (insert_absent_spec hash Buckets st op kv Hinv Hval Habs)
    as (res & a & st' & Hret & Hflag & Hinv' & Hi & Hcur).
  exists res, a, st'. split_and!; try done.
  - by apply inserts_has_key with a.
  - intros it Hit. specialize (Hcur it Hit). split; [done|].
    destruct Hi as ((_ & (nd & Hnd & Hv) & _) & _).
    rewrite <- Hv. apply (iterator_read_node _ _ a); [by rewrite Hcur|done].
Qed.

(** X5: after a successful insertion of a pair, followed by any
    operations that do not erase its key, [find] of the key returns an
    iterator whose dereference reads the pair that was inserted. *)
Theorem X5_lookup_after_insert st its op kv res st1 st2 its2 :
  0 < Buckets → reachable hash Buckets st its →
  op_value op = Some kv →
  returns (λ fuel, run_op hash Buckets fuel op) st (res, st1) →
  result_flag res = true →
  run hash Buckets (keeps_key (fst kv)) st1 (result_iter res ++ its) st2 its2 →
  ∃ it st3,
    returns (λ fuel, find hash Buckets fuel (fst kv)) st2 (it, st3) ∧
    iterator_read it st3 = Some (kv, st3).
Proof.
  intros Hpos Hreach Hval Hret Hflag Hrun.
  destruct (reachable_inv hash Buckets st its Hpos Hreach) as (Hinv & Hits).
  destruct (op_value_key op kv Hval) as [Hins Hkey].
  pose proof (op_key_ready its op _ Hkey) as Hready.
  pose proof (op_change_spec hash Buckets st its op res st1 Hinv Hits Hready Hret) as Hch.
  assert (Hch' : ∃ a, inserts st a kv st1).
  { destruct op; try done; simpl in Hch; rewrite Hflag in Hch;
      destruct Hch as (a & kv' & Hv' & Hi & _); exists a;
      simpl in Hv', Hval; rewrite Hval in Hv'; injection Hv' as <-; exact Hi. }
  destruct Hch' as (a & Hi).
  pose proof (op_returned hash Buckets st its op res st1 Hinv Hits Hready Hret) as Hout.
  assert (Hinv1 : map_inv hash Buckets st1 ∧
                  ∀ it, it ∈ result_iter res ++ its → iter_ok hash Buckets st1 it).
  { destruct (run_inv hash Buckets (λ _ _ _, True) st its st1 (result_iter res ++ its))
      as (? & ? & _); [|done|done|done].
    eapply run_step; [exact Hready|done|exact Hret|apply run_done]. }
  destruct Hinv1 as (Hinv1 & Hits1).
  destruct Hi as ((_ & (nd & Hnd & Hv) & _) & _ & Hlive & _).
  assert (Hla : live st1 a) by (apply Hlive; by right).
  assert (Hka : key_at (heap st1) a = fst kv).
  { unfold key_at. by rewrite Hnd, Hv. }
  destruct (run_account hash Buckets _ st1 _ st2 its2 Hrun Hinv1 Hits1) as (_ & Hkept & Hkeep).
  assert (Hla2 : live st2 a).
  { apply Hkeep; [done|]. intros st0 op0 res0. by rewrite Hka. }
  destruct (run_inv hash Buckets _ st1 _ st2 its2 Hrun Hinv1 Hits1) as (Hinv2 & _).
  destruct (Hkept a nd Hnd) as (nd2 & Hnd2 & Hv2 & _); [done|].
  assert (Hka2 : key_at (heap st2) a = fst kv).
  { unfold key_at. by rewrite Hnd2, Hv2, Hv. }
  destruct (find_spec hash Buckets st2 (fst kv) Hinv2) as (l & r & info' & Hl & Hfind & Hat & Hr).
  assert (r = true) as ->.
  { apply Hr. by exists a. }
  destruct (at_position_valid_iter hash Buckets None st2 (fst kv) l info'
              (inv_wf _ _ _ Hinv2) Hl Hat) as (_ & c & Hget & Hlc & Hkc).
  assert (c = a) as ->.
  { eapply live_key_unique; [exact (inv_wf _ _ _ Hinv2)|done|done|congruence]. }
  eexists _, _. split; [exact Hfind|].
  replace kv with (value nd2) by congruence.
  by apply (iterator_read_node _ _ a).
Qed.

(** X6: [erase(key)] of a key that a node of the lists has returns true;
    it unlinks exactly that node and retires it exactly once, frees no
    node and changes no value, and the keys of the map are those of
    before without [key]. *)
Theorem X6_erase_retires st key :
  map_inv hash Buckets st → has_key st key →
  ∃ c st',
    returns (λ fuel, erase hash Buckets fuel key) st (true, st') ∧
    key_at (heap st) c = key ∧ erases st c st' ∧
    map_inv hash Buckets st' ∧
    (∀ k, has_key st' k ↔ has_key st k ∧ k ≠ key).
Proof.
  intros Hinv Hk.
  destruct (erase_retires hash Buckets st key Hinv Hk)
    as (c & st' & Hret & Hlive & Hkey & Hretd & Hinv' & Hl & Hks & Hm & Hkept).
  exists c, st'. split_and!; try done.
  destruct (returns_at _ _ _ Hret) as [fuel Hf].
  split_and!; try done. exact (pres_erase hash Buckets fuel key _ _ _ Hf).
Qed.

(** X7: [erase(pos)] at an iterator that stands at a node of the lists
    unlinks that node and retires it exactly once, frees no node and
    changes no value; the list of the bucket loses this node only, and
    the iterator returned stands at the node that followed it, or at the
    first node of the following buckets, or is [end()]. *)
Theorem X7_erase_at_iterator st pos c :
  map_inv hash Buckets st → valid_iter hash Buckets st pos →
  cur (info pos) = MarkedPtr (Some c) false → live st c →
  ∃ pre post it' r st',
    bucket_list st (bucket pos) (pre ++ c :: post) ∧
    returns (λ fuel, erase_pos Buckets fuel pos) st (it', st') ∧
    map_inv hash Buckets st' ∧ erases st c st' ∧
    bucket_list st' (bucket pos) (pre ++ post) ∧
    (∀ k, has_key st' k ↔ has_key st k ∧ k ≠ key_at (heap st) c) ∧
    follows Buckets st' (bucket pos) post r ∧ at_node it' r ∧
    iter_ok hash Buckets st' it'.
Proof.
  intros Hinv Hv Hcur Hlive.
  destruct (live_lookup st c Hlive) as [nc Hnc].
  assert (Hm : mark (next nc) = false).
  { destruct Hlive as (b & l & Hl & Hc).
    pose proof (inv_quiet _ _ _ Hinv b l c Hl Hc) as Hq.
    unfold node_marked in Hq. by rewrite Hnc in Hq. }
  destruct (erase_pos_live_run hash Buckets st pos c nc Hinv Hv Hcur Hnc Hm)
    as (pre & post & it' & r & st' & Hl & Hret & Hinv' & Hl' & Hretd & Hf & Hat & Hok
        & Hlv & Hks & Hkept & Hmk).
  exists pre, post, it', r, st'. split_and!; try done.
  destruct (returns_at _ _ _ Hret) as [fuel Hfu].
  split_and!; try done. exact (pres_erase_pos Buckets fuel pos _ _ _ Hfu).
Qed.

(** X8: [erase(pos)] at an iterator whose node was erased before returns
    an iterator and changes no bucket, no node and no retired node: the
    node is not retired a second time. *)
Theorem X8_erase_at_stale_iterator st pos c :
  map_inv hash Buckets st → valid_iter hash Buckets st pos →
  cur (info pos) = MarkedPtr (Some c) false → ¬ live st c →
  ∃ it' st',
    returns (λ fuel, erase_pos Buckets fuel pos) st (it', st') ∧
    unchanged st st' ∧ cas_fail st' = cas_fail st ∧
    iter_ok hash Buckets st' it'.
Proof.
  intros Hinv Hv Hcur Hdead.
  assert (Halloc : is_Some (heap st !! c)).
  { destruct Hv as (c' & Hc' & Ha & _). rewrite Hcur in Hc'. by injection Hc' as <-. }
  destruct Halloc as [nc Hnc].
  assert (Hm : mark (next nc) = true).
  { destruct (mark (next nc)) eqn:Hmk; [done|]. exfalso. apply Hdead.
    destruct (wf_linked _ _ _ _ (inv_wf _ _ _ Hinv) c) as [?|Hl]; [by eexists|..|done|done].
    unfold node_marked. by rewrite Hnc. }
  destruct (erase_pos_stale_run hash Buckets st pos c nc Hinv Hv Hcur Hnc Hm)
    as (it' & Hret & Hok & _).
  eexists _, _. split; [exact Hret|]. by split_and!.
Qed.

End Members.

Section Iteration.
Context {Value : Type}.
Variable hash : Key → nat.
Variable Buckets : nat.
Implicit Types (st : @map_state Value) (inf : find_info) (it pos : iterator).
Implicit Types (its : list iterator) (op : @operation Value) (res : result).

(** X9: between operations [begin()] leaves the store as it was and
    returns an iterator that stands at the first node of the first
    bucket whose list is not empty, or a null iterator if every list is
    empty. *)
Theorem X9_begin_first st :
  map_inv hash Buckets st →
  ∃ it r, begin Buckets st = Some (it, st) ∧
          first_from Buckets st 0 r ∧ at_node it r ∧
          iter_ok hash Buckets st it.
Proof. apply begin_first. Qed.

(** X10: between operations [operator++] at an iterator that stands at a
    node [c] of the list of its bucket leaves the store as it was and
    moves the iterator to the node that follows [c] in the list, or, if
    [c] is the last one, to the first node of the following buckets, or
    to a null iterator if there is none. *)
Theorem X10_increment_next st it c pre post :
  map_inv hash Buckets st → valid_iter hash Buckets st it →
  cur (info it) = MarkedPtr (Some c) false →
  bucket_list st (bucket it) (pre ++ c :: post) →
  ∃ it' r, (∀ fuel, iterator_incr Buckets fuel it st = Some (it', st)) ∧
           follows Buckets st (bucket it) post r ∧ at_node it' r ∧
           iter_ok hash Buckets st it'.
Proof. apply incr_next. Qed.

(** X11: between operations the loop
    [for (it = begin(); it != end(); ++it) *it] ends, leaves the store
    as it was and visits the nodes of the lists bucket by bucket, each
    list in its order: every node of the lists exactly once. *)
Theorem X11_traversal st :
  map_inv hash Buckets st →
  ∃ ls, contents Buckets st ls ∧
        returns (λ fuel, traverse_all Buckets fuel) st (concat ls, st) ∧
        NoDup (concat ls) ∧ ∀ x, x ∈ concat ls ↔ live st x.
Proof.
  intros Hinv. destruct (contents_exists hash Buckets st Hinv) as [ls Hc].
  exists ls. split_and!; [done| | |].
  - by apply (traverse_all_spec hash).
  - by apply (contents_NoDup hash Buckets st).
  - intros x. by apply (contents_live hash Buckets).
Qed.

(** X12: on a store that a sequence of operations has produced, the
    destructor ends; it frees exactly the nodes of the lists, leaves the
    bucket heads and the retired nodes as they were, and the only nodes
    still allocated afterwards are retired ones. *)
Theorem X12_destructor st its :
  0 < Buckets → reachable hash Buckets st its →
  ∃ st', returns (λ fuel, destructor Buckets fuel) st (tt, st') ∧
         buckets st' = buckets st ∧ retired st' = retired st ∧
         (∀ x, live st x → heap st' !! x = None) ∧
         (∀ x, ¬ live st x → heap st' !! x = heap st !! x) ∧
         (∀ x, is_Some (heap st' !! x) → x ∈ retired st).
Proof.
  intros Hpos Hreach.
  destruct (reachable_inv hash Buckets st its Hpos Hreach) as (Hinv & _).
  pose proof (reachable_accounted hash Buckets st its Hpos Hreach) as Hacc.
  destruct (destroy_buckets_spec hash Buckets st Hinv Buckets 0 st)
    as (st' & Hret & Hb & Hr & Hheap); [done|done|done|].
  assert (Hlive : ∀ x, live st x ↔ ∃ j l, 0 ≤ j ∧ bucket_list st j l ∧ x ∈ l).
  { intros x. split; [intros (b & l & ? & ?); exists b, l; split; [lia|done]
                     |intros (b & l & _ & ? & ?); by exists b, l]. }
  assert (H1 : ∀ x, live st x → heap st' !! x = None).
  { intros x Hx. by apply (Hheap x), Hlive. }
  assert (H2 : ∀ x, ¬ live st x → heap st' !! x = heap st !! x).
  { intros x Hx. apply (Hheap x). by rewrite <- Hlive. }
  exists st'. split_and!; try done.
  intros x [nd Hx]. destruct (heap st !! x) as [nd0|] eqn:Hx0.
  - destruct (acc_all _ Hacc x) as [Hl|Hrt]; [by eexists| |done].
    rewrite (H1 x Hl) in Hx. done.
  - rewrite H2, Hx0 in Hx; [done|]. intros [? Hl]%live_lookup. congruence.
Qed.

(** X13: in every store that a sequence of operations produces, every
    allocated node is a node of the lists or a retired node, no node is
    retired twice, and a retired node is marked and in no list. *)
Theorem X13_nodes_accounted st its :
  0 < Buckets → reachable hash Buckets st its → accounted st.
Proof. apply reachable_accounted. Qed.

(** X14: a call of the kernel [find] for a bucket returns, also when the
    list holds marked nodes.  It changes no value and frees no node, it
    leaves the lists of the other buckets as they were; the list of its
    bucket afterwards is a sublist of the one before that keeps every
    unmarked node, and every node it dropped was marked and is now
    retired. *)
Theorem X14_kernel_helps st b key inf l :
  map_wf hash Buckets None st → bucket_list st b l →
  valid_start st b l (prev inf) (save inf) →
  ∃ r inf' st' l',
    returns (λ fuel, find_kernel fuel key b inf) st ((r, inf'), st') ∧
    map_wf hash Buckets None st' ∧ stable st st' ∧
    bucket_list st' b l' ∧ l' `sublist_of` l ∧
    (∀ a, a ∈ l → a ∉ l' → node_marked (heap st) a = true ∧ a ∈ retired st') ∧
    (∀ b' l2, b' ≠ b → bucket_list st' b' l2 ↔ bucket_list st b' l2).
Proof.
  intros Hwf Hl Hstart.
  destruct (find_kernel_spec key b st l inf Hl Hstart) as ([[r inf'] st'] & Hret & Hrtc & _).
  simpl in Hrtc.
  assert (Hwf0 : map_wf hash Buckets None (log_call b key st)) by (by destruct Hwf).
  destruct (rtc_help_wf hash Buckets None b _ st' Hwf0 Hrtc) as (Hwf' & Hothers & Hb).
  destruct (Hb l Hl) as (l' & Hl' & Hsub & Hkeep).
  exists r, inf', st', l'. split_and!; try done.
  - destruct (returns_at _ _ _ Hret) as [fuel Hf].
    exact (pres_find_kernel fuel key b inf _ _ _ Hf).
  - intros a Ha Hna. split.
    + destruct (node_marked (heap st) a) eqn:Hm; [done|]. exfalso. by apply Hna, Hkeep.
    + by eapply (help_retires hash Buckets None b (log_call b key st) st').
Qed.

(** X15: no operation invalidates an iterator or a reference: an iterator
    that a program holds and that can be dereferenced can still be
    dereferenced after any further operations, and reads the same
    pair. *)
Theorem X15_references_stay_valid st its st' its' it kv :
  0 < Buckets → reachable hash Buckets st its →
  iterator_read it st = Some (kv, st) →
  run hash Buckets any_op st its st' its' →
  iterator_read it st' = Some (kv, st').
Proof.
  intros Hpos Hreach Hread Hrun.
  destruct (reachable_inv hash Buckets st its Hpos Hreach) as (Hinv & Hits).
  destruct (iterator_read_inv _ _ _ _ Hread) as (_ & c & nd & Hget & Hnd & Hv).
  destruct (run_account hash Buckets _ st its st' its' Hrun Hinv Hits) as (_ & Hkept & _).
  destruct (Hkept c nd Hnd) as (nd' & Hnd' & Hv' & _); [done|].
  rewrite <- Hv, <- Hv'. by apply (iterator_read_node _ _ c).
Qed.

(** X16: a successful insertion followed by [erase] of the inserted key
    leaves the map with the nodes in its lists and the keys it had
    before the insertion; the node of the insertion is retired. *)
Theorem X16_insert_then_erase st op kv :
  map_inv hash Buckets st → op_value op = Some kv → ¬ has_key st (fst kv) →
  ∃ res a st1 st2,
    returns (λ fuel, run_op hash Buckets fuel op) st (res, st1) ∧
    returns (λ fuel, erase hash Buckets fuel (fst kv)) st1 (true, st2) ∧
    map_inv hash Buckets st2 ∧
    (∀ x, live st2 x ↔ live st x) ∧
    (∀ k, has_key st2 k ↔ has_key st k) ∧
    heap st !! a = None ∧ retired st2 = retired st ++ [a].
Proof.
  intros Hinv Hval Habs.
  destruct (insert_absent_spec hash Buckets st op kv Hinv Hval Habs)
    as (res & a & st1 & Hret & Hflag & Hinv1 & Hi & Hcur).
  pose proof (inserts_has_key st a kv st1 Hi) as Hk1.
  destruct Hi as ((Hfresh & (nd & Hnd & Hv) & _) & _ & Hlive1 & Hretd1 & _).
  assert (Hla : live st1 a) by (apply Hlive1; by right).
  assert (Hka : key_at (heap st1) a = fst kv).
  { unfold key_at. by rewrite Hnd, Hv. }
  destruct (erase_retires hash Buckets st1 (fst kv) Hinv1)
    as (c & st2 & Hret2 & Hlc & Hkc & Hretd2 & Hinv2 & Hlive2 & Hk2 & _).
  { by exists a. }
  assert (c = a) as ->.
  { eapply live_key_unique; [exact (inv_wf _ _ _ Hinv1)|done|done|congruence]. }
  exists res, a, st1, st2. split_and!; try done.
  - intros x. rewrite Hlive2, Hlive1. split; [by intros [[?|?] ?]|].
    intros Hx. split; [by left|]. intros ->.
    destruct (live_lookup st a Hx) as [? ?]. congruence.
  - intros k. rewrite Hk2, Hk1. split; [by intros [[?|?] ?]|].
    intros Hx. split; [by left|]. by intros ->.
  - by rewrite Hretd2, Hretd1.
Qed.

(** X17: an operation on a key ([contains], [find], the insertions,
    [erase(key)]) changes the presence of no other key. *)
Theorem X17_other_keys st its op k res st' k' :
  0 < Buckets → reachable hash Buckets st its →
  op_key op = Some k →
  returns (λ fuel, run_op hash Buckets fuel op) st (res, st') →
  k' ≠ k → has_key st' k' ↔ has_key st k'.
Proof.
  intros Hpos Hreach Hkey Hret Hne.
  destruct (reachable_inv hash Buckets st its Hpos Hreach) as (Hinv & Hits).
  pose proof (op_change_spec hash Buckets st its op res st' Hinv Hits
                (op_key_ready its op _ Hkey) Hret) as Hch.
  assert (Hun : unchanged st st' → has_key st' k' ↔ has_key st k').
  { intros (Hb & Hh & _). split; apply has_key_ext; done. }
  assert (Hin : ∀ a kv, op_value op = Some kv → inserts st a kv st' →
                        has_key st' k' ↔ has_key st k').
  { intros a kv Hval Hi. rewrite (inserts_has_key st a kv st' Hi).
    destruct (op_value_key op kv Hval) as [_ Hk]. rewrite Hkey in Hk.
    injection Hk as ->. split; [by intros [?|?]|by left]. }
  destruct op; simpl in Hkey; try done; simpl in Hch; try (by apply Hun).
  1-4: destruct (result_flag res); [|by apply Hun];
       destruct Hch as (a & kv & Hval & Hi & _); by apply (Hin a kv).
  destruct Hch as (r & _ & Hch). destruct r; [|by apply Hun].
  destruct Hch as (c & Hkc & He).
  rewrite (erases_has_key hash Buckets None st c st' (inv_wf _ _ _ Hinv) He).
  injection Hkey as <-. rewrite Hkc. split; [by intros [? _]|done].
Qed.

(** X18: in every store that a sequence of operations produces, a node of
    the list of bucket [b] has a key whose hash modulo [Buckets] is [b],
    is unmarked, and is in the list of no other bucket; and the keys of
    a list increase strictly. *)
Theorem X18_bucket_of_key st its b l a :
  0 < Buckets → reachable hash Buckets st its →
  bucket_list st b l → a ∈ l →
  b < Buckets ∧ hash (key_at (heap st) a) mod Buckets = b ∧
  node_marked (heap st) a = false ∧ sorted_keys (heap st) l ∧
  ∀ b' l', bucket_list st b' l' → a ∈ l' → b' = b.
Proof.
  intros Hpos Hreach Hl Ha.
  destruct (reachable_inv hash Buckets st its Hpos Hreach) as (Hinv & _).
  pose proof (inv_wf _ _ _ Hinv) as Hwf. split_and!.
  - rewrite <- (wf_length _ _ _ _ Hwf). by eapply bucket_list_lt.
  - by eapply wf_hash.
  - by eapply inv_quiet.
  - by eapply wf_sorted.
  - intros b' l' Hl' Ha'. by eapply (wf_disjoint hash Buckets None st b' b l' l a).
Qed.

(** X19: an iterator that an operation has handed out can be dereferenced
    exactly when it differs from [end()]: if [it != end()] then [*it]
    reads a pair, also when the node has been erased meanwhile, and if
    [it == end()] then [*it] is undefined. *)
Theorem X19_dereference_unless_end st its it :
  0 < Buckets → reachable hash Buckets st its → it ∈ its →
  (iterator_neq it (iterator_end Buckets) = true →
     ∃ kv, iterator_read it st = Some (kv, st)) ∧
  (iterator_neq it (iterator_end Buckets) = false →
     iterator_read it st = None).
Proof.
  intros Hpos Hreach Hit.
  destruct (reachable_inv hash Buckets st its Hpos Hreach) as (_ & Hits).
  unfold iterator_neq, iterator_eq. simpl.
  destruct (Hits it Hit) as [(c & Hcur & [nd Hnd] & _)|[Hnull _]].
  - rewrite Hcur. simpl. split; [|done].
    intros _. exists (value nd). apply (iterator_read_node _ _ c); [by rewrite Hcur|done].
  - rewrite Hnull. split; [done|].
    intros _. by apply iterator_read_end.
Qed.

End Iteration.

(** ** The concrete map, continued *)

Lemma example_empty_inv : map_inv example_hash 4 example_empty.
Proof. apply empty_map_inv. lia. Qed.

Lemma example_empty_no_key k : ¬ has_key example_empty k.
Proof.
  intros (a & (b & l & Hl & Ha) & _).
  apply (null_bucket_list 4 example_empty b l eq_refl) in Hl as [_ ->].
  by apply elem_of_nil in Ha.
Qed.

Lemma example_live : live example_map 1%positive.
Proof.
  exists 1, [1%positive]. split; [exact example_bucket_list|].
  by apply list_elem_of_singleton.
Qed.

Lemma example_iter_valid : valid_iter example_hash 4 example_map example_iter.
Proof.
  apply iter_ok_valid; [|done].
  apply (reachable_inv example_hash 4 example_map [example_iter]);
    [lia|exact example_reachable|by apply list_elem_of_singleton].
Qed.

Lemma example_erase_returns :
  returns (λ fuel, run_op example_hash 4 fuel (OpEraseKey 5%Z)) example_map
    (RBool true, example_erased).
Proof.
  exists 3. intros fuel Hfuel.
  do 3 (destruct fuel as [|fuel]; [lia|]). vm_compute. reflexivity.
Qed.

Lemma example_erased_reachable : reachable example_hash 4 example_erased [example_iter].
Proof.
  exists []. eapply (run_step _ _ _ _ _ (OpEmplaceOrGet (5%Z, 7))).
  - exact I.
  - exact I.
  - exact example_op_returns.
  - eapply (run_step _ _ _ _ _ (OpEraseKey 5%Z)).
    + exact I.
    + exact I.
    + exact example_erase_returns.
    + apply run_done.
Qed.

Lemma example_erased_inv : map_inv example_hash 4 example_erased.
Proof.
  apply (reachable_inv example_hash 4 example_erased [example_iter]); [lia|].
  exact example_erased_reachable.
Qed.

Lemma example_erased_iter_valid : valid_iter example_hash 4 example_erased example_iter.
Proof.
  apply iter_ok_valid; [|done].
  apply (reachable_inv example_hash 4 example_erased [example_iter]);
    [lia|exact example_erased_reachable|by apply list_elem_of_singleton].
Qed.

Lemma example_erased_dead : ¬ live example_erased 1%positive.
Proof.
  intros (b & l & Hl & Ha).
  apply (null_bucket_list 4 example_erased b l eq_refl) in Hl as [_ ->].
  by apply elem_of_nil in Ha.
Qed.

(** ** Instances of the further theorems *)

Lemma X1_contains_witness :
  ∃ st', returns (λ fuel, contains example_hash 4 fuel 5%Z) example_map (true, st').
Proof.
  destruct (X1_contains example_hash 4 example_map 5%Z example_inv)
    as (r & st' & Hret & Hr & _).
  destruct Hr as [_ Hr]. rewrite (Hr example_has_key) in Hret.
  exists st'. exact Hret.
Defined.

Lemma X2_find_witness :
  ∃ it st',
    returns (λ fuel, find example_hash 4 fuel 5%Z) example_map (it, st') ∧
    bucket it = 1 ∧ ∃ kv, iterator_read it st' = Some (kv, st') ∧ fst kv = 5%Z.
Proof.
  destruct (X2_find example_hash 4 example_map 5%Z example_inv)
    as (it & st' & Hret & _ & _ & Hpresent).
  destruct (Hpresent example_has_key) as (c & nd & Hb & _ & _ & _ & Hk & Hread).
  exists it, st'. split; [exact Hret|]. split; [exact Hb|].
  exists (value nd). split; [exact Hread|exact Hk].
Defined.

Lemma X3_insert_present_witness :
  ∃ res st',
    returns (λ fuel, run_op example_hash 4 fuel (OpEmplace (5%Z, 9))) example_map
      (res, st') ∧
    result_flag res = false ∧ heap st' = heap example_map.
Proof.
  destruct (X3_insert_present example_hash 4 example_map (OpEmplace (5%Z, 9)) 5%Z
              example_inv eq_refl eq_refl example_has_key)
    as (res & st' & Hret & Hflag & (_ & Hheap & _) & _).
  exists res, st'. split; [exact Hret|]. split; [exact Hflag|exact Hheap].
Defined.

Lemma X4_insert_absent_witness :
  ∃ res a st',
    returns (λ fuel, run_op example_hash 4 fuel (OpGetOrEmplace 5%Z 7)) example_empty
      (res, st') ∧
    result_flag res = true ∧ inserts example_empty a (5%Z, 7) st' ∧
    has_key st' 5%Z.
Proof.
  destruct (X4_insert_absent example_hash 4 example_empty (OpGetOrEmplace 5%Z 7)
              (5%Z, 7) example_empty_inv eq_refl (example_empty_no_key 5%Z))
    as (res & a & st' & Hret & Hflag & _ & Hi & Hk & _).
  exists res, a, st'. split; [exact Hret|]. split; [exact Hflag|].
  split; [exact Hi|]. apply Hk. right. reflexivity.
Defined.

Lemma X5_lookup_after_insert_witness :
  ∃ it st3,
    returns (λ fuel, find example_hash 4 fuel 5%Z) example_map (it, st3) ∧
    iterator_read it st3 = Some ((5%Z, 7), st3).
Proof.
  apply (X5_lookup_after_insert example_hash 4 example_empty []
           (OpEmplaceOrGet (5%Z, 7)) (5%Z, 7) (RPair example_iter true)
           example_map example_map [example_iter]).
  - lia.
  - exact example_empty_reachable.
  - reflexivity.
  - exact example_op_returns.
  - reflexivity.
  - apply run_done.
Defined.

Lemma X6_erase_retires_witness :
  ∃ c st',
    returns (λ fuel, erase example_hash 4 fuel 5%Z) example_map (true, st') ∧
    retired st' = retired example_map ++ [c] ∧ ¬ has_key st' 5%Z.
Proof.
  destruct (X6_erase_retires example_hash 4 example_map 5%Z example_inv example_has_key)
    as (c & st' & Hret & _ & (_ & _ & _ & Hretd & _) & _ & Hk).
  exists c, st'. split; [exact Hret|]. split; [exact Hretd|].
  intros H. apply Hk in H as [_ H]. by apply H.
Defined.

Lemma X7_erase_at_iterator_witness :
  ∃ it' st',
    returns (λ fuel, erase_pos 4 fuel example_iter) example_map (it', st') ∧
    retired st' = retired example_map ++ [1%positive] ∧
    iter_ok example_hash 4 st' it'.
Proof.
  destruct (X7_erase_at_iterator example_hash 4 example_map example_iter 1%positive
              example_inv example_iter_valid eq_refl example_live)
    as (pre & post & it' & r & st' & _ & Hret & _ & (_ & _ & _ & Hretd & _) & _ & _ & _ & _ & Hok).
  exists it', st'. split; [exact Hret|]. split; [exact Hretd|exact Hok].
Defined.

Lemma X8_erase_at_stale_iterator_witness :
  ∃ it' st',
    returns (λ fuel, erase_pos 4 fuel example_iter) example_erased (it', st') ∧
    retired st' = [1%positive].
Proof.
  destruct (X8_erase_at_stale_iterator example_hash 4 example_erased example_iter
              1%positive example_erased_inv example_erased_iter_valid eq_refl
              example_erased_dead)
    as (it' & st' & Hret & (_ & _ & Hretd) & _).
  exists it', st'. split; [exact Hret|exact Hretd].
Defined.

Lemma X9_begin_first_witness :
  ∃ it r, begin 4 example_map = Some (it, example_map) ∧
          first_from 4 example_map 0 r ∧ at_node it r.
Proof.
  destruct (X9_begin_first example_hash 4 example_map example_inv)
    as (it & r & Hb & Hf & Ha & _).
  exists it, r. split; [exact Hb|]. split; [exact Hf|exact Ha].
Defined.

Lemma X10_increment_next_witness :
  ∃ it', (∀ fuel, iterator_incr 4 fuel example_iter example_map = Some (it', example_map)) ∧
         get (cur (info it')) = None.
Proof.
  destruct (X10_increment_next example_hash 4 example_map example_iter 1%positive [] []
              example_inv example_iter_valid eq_refl example_bucket_list)
    as (it' & r & Hincr & Hf & Ha & _).
  exists it'. split; [exact Hincr|].
  destruct r as [[b a]|]; [|exact Ha].
  exfalso. destruct Hf as (Hle & Hlt & (l & Hl) & _). simpl in Hle.
  apply (bucket_list_lt example_map b) in Hl as Hlt'.
  destruct Hl as (hd & Hhd & _ & Hseg).
  destruct b as [|[|[|[|b]]]]; simpl in Hhd; try lia;
    injection Hhd as <-; by destruct Hseg.
Defined.

Lemma X11_traversal_witness :
  ∃ ls, returns (λ fuel, traverse_all 4 fuel) example_map (concat ls, example_map) ∧
        ∀ x, x ∈ concat ls ↔ live example_map x.
Proof.
  destruct (X11_traversal example_hash 4 example_map example_inv)
    as (ls & _ & Hret & _ & Hlive).
  exists ls. split; [exact Hret|exact Hlive].
Defined.

Lemma X12_destructor_witness :
  ∃ st', returns (λ fuel, destructor 4 fuel) example_map (tt, st') ∧
         heap st' !! 1%positive = None.
Proof.
  destruct (X12_destructor example_hash 4 example_map [example_iter])
    as (st' & Hret & _ & _ & Hfreed & _); [lia|exact example_reachable|].
  exists st'. split; [exact Hret|]. apply Hfreed. exact example_live.
Defined.

Lemma X13_nodes_accounted_witness : accounted example_erased.
Proof.
  apply (X13_nodes_accounted example_hash 4 example_erased [example_iter]);
    [lia|exact example_erased_reachable].
Defined.

Lemma X14_kernel_helps_witness :
  ∃ r inf' st' l',
    returns (λ fuel, find_kernel fuel 7%Z 1 (find_info_at (BucketHead 1)))
      example_map ((r, inf'), st') ∧
    stable example_map st' ∧ bucket_list st' 1 l' ∧ l' `sublist_of` [1%positive].
Proof.
  destruct (X14_kernel_helps example_hash 4 example_map 1 7%Z
              (find_info_at (BucketHead 1)) [1%positive])
    as (r & inf' & st' & l' & Hret & _ & Hst & Hl' & Hsub & _).
  - apply inv_wf, example_inv.
  - exact example_bucket_list.
  - left. split; reflexivity.
  - exists r, inf', st', l'. split; [exact Hret|]. split; [exact Hst|].
    split; [exact Hl'|exact Hsub].
Defined.

Lemma X15_references_stay_valid_witness :
  iterator_read example_iter example_erased = Some ((5%Z, 7), example_erased).
Proof.
  apply (X15_references_stay_valid example_hash 4 example_map [example_iter]
           example_erased [example_iter] example_iter (5%Z, 7)).
  - lia.
  - exact example_reachable.
  - reflexivity.
  - eapply (run_step _ _ _ _ _ (OpEraseKey 5%Z)).
    + exact I.
    + exact I.
    + exact example_erase_returns.
    + apply run_done.
Defined.

Lemma X16_insert_then_erase_witness :
  ∃ res st1 st2,
    returns (λ fuel, run_op example_hash 4 fuel (OpEmplaceOrGet (5%Z, 7)))
      example_empty (res, st1) ∧
    returns (λ fuel, erase example_hash 4 fuel 5%Z) st1 (true, st2) ∧
    ∀ k, ¬ has_key st2 k.
Proof.
  destruct (X16_insert_then_erase example_hash 4 example_empty
              (OpEmplaceOrGet (5%Z, 7)) (5%Z, 7) example_empty_inv eq_refl
              (example_empty_no_key 5%Z))
    as (res & a & st1 & st2 & Hret & Hret2 & _ & _ & Hk & _).
  exists res, st1, st2. split; [exact Hret|]. split; [exact Hret2|].
  intros k H. apply Hk in H. by apply (example_empty_no_key k).
Defined.

Lemma X17_other_keys_witness : ¬ has_key example_map 6%Z.
Proof.
  intros H.
  apply (X17_other_keys example_hash 4 example_empty [] (OpEmplaceOrGet (5%Z, 7))
           5%Z (RPair example_iter true) example_map 6%Z) in H.
  - by apply (example_empty_no_key 6%Z).
  - lia.
  - exact example_empty_reachable.
  - reflexivity.
  - exact example_op_returns.
  - done.
Defined.

Lemma X18_bucket_of_key_witness :
  example_hash (key_at (heap example_map) 1%positive) mod 4 = 1 ∧
  node_marked (heap example_map) 1%positive = false.
Proof.
  destruct (X18_bucket_of_key example_hash 4 example_map [example_iter] 1
              [1%positive] 1%positive)
    as (_ & Hh & Hm & _).
  - lia.
  - exact example_reachable.
  - exact example_bucket_list.
  - by apply list_elem_of_singleton.
  - split; [exact Hh|exact Hm].
Defined.

Lemma X19_dereference_unless_end_witness :
  ∃ kv, iterator_read example_iter example_erased = Some (kv, example_erased).
Proof.
  destruct (X19_dereference_unless_end example_hash 4 example_erased [example_iter]
              example_iter) as [Hne _].
  - lia.
  - exact example_erased_reachable.
  - by apply list_elem_of_singleton.
  - apply Hne. reflexivity.
Defined.
